(** * STIMP putting simulator: terrain, ball physics and aim-zone geometry

    A shallow embedding of [web/js/terrain.js] and of the physics and
    geometry functions of [web/js/main.js].

    Numbers.  JavaScript numbers are IEEE doubles; they are idealised here
    as real numbers ([R]): rounding, infinities and NaN are not modelled.
    The 32-bit integer arithmetic of the seeded generator is modelled
    exactly, on [Z] with its wrap-around written out, and so is the
    rounding of a store into a [Float32Array].  Where the rounding of
    doubles decides, the terrain builder and the hull are given a second
    time on binary64 numbers. *)

From Stdlib Require Import Reals Lra Lia ZArith List Bool Psatz.
From Stdlib Require Import Sorting.Sorted Sorting.Permutation.
From Stdlib Require String.
From Stdlib Require Floats.PrimFloat Floats.FloatOps Floats.SpecFloat.
Import ListNotations.

Open Scope R_scope.

(** ** JavaScript number primitives *)

Definition Rltb (a b : R) : bool := if Rlt_dec a b then true else false.
Definition Rleb (a b : R) : bool := if Rle_dec a b then true else false.
Definition Rgtb (a b : R) : bool := Rltb b a.
Definition Rgeb (a b : R) : bool := Rleb b a.

(** [Math.hypot(a, b)] *)
Definition hypot (a b : R) : R := sqrt (a * a + b * b).

(** [Math.floor], as an integer *)
Definition floor (x : R) : Z := Int_part x.

(** The integer nearest to [r], the even one of two that are equally
    near. *)
Definition roundHalfEven (r : R) : Z :=
  let f := floor r in
  let d := r - IZR f in
  if Rltb d (1 / 2) then f
  else if Rltb (1 / 2) d then (f + 1)%Z
  else if Z.even f then f else (f + 1)%Z.

(** The binary32 number nearest to [x], as a store into a
    [Float32Array] rounds it: 24 significant bits, exponents from -126;
    the overflow to an infinity is not modelled. *)
Definition fround (x : R) : R :=
  if Req_dec_T x 0 then 0
  else
    let e := Z.max (floor (ln (Rabs x) / ln 2)) (-126) in
    IZR (roundHalfEven (x / powerRZ 2 (e - 23))) * powerRZ 2 (e - 23).

(** A triple of numbers: a three-element array, or an object with fields
    [x], [y], [z]. *)
Record Vec3 : Type := mkVec3 { v_x : R; v_y : R; v_z : R }.

(** ** terrain.js *)

Module Terrain.

Definition TR_GRID_SIZE : nat := 50.
Definition TR_WORLD_SIZE : R := 12.0.
Definition TR_BASE_AMP : R := 0.5.
Definition TR_TARGET_AMP : R := 0.1.
Definition TR_SMOOTH_PASSES : nat := 8.
Definition HEIGHT_SCALE : R := 0.01.
Definition TR_MIN_SPEED : R := 0.8.

(** *** 32-bit integer operations *)

(** [ToInt32]: wrap into [-2^31, 2^31). *)
Definition int32 (z : Z) : Z := ((z + 2 ^ 31) mod 2 ^ 32 - 2 ^ 31)%Z.

(** [ToUint32]: wrap into [0, 2^32). *)
Definition uint32 (z : Z) : Z := (z mod 2 ^ 32)%Z.

(** [Math.imul(a, b)] *)
Definition imul (a b : Z) : Z := int32 (int32 a * int32 b).

(** [a ^ b], [a | b] and [a >>> n] on JavaScript numbers holding integers *)
Definition xor32 (a b : Z) : Z := int32 (Z.lxor (int32 a) (int32 b)).
Definition or32 (a b : Z) : Z := int32 (Z.lor (int32 a) (int32 b)).
Definition ushr (a n : Z) : Z := Z.shiftr (uint32 a) n.

(** *** Seeded generator *)

(** One call of the closure returned by [mulberry32], up to the final
    division: the unsigned 32-bit numerator and the new content of the
    captured variable [s]. *)
Definition mulberry32_bits (s : Z) : Z * Z :=
  let s := int32 (s + 0x6D2B79F5) in
  let t := imul (xor32 s (ushr s 15)) (or32 1 s) in
  let t := xor32 (t + imul (xor32 t (ushr t 7)) (or32 61 t)) t in
  (ushr (xor32 t (ushr t 14)) 0, s).

(** The value returned and the new [s]. *)
Definition mulberry32_next (s : Z) : R * Z :=
  let (u, s') := mulberry32_bits s in
  (IZR u / 4294967296, s').

(** The state behind [fn] in [makeRng]: the captured [s] of [mulberry32]
    when a seed is given, otherwise the position in the ambient
    [Math.random] source, an input of the model. *)
Inductive Rng : Type :=
| Seeded (s : Z)
| Ambient (src : nat -> R) (k : nat).

Definition mulberry32 (seed : Z) : Rng := Seeded (int32 seed).

Definition makeRng (seed : option Z) (src : nat -> R) : Rng :=
  match seed with
  | Some sd => mulberry32 sd
  | None => Ambient src 0
  end.

Definition fn (rng : Rng) : R * Rng :=
  match rng with
  | Seeded s => let (v, s') := mulberry32_next s in (v, Seeded s')
  | Ambient src k => (src k, Ambient src (S k))
  end.

Definition uniform (lo hi : R) (rng : Rng) : R * Rng :=
  let (v, rng') := fn rng in (lo + v * (hi - lo), rng').

(** *** Grids *)

Definition Grid : Type := list (list R).

(** [grid[y][x]].  A read outside the array, [undefined] in JavaScript, is
    given the value 0; the functions below read the square grids of this
    module within their bounds only. *)
Definition cell (grid : Grid) (y x : Z) : R :=
  nth (Z.to_nat x) (nth (Z.to_nat y) grid []) 0.

Fixpoint makeRow (n : nat) (amplitude : R) (rng : Rng) : list R * Rng :=
  match n with
  | O => ([], rng)
  | S n' =>
      let (v, rng1) := uniform (- amplitude) amplitude rng in
      let (row, rng2) := makeRow n' amplitude rng1 in
      (v :: row, rng2)
  end.

Fixpoint makeRows (n size : nat) (amplitude : R) (rng : Rng) : Grid * Rng :=
  match n with
  | O => ([], rng)
  | S n' =>
      let (row, rng1) := makeRow size amplitude rng in
      let (rows, rng2) := makeRows n' size amplitude rng1 in
      (row :: rows, rng2)
  end.

Definition makeNoiseGrid (size : nat) (amplitude : R) (rng : Rng) : Grid * Rng :=
  makeRows size size amplitude rng.

(** The in-bounds test of the smoothing loops. *)
Definition inside (size : Z) (yy xx : Z) : bool :=
  ((0 <=? yy) && (yy <? size) && (0 <=? xx) && (xx <? size))%Z.

Definition offsets : list Z := [-1; 0; 1]%Z.

(** The body of the two inner loops: [acc] is [(total, count)]. *)
Definition smoothAdd (cur : Grid) (size yy xx : Z) (acc : R * R) : R * R :=
  if inside size yy xx then (fst acc + cell cur yy xx, snd acc + 1) else acc.

(** [total / count] over the 3x3 neighbourhood of [(y, x)]. *)
Definition smoothCell (cur : Grid) (size : Z) (y x : Z) : R :=
  let acc :=
    fold_left (fun acc dy =>
      fold_left (fun acc dx => smoothAdd cur size (y + dy) (x + dx) acc)
                offsets acc)
      offsets (0, 0) in
  fst acc / snd acc.

(** One pass: the array [out] built from [cur]. *)
Definition smoothPass (size : nat) (cur : Grid) : Grid :=
  map (fun y => map (fun x => smoothCell cur (Z.of_nat size) (Z.of_nat y) (Z.of_nat x))
                    (seq 0 size))
      (seq 0 size).

(** The loop over the passes; [size] is fixed before the loop. *)
Fixpoint smoothLoop (size passes : nat) (cur : Grid) : Grid :=
  match passes with
  | O => cur
  | S p => smoothLoop size p (smoothPass size cur)
  end.

Definition smoothGrid (grid : Grid) (passes : nat) : Grid :=
  smoothLoop (length grid) passes grid.

Definition maxAbsOf (grid : Grid) : R :=
  fold_left (fun m row => fold_left (fun m v => Rmax m (Rabs v)) row m) grid 0.

Definition normalizeGrid (grid : Grid) (targetAmp : R) : Grid :=
  let maxAbs := maxAbsOf grid in
  if Rltb maxAbs 1e-9 then grid
  else
    let scale := targetAmp / maxAbs in
    map (fun row => map (fun v => v * scale) row) grid.

Definition bilinearSample (grid : Grid) (x z worldSize : R) : R :=
  let size := Z.of_nat (length grid) in
  let half := worldSize / 2.0 in
  let u := Rmin (Rmax ((x + half) / worldSize) 0) 1 in
  let v := Rmin (Rmax ((z + half) / worldSize) 0) 1 in
  let fx := u * IZR (size - 1) in
  let fy := v * IZR (size - 1) in
  let x0 := floor fx in
  let y0 := floor fy in
  let x1 := Z.min (x0 + 1) (size - 1) in
  let y1 := Z.min (y0 + 1) (size - 1) in
  let tx := fx - IZR x0 in
  let ty := fy - IZR y0 in
  let v00 := cell grid y0 x0 in
  let v10 := cell grid y0 x1 in
  let v01 := cell grid y1 x0 in
  let v11 := cell grid y1 x1 in
  (v00 * (1 - tx) + v10 * tx) * (1 - ty) + (v01 * (1 - tx) + v11 * tx) * ty.

(** *** Public terrain state *)

(** The module-level variables; [None] is [null]. *)
Record TerrainState : Type := mkTerrain {
  TRUE_ROLL_AX : option Grid;
  TRUE_ROLL_AY : option Grid;
  HEIGHT_GRID : option Grid;
  TRUE_ROLL_STRENGTH : R
}.

Definition initialTerrain : TerrainState := mkTerrain None None None 1.0.

Definition setTrueRollStrength (s : R) (st : TerrainState) : TerrainState :=
  mkTerrain (TRUE_ROLL_AX st) (TRUE_ROLL_AY st) (HEIGHT_GRID st) s.

Definition getTrueRollStrength (st : TerrainState) : R := TRUE_ROLL_STRENGTH st.

(** The body of [buildTrueRollGrids] after [rng] is made: the three grids
    in the order of the three assignments. *)
Definition buildGrids (rng : Rng) : Grid * Grid * Grid :=
  let (g1, rng1) := makeNoiseGrid TR_GRID_SIZE TR_BASE_AMP rng in
  let ax := normalizeGrid (smoothGrid g1 TR_SMOOTH_PASSES) TR_TARGET_AMP in
  let (g2, rng2) := makeNoiseGrid TR_GRID_SIZE TR_BASE_AMP rng1 in
  let ay := normalizeGrid (smoothGrid g2 TR_SMOOTH_PASSES) TR_TARGET_AMP in
  let (g3, _) := makeNoiseGrid TR_GRID_SIZE TR_BASE_AMP rng2 in
  let h := normalizeGrid (smoothGrid g3 (TR_SMOOTH_PASSES + 2)) TR_TARGET_AMP in
  (ax, ay, h).

Definition buildTrueRollGrids (seed : option Z) (src : nat -> R)
    (st : TerrainState) : TerrainState :=
  let '(ax, ay, h) := buildGrids (makeRng seed src) in
  mkTerrain (Some ax) (Some ay) (Some h) (TRUE_ROLL_STRENGTH st).

Definition getTerrainHeight (st : TerrainState) (x z : R) : R :=
  match HEIGHT_GRID st with
  | None => 0
  | Some g => bilinearSample g x z TR_WORLD_SIZE * HEIGHT_SCALE
  end.

Definition getTerrainNormal (st : TerrainState) (x z : R) : Vec3 :=
  let eps := 0.05 in
  let hpx := getTerrainHeight st (x + eps) z in
  let hnx := getTerrainHeight st (x - eps) z in
  let hpz := getTerrainHeight st x (z + eps) in
  let hnz := getTerrainHeight st x (z - eps) in
  let dx := (hpx - hnx) / (2 * eps) in
  let dz := (hpz - hnz) / (2 * eps) in
  let nx := - dx in
  let ny := 1.0 in
  let nz := - dz in
  let len := sqrt (nx * nx + ny * ny + nz * nz) in
  mkVec3 (nx / len) (ny / len) (nz / len).

(** The local [scale] of [trueRollAccel] before it is multiplied by
    [TRUE_ROLL_STRENGTH]. *)
Definition trueRollScale (speed : R) : R :=
  if Rgeb speed 1.0 then 0.1
  else if Rleb speed TR_MIN_SPEED then 2.0
  else 2.0 - (speed - TR_MIN_SPEED) / (2.0 - TR_MIN_SPEED).

(** [TRUE_ROLL_AY] is written only together with [TRUE_ROLL_AX]; were it
    [null] under a built [TRUE_ROLL_AX], sampling would throw: that case is
    given the empty grid here. *)
Definition trueRollAccel (st : TerrainState) (x z vx vz : R) : R * R :=
  if Rleb (TRUE_ROLL_STRENGTH st) 0 then (0, 0)
  else
    match TRUE_ROLL_AX st with
    | None => (0, 0)
    | Some gx =>
        let speed := hypot vx vz in
        let scale := trueRollScale speed * TRUE_ROLL_STRENGTH st in
        let gy := match TRUE_ROLL_AY st with Some g => g | None => [] end in
        (bilinearSample gx x z TR_WORLD_SIZE * scale,
         bilinearSample gy x z TR_WORLD_SIZE * scale)
    end.

(** *** Vocabulary for the grids *)

(** [rows] rows of [cols] cells each. *)
Definition square_rows (rows cols : nat) (g : Grid) : Prop :=
  length g = rows /\ Forall (fun row => length row = cols) g.

(** No cell exceeds [bound] in absolute value. *)
Definition cells_within (bound : R) (g : Grid) : Prop :=
  forall row v, In row g -> In v row -> Rabs v <= bound.

(** The first [n] values returned by successive calls of
    [rng.uniform(-amplitude, amplitude)]. *)
Definition samples (n : nat) (amplitude : R) (rng : Rng) : list R :=
  fst (makeRow n amplitude rng).

(** A list of samples cut into [rows] rows of [cols] cells. *)
Fixpoint reshape {A : Type} (rows cols : nat) (l : list A) : list (list A) :=
  match rows with
  | O => []
  | S r => firstn cols l :: reshape r cols (skipn cols l)
  end.

(** What [buildTrueRollGrids] applies to each noise grid. *)
Definition finishGrid (passes : nat) (g : Grid) : Grid :=
  normalizeGrid (smoothGrid g passes) TR_TARGET_AMP.

(** The number of samples of one grid. *)
Definition GRID_CELLS : nat := TR_GRID_SIZE * TR_GRID_SIZE.

(** *** Integer image of the seeded build

    The samples of a seeded build are rationals over [2^32], and a
    smoothing pass multiplies the denominator by a divisor of 36: the
    grids before normalisation are followed here on their integer
    numerators. *)

Definition ZGrid : Type := list (list Z).

Definition cellZ (grid : ZGrid) (y x : Z) : Z :=
  nth (Z.to_nat x) (nth (Z.to_nat y) grid []) 0%Z.

(** The numerators of the first [n] values of the closure whose captured
    variable holds [s]. *)
Fixpoint draws (n : nat) (s : Z) : list Z :=
  match n with
  | O => []
  | S n' => let (u, s') := mulberry32_bits s in u :: draws n' s'
  end.

(** The grid of reals that [grid] stands for, over the denominator [D]. *)
Definition overDenominator (D : Z) (grid : ZGrid) : Grid :=
  map (map (fun z => IZR z / IZR D)) grid.

Definition smoothAddZ (cur : ZGrid) (size yy xx : Z) (acc : Z * Z) : Z * Z :=
  if inside size yy xx then (fst acc + cellZ cur yy xx, snd acc + 1)%Z else acc.

Definition smoothSumZ (cur : ZGrid) (size y x : Z) : Z * Z :=
  fold_left (fun acc dy =>
    fold_left (fun acc dx => smoothAddZ cur size (y + dy) (x + dx) acc)
              offsets acc)
    offsets (0, 0)%Z.

(** The number of cells of the neighbourhood of [(y, x)] inside the grid. *)
Definition countAt (size y x : Z) : Z := snd (smoothSumZ [] size y x).

(** Every such number divides 36. *)
Definition countsDivide (size : nat) : bool :=
  forallb (fun y =>
    forallb (fun x =>
      let c := countAt (Z.of_nat size) (Z.of_nat y) (Z.of_nat x) in
      (0 <? c)%Z && (36 mod c =? 0)%Z) (seq 0 size)) (seq 0 size).

(** One pass over numerators; the denominator is multiplied by 36. *)
Definition smoothCellZ (cur : ZGrid) (size y x : Z) : Z :=
  let acc := smoothSumZ cur size y x in
  (fst acc * (36 / snd acc))%Z.

Definition smoothPassZ (size : nat) (cur : ZGrid) : ZGrid :=
  map (fun y => map (fun x => smoothCellZ cur (Z.of_nat size) (Z.of_nat y) (Z.of_nat x))
                    (seq 0 size))
      (seq 0 size).

Fixpoint smoothLoopZ (size passes : nat) (cur : ZGrid) : ZGrid :=
  match passes with
  | O => cur
  | S p => smoothLoopZ size p (smoothPassZ size cur)
  end.

(** The numerators, over [2^32], of the [k]-th noise grid of the build
    seeded with [seed]. *)
Definition noiseZ (seed : Z) (k : nat) : ZGrid :=
  reshape TR_GRID_SIZE TR_GRID_SIZE
    (firstn GRID_CELLS
       (skipn (k * GRID_CELLS)
          (map (fun u => (u - 2147483648)%Z) (draws (3 * GRID_CELLS) (int32 seed))))).

(** The numerator of the first cell of that grid after [passes] passes. *)
Definition cornerZ (seed : Z) (k passes : nat) : Z :=
  cellZ (smoothLoopZ TR_GRID_SIZE passes (noiseZ seed k)) 0 0.

(** The grid whose [n * n] cells all hold [c]. *)
Definition constGrid (n : nat) (c : R) : Grid := repeat (repeat c n) n.

(** Two [Math.random] sources that return the same values for the first
    [2 * GRID_CELLS] calls. *)
Definition sourceA : nat -> R := fun _ => 0.5.
Definition sourceB : nat -> R :=
  fun k => if (k <? 2 * GRID_CELLS)%nat then 0.5 else 0.75.

(** The terrain whose three grids hold 0 in every cell. *)
Definition flatTerrain : TerrainState :=
  mkTerrain (Some (constGrid TR_GRID_SIZE 0)) (Some (constGrid TR_GRID_SIZE 0))
            (Some (constGrid TR_GRID_SIZE 0)) 1.0.

(** A cell of a grid variable that may be [null]. *)
Definition cellOf (grid : option Grid) (y x : Z) : option R :=
  option_map (fun g => cell g y x) grid.

(** The height grid, when built, is a [TR_GRID_SIZE] square whose cells are
    within the target amplitude. *)
Definition height_grid_ok (st : TerrainState) : Prop :=
  match HEIGHT_GRID st with
  | None => True
  | Some g => square_rows TR_GRID_SIZE TR_GRID_SIZE g /\ cells_within TR_TARGET_AMP g
  end.

(** The two writers of the terrain state. *)
Inductive TerrainOp : Type :=
| Build (seed : option Z) (src : nat -> R)
| SetStrength (s : R).

Definition applyOp (st : TerrainState) (op : TerrainOp) : TerrainState :=
  match op with
  | Build seed src => buildTrueRollGrids seed src st
  | SetStrength s => setTrueRollStrength s st
  end.

Definition runTerrain (ops : list TerrainOp) (st : TerrainState) : TerrainState :=
  fold_left applyOp ops st.

End Terrain.

(** ** main.js: aim-zone geometry *)

Module Geometry.

(** An object [{x, z}]. *)
Record Point : Type := mkPoint { p_x : R; p_z : R }.

(** The comparator [(a, b) => a.x - b.x || a.z - b.z]. *)
Definition comparePoints (a b : Point) : R :=
  let d := p_x a - p_x b in
  if Req_dec_T d 0 then p_z a - p_z b else d.

(** [Array.prototype.sort] is a stable sort; with this comparator, a total
    preorder on the reals, its result is the one of stable insertion. *)
Fixpoint insertPoint (p : Point) (l : list Point) : list Point :=
  match l with
  | [] => [p]
  | q :: l' =>
      if Rleb (comparePoints p q) 0 then p :: q :: l'
      else q :: insertPoint p l'
  end.

Definition sortPoints (points : list Point) : list Point :=
  fold_right insertPoint [] points.

Definition cross (O A B : Point) : R :=
  (p_x A - p_x O) * (p_z B - p_z O) - (p_z A - p_z O) * (p_x B - p_x O).

(** The arrays [lower] and [upper] are kept with their last element first.
    [popWhile] is the inner [while] loop. *)
Fixpoint popWhile (stack : list Point) (p : Point) : list Point :=
  match stack with
  | b :: ((a :: _) as rest) =>
      if Rleb (cross a b p) 0 then popWhile rest p else stack
  | _ => stack
  end.

Definition pushPoint (stack : list Point) (p : Point) : list Point :=
  p :: popWhile stack p.

(** One [for] loop over the points, from the empty array. *)
Definition buildChain (pts : list Point) : list Point :=
  fold_left pushPoint pts [].

Definition convexHull (points : list Point) : list Point :=
  let pts := sortPoints points in
  if (length pts <=? 2)%nat then pts
  else
    let lower := buildChain pts in
    let upper := buildChain (rev pts) in
    rev (tl lower) ++ rev (tl upper).

Record Ellipse : Type := mkEllipse {
  e_cx : R; e_cz : R;
  e_a : R; e_b : R;
  e_ex : R; e_ez : R;
  e_fx : R; e_fz : R
}.

Definition boundingEllipse (hull : list Point) : Ellipse :=
  let n := INR (length hull) in
  let sums := fold_left (fun acc p => (fst acc + p_x p, snd acc + p_z p)) hull (0, 0) in
  let cx := fst sums / n in
  let cz := snd sums / n in
  let cov :=
    fold_left (fun acc p =>
      let '(cxx, cxz, czz) := acc in
      let dx := p_x p - cx in
      let dz := p_z p - cz in
      (cxx + dx * dx, cxz + dx * dz, czz + dz * dz)) hull (0, 0, 0) in
  let '(cxx, cxz, czz) := cov in
  let cxx := cxx / n in
  let cxz := cxz / n in
  let czz := czz / n in
  let avg := (cxx + czz) / 2 in
  let diff := (cxx - czz) / 2 in
  let disc := sqrt (diff * diff + cxz * cxz) in
  let lam1 := avg + disc in
  let '(ex, ez) :=
    if Rgtb (Rabs cxz) 1e-12 then (lam1 - czz, cxz)
    else (if Rgeb cxx czz then 1 else 0, if Rgeb cxx czz then 0 else 1) in
  let elen := hypot ex ez in
  let ex := ex / elen in
  let ez := ez / elen in
  let fx := - ez in
  let fz := ex in
  let maxes :=
    fold_left (fun acc p =>
      let dx := p_x p - cx in
      let dz := p_z p - cz in
      let a := Rabs (dx * ex + dz * ez) in
      let b := Rabs (dx * fx + dz * fz) in
      (if Rgtb a (fst acc) then a else fst acc,
       if Rgtb b (snd acc) then b else snd acc)) hull (0, 0) in
  let maxA := fst maxes * 1.05 in
  let maxB := snd maxes * 1.05 in
  mkEllipse cx cz maxA maxB ex ez fx fz.

(** *** Vocabulary for polygons *)

(** The order of the sort: by [x], then by [z]. *)
Definition lexLt (a b : Point) : Prop :=
  p_x a < p_x b \/ (p_x a = p_x b /\ p_z a < p_z b).

Definition lexLe (a b : Point) : Prop :=
  p_x a < p_x b \/ (p_x a = p_x b /\ p_z a <= p_z b).

(** The order in which one [for] loop of [convexHull] visits the points:
    ascending for the lower chain, descending for the upper one. *)
Definition before (ascending : bool) (a b : Point) : Prop :=
  if ascending then lexLt a b else lexLt b a.

(** The edges and the consecutive triples of an open path of vertices. *)
Fixpoint pathEdges (l : list Point) : list (Point * Point) :=
  match l with
  | a :: ((b :: _) as t) => (a, b) :: pathEdges t
  | _ => []
  end.

Fixpoint pathTriples (l : list Point) : list (Point * Point * Point) :=
  match l with
  | a :: ((b :: c :: _) as t) => (a, b, c) :: pathTriples t
  | _ => []
  end.

(** The edges and the consecutive triples of the closed polygon [h]. *)
Definition cyclicEdges (h : list Point) : list (Point * Point) :=
  pathEdges (h ++ firstn 1 h).

Definition cyclicTriples (h : list Point) : list (Point * Point * Point) :=
  pathTriples (h ++ firstn 2 h).

Definition dot (O A B : Point) : R :=
  (p_x A - p_x O) * (p_x B - p_x O) + (p_z A - p_z O) * (p_z B - p_z O).

(** [p] lies on the segment from [a] to [b]. *)
Definition onSegment (a b p : Point) : Prop :=
  cross a b p = 0 /\ 0 <= dot a b p /\ 0 <= dot b a p.

(** [p] lies within or on the boundary of the counter-clockwise convex
    polygon [h]: on or to the left of every edge and, when the polygon
    has two vertices only, on its segment. *)
Definition withinPolygon (h : list Point) (p : Point) : Prop :=
  (forall a b, In (a, b) (cyclicEdges h) -> 0 <= cross a b p)
  /\ (forall a b, h = [a; b] -> onSegment a b p).

(** The vertices of [h] are in convex position, in counter-clockwise
    order: they are distinct, every vertex lies within the polygon, and,
    from three vertices on, every three cyclically consecutive vertices
    make a strict left turn. *)
Definition convexPosition (h : list Point) : Prop :=
  NoDup h
  /\ (forall v, In v h -> withinPolygon h v)
  /\ ((3 <= length h)%nat ->
      forall a b c, In (a, b, c) (cyclicTriples h) -> 0 < cross a b c).

(** *** Vocabulary for the chains *)

(** The cross product of two vectors, and the vectors that point forward
    in the order of the sort. *)
Definition vcross (ux uz wx wz : R) : R := ux * wz - uz * wx.
Definition lexPos (ux uz : R) : Prop := 0 < ux \/ (ux = 0 /\ 0 < uz).
Definition lexNonneg (ux uz : R) : Prop := 0 < ux \/ (ux = 0 /\ 0 <= uz).
Definition sgn (ascending : bool) : R := if ascending then 1 else -1.

(** The edges of a stack (last element first), each from the older vertex
    to the newer one. *)
Fixpoint stackEdges (stack : list Point) : list (Point * Point) :=
  match stack with
  | b :: ((a :: _) as rest) => (a, b) :: stackEdges rest
  | _ => []
  end.

(** Every three consecutive vertices of the stack make a strict left
    turn, in the order in which they were pushed. *)
Fixpoint stackTurns (stack : list Point) : Prop :=
  match stack with
  | c :: ((b :: a :: _) as rest) => 0 < cross a b c /\ stackTurns rest
  | _ => True
  end.

(** Each vertex of the stack was visited after the ones below it. *)
Definition stackSorted (ascending : bool) (stack : list Point) : Prop :=
  StronglySorted (fun x y => before ascending y x) stack.

(** The loop invariant of one chain: [visited] are the points seen so
    far. *)
Definition chainInv (ascending : bool) (visited stack : list Point) : Prop :=
  stackSorted ascending stack
  /\ stackTurns stack
  /\ incl stack visited
  /\ (forall p a b, In p visited -> In (a, b) (stackEdges stack) -> 0 <= cross a b p)
  /\ match stack with
     | [] => visited = []
     | top :: _ =>
         In top visited
         /\ (forall p, In p visited -> before ascending p top \/ p = top)
         /\ (forall p, In p visited ->
               before ascending (last stack top) p \/ p = last stack top)
     end.

(** Every three consecutive vertices of a path make a strict left turn. *)
Definition turnsLeft (l : list Point) : Prop :=
  forall a b c, In (a, b, c) (pathTriples l) -> 0 < cross a b c.

(** What the invariant says of a finished chain, read in the order of the
    visit. *)
Definition chainFacts (asc : bool) (pts chain : list Point) : Prop :=
  StronglySorted (before asc) chain
  /\ turnsLeft chain
  /\ incl chain pts
  /\ (forall p a b, In p pts -> In (a, b) (pathEdges chain) -> 0 <= cross a b p).

End Geometry.

(** ** main.js: ball physics *)

Module Physics.

Import Terrain Geometry.

Definition GREEN_SIZE : R := 10.0.
Definition BALL_RADIUS_M : R := 0.0215.
Definition HOLE_RADIUS_M : R := 2.0 * BALL_RADIUS_M.
Definition STIMP_V0 : R := 1.83.
Definition GRAVITY : R := 9.81.
Definition ROLLING_FACTOR : R := 5.0 / 7.0.
Definition BOUNCE_DAMPING : R := 0.3.
Definition BOUNCE_FRICTION : R := 0.8.
Definition MIN_BOUNCE_VEL : R := 0.05.
Definition LANDING_THRESHOLD : R := 0.001.
Definition MAX_GHOST_DIST : R := 0.35.
Definition SPIN_EFFECT_STRENGTH : R := 0.15.
Definition SPIN_DECAY_RATE : R := 2.0.
Definition MAX_TRAIL_PTS : nat := 5000.

Definition stimpToMu (s : R) : R :=
  let v0 := 1.83 in
  v0 * v0 / (2.0 * GRAVITY * s).

(** *** Program state

    The module-level variables of [main.js] that the physics reads and
    writes.  Of the Three.js scene only the data that the physics hands
    over is kept: the points of the current trail line, the aim-point
    markers with their colour, and the position of the ghost cross.  The
    rotation of the ball mesh is presentation and is left out. *)

(** Settings changed by the controls. *)
Record Controls : Type := mkControls {
  angleDeg : R;
  stimpM : R;
  launchAngleDeg : R;
  aimWorld : Vec3
}.

Record Ball : Type := mkBall {
  ballPos : Vec3;
  ballVel : Vec3;
  ballMoving : bool;
  ballOnCircle : bool;
  ballAirborne : bool;
  inHole : bool;
  bounceCount : nat;
  maxHeight : R;
  ballSpin : R;
  travelDist : R
}.

(** Per-shot bookkeeping. *)
Record Shot : Type := mkShot {
  lastShotStartPos : option (R * R);
  shotAimPoints : list Vec3;
  breakPoints : list ((R * R) * (R * R));
  breakLocked : bool;
  prevVz : option R;
  prevPosForVz : R * R
}.

Record Scene : Type := mkScene {
  currentTrailLine : option (list Vec3);
  aimPtGroup : list (Vec3 * bool);
  validAimPts : list Point;
  ghostGroup : option (R * R)
}.

Record Game : Type := mkGame {
  terrain : TerrainState;
  controls : Controls;
  ball : Ball;
  shot : Shot;
  scene : Scene
}.

Definition withBall (g : Game) (b : Ball) : Game :=
  mkGame (terrain g) (controls g) b (shot g) (scene g).
Definition withShot (g : Game) (s : Shot) : Game :=
  mkGame (terrain g) (controls g) (ball g) s (scene g).
Definition withScene (g : Game) (s : Scene) : Game :=
  mkGame (terrain g) (controls g) (ball g) (shot g) s.

(** *** Scene helpers *)

(** The trail buffer is a [Float32Array]: a segment holds the
    coordinates as they were rounded when stored, and the distance test
    reads the stored coordinates of the last point. *)
Definition addTrailPoint (x y z : R) (sc : Scene) : Scene :=
  let seg := match currentTrailLine sc with Some l => l | None => [] end in
  let full := (MAX_TRAIL_PTS <=? length seg)%nat in
  let near :=
    match rev seg with
    | [] => false
    | lastp :: _ =>
        let dx := x - v_x lastp in
        let dz := z - v_z lastp in
        Rltb (dx * dx + dz * dz) 0.0004
    end in
  let seg' :=
    if full || near then seg
    else seg ++ [mkVec3 (fround x) (fround y) (fround z)] in
  mkScene (Some seg') (aimPtGroup sc) (validAimPts sc) (ghostGroup sc).

Definition addAimPointMarker (pt : Vec3) (sc : Scene) : Scene :=
  mkScene (currentTrailLine sc)
          (aimPtGroup sc ++ [(mkVec3 (v_x pt) (v_y pt + 0.02) (v_z pt), false)])
          (validAimPts sc) (ghostGroup sc).

Definition colorLastAimPoint (madeIt : bool) (sc : Scene) : Scene :=
  match rev (aimPtGroup sc) with
  | [] => sc
  | (pos, _) :: before =>
      mkScene (currentTrailLine sc)
              (rev before ++ [(pos, madeIt)])
              (if madeIt then validAimPts sc ++ [mkPoint (v_x pos) (v_z pos)]
               else validAimPts sc)
              (ghostGroup sc)
  end.

Definition placeGhostCross (x z : R) (sc : Scene) : Scene :=
  mkScene (currentTrailLine sc) (aimPtGroup sc) (validAimPts sc) (Some (x, z)).

(** *** Ghost-rest simulation *)

(** The local variables of [simulateGhostRest]. *)
Record Ghost : Type := mkGhost {
  g_px : R; g_py : R; g_pz : R;
  g_vx : R; g_vy : R; g_vz : R;
  g_spin : R;
  g_airborne : bool
}.

Definition simDt : R := 1 / 120.

(** The loop body after the stop test, up to the assignment of the new
    position. *)
Definition ghostStep (tr : TerrainState) (c : Controls) (s : Ghost) : Ghost :=
  let angleRad := angleDeg c * PI / 180 in
  let muRoll := stimpToMu (stimpM c) in
  let speed := hypot (g_vx s) (g_vz s) in
  let terrainH := getTerrainHeight tr (g_px s) (g_pz s) in
  let heightAbove := g_py s - BALL_RADIUS_M - terrainH in
  let airborne := Rgtb heightAbove LANDING_THRESHOLD in
  let '(ax, ay, az, spin, vy) :=
    if negb airborne then
      let az := 0 + GRAVITY * sin angleRad * ROLLING_FACTOR in
      let '(ax, az) :=
        if Rgtb speed 1e-4 then
          let normal := getTerrainNormal tr (g_px s) (g_pz s) in
          let friction := muRoll * GRAVITY * Rabs (v_y normal) in
          let spinMod := 1.0 + g_spin s * SPIN_EFFECT_STRENGTH in
          let spinMod := Rmax 0.5 (Rmin 1.5 spinMod) in
          let ax := 0 - friction * spinMod * (g_vx s / speed) in
          let az := az - friction * spinMod * (g_vz s / speed) in
          (ax + - v_x normal * GRAVITY * ROLLING_FACTOR,
           az + - v_z normal * GRAVITY * ROLLING_FACTOR)
        else (0, az) in
      let spin := g_spin s * exp (- SPIN_DECAY_RATE * simDt) in
      let spin := if Rltb (Rabs spin) 0.01 then 0 else spin in
      let t := trueRollAccel tr (g_px s) (g_pz s) (g_vx s) (g_vz s) in
      (ax + fst t, 0, az + snd t, spin, 0)
    else
      (0, - GRAVITY, 0 + GRAVITY * sin angleRad, g_spin s, g_vy s) in
  let vx := g_vx s + ax * simDt in
  let vy := vy + ay * simDt in
  let vz := g_vz s + az * simDt in
  let nx := g_px s + vx * simDt in
  let ny := g_py s + vy * simDt in
  let nz := g_pz s + vz * simDt in
  let minY := getTerrainHeight tr nx nz + BALL_RADIUS_M in
  let '(vx, vy, vz, ny, airborne) :=
    if Rltb ny minY then
      if airborne && Rgtb (Rabs vy) MIN_BOUNCE_VEL then
        (vx * BOUNCE_FRICTION, - vy * BOUNCE_DAMPING, vz * BOUNCE_FRICTION, minY, airborne)
      else (vx, 0, vz, minY, false)
    else (vx, vy, vz, ny, airborne) in
  mkGhost nx ny nz vx vy vz spin airborne.

(** The [for] loop with its two [break]s; [n] iterations are left and
    [steps] counts the integration steps taken so far. *)
Fixpoint ghostLoop (tr : TerrainState) (c : Controls) (n : nat) (s : Ghost)
    (steps : nat) : Ghost * nat :=
  match n with
  | O => (s, steps)
  | S n' =>
      let speed := hypot (g_vx s) (g_vz s) in
      if Rltb speed 0.02 && negb (g_airborne s) then (s, steps)
      else
        let s' := ghostStep tr c s in
        let half := GREEN_SIZE / 2 in
        if Rgtb (Rabs (g_px s')) half || Rgtb (Rabs (g_pz s')) half
        then (s', S steps)
        else ghostLoop tr c n' s' (S steps)
  end.

Definition GHOST_MAX_STEPS : nat := Z.to_nat 20000.

Definition ghostRun (tr : TerrainState) (c : Controls)
    (startPos startVel : Vec3) (startSpin : R) : Ghost * nat :=
  ghostLoop tr c GHOST_MAX_STEPS
    (mkGhost (v_x startPos) (v_y startPos) (v_z startPos)
             (v_x startVel) (v_y startVel) (v_z startVel)
             startSpin false) 0.

(** The returned object [{x, z}]. *)
Definition simulateGhostRest (tr : TerrainState) (c : Controls)
    (startPos startVel : Vec3) (startSpin : R) : R * R :=
  let s := fst (ghostRun tr c startPos startVel startSpin) in
  (g_px s, g_pz s).

(** *** Shot launch *)

Definition shoot (g : Game) : Game :=
  let c := controls g in
  let b := ball g in
  let dirX := v_x (aimWorld c) - v_x (ballPos b) in
  let dirZ := v_z (aimWorld c) - v_z (ballPos b) in
  let len := hypot dirX dirZ in
  if Rltb len 1e-6 then g
  else
    let speedH := STIMP_V0 * sqrt (len / stimpM c) in
    let dxn := dirX / len in
    let dzn := dirZ / len in
    let launchRad := launchAngleDeg c * PI / 180 in
    let totalSpeed := speedH / cos launchRad in
    let b' :=
      mkBall (ballPos b)
             (mkVec3 (speedH * dxn) (totalSpeed * sin launchRad) (speedH * dzn))
             true false
             (if Req_dec_T (launchAngleDeg c) 0 then false else true)
             false 0 (v_y (ballPos b)) (launchAngleDeg c / 15.0) 0.0 in
    let sc := scene g in
    let sc1 :=
      match currentTrailLine sc with
      | Some (_ :: _) => sc
      | _ => addTrailPoint (v_x (ballPos b)) (v_y (ballPos b)) (v_z (ballPos b)) sc
      end in
    let sc2 := addAimPointMarker (aimWorld c) sc1 in
    let sh :=
      mkShot (Some (v_x (ballPos b), v_z (ballPos b)))
             (shotAimPoints (shot g) ++ [aimWorld c])
             [] false None (v_x (ballPos b), v_z (ballPos b)) in
    mkGame (terrain g) c b' sh sc2.

(** *** The physics step *)

Definition holeDepth : R := 0.40.

(** [updatePhysics] from its first statement after the guard up to the
    commit of the new position.  Returns the state and the local
    [closestDist] of the tunnelling test. *)
Definition integrate (dt : R) (g : Game) : Game * R :=
  let tr := terrain g in
  let c := controls g in
  let b := ball g in
  let pos := ballPos b in
  let vel := ballVel b in
  let angleRad := angleDeg c * PI / 180 in
  let muRoll := stimpToMu (stimpM c) in
  let distToHoleCur := hypot (v_x pos) (v_z pos) in
  let overHole := Rleb distToHoleCur (HOLE_RADIUS_M + BALL_RADIUS_M * 0.5) in
  let groundLevel :=
    if overHole then
      let sxz := hypot (v_x vel) (v_z vel) in
      let below := Rltb (v_y pos) (BALL_RADIUS_M * 0.5) in
      if Rltb sxz 1.45 || below then - holeDepth
      else getTerrainHeight tr (v_x pos) (v_z pos)
    else getTerrainHeight tr (v_x pos) (v_z pos) in
  let heightAbove := v_y pos - BALL_RADIUS_M - groundLevel in
  let airborne := Rgtb heightAbove LANDING_THRESHOLD in
  let '(ax, ay, az, spin, vy) :=
    if negb airborne then
      let speed := hypot (v_x vel) (v_z vel) in
      let az := 0 + GRAVITY * sin angleRad * ROLLING_FACTOR in
      let '(ax, az) :=
        if Rgtb speed 1e-4 then
          let normal := getTerrainNormal tr (v_x pos) (v_z pos) in
          let friction := muRoll * GRAVITY * Rabs (v_y normal) in
          let spinMod := 1.0 + ballSpin b * SPIN_EFFECT_STRENGTH in
          let spinMod := Rmax 0.5 (Rmin 1.5 spinMod) in
          let ax := 0 - friction * spinMod * (v_x vel / speed) in
          let az := az - friction * spinMod * (v_z vel / speed) in
          (ax + - v_x normal * GRAVITY * ROLLING_FACTOR,
           az + - v_z normal * GRAVITY * ROLLING_FACTOR)
        else (0, az) in
      let spin := ballSpin b * exp (- SPIN_DECAY_RATE * dt) in
      let spin := if Rltb (Rabs spin) 0.01 then 0 else spin in
      let t := trueRollAccel tr (v_x pos) (v_z pos) (v_x vel) (v_z vel) in
      (ax + fst t, 0, az + snd t, spin, 0)
    else
      (0, - GRAVITY, 0 + GRAVITY * sin angleRad, ballSpin b, v_y vel) in
  let vx := v_x vel + ax * dt in
  let vy := vy + ay * dt in
  let vz := v_z vel + az * dt in
  let newX := v_x pos + vx * dt in
  let newY := v_y pos + vy * dt in
  let newZ := v_z pos + vz * dt in
  let maxH := if Rgtb newY (maxHeight b) then newY else maxHeight b in
  let dhn := hypot newX newZ in
  let minBallY :=
    if Rleb dhn (HOLE_RADIUS_M + BALL_RADIUS_M * 0.5) then
      let sxzf := hypot vx vz in
      let belowf := Rltb (v_y pos) (BALL_RADIUS_M * 0.5) in
      if Rltb sxzf 1.45 || belowf then - holeDepth + BALL_RADIUS_M
      else getTerrainHeight tr newX newZ + BALL_RADIUS_M
    else getTerrainHeight tr newX newZ + BALL_RADIUS_M in
  let '(vx, vy, vz, newY, airborne, bounces) :=
    if Rltb newY minBallY then
      if airborne && Rgtb (Rabs vy) MIN_BOUNCE_VEL then
        (vx * BOUNCE_FRICTION, - vy * BOUNCE_DAMPING, vz * BOUNCE_FRICTION,
         minBallY, airborne, S (bounceCount b))
      else (vx, 0, vz, minBallY, false, bounceCount b)
    else (vx, vy, vz, newY, airborne, bounceCount b) in
  let distMoved := hypot (newX - v_x pos) (newZ - v_z pos) in
  let travel := travelDist b + distMoved in
  let oldX := v_x pos in
  let oldZ := v_z pos in
  let segDx := newX - oldX in
  let segDz := newZ - oldZ in
  let segLenSq := segDx * segDx + segDz * segDz in
  let closestDist :=
    if Rgtb segLenSq 1e-12 then
      let tc := Rmax 0 (Rmin 1 (- (oldX * segDx + oldZ * segDz) / segLenSq)) in
      hypot (oldX + tc * segDx) (oldZ + tc * segDz)
    else hypot newX newZ in
  (withBall g
     (mkBall (mkVec3 newX newY newZ) (mkVec3 vx vy vz)
             (ballMoving b) (ballOnCircle b) airborne (inHole b)
             bounces maxH spin travel),
   closestDist).

(** The three tests of the hole-capture check on the committed position. *)
Definition ballDroppedIn (b : Ball) : bool :=
  let distToHole := hypot (v_x (ballPos b)) (v_z (ballPos b)) in
  Rleb distToHole (HOLE_RADIUS_M + BALL_RADIUS_M)
  && Rltb (v_y (ballPos b)) (BALL_RADIUS_M * 0.5).

Definition crossedHole (b : Ball) (closestDist : R) : bool :=
  Rleb closestDist HOLE_RADIUS_M && negb (ballAirborne b).

Definition withinHole (b : Ball) : bool :=
  Rleb (hypot (v_x (ballPos b)) (v_z (ballPos b))) HOLE_RADIUS_M.

Definition holeBottom : R := - holeDepth + BALL_RADIUS_M.

(** The outer test: the ball has reached the hole. *)
Definition reachesHole (b : Ball) (closestDist : R) : bool :=
  ballDroppedIn b || withinHole b || crossedHole b closestDist.

(** The inner test: a ball that has reached the hole is captured. *)
Definition captures (b : Ball) : bool :=
  let speedXz := hypot (v_x (ballVel b)) (v_z (ballVel b)) in
  ballDroppedIn b || (negb (ballAirborne b) && Rltb speedXz 1.45).

(** The hole-capture check and the stop test. *)
Definition holeCheck (closestDist : R) (g : Game) : Game :=
  let b := ball g in
  let pos := ballPos b in
  let vel := ballVel b in
  let distToHole := hypot (v_x pos) (v_z pos) in
  let speedXz := hypot (v_x vel) (v_z vel) in
  if reachesHole b closestDist then
    if captures b then
      let ghostPos := pos in
      let ghostVel := vel in
      let ghostSpin := ballSpin b in
      let '(x, z) :=
        if crossedHole b closestDist && Rgtb distToHole HOLE_RADIUS_M
        then (0, 0) else (v_x pos, v_z pos) in
      let b' :=
        mkBall (mkVec3 x holeBottom z) (mkVec3 0 0 0)
               false (ballOnCircle b) (ballAirborne b) true
               (bounceCount b) (maxHeight b) (ballSpin b) (travelDist b) in
      let sc := addTrailPoint x holeBottom z (scene g) in
      let rest := simulateGhostRest (terrain g) (controls g) ghostPos ghostVel ghostSpin in
      let sc := placeGhostCross (fst rest) (snd rest) sc in
      let ghostDist := hypot (fst rest) (snd rest) in
      let sc := colorLastAimPoint (Rleb ghostDist MAX_GHOST_DIST) sc in
      mkGame (terrain g) (controls g) b' (shot g) sc
    else if withinHole b then
      withBall g
        (mkBall pos (mkVec3 (v_x vel * 0.92) (v_y vel) (v_z vel * 0.92))
                (ballMoving b) (ballOnCircle b) (ballAirborne b) (inHole b)
                (bounceCount b) (maxHeight b) (ballSpin b) (travelDist b))
    else g
  else if Rltb speedXz 0.02 && negb (ballAirborne b) then
    mkGame (terrain g) (controls g)
      (mkBall pos (mkVec3 0 0 0)
              false (ballOnCircle b) (ballAirborne b) (inHole b)
              (bounceCount b) (maxHeight b) (ballSpin b) (travelDist b))
      (shot g) (colorLastAimPoint false (scene g))
  else
    withScene g (addTrailPoint (v_x pos) (v_y pos) (v_z pos) (scene g)).

(** Break-point detection at the end of the step. *)
Definition breakDetect (g : Game) : Game :=
  let b := ball g in
  let sh := shot g in
  if ballMoving b && negb (breakLocked sh) && negb (inHole b) && negb (ballAirborne b) then
    let vz := v_z (ballVel b) in
    let here := (v_x (ballPos b), v_z (ballPos b)) in
    let '(bps, locked) :=
      match prevVz sh with
      | None => (breakPoints sh, breakLocked sh)
      | Some pv =>
          if (Rltb pv 0 && Rgeb vz 0) || (Rgtb pv 0 && Rleb vz 0) then
            let denom := pv - vz in
            let t := if Rgtb (Rabs denom) 1e-6 then pv / denom else 0 in
            let bpx := fst (prevPosForVz sh) + (fst here - fst (prevPosForVz sh)) * t in
            let bpz := snd (prevPosForVz sh) + (snd here - snd (prevPosForVz sh)) * t in
            (breakPoints sh ++ [((bpx, bpz), (- vz, v_x (ballVel b)))], true)
          else if Rleb (Rabs vz) 0.01 then
            (breakPoints sh ++ [(here, (- vz, v_x (ballVel b)))], true)
          else (breakPoints sh, breakLocked sh)
      end in
    withShot g
      (mkShot (lastShotStartPos sh) (shotAimPoints sh) bps locked (Some vz) here)
  else g.

Definition updatePhysics (dt : R) (g : Game) : Game :=
  if negb (ballMoving (ball g)) then g
  else
    let (g1, closestDist) := integrate dt g in
    breakDetect (holeCheck closestDist g1).

(** The state after the steps of the frames whose elapsed times are
    [dts], in order. *)
Definition runPhysics (dts : list R) (g : Game) : Game :=
  fold_left (fun g dt => updatePhysics dt g) dts g.

(** The horizontal speed of the ball. *)
Definition speedXz (b : Ball) : R := hypot (v_x (ballVel b)) (v_z (ballVel b)).

(** *** Sample states

    The flat built terrain, no slope and the default stimp; a ball
    at [(x, BALL_RADIUS_M, 0)] moving along [x] at speed [v], as a shot with
    launch angle 0 leaves it. *)

Definition flatControls (aim : Vec3) : Controls := mkControls 0 3.0 0 aim.

Definition rollingBall (x v : R) : Ball :=
  mkBall (mkVec3 x BALL_RADIUS_M 0) (mkVec3 v 0 0)
         true false false false 0 BALL_RADIUS_M 0 0.

Definition rollingGame (x v : R) : Game :=
  mkGame flatTerrain (flatControls (mkVec3 0 0 0)) (rollingBall x v)
         (mkShot (Some (x, 0)) [mkVec3 0 0 0] [] false None (x, 0))
         (mkScene (Some [mkVec3 x BALL_RADIUS_M 0])
                  [(mkVec3 0 0.02 0, false)] [] None).

(** The deceleration of rolling friction on the flat green at the default
    stimp. *)
Definition rollFriction : R := stimpToMu 3.0 * GRAVITY.

(** The closest approach to the hole axis of the segment from [(x, 0)] to
    [(x', 0)], as the tunnelling test computes it. *)
Definition segClosest (x x' : R) : R :=
  if Rgtb ((x' - x) * (x' - x)) 1e-12
  then Rabs (x + Rmax 0 (Rmin 1 (- (x * (x' - x)) / ((x' - x) * (x' - x)))) * (x' - x))
  else Rabs x'.

(** The ball at rest on its spawn circle, the aim point on the ball. *)
Definition restingGame : Game :=
  mkGame flatTerrain (flatControls (mkVec3 3 0 0))
         (mkBall (mkVec3 3 BALL_RADIUS_M 0) (mkVec3 0 0 0)
                 false true false false 0 0 0 0)
         (mkShot None [] [] false None (0, 0))
         (mkScene None [] [] None).

End Physics.

(** ** Further vocabulary for terrain.js *)

Module TerrainFacts.

Import Terrain.

(** The increment of the captured variable at each call. *)
Definition WEYL : Z := 0x6D2B79F5.

(** Every cell lies between [lo] and [hi]. *)
Definition cells_between (lo hi : R) (g : Grid) : Prop :=
  forall row v, In row g -> In v row -> lo <= v <= hi.

(** The running [(total, count)] of a smoothing neighbourhood whose cells
    are between [lo] and [hi], [k] cells at least having been counted. *)
Definition running_between (lo hi k : R) (acc : R * R) : Prop :=
  snd acc * lo <= fst acc <= snd acc * hi /\ k <= snd acc.

(** A world coordinate brought back into the sampled square. *)
Definition clampWorld (w x : R) : R := Rmax (- (w / 2)) (Rmin x (w / 2)).

(** The world coordinate of the grid line of index [i] of a grid with
    [n] lines. *)
Definition nodeCoord (w : R) (n : nat) (i : Z) : R :=
  - (w / 2) + IZR i * w / IZR (Z.of_nat n - 1).

(** The lateral grids are both unbuilt, or both built as [TR_GRID_SIZE]
    squares whose cells are within the target amplitude. *)
Definition roll_grids_ok (st : TerrainState) : Prop :=
  match TRUE_ROLL_AX st, TRUE_ROLL_AY st with
  | None, None => True
  | Some gx, Some gy =>
      (square_rows TR_GRID_SIZE TR_GRID_SIZE gx /\ cells_within TR_TARGET_AMP gx)
      /\ (square_rows TR_GRID_SIZE TR_GRID_SIZE gy /\ cells_within TR_TARGET_AMP gy)
  | _, _ => False
  end.

End TerrainFacts.

(** ** Further vocabulary for the aim-zone geometry *)

Module GeometryFacts.

Import Geometry.

Definition Point_eq_dec (a b : Point) : {a = b} + {a <> b}.
Proof.
  destruct a as [ax az], b as [bx bz].
  destruct (Req_dec_T ax bx) as [Hx | Hx]; [|right; congruence].
  destruct (Req_dec_T az bz) as [Hz | Hz]; [|right; congruence].
  left. congruence.
Defined.

(** [l] without the repeats of adjacent equal points. *)
Fixpoint squeeze (l : list Point) : list Point :=
  match l with
  | [] => []
  | x :: t =>
      match t with
      | [] => [x]
      | y :: _ => if Point_eq_dec x y then squeeze t else x :: squeeze t
      end
  end.

(** The point [p] moved by [(tx, tz)]. *)
Definition shiftPoint (tx tz : R) (p : Point) : Point :=
  mkPoint (p_x p + tx) (p_z p + tz).

(** The point [p] scaled by [k] about the origin. *)
Definition scalePoint (k : R) (p : Point) : Point :=
  mkPoint (k * p_x p) (k * p_z p).

(** All the points lie on one line. *)
Definition collinear (points : list Point) : Prop :=
  forall a b c, In a points -> In b points -> In c points -> cross a b c = 0.

End GeometryFacts.

(** ** main.js: overlays computed from the terrain and the aim points *)

Module Overlay.

Import Terrain Geometry Physics.

Definition getGradientAt (tr : TerrainState) (x z curAngleDeg : R) : R * R :=
  let globalSlopeZ := GRAVITY * sin (curAngleDeg * PI / 180) * ROLLING_FACTOR in
  let normal := getTerrainNormal tr x z in
  let gx := - v_x normal * GRAVITY * ROLLING_FACTOR in
  let gz := - v_z normal * GRAVITY * ROLLING_FACTOR + globalSlopeZ in
  let t := trueRollAccel tr x z 0.3 0.0 in
  (gx + fst t, gz + snd t).

(** *** Streamlines *)

Definition STREAM_STEP : R := 0.04.
Definition STREAM_MIN_SP_SQ : R := 0.0009.
Definition STREAM_MAX_STEPS : nat := 2000.

(** The [for] loop of [traceStreamline]: [n] iterations are left, [(x, z)]
    is the running position and [points] the array built so far. *)
Fixpoint streamLoop (tr : TerrainState) (angleDeg : R) (n : nat) (x z : R)
    (points : list (R * R)) : list (R * R) :=
  match n with
  | O => points
  | S n' =>
      let g := getGradientAt tr x z angleDeg in
      let mag := hypot (fst g) (snd g) in
      if Rltb mag 0.003 then points
      else
        let x := x + fst g / mag * STREAM_STEP in
        let z := z + snd g / mag * STREAM_STEP in
        let half := GREEN_SIZE / 2 in
        if Rgtb (Rabs x) (half - 0.1) || Rgtb (Rabs z) (half - 0.1) then points
        else if Rltb (hypot x z) (HOLE_RADIUS_M * 1.5) then points ++ [(x, z)]
        else
          let lastp := last points (0, 0) in
          let ddx := x - fst lastp in
          let ddz := z - snd lastp in
          let points :=
            if Rgeb (ddx * ddx + ddz * ddz) STREAM_MIN_SP_SQ
            then points ++ [(x, z)] else points in
          streamLoop tr angleDeg n' x z points
  end.

Definition traceStreamline (tr : TerrainState) (angleDeg startX startZ : R)
    : list (R * R) :=
  streamLoop tr angleDeg STREAM_MAX_STEPS startX startZ [(startX, startZ)].

(** *** Grid flow *)

(** The four cardinal neighbours, as offsets. *)
Definition gridNeighbors (sp : R) : list (R * R) :=
  [(sp, 0); (- sp, 0); (0, sp); (0, - sp)].

(** The body of the loop over the neighbours; [best] is
    [(bestDot, bestN)], where [None] stands for [-Infinity] and for
    [null]. *)
Definition pickStep (gx gz x z edge : R) (best : option R * option (R * R))
    (n : R * R) : option R * option (R * R) :=
  let nx := x + fst n in
  let nz := z + snd n in
  if Rgtb (Rabs nx) (edge + 0.001) || Rgtb (Rabs nz) (edge + 0.001) then best
  else
    let dot := gx * fst n + gz * snd n in
    let better := match fst best with None => true | Some b => Rgtb dot b end in
    if better then (Some dot, Some (nx, nz)) else best.

Definition pickGridTarget (tr : TerrainState) (angleDeg x z sp edge : R)
    : option (R * R) :=
  let g := getGradientAt tr x z angleDeg in
  let mag := hypot (fst g) (snd g) in
  if Rltb mag 0.01 then None
  else
    let best := fold_left (pickStep (fst g) (snd g) x z edge) (gridNeighbors sp)
                          (None, None) in
    match fst best with
    | None => None
    | Some bestDot => if Rleb bestDot 0 then None else snd best
    end.

(** *** The good-aim zone *)

Inductive BreakSide : Type := Straight | LeftToRight | RightToLeft.
Inductive Slope : Type := Level | Uphill | Downhill.

(** The numbers of the aim-info label and of the two lines drawn with
    it. *)
Record AimInfo : Type := mkAimInfo {
  distAimHole : R;
  numberOfBalls : R;
  footX : R;
  footZ : R;
  distEllToFoot : R;
  aimLineFrom : R * R;
  aimLineTo : R * R;
  breakSide : BreakSide;
  slope : Slope
}.

(** The vertex lists that [rebuildGoodAimZone] computes, before they
    are copied into the buffers of the meshes.  Of the vertices only [x]
    and [z] are kept: each height is the terrain height there plus a
    fixed offset.  The formatting of the label is left out. *)
Record AimZone : Type := mkAimZone {
  zoneHull : list Point;
  zoneOutline : list Point;
  zoneEllipse : option (list (R * R));
  zoneInfo : option AimInfo
}.

Definition ELLIPSE_SEGMENTS : nat := 64.

(** The point of the ellipse outline of index [i]. *)
Definition ellipsePoint (ell : Ellipse) (i : nat) : R * R :=
  let ang := INR i / INR ELLIPSE_SEGMENTS * PI * 2 in
  let ca := cos ang in
  let sa := sin ang in
  (e_cx ell + ca * e_a ell * e_ex ell + sa * e_b ell * e_fx ell,
   e_cz ell + ca * e_a ell * e_ez ell + sa * e_b ell * e_fz ell).

Definition aimInfo (tr : TerrainState) (angleDeg : R) (start : R * R)
    (ell : Ellipse) : option AimInfo :=
  let sx := fst start in
  let sz := snd start in
  let dx := e_cx ell - sx in
  let dz := e_cz ell - sz in
  let lineLen := hypot dx dz in
  if Rgtb lineLen 0.001 then
    let crossVal := sx * e_cz ell - sz * e_cx ell in
    let distAimHole := Rabs crossVal / lineLen in
    let ballDiameter := 2 * BALL_RADIUS_M in
    let numberOfBalls := distAimHole / ballDiameter in
    let ux := dx / lineLen in
    let uz := dz / lineLen in
    let dotProj := (0 - sx) * ux + (0 - sz) * uz in
    let footX := sx + dotProj * ux in
    let footZ := sz + dotProj * uz in
    let distEllToFoot := hypot (e_cx ell - footX) (e_cz ell - footZ) in
    let extend := 0.3 in
    let lr :=
      if Rltb (Rabs (e_cx ell)) 0.001 then Straight
      else if Rltb (e_cx ell) 0 then LeftToRight else RightToLeft in
    let angleRad := angleDeg * PI / 180 in
    let heightBall := getTerrainHeight tr sx sz - sz * sin angleRad in
    let heightHole := getTerrainHeight tr 0 0 in
    let heightDiff := heightHole - heightBall in
    let ud :=
      if Rltb (Rabs heightDiff) 0.0001 then Level
      else if Rgtb heightDiff 0 then Uphill else Downhill in
    Some (mkAimInfo distAimHole numberOfBalls footX footZ distEllToFoot
            (sx - ux * extend, sz - uz * extend)
            (e_cx ell + ux * extend, e_cz ell + uz * extend)
            lr ud)
  else None.

(** [None]: the function returns before drawing anything. *)
Definition rebuildGoodAimZone (tr : TerrainState) (angleDeg : R)
    (validAimPts : list Point) (lastShotStartPos : option (R * R))
    : option AimZone :=
  if (length validAimPts <? 4)%nat then None
  else
    let hull := convexHull validAimPts in
    if (length hull <? 3)%nat then None
    else
      let outline := map (fun i => nth (i mod length hull) hull (mkPoint 0 0))
                         (seq 0 (S (length hull))) in
      let ell := boundingEllipse hull in
      let big := Rgtb (e_a ell) 0.005 && Rgtb (e_b ell) 0.005 in
      let outlineE :=
        if big then Some (map (ellipsePoint ell) (seq 0 (S ELLIPSE_SEGMENTS)))
        else None in
      let info :=
        match lastShotStartPos with
        | Some start => if big then aimInfo tr angleDeg start ell else None
        | None => None
        end in
      Some (mkAimZone hull outline outlineE info).

End Overlay.

(** ** main.js: actions and input *)

Module Play.

Import Terrain Geometry Physics.
Import String.

Definition BALL_CIRCLE_RADIUS_DEFAULT : R := 3.0.
Definition BALL_CIRCLE_MIN : R := 1.0.
Definition BALL_CIRCLE_MAX : R := 5.5.
Definition BALL_CIRCLE_STEP : R := 0.5.
Definition STIMP_DEFAULT : R := 3.0.
Definition ANGLE_STEP_DEG : R := 0.1.
Definition ANGLE_MAX_DEG : R := 5.0.
Definition LAUNCH_ANGLE_DEFAULT : R := 5.
Definition LAUNCH_ANGLE_MIN : R := -4.
Definition LAUNCH_ANGLE_MAX : R := 15.
Definition LAUNCH_ANGLE_STEP : R := 1.
Definition ZOOM_DEFAULT : R := 45.0.
Definition ZOOM_MIN : R := 1.0.
Definition ZOOM_MAX : R := 90.0.
Definition ZOOM_STEP : R := 5.0.

(** The program state: the variables of [Game], the placement of the
    ball on its spawn circle, the field of view of the camera, the two
    display switches and the time of the last frame. *)
Record App : Type := mkApp {
  game : Game;
  ballAngle : R;
  lastCircleAngle : R;
  ballCircleRadius : R;
  fov : R;
  showHelp : bool;
  flowMode : nat;
  lastTime : R
}.

Definition withGame (a : App) (g : Game) : App :=
  mkApp g (ballAngle a) (lastCircleAngle a) (ballCircleRadius a)
        (fov a) (showHelp a) (flowMode a) (lastTime a).

Definition setBallPos (g : Game) (pos : Vec3) : Game :=
  let b := ball g in
  withBall g
    (mkBall pos (ballVel b) (ballMoving b) (ballOnCircle b) (ballAirborne b)
            (inHole b) (bounceCount b) (maxHeight b) (ballSpin b) (travelDist b)).

Definition updateBallOnCircle (a : App) : App :=
  let bx := ballCircleRadius a * cos (ballAngle a) in
  let bz := ballCircleRadius a * sin (ballAngle a) in
  let by_ := getTerrainHeight (terrain (game a)) bx bz + BALL_RADIUS_M in
  withGame a (setBallPos (game a) (mkVec3 bx by_ bz)).

(** [src] is the [Math.random] source that a rebuild of the terrain
    draws from. *)
Definition resetBall (newTerrain : bool) (src : nat -> R) (a : App) : App :=
  let g := game a in
  let angle := lastCircleAngle a in
  let bx := ballCircleRadius a * cos angle in
  let bz := ballCircleRadius a * sin angle in
  let by_ := getTerrainHeight (terrain g) bx bz + BALL_RADIUS_M in
  let b := mkBall (mkVec3 bx by_ bz) (mkVec3 0 0 0)
                  false true false false 0 0.0 0.0 0.0 in
  let sh := shot g in
  let sc := scene g in
  let g' :=
    if newTerrain then
      mkGame (buildTrueRollGrids None src (terrain g)) (controls g) b
             (mkShot (lastShotStartPos sh) [] [] false None (prevPosForVz sh))
             (mkScene None [] [] None)
    else
      mkGame (terrain g) (controls g) b
             (mkShot (lastShotStartPos sh) (shotAimPoints sh) [] false None
                     (prevPosForVz sh))
             (mkScene None (aimPtGroup sc) (validAimPts sc) None) in
  mkApp g' angle (lastCircleAngle a) (ballCircleRadius a)
        (fov a) (showHelp a) (flowMode a) (lastTime a).

Definition cycleFlowMode (a : App) : App :=
  mkApp (game a) (ballAngle a) (lastCircleAngle a) (ballCircleRadius a)
        (fov a) (showHelp a) ((flowMode a + 1) mod 4) (lastTime a).

Definition setFov (f : R) (a : App) : App :=
  mkApp (game a) (ballAngle a) (lastCircleAngle a) (ballCircleRadius a)
        f (showHelp a) (flowMode a) (lastTime a).

Definition resetCamera (a : App) : App := setFov ZOOM_DEFAULT a.

Definition setRadius (r : R) (a : App) : App :=
  mkApp (game a) (ballAngle a) (lastCircleAngle a) r
        (fov a) (showHelp a) (flowMode a) (lastTime a).

Definition setControls (c : Controls) (g : Game) : Game :=
  mkGame (terrain g) c (ball g) (shot g) (scene g).

Definition setStimp (s : R) (g : Game) : Game :=
  let c := controls g in
  setControls (mkControls (angleDeg c) s (launchAngleDeg c) (aimWorld c)) g.

Definition setLaunchAngle (l : R) (g : Game) : Game :=
  let c := controls g in
  setControls (mkControls (angleDeg c) (stimpM c) l (aimWorld c)) g.

Definition setAngle (d : R) (g : Game) : Game :=
  let c := controls g in
  setControls (mkControls d (stimpM c) (launchAngleDeg c) (aimWorld c)) g.

Definition setAim (p : Vec3) (g : Game) : Game :=
  let c := controls g in
  setControls (mkControls (angleDeg c) (stimpM c) (launchAngleDeg c) p) g.

Definition setTerrain (t : TerrainState) (g : Game) : Game :=
  mkGame t (controls g) (ball g) (shot g) (scene g).

(** The fields of a keyboard event that the handler reads. *)
Record KeyEvent : Type := mkKeyEvent {
  key : String.string;
  repeat_ : bool;
  shiftKey : bool
}.

Definition isKey (e : KeyEvent) (k : String.string) : bool := String.eqb (key e) k.

(** The [if] statements of the [keydown] handler that act on the state,
    one definition for each, in the order of the source. *)
Definition onSpace (e : KeyEvent) (a : App) : App :=
  if isKey e " "%string && negb (ballMoving (ball (game a))) && negb (inHole (ball (game a)))
  then withGame a (shoot (game a)) else a.

Definition onX (e : KeyEvent) (a : App) : App :=
  if isKey e "x"%string || isKey e "X"%string
  then withGame a (setStimp (Rmin 6.0 (stimpM (controls (game a)) + 0.1)) (game a))
  else a.

Definition onY (e : KeyEvent) (a : App) : App :=
  if isKey e "y"%string || isKey e "Y"%string
  then withGame a (setStimp (Rmax 1.0 (stimpM (controls (game a)) - 0.1)) (game a))
  else a.

Definition onH (e : KeyEvent) (a : App) : App :=
  if isKey e "h"%string || isKey e "H"%string
  then mkApp (game a) (ballAngle a) (lastCircleAngle a) (ballCircleRadius a)
             (fov a) (negb (showHelp a)) (flowMode a) (lastTime a)
  else a.

Definition onF (e : KeyEvent) (a : App) : App :=
  if isKey e "f"%string || isKey e "F"%string then cycleFlowMode a else a.

Definition onB (e : KeyEvent) (a : App) : App :=
  if isKey e "b"%string || isKey e "B"%string then resetCamera a else a.

(** The test of the reset statement. *)
Definition isResetKey (e : KeyEvent) : bool :=
  (isKey e "r"%string || isKey e "R"%string) && negb (repeat_ e).

Definition onR (src : nat -> R) (e : KeyEvent) (a : App) : App :=
  if isResetKey e then resetBall (shiftKey e) src a else a.

Definition on1 (e : KeyEvent) (a : App) : App :=
  if isKey e "1"%string && negb (ballMoving (ball (game a))) && ballOnCircle (ball (game a))
  then updateBallOnCircle
         (setRadius (Rmax BALL_CIRCLE_MIN (ballCircleRadius a - BALL_CIRCLE_STEP)) a)
  else a.

Definition on2 (e : KeyEvent) (a : App) : App :=
  if isKey e "2"%string && negb (ballMoving (ball (game a))) && ballOnCircle (ball (game a))
  then updateBallOnCircle
         (setRadius (Rmin BALL_CIRCLE_MAX (ballCircleRadius a + BALL_CIRCLE_STEP)) a)
  else a.

Definition on3 (e : KeyEvent) (a : App) : App :=
  if isKey e "3"%string
  then withGame a (setLaunchAngle
         (Rmax LAUNCH_ANGLE_MIN (launchAngleDeg (controls (game a)) - LAUNCH_ANGLE_STEP))
         (game a))
  else a.

Definition on4 (e : KeyEvent) (a : App) : App :=
  if isKey e "4"%string
  then withGame a (setLaunchAngle
         (Rmin LAUNCH_ANGLE_MAX (launchAngleDeg (controls (game a)) + LAUNCH_ANGLE_STEP))
         (game a))
  else a.

Definition onZ (e : KeyEvent) (a : App) : App :=
  if isKey e "z"%string || isKey e "Z"%string
  then setFov (Rmax ZOOM_MIN (fov a - ZOOM_STEP)) a else a.

Definition onU (e : KeyEvent) (a : App) : App :=
  if isKey e "u"%string || isKey e "U"%string
  then setFov (Rmin ZOOM_MAX (fov a + ZOOM_STEP)) a else a.

(** Statements run one after the other. *)
Definition inSequence {A : Type} (steps : list (A -> A)) (a : A) : A :=
  fold_left (fun a step => step a) steps a.

Definition keydown (src : nat -> R) (e : KeyEvent) (a : App) : App :=
  inSequence
    [onSpace e; onX e; onY e; onH e; onF e; onB e; onR src e;
     on1 e; on2 e; on3 e; on4 e; onZ e; onU e] a.

(** [updateAim], from the ray that the raycaster gives in the
    coordinates of the world group; the camera and its matrices are not
    modelled, the ray is an input. *)
Definition updateAim (origin dir : Vec3) (g : Game) : Game :=
  if Rgtb (Rabs (v_y dir)) 1e-10 then
    let t := - v_y origin / v_y dir in
    if Rgtb t 0 then
      let ax := v_x origin + t * v_x dir in
      let az := v_z origin + t * v_z dir in
      setAim (mkVec3 ax (getTerrainHeight (terrain g) ax az) az) g
    else g
  else g.

(** The held keys of one frame, as [animate] reads them, one definition
    for each [if] statement. *)
Definition heldUp (held : String.string -> bool) (g : Game) : Game :=
  if held "ArrowUp"%string
  then setAngle (Rmin ANGLE_MAX_DEG (angleDeg (controls g) + ANGLE_STEP_DEG)) g
  else g.

Definition heldDown (held : String.string -> bool) (g : Game) : Game :=
  if held "ArrowDown"%string
  then setAngle (Rmax (- ANGLE_MAX_DEG) (angleDeg (controls g) - ANGLE_STEP_DEG)) g
  else g.

Definition heldQ (held : String.string -> bool) (g : Game) : Game :=
  if held "q"%string || held "Q"%string
  then setTerrain (setTrueRollStrength
                     (Rmax 0 (getTrueRollStrength (terrain g) - 0.1)) (terrain g)) g
  else g.

Definition heldW (held : String.string -> bool) (g : Game) : Game :=
  if held "w"%string || held "W"%string
  then setTerrain (setTrueRollStrength
                     (Rmin 20 (getTrueRollStrength (terrain g) + 0.1)) (terrain g)) g
  else g.

(** The body of the two arrow-key statements: [angle] is the new
    [ballAngle]. *)
Definition turnOnCircle (angle : R) (a : App) : App :=
  updateBallOnCircle
    (mkApp (game a) angle angle (ballCircleRadius a)
           (fov a) (showHelp a) (flowMode a) (lastTime a)).

Definition heldArrows (held : String.string -> bool) (a : App) : App :=
  if negb (ballMoving (ball (game a))) && ballOnCircle (ball (game a)) then
    let a := if held "ArrowLeft"%string then turnOnCircle (ballAngle a + 0.035) a else a in
    let a := if held "ArrowRight"%string then turnOnCircle (ballAngle a - 0.035) a else a in
    a
  else a.

Definition heldKeys (held : String.string -> bool) (a : App) : App :=
  heldArrows held
    (withGame a (inSequence [heldUp held; heldDown held; heldQ held; heldW held] (game a))).

(** One frame of [animate] up to the aim update: the time step, the
    held keys, the physics and the aim.  [now] is the value of
    [performance.now()]; the overlays and the rendering are left out. *)
Definition animate (now : R) (held : String.string -> bool) (origin dir : Vec3)
    (a : App) : App :=
  let dt := (now - lastTime a) / 1000 in
  let dt := Rmin dt (1 / 30) in
  let a := mkApp (game a) (ballAngle a) (lastCircleAngle a) (ballCircleRadius a)
                 (fov a) (showHelp a) (flowMode a) now in
  let a := heldKeys held a in
  let g := updatePhysics dt (game a) in
  let g := updateAim origin dir g in
  withGame a g.

(** The [input] handlers of the five sliders; [v] is the parsed value
    of the slider. *)
Definition slideAngle (v : R) (a : App) : App := withGame a (setAngle v (game a)).

Definition slideStimp (v : R) (a : App) : App := withGame a (setStimp v (game a)).

Definition slideTroll (v : R) (a : App) : App :=
  withGame a (setTerrain (setTrueRollStrength v (terrain (game a))) (game a)).

Definition slideDist (v : R) (a : App) : App :=
  if ballMoving (ball (game a)) || negb (ballOnCircle (ball (game a))) then a
  else updateBallOnCircle (setRadius v a).

Definition slideLaunch (n : Z) (a : App) : App :=
  withGame a (setLaunchAngle (IZR n) (game a)).

(** The [click] handler of the shoot button. *)
Definition shootButton (a : App) : App :=
  if negb (ballMoving (ball (game a))) && negb (inHole (ball (game a)))
  then withGame a (shoot (game a)) else a.

(** The actions of the action buttons. *)
Inductive ButtonAction : Type := BtnReset | BtnNewTerrain | BtnCycleFlow | BtnResetCam.

Definition actionButton (src : nat -> R) (b : ButtonAction) (a : App) : App :=
  match b with
  | BtnReset => resetBall false src a
  | BtnNewTerrain => resetBall true src a
  | BtnCycleFlow => cycleFlowMode a
  | BtnResetCam => resetCamera a
  end.

(** The events that act on the state. *)
Inductive Event : Type :=
| KeyDown (src : nat -> R) (e : KeyEvent)
| Frame (now : R) (held : String.string -> bool) (origin dir : Vec3)
| ShootButton
| ActionButton (src : nat -> R) (b : ButtonAction)
| SlideAngle (v : R)
| SlideStimp (v : R)
| SlideTroll (v : R)
| SlideDist (v : R)
| SlideLaunch (n : Z).

Definition handle (a : App) (ev : Event) : App :=
  match ev with
  | KeyDown src e => keydown src e a
  | Frame now held origin dir => animate now held origin dir a
  | ShootButton => shootButton a
  | ActionButton src b => actionButton src b a
  | SlideAngle v => slideAngle v a
  | SlideStimp v => slideStimp v a
  | SlideTroll v => slideTroll v a
  | SlideDist v => slideDist v a
  | SlideLaunch n => slideLaunch n a
  end.

Definition run (evs : list Event) (a : App) : App := fold_left handle evs a.

(** An event that is not the input of a slider. *)
Definition notSlider (ev : Event) : bool :=
  match ev with
  | KeyDown _ _ | Frame _ _ _ _ | ShootButton | ActionButton _ _ => true
  | _ => false
  end.

(** A press of the space bar. *)
Definition spaceKey : KeyEvent := mkKeyEvent " "%string false false.

(** The state that the module-level statements leave: the terrain is
    built from [Math.random], here the source [src], and the ball is put
    on its circle.  [prevPosForVz] is [null] until the first shot, which
    assigns it before any read; it is given [(0, 0)]. *)
Definition initialApp (src : nat -> R) (now : R) : App :=
  let tr := buildTrueRollGrids None src initialTerrain in
  let r := BALL_CIRCLE_RADIUS_DEFAULT in
  let pos := mkVec3 r (getTerrainHeight tr r 0 + BALL_RADIUS_M) 0 in
  mkApp
    (mkGame tr
       (mkControls 0.0 STIMP_DEFAULT LAUNCH_ANGLE_DEFAULT (mkVec3 (v_x pos) 0 (v_z pos)))
       (mkBall pos (mkVec3 0 0 0) false true false false 0 0.0 0.0 0.0)
       (mkShot None [] [] false None (0, 0))
       (mkScene None [] [] None))
    0.0 0.0 r ZOOM_DEFAULT true 0 now.

End Play.

(** ** Further vocabulary for the physics *)

Module PhysicsFacts.

Import Terrain Geometry Physics Play.

(** The pairs of neighbours of a list. *)
Fixpoint adjacentPairs {A : Type} (l : list A) : list (A * A) :=
  match l with
  | a :: ((b :: _) as t) => (a, b) :: adjacentPairs t
  | _ => []
  end.

(** The trail segment holds at most [MAX_TRAIL_PTS] points, and of any
    two neighbours the later one is the stored, that is rounded, form of a
    point that was at least 0.02 away from the earlier one in the
    horizontal plane. *)
Definition trail_ok (sc : Scene) : Prop :=
  match currentTrailLine sc with
  | None => True
  | Some seg =>
      (length seg <= MAX_TRAIL_PTS)%nat
      /\ forall p q, In (p, q) (adjacentPairs seg) ->
           exists x z,
             v_x q = fround x /\ v_z q = fround z
             /\ 0.0004 <= (x - v_x p) * (x - v_x p) + (z - v_z p) * (z - v_z p)
  end.

(** The positions of the blue markers, in the order of the markers. *)
Definition blueMarkers (sc : Scene) : list Point :=
  map (fun m => mkPoint (v_x (fst m)) (v_z (fst m)))
      (filter (fun m => snd m) (aimPtGroup sc)).

(** The newest marker, if any, is red. *)
Definition lastMarkerRed (sc : Scene) : Prop :=
  match rev (aimPtGroup sc) with
  | (_, true) :: _ => False
  | _ => True
  end.

(** The valid aim points are the positions of the blue markers, and
    while the ball moves the marker of its shot is still red. *)
Definition markers_ok (g : Game) : Prop :=
  validAimPts (scene g) = blueMarkers (scene g)
  /\ (ballMoving (ball g) = true -> lastMarkerRed (scene g)).

(** At most one break point, and none before the lock. *)
Definition break_ok (sh : Shot) : Prop :=
  (breakLocked sh = false -> breakPoints sh = [])
  /\ (length (breakPoints sh) <= 1)%nat.

(** The settings are within the ranges that the keys keep. *)
Definition settings_in_range (a : App) : Prop :=
  let c := controls (game a) in
  1.0 <= stimpM c <= 6.0
  /\ LAUNCH_ANGLE_MIN <= launchAngleDeg c <= LAUNCH_ANGLE_MAX
  /\ - ANGLE_MAX_DEG <= angleDeg c <= ANGLE_MAX_DEG
  /\ 0 <= TRUE_ROLL_STRENGTH (terrain (game a)) <= 20
  /\ BALL_CIRCLE_MIN <= ballCircleRadius a <= BALL_CIRCLE_MAX
  /\ ZOOM_MIN <= fov a <= ZOOM_MAX
  /\ (flowMode a < 4)%nat.

(** A ball flagged on its spawn circle is at rest at the point of the
    circle of angle [ballAngle]. *)
Definition on_circle_ok (a : App) : Prop :=
  let b := ball (game a) in
  ballOnCircle b = true ->
  ballMoving b = false
  /\ v_x (ballPos b) = ballCircleRadius a * cos (ballAngle a)
  /\ v_z (ballPos b) = ballCircleRadius a * sin (ballAngle a).

End PhysicsFacts.

(** ** The same code on binary64 numbers

    Where rounding decides, functions are given a second time on the
    kernel's binary64 floating-point numbers, whose operations are the
    IEEE 754 ones of JavaScript numbers. *)

Module Binary64.

Import PrimFloat FloatOps SpecFloat.
#[local] Open Scope float_scope.

Definition zero : float := 0.

(** A JavaScript number that holds the integer [z]. *)
Definition ofZ (z : Z) : float :=
  match z with
  | Z0 => 0
  | Zpos p => SF2Prim (S754_finite false p 0)
  | Zneg p => SF2Prim (S754_finite true p 0)
  end.

(** [Math.floor] of a finite number, as an integer. *)
Definition floorZ (f : float) : Z :=
  match Prim2SF f with
  | S754_finite s m e =>
      let n := if s then Zneg m else Zpos m in
      if (0 <=? e)%Z then Z.shiftl n e else Z.shiftr n (- e)
  | _ => 0%Z
  end.

(** [Math.max] and [Math.min] of two numbers. *)
Definition fmax (a b : float) : float :=
  if is_nan a then a else if is_nan b then b
  else if a <? b then b else if b <? a then a
  else if a =? 0 then a + b else a.

Definition fmin (a b : float) : float :=
  if is_nan a then a else if is_nan b then b
  else if a <? b then a else if b <? a then b
  else if a =? 0 then - ((- a) + (- b)) else a.

(** Neither an infinity nor NaN. *)
Definition isFinite (f : float) : bool :=
  match Prim2SF f with
  | S754_zero _ | S754_finite _ _ _ => true
  | _ => false
  end.

(** A dyadic number [n * 2^e]; the mantissa and the exponent of a
    finite number; the real number that it stands for. *)
Definition Dyadic : Type := (Z * Z)%type.

Definition dyadicOf (f : float) : Dyadic :=
  match Prim2SF f with
  | S754_finite s m e => (if s then Zneg m else Zpos m, e)
  | _ => (0, 0)%Z
  end.

Definition dval (d : Dyadic) : R := (IZR (fst d) * powerRZ 2 (snd d))%R.

Definition valueOf (f : float) : R := dval (dyadicOf f).

(** Differences and products of dyadic numbers, without rounding. *)
Definition dsub (a b : Dyadic) : Dyadic :=
  let e := Z.min (snd a) (snd b) in
  (fst a * 2 ^ (snd a - e) - fst b * 2 ^ (snd b - e), e)%Z.

Definition dmul (a b : Dyadic) : Dyadic :=
  (fst a * fst b, snd a + snd b)%Z.

End Binary64.

(** *** terrain.js on binary64 numbers *)

Module Terrain64.

Import PrimFloat Binary64.
#[local] Set Warnings "-inexact-float".
#[local] Open Scope float_scope.

Definition TR_GRID_SIZE : nat := 50.
Definition TR_WORLD_SIZE : float := 12.0.
Definition TR_BASE_AMP : float := 0.5.
Definition TR_TARGET_AMP : float := 0.1.
Definition TR_SMOOTH_PASSES : nat := 8.
Definition HEIGHT_SCALE : float := 0.01.

(** The value returned by one call of the closure of [mulberry32], and
    the new content of the captured variable. *)
Definition mulberry32_next (s : Z) : float * Z :=
  let (u, s') := Terrain.mulberry32_bits s in
  (ofZ u / 4294967296, s').

(** [rng.uniform(lo, hi)] of a seeded generator; the state is the
    captured variable. *)
Definition uniform (lo hi : float) (s : Z) : float * Z :=
  let (v, s') := mulberry32_next s in (lo + v * (hi - lo), s').

Definition Grid : Type := list (list float).

Definition cell (grid : Grid) (y x : Z) : float :=
  nth (Z.to_nat x) (nth (Z.to_nat y) grid []) 0.

Fixpoint makeRow (n : nat) (amplitude : float) (s : Z) : list float * Z :=
  match n with
  | O => ([], s)
  | S n' =>
      let (v, s1) := uniform (- amplitude) amplitude s in
      let (row, s2) := makeRow n' amplitude s1 in
      (v :: row, s2)
  end.

Fixpoint makeRows (n size : nat) (amplitude : float) (s : Z) : Grid * Z :=
  match n with
  | O => ([], s)
  | S n' =>
      let (row, s1) := makeRow size amplitude s in
      let (rows, s2) := makeRows n' size amplitude s1 in
      (row :: rows, s2)
  end.

Definition makeNoiseGrid (size : nat) (amplitude : float) (s : Z) : Grid * Z :=
  makeRows size size amplitude s.

Definition smoothAdd (cur : Grid) (size yy xx : Z) (acc : float * float)
    : float * float :=
  if Terrain.inside size yy xx then (fst acc + cell cur yy xx, snd acc + 1) else acc.

Definition smoothCell (cur : Grid) (size : Z) (y x : Z) : float :=
  let acc :=
    fold_left (fun acc dy =>
      fold_left (fun acc dx => smoothAdd cur size (y + dy) (x + dx) acc)
                Terrain.offsets acc)
      Terrain.offsets (0, 0) in
  fst acc / snd acc.

Definition smoothPass (size : nat) (cur : Grid) : Grid :=
  map (fun y => map (fun x => smoothCell cur (Z.of_nat size) (Z.of_nat y) (Z.of_nat x))
                    (seq 0 size))
      (seq 0 size).

Fixpoint smoothLoop (size passes : nat) (cur : Grid) : Grid :=
  match passes with
  | O => cur
  | S p => smoothLoop size p (smoothPass size cur)
  end.

Definition smoothGrid (grid : Grid) (passes : nat) : Grid :=
  smoothLoop (length grid) passes grid.

Definition maxAbsOf (grid : Grid) : float :=
  fold_left (fun m row => fold_left (fun m v => fmax m (abs v)) row m) grid 0.

Definition normalizeGrid (grid : Grid) (targetAmp : float) : Grid :=
  let maxAbs := maxAbsOf grid in
  if maxAbs <? 1e-9 then grid
  else
    let scale := targetAmp / maxAbs in
    map (fun row => map (fun v => v * scale) row) grid.

Definition bilinearSample (grid : Grid) (x z worldSize : float) : float :=
  let size := Z.of_nat (length grid) in
  let half := worldSize / 2.0 in
  let u := fmin (fmax ((x + half) / worldSize) 0) 1 in
  let v := fmin (fmax ((z + half) / worldSize) 0) 1 in
  let fx := u * ofZ (size - 1) in
  let fy := v * ofZ (size - 1) in
  let x0 := floorZ fx in
  let y0 := floorZ fy in
  let x1 := Z.min (x0 + 1) (size - 1) in
  let y1 := Z.min (y0 + 1) (size - 1) in
  let tx := fx - ofZ x0 in
  let ty := fy - ofZ y0 in
  let v00 := cell grid y0 x0 in
  let v10 := cell grid y0 x1 in
  let v01 := cell grid y1 x0 in
  let v11 := cell grid y1 x1 in
  (v00 * (1 - tx) + v10 * tx) * (1 - ty) + (v01 * (1 - tx) + v11 * tx) * ty.

(** The height grid that [buildTrueRollGrids(seed)] stores: the third
    grid drawn from the generator of the seed. *)
Definition heightGridOf (seed : Z) : Grid :=
  let s0 := Terrain.int32 seed in
  let (_, s1) := makeNoiseGrid TR_GRID_SIZE TR_BASE_AMP s0 in
  let (_, s2) := makeNoiseGrid TR_GRID_SIZE TR_BASE_AMP s1 in
  let (g3, _) := makeNoiseGrid TR_GRID_SIZE TR_BASE_AMP s2 in
  normalizeGrid (smoothGrid g3 (TR_SMOOTH_PASSES + 2)) TR_TARGET_AMP.

(** [getTerrainHeight(x, z)] after [buildTrueRollGrids(seed)]. *)
Definition getTerrainHeight (seed : Z) (x z : float) : float :=
  bilinearSample (heightGridOf seed) x z TR_WORLD_SIZE * HEIGHT_SCALE.

(** A corner of the world square. *)
Definition cornerX : float := -6.
Definition cornerZ : float := 6.

End Terrain64.

(** *** The aim-zone hull on binary64 numbers *)

Module Geometry64.

Import PrimFloat Binary64.
#[local] Set Warnings "-inexact-float".
#[local] Open Scope float_scope.

(** An object [{x, z}]. *)
Record Point : Type := mkPoint { p_x : float; p_z : float }.

(** The comparator [(a, b) => a.x - b.x || a.z - b.z]: the first operand
    of [||] is taken unless it is 0 or NaN. *)
Definition comparePoints (a b : Point) : float :=
  let d := p_x a - p_x b in
  if (d =? 0) || is_nan d then p_z a - p_z b else d.

(** The sort reads a comparator result that is NaN as 0. *)
Definition notAfter (p q : Point) : bool :=
  let c := comparePoints p q in (c <=? 0) || is_nan c.

Fixpoint insertPoint (p : Point) (l : list Point) : list Point :=
  match l with
  | [] => [p]
  | q :: l' =>
      if notAfter p q then p :: q :: l'
      else q :: insertPoint p l'
  end.

Definition sortPoints (points : list Point) : list Point :=
  fold_right insertPoint [] points.

Definition cross (O A B : Point) : float :=
  (p_x A - p_x O) * (p_z B - p_z O) - (p_z A - p_z O) * (p_x B - p_x O).

Fixpoint popWhile (stack : list Point) (p : Point) : list Point :=
  match stack with
  | b :: ((a :: _) as rest) =>
      if cross a b p <=? 0 then popWhile rest p else stack
  | _ => stack
  end.

Definition pushPoint (stack : list Point) (p : Point) : list Point :=
  p :: popWhile stack p.

Definition buildChain (pts : list Point) : list Point :=
  fold_left pushPoint pts [].

Definition convexHull (points : list Point) : list Point :=
  let pts := sortPoints points in
  if (length pts <=? 2)%nat then pts
  else
    let lower := buildChain pts in
    let upper := buildChain (rev pts) in
    rev (tl lower) ++ rev (tl upper).

(** **** Vocabulary: the exact values *)

(** The point of the plane that a point with finite coordinates stands
    for. *)
Definition toPoint (p : Point) : Geometry.Point :=
  Geometry.mkPoint (valueOf (p_x p)) (valueOf (p_z p)).

Definition finitePoint (p : Point) : bool := isFinite (p_x p) && isFinite (p_z p).

(** The comparator and the cross product without rounding. *)
Definition exactCompare (a b : Point) : Dyadic :=
  let d := dsub (dyadicOf (p_x a)) (dyadicOf (p_x b)) in
  if (fst d =? 0)%Z then dsub (dyadicOf (p_z a)) (dyadicOf (p_z b)) else d.

Definition exactCross (O A B : Point) : Dyadic :=
  dsub (dmul (dsub (dyadicOf (p_x A)) (dyadicOf (p_x O)))
             (dsub (dyadicOf (p_z B)) (dyadicOf (p_z O))))
       (dmul (dsub (dyadicOf (p_z A)) (dyadicOf (p_z O)))
             (dsub (dyadicOf (p_x B)) (dyadicOf (p_x O)))).

(** The two points stand for the same point of the plane. *)
Definition samePoint (a b : Point) : bool :=
  ((fst (dsub (dyadicOf (p_x a)) (dyadicOf (p_x b))) =? 0)
   && (fst (dsub (dyadicOf (p_z a)) (dyadicOf (p_z b))) =? 0))%Z.

Fixpoint distinctPoints (l : list Point) : bool :=
  match l with
  | [] => true
  | p :: l' => forallb (fun q => negb (samePoint p q)) l' && distinctPoints l'
  end.

(** Every test that the sort and the two loops can make on points of
    [l] has, rounded, the outcome of its exact value. *)
Definition signsExact (l : list Point) : bool :=
  forallb (fun p =>
    forallb (fun q =>
      Bool.eqb (notAfter p q) (fst (exactCompare p q) <=? 0)%Z
      && forallb (fun r =>
           Bool.eqb (cross p q r <=? 0) (fst (exactCross p q r) <=? 0)%Z) l) l) l.

(** The exact cross product of every three points of [l] is 0. *)
Definition exactlyCollinear (l : list Point) : bool :=
  forallb (fun a =>
    forallb (fun b =>
      forallb (fun c => (fst (exactCross a b c) =? 0)%Z) l) l) l.

(** The points are finite and distinct, and rounding changes the
    outcome of no test. *)
Definition wellConditioned (l : list Point) : bool :=
  forallb finitePoint l && distinctPoints l && signsExact l.

(** The scenario of the spec: the corners of a rectangle and one interior
    point. *)
Definition rectangleCorners : list Point :=
  [mkPoint 0 0; mkPoint 4 0; mkPoint 4 3; mkPoint 0 3].

Definition rectangleWithInterior : list Point :=
  rectangleCorners ++ [mkPoint 2 1].

(** Three points on one line. *)
Definition threeOnALine : list Point := [mkPoint 0 0; mkPoint 1 1; mkPoint 2 2].

(** Four points that are nearly on one line. *)
Definition nearlyCollinear : list Point :=
  [mkPoint 3.9 4.4; mkPoint 1.2 1.7; mkPoint 0.7 1.2; mkPoint 1.5 2.0].

End Geometry64.
(** * Properties *)

(** ** Deciding comparisons of reals *)

Lemma Rltb_true (a b : R) : a < b -> Rltb a b = true.
Proof. intros H; unfold Rltb; destruct (Rlt_dec a b); [reflexivity | contradiction]. Qed.

Lemma Rltb_false (a b : R) : b <= a -> Rltb a b = false.
Proof. intros H; unfold Rltb; destruct (Rlt_dec a b); [lra | reflexivity]. Qed.

Lemma Rleb_true (a b : R) : a <= b -> Rleb a b = true.
Proof. intros H; unfold Rleb; destruct (Rle_dec a b); [reflexivity | contradiction]. Qed.

Lemma Rleb_false (a b : R) : b < a -> Rleb a b = false.
Proof. intros H; unfold Rleb; destruct (Rle_dec a b); [lra | reflexivity]. Qed.

Lemma Rltb_iff (a b : R) : Rltb a b = true <-> a < b.
Proof.
  unfold Rltb; destruct (Rlt_dec a b); split; intros; try easy.
Qed.

Lemma Rleb_iff (a b : R) : Rleb a b = true <-> a <= b.
Proof.
  unfold Rleb; destruct (Rle_dec a b); split; intros; try easy.
Qed.

Lemma Rltb_iff_false (a b : R) : Rltb a b = false <-> b <= a.
Proof.
  unfold Rltb; destruct (Rlt_dec a b); split; intros; try easy; lra.
Qed.

Lemma Rleb_iff_false (a b : R) : Rleb a b = false <-> b < a.
Proof.
  unfold Rleb; destruct (Rle_dec a b); split; intros; try easy; lra.
Qed.

Lemma hypot_nonneg (a b : R) : 0 <= hypot a b.
Proof. unfold hypot; apply sqrt_pos. Qed.

Lemma hypot_0_0 : hypot 0 0 = 0.
Proof. unfold hypot; replace (0 * 0 + 0 * 0) with 0 by lra; apply sqrt_0. Qed.

Lemma hypot_x_0 (a : R) : hypot a 0 = Rabs a.
Proof.
  unfold hypot; replace (a * a + 0 * 0) with (Rsqr a) by (unfold Rsqr; lra).
  apply sqrt_Rsqr_abs.
Qed.

Lemma hypot_sqr (a b : R) : hypot a b * hypot a b = a * a + b * b.
Proof. unfold hypot; apply sqrt_sqrt; nra. Qed.

(** Rewrites the comparisons of the goal whose outcome linear arithmetic
    settles. *)
Ltac rdecide :=
  repeat match goal with
  | |- context [Rltb ?a ?b] =>
      first [ rewrite (Rltb_true a b) by lra | rewrite (Rltb_false a b) by lra ]
  | |- context [Rleb ?a ?b] =>
      first [ rewrite (Rleb_true a b) by lra | rewrite (Rleb_false a b) by lra ]
  end.

Import Terrain Geometry Physics.

(** ** Shot launch *)

(** C9.  When the aim point coincides with the ball's position in the
    horizontal plane, [shoot] returns at its guard: the whole program
    state, and with it the ball's position, velocity, spin, flags, bounce
    count and travel distance, is unchanged. *)
Theorem shoot_zero_aim_noop (g : Game) :
  v_x (aimWorld (controls g)) = v_x (ballPos (ball g)) ->
  v_z (aimWorld (controls g)) = v_z (ballPos (ball g)) ->
  shoot g = g
  /\ ballPos (ball (shoot g)) = ballPos (ball g)
  /\ ballVel (ball (shoot g)) = ballVel (ball g)
  /\ ballSpin (ball (shoot g)) = ballSpin (ball g)
  /\ ballMoving (ball (shoot g)) = ballMoving (ball g)
  /\ ballAirborne (ball (shoot g)) = ballAirborne (ball g)
  /\ ballOnCircle (ball (shoot g)) = ballOnCircle (ball g)
  /\ inHole (ball (shoot g)) = inHole (ball g)
  /\ bounceCount (ball (shoot g)) = bounceCount (ball g)
  /\ travelDist (ball (shoot g)) = travelDist (ball g).
Proof.
  intros Hx Hz.
  assert (E : shoot g = g).
  { unfold shoot. rewrite Hx, Hz.
    rewrite !Rminus_diag, hypot_0_0.
    rewrite Rltb_true by lra. reflexivity. }
  rewrite E. repeat split; reflexivity.
Qed.

(** The guard fires on [restingGame], whose aim point is on the ball. *)
Lemma shoot_zero_aim_noop_witness : shoot restingGame = restingGame.
Proof.
  exact (proj1 (shoot_zero_aim_noop restingGame eq_refl eq_refl)).
Defined.

(** ** Ghost-rest simulation *)

Lemma ghostLoop_steps_le (tr : TerrainState) (c : Controls) (n : nat) :
  forall (s : Ghost) (k : nat), (snd (ghostLoop tr c n s k) <= k + n)%nat.
Proof.
  induction n as [|n IH]; intros s k; simpl.
  - lia.
  - destruct (Rltb (hypot (g_vx s) (g_vz s)) 0.02 && negb (g_airborne s)); simpl.
    + lia.
    + destruct (Rgtb _ _ || Rgtb _ _); simpl.
      * lia.
      * specialize (IH (ghostStep tr c s) (S k)). lia.
Qed.

Lemma GHOST_MAX_STEPS_succ : GHOST_MAX_STEPS = S (Z.to_nat 19999).
Proof. unfold GHOST_MAX_STEPS. rewrite <- Z2Nat.inj_succ by lia. reflexivity. Qed.

(** C8.  Started with zero velocity, [simulateGhostRest] leaves its loop
    at the stop test of the first iteration, having taken no integration
    step, and returns the start [(x, z)]; and whatever the start, it takes
    at most 20000 integration steps. *)
Theorem ghost_rest_at_rest_and_bounded :
  (forall tr c startPos startSpin,
      simulateGhostRest tr c startPos (mkVec3 0 0 0) startSpin
        = (v_x startPos, v_z startPos)
      /\ snd (ghostRun tr c startPos (mkVec3 0 0 0) startSpin) = 0%nat)
  /\ (forall tr c startPos startVel startSpin,
      (Z.of_nat (snd (ghostRun tr c startPos startVel startSpin)) <= 20000)%Z).
Proof.
  split.
  - intros tr c startPos startSpin.
    unfold simulateGhostRest, ghostRun.
    rewrite GHOST_MAX_STEPS_succ. cbn [ghostLoop g_vx g_vz g_airborne v_x v_z].
    rewrite hypot_0_0, Rltb_true by lra.
    cbn. split; reflexivity.
  - intros tr c startPos startVel startSpin.
    unfold ghostRun.
    pose proof (ghostLoop_steps_le tr c GHOST_MAX_STEPS
      (mkGhost (v_x startPos) (v_y startPos) (v_z startPos)
               (v_x startVel) (v_y startVel) (v_z startVel) startSpin false) 0) as H.
    unfold GHOST_MAX_STEPS in *. lia.
Qed.

(** ** The physics step: frame lemmas *)

(** Destructs the tests of a goal, outermost first. *)
Ltac split_ifs :=
  repeat match goal with
  | |- context [if ?c then _ else _] =>
      lazymatch c with
      | context [if _ then _ else _] => fail
      | _ => destruct c
      end
  end.

Lemma integrate_frame (dt : R) (g : Game) :
  let g1 := fst (integrate dt g) in
  terrain g1 = terrain g /\ controls g1 = controls g
  /\ shot g1 = shot g /\ scene g1 = scene g
  /\ ballMoving (ball g1) = ballMoving (ball g)
  /\ ballOnCircle (ball g1) = ballOnCircle (ball g)
  /\ inHole (ball g1) = inHole (ball g).
Proof.
  unfold integrate. cbv zeta.
  repeat match goal with
  | |- context [match ?e with pair _ _ => _ end] => destruct e
  end.
  cbn [fst withBall terrain controls shot scene ball ballMoving ballOnCircle inHole].
  repeat split; reflexivity.
Qed.

Lemma updatePhysics_not_moving (dt : R) (g : Game) :
  ballMoving (ball g) = false -> updatePhysics dt g = g.
Proof. intros H; unfold updatePhysics; rewrite H; reflexivity. Qed.

Lemma runPhysics_not_moving (dts : list R) (g : Game) :
  ballMoving (ball g) = false -> runPhysics dts g = g.
Proof.
  intros H; induction dts as [|dt dts IH]; cbn; [reflexivity|].
  rewrite updatePhysics_not_moving by exact H. exact IH.
Qed.

Lemma breakDetect_not_moving (g : Game) :
  ballMoving (ball g) = false -> breakDetect g = g.
Proof. intros H; unfold breakDetect; rewrite H; reflexivity. Qed.

Lemma breakDetect_frame (g : Game) :
  terrain (breakDetect g) = terrain g /\ controls (breakDetect g) = controls g
  /\ ball (breakDetect g) = ball g /\ scene (breakDetect g) = scene g.
Proof.
  unfold breakDetect.
  destruct (ballMoving (ball g) && negb (breakLocked (shot g))
            && negb (inHole (ball g)) && negb (ballAirborne (ball g)));
    [|repeat split; reflexivity].
  destruct (prevVz (shot g)); cbv zeta; split_ifs; cbn; repeat split; reflexivity.
Qed.

(** ** Stop test *)

(** C4.  When after integration the ball is grounded, slower than
    0.02 units/s horizontally and has not reached the hole, the step clears
    the moving flag and sets the velocity to (0, 0, 0) without capture (the
    in-hole flag and the committed position are kept); every later step,
    whatever its elapsed time, returns at the guard and leaves the whole
    state unchanged, so the stop happens once. *)
Theorem stop_exits_rolling_once (dt : R) (g g1 : Game) (c : R) :
  ballMoving (ball g) = true ->
  integrate dt g = (g1, c) ->
  ballAirborne (ball g1) = false ->
  speedXz (ball g1) < 0.02 ->
  reachesHole (ball g1) c = false ->
  let g' := updatePhysics dt g in
  ballMoving (ball g') = false
  /\ ballVel (ball g') = mkVec3 0 0 0
  /\ inHole (ball g') = inHole (ball g)
  /\ ballPos (ball g') = ballPos (ball g1)
  /\ ballAirborne (ball g') = false
  /\ (forall dt', updatePhysics dt' g' = g')
  /\ (forall dts, runPhysics dts g' = g').
Proof.
  intros Hmov Hint Hair Hslow Hreach g'.
  assert (Hin : inHole (ball g1) = inHole (ball g)).
  { pose proof (integrate_frame dt g) as F. rewrite Hint in F. apply F. }
  assert (E : g' = mkGame (terrain g1) (controls g1)
      (mkBall (ballPos (ball g1)) (mkVec3 0 0 0)
              false (ballOnCircle (ball g1)) (ballAirborne (ball g1)) (inHole (ball g1))
              (bounceCount (ball g1)) (maxHeight (ball g1)) (ballSpin (ball g1))
              (travelDist (ball g1)))
      (shot g1) (colorLastAimPoint false (scene g1))).
  { unfold g', updatePhysics. rewrite Hmov, Hint. cbn [negb].
    unfold holeCheck. rewrite Hreach.
    unfold speedXz in Hslow. rewrite (Rltb_true _ _ Hslow), Hair. cbn [negb andb].
    apply breakDetect_not_moving. reflexivity. }
  rewrite E. cbn [ball ballMoving ballVel inHole ballPos ballAirborne].
  rewrite Hin, Hair.
  do 5 (split; [reflexivity|]). split.
  - intros dt'. apply updatePhysics_not_moving. reflexivity.
  - intros dts. apply runPhysics_not_moving. reflexivity.
Qed.

(** ** Terrain grids: shape *)

Lemma makeRow_length (n : nat) (a : R) :
  forall rng, length (fst (makeRow n a rng)) = n.
Proof.
  induction n as [|n IH]; intros rng; cbn; [reflexivity|].
  destruct (uniform (- a) a rng) as [v rng1].
  specialize (IH rng1). destruct (makeRow n a rng1) as [row rng2].
  cbn in *. now rewrite IH.
Qed.

Lemma makeRows_square (n size : nat) (a : R) :
  forall rng, square_rows n size (fst (makeRows n size a rng)).
Proof.
  induction n as [|n IH]; intros rng; cbn.
  - split; [reflexivity | constructor].
  - pose proof (makeRow_length size a rng) as Hrow.
    destruct (makeRow size a rng) as [row rng1].
    specialize (IH rng1). destruct (makeRows n size a rng1) as [rows rng2].
    unfold square_rows in *. cbn in *. destruct IH as [Hlen Hall].
    split; [now rewrite Hlen | constructor; assumption].
Qed.

Lemma makeNoiseGrid_square (size : nat) (a : R) (rng : Rng) :
  square_rows size size (fst (makeNoiseGrid size a rng)).
Proof. apply makeRows_square. Qed.

Lemma smoothPass_square (n : nat) (g : Grid) :
  square_rows n n (smoothPass n g).
Proof.
  unfold smoothPass, square_rows. split.
  - now rewrite length_map, length_seq.
  - apply Forall_forall. intros row Hin.
    apply in_map_iff in Hin. destruct Hin as [y [<- _]].
    now rewrite length_map, length_seq.
Qed.

Lemma smoothLoop_square (passes n : nat) :
  forall g, square_rows n n g -> square_rows n n (smoothLoop n passes g).
Proof.
  induction passes as [|p IH]; intros g Hg; cbn; [exact Hg|].
  apply IH, smoothPass_square.
Qed.

Lemma smoothGrid_square (passes n : nat) (g : Grid) :
  square_rows n n g -> square_rows n n (smoothGrid g passes).
Proof.
  intros Hg. unfold smoothGrid. rewrite (proj1 Hg). now apply smoothLoop_square.
Qed.

Lemma normalizeGrid_square (n m : nat) (g : Grid) (t : R) :
  square_rows n m g -> square_rows n m (normalizeGrid g t).
Proof.
  intros [Hlen Hall]. unfold normalizeGrid.
  destruct (Rltb (maxAbsOf g) 1e-9); [split; assumption|].
  split.
  - now rewrite length_map.
  - apply Forall_forall. intros row Hin.
    apply in_map_iff in Hin. destruct Hin as [r [<- Hr]].
    rewrite length_map. rewrite Forall_forall in Hall. now apply Hall.
Qed.

(** ** Terrain grids: amplitude *)

Lemma fold_Rmax_abs_ge_init (row : list R) :
  forall m, m <= fold_left (fun m v => Rmax m (Rabs v)) row m.
Proof.
  induction row as [|v row IH]; intros m; cbn; [lra|].
  eapply Rle_trans; [apply (Rmax_l m (Rabs v)) | apply IH].
Qed.

Lemma fold_Rmax_abs_ge_in (row : list R) :
  forall m v, In v row -> Rabs v <= fold_left (fun m v => Rmax m (Rabs v)) row m.
Proof.
  induction row as [|w row IH]; intros m v Hin; cbn; [contradiction|].
  destruct Hin as [-> | Hin].
  - eapply Rle_trans; [apply (Rmax_r m (Rabs v)) | apply fold_Rmax_abs_ge_init].
  - now apply IH.
Qed.

Lemma fold_rows_ge_init (g : Grid) :
  forall m,
    m <= fold_left (fun m row => fold_left (fun m v => Rmax m (Rabs v)) row m) g m.
Proof.
  induction g as [|row g IH]; intros m; cbn; [lra|].
  eapply Rle_trans; [apply (fold_Rmax_abs_ge_init row m) | apply IH].
Qed.

Lemma fold_rows_ge_in (g : Grid) :
  forall m row v, In row g -> In v row ->
    Rabs v <= fold_left (fun m row => fold_left (fun m v => Rmax m (Rabs v)) row m) g m.
Proof.
  induction g as [|r g IH]; intros m row v Hrow Hv; cbn; [contradiction|].
  destruct Hrow as [-> | Hrow].
  - eapply Rle_trans; [apply (fold_Rmax_abs_ge_in row m v Hv) | apply fold_rows_ge_init].
  - now apply (IH _ row).
Qed.

Lemma maxAbsOf_nonneg (g : Grid) : 0 <= maxAbsOf g.
Proof. apply fold_rows_ge_init. Qed.

Lemma maxAbsOf_ge (g : Grid) (row : list R) (v : R) :
  In row g -> In v row -> Rabs v <= maxAbsOf g.
Proof. apply fold_rows_ge_in. Qed.

(** After [normalizeGrid] no cell exceeds the target amplitude, in the
    scaled case and in the unscaled one. *)
Lemma normalizeGrid_bounded (g : Grid) (t : R) :
  1e-9 <= t -> cells_within t (normalizeGrid g t).
Proof.
  intros Ht row v Hrow Hv. unfold normalizeGrid in Hrow.
  destruct (Rltb (maxAbsOf g) 1e-9) eqn:E.
  - apply Rltb_iff in E. pose proof (maxAbsOf_ge g row v Hrow Hv). lra.
  - apply Rltb_iff_false in E.
    apply in_map_iff in Hrow. destruct Hrow as [r [<- Hr]].
    apply in_map_iff in Hv. destruct Hv as [w [<- Hw]].
    pose proof (maxAbsOf_ge g r w Hr Hw) as Hle.
    set (M := maxAbsOf g) in *.
    assert (HM : 0 < M) by lra.
    unfold Rdiv. rewrite <- Rmult_assoc, Rabs_mult.
    rewrite (Rabs_pos_eq (/ M)) by (left; now apply Rinv_0_lt_compat).
    rewrite Rabs_mult, (Rabs_pos_eq t) by lra.
    apply (Rmult_le_reg_r M); [exact HM|].
    rewrite Rmult_assoc, Rinv_l, Rmult_1_r by lra.
    pose proof (Rabs_pos w). nra.
Qed.

(** ** Bilinear sampling *)

Lemma cell_bounded (g : Grid) (n : nat) (B : R) (y x : Z) :
  square_rows n n g -> cells_within B g ->
  (0 <= y < Z.of_nat n)%Z -> (0 <= x < Z.of_nat n)%Z ->
  Rabs (cell g y x) <= B.
Proof.
  intros [Hlen Hall] Hb Hy Hx. unfold cell.
  assert (Hrow : In (nth (Z.to_nat y) g []) g) by (apply nth_In; lia).
  apply (Hb (nth (Z.to_nat y) g [])); [exact Hrow|].
  rewrite Forall_forall in Hall. specialize (Hall _ Hrow).
  apply nth_In. lia.
Qed.

Lemma clamp_unit (e : R) : 0 <= Rmin (Rmax e 0) 1 <= 1.
Proof.
  unfold Rmin, Rmax.
  destruct (Rle_dec e 0); destruct (Rle_dec _ 1); lra.
Qed.

Lemma floor_bounds (r : R) : IZR (floor r) <= r < IZR (floor r) + 1.
Proof. unfold floor. pose proof (base_Int_part r). lra. Qed.

Lemma floor_index (r : R) (m : Z) :
  0 <= r <= IZR m -> (0 <= floor r <= m)%Z.
Proof.
  intros [H0 Hm]. pose proof (floor_bounds r) as [Hlo Hhi]. split.
  - assert (H : (-1 < floor r)%Z) by (apply lt_IZR; lra). lia.
  - apply le_IZR. lra.
Qed.

Lemma Rabs_le_between (a b : R) : Rabs a <= b -> - b <= a <= b.
Proof. unfold Rabs; destruct (Rcase_abs a); lra. Qed.

Lemma weighted_mean_bounded (a b t B : R) :
  0 <= t <= 1 -> Rabs a <= B -> Rabs b <= B -> Rabs (a * (1 - t) + b * t) <= B.
Proof.
  intros Ht Ha Hb.
  apply Rabs_le. apply Rabs_le_between in Ha. apply Rabs_le_between in Hb.
  split; nra.
Qed.

(** On a non-empty square grid every index that [bilinearSample] uses is
    in range, and the sample is a convex combination of four cells. *)
Lemma bilinearSample_bounded (g : Grid) (n : nat) (B x z w : R) :
  (0 < n)%nat -> square_rows n n g -> cells_within B g ->
  Rabs (bilinearSample g x z w) <= B.
Proof.
  intros Hn Hsq Hb. unfold bilinearSample.
  destruct Hsq as [Hlen Hall]. rewrite Hlen.
  set (m := (Z.of_nat n - 1)%Z).
  assert (Hm : (0 <= m)%Z) by (unfold m; lia).
  assert (HmR : 0 <= IZR m) by (apply IZR_le; exact Hm).
  set (u := Rmin (Rmax ((x + w / 2.0) / w) 0) 1).
  set (v := Rmin (Rmax ((z + w / 2.0) / w) 0) 1).
  pose proof (clamp_unit ((x + w / 2.0) / w)) as Hu. fold u in Hu.
  pose proof (clamp_unit ((z + w / 2.0) / w)) as Hv. fold v in Hv.
  assert (Hfx : 0 <= u * IZR m <= IZR m) by nra.
  assert (Hfy : 0 <= v * IZR m <= IZR m) by nra.
  pose proof (floor_index _ _ Hfx) as Hx0.
  pose proof (floor_index _ _ Hfy) as Hy0.
  pose proof (floor_bounds (u * IZR m)) as Htx.
  pose proof (floor_bounds (v * IZR m)) as Hty.
  set (x0 := floor (u * IZR m)) in *.
  set (y0 := floor (v * IZR m)) in *.
  assert (Hsq : square_rows n n g) by (split; assumption).
  assert (Hx1 : (0 <= Z.min (x0 + 1) m < Z.of_nat n)%Z) by (unfold m in *; lia).
  assert (Hy1 : (0 <= Z.min (y0 + 1) m < Z.of_nat n)%Z) by (unfold m in *; lia).
  assert (Hx0' : (0 <= x0 < Z.of_nat n)%Z) by (unfold m in *; lia).
  assert (Hy0' : (0 <= y0 < Z.of_nat n)%Z) by (unfold m in *; lia).
  apply weighted_mean_bounded; [lra | |];
    apply weighted_mean_bounded; try lra;
    apply (cell_bounded g n); assumption.
Qed.

(** ** Terrain height *)

Lemma finished_grid_ok (g : Grid) (passes : nat) :
  square_rows TR_GRID_SIZE TR_GRID_SIZE g ->
  let h := normalizeGrid (smoothGrid g passes) TR_TARGET_AMP in
  square_rows TR_GRID_SIZE TR_GRID_SIZE h /\ cells_within TR_TARGET_AMP h.
Proof.
  intros Hg h. split.
  - apply normalizeGrid_square, smoothGrid_square, Hg.
  - apply normalizeGrid_bounded. unfold TR_TARGET_AMP. lra.
Qed.

Lemma buildGrids_height_ok (rng : Rng) :
  let '(_, _, h) := buildGrids rng in
  square_rows TR_GRID_SIZE TR_GRID_SIZE h /\ cells_within TR_TARGET_AMP h.
Proof.
  unfold buildGrids.
  destruct (makeNoiseGrid TR_GRID_SIZE TR_BASE_AMP rng) as [g1 rng1].
  destruct (makeNoiseGrid TR_GRID_SIZE TR_BASE_AMP rng1) as [g2 rng2].
  pose proof (makeNoiseGrid_square TR_GRID_SIZE TR_BASE_AMP rng2) as H3.
  destruct (makeNoiseGrid TR_GRID_SIZE TR_BASE_AMP rng2) as [g3 rng3].
  apply finished_grid_ok, H3.
Qed.

Lemma build_height_grid_ok (seed : option Z) (src : nat -> R) (st : TerrainState) :
  height_grid_ok (buildTrueRollGrids seed src st).
Proof.
  unfold buildTrueRollGrids, height_grid_ok.
  pose proof (buildGrids_height_ok (makeRng seed src)) as H.
  destruct (buildGrids (makeRng seed src)) as [[ax ay] h]. exact H.
Qed.

Lemma applyOp_height_grid_ok (st : TerrainState) (op : TerrainOp) :
  height_grid_ok st -> height_grid_ok (applyOp st op).
Proof.
  intros H. destruct op as [seed src | s]; cbn.
  - apply build_height_grid_ok.
  - exact H.
Qed.

Lemma runTerrain_height_grid_ok (ops : list TerrainOp) :
  forall st, height_grid_ok st -> height_grid_ok (runTerrain ops st).
Proof.
  induction ops as [|op ops IH]; intros st H; cbn; [exact H|].
  apply IH, applyOp_height_grid_ok, H.
Qed.

Lemma height_bound_value : TR_TARGET_AMP * HEIGHT_SCALE = 0.001.
Proof. unfold TR_TARGET_AMP, HEIGHT_SCALE. lra. Qed.

Lemma getTerrainHeight_bounded (st : TerrainState) (x z : R) :
  height_grid_ok st ->
  Rabs (getTerrainHeight st x z) <= TR_TARGET_AMP * HEIGHT_SCALE.
Proof.
  unfold height_grid_ok, getTerrainHeight. destruct (HEIGHT_GRID st) as [g|].
  - intros [Hsq Hb].
    pose proof (bilinearSample_bounded g TR_GRID_SIZE TR_TARGET_AMP x z TR_WORLD_SIZE) as H.
    assert (Hn : (0 < TR_GRID_SIZE)%nat) by (unfold TR_GRID_SIZE; lia).
    specialize (H Hn Hsq Hb).
    rewrite Rabs_mult. rewrite (Rabs_pos_eq HEIGHT_SCALE) by (unfold HEIGHT_SCALE; lra).
    apply Rmult_le_compat_r; [unfold HEIGHT_SCALE; lra | exact H].
  - intros _. rewrite Rabs_R0. unfold TR_TARGET_AMP, HEIGHT_SCALE. lra.
Qed.



(** ** The generator stream *)

Lemma firstn_app_exact (A : Type) (n : nat) (l1 l2 : list A) :
  length l1 = n -> firstn n (l1 ++ l2) = l1.
Proof.
  intros <-. rewrite firstn_app, Nat.sub_diag, firstn_all. cbn. apply app_nil_r.
Qed.

Lemma skipn_app_exact (A : Type) (n : nat) (l1 l2 : list A) :
  length l1 = n -> skipn n (l1 ++ l2) = l2.
Proof.
  intros <-. rewrite skipn_app, Nat.sub_diag, skipn_all. reflexivity.
Qed.

Lemma makeRow_app (n m : nat) (a : R) :
  forall rng,
    makeRow (n + m) a rng =
    (fst (makeRow n a rng) ++ fst (makeRow m a (snd (makeRow n a rng))),
     snd (makeRow m a (snd (makeRow n a rng)))).
Proof.
  induction n as [|n IH]; intros rng; cbn.
  - now destruct (makeRow m a rng).
  - destruct (uniform (- a) a rng) as [v rng1].
    rewrite IH. destruct (makeRow n a rng1) as [r1 rng2]. cbn.
    reflexivity.
Qed.

Lemma samples_app (n m : nat) (a : R) (rng : Rng) :
  samples (n + m) a rng = samples n a rng ++ samples m a (snd (makeRow n a rng)).
Proof. unfold samples. now rewrite makeRow_app. Qed.

Lemma samples_length (n : nat) (a : R) (rng : Rng) : length (samples n a rng) = n.
Proof. apply makeRow_length. Qed.

Lemma makeRows_samples (n size : nat) (a : R) :
  forall rng,
    makeRows n size a rng =
    (reshape n size (samples (n * size) a rng), snd (makeRow (n * size) a rng)).
Proof.
  induction n as [|n IH]; intros rng; cbn [makeRows reshape Nat.mul].
  - reflexivity.
  - rewrite samples_app, makeRow_app. cbn [snd].
    pose proof (samples_length size a rng) as L.
    rewrite (firstn_app_exact _ _ _ _ L), (skipn_app_exact _ _ _ _ L).
    unfold samples at 1.
    destruct (makeRow size a rng) as [row rng1]. cbn [fst snd].
    rewrite IH. reflexivity.
Qed.

Lemma makeNoiseGrid_samples (size : nat) (a : R) (rng : Rng) :
  makeNoiseGrid size a rng =
  (reshape size size (samples (size * size) a rng), snd (makeRow (size * size) a rng)).
Proof. apply makeRows_samples. Qed.

(** The three grids in terms of the stream of samples: the first
    [GRID_CELLS] samples make [TRUE_ROLL_AX], the next [GRID_CELLS] make
    [TRUE_ROLL_AY], and the last [GRID_CELLS] make [HEIGHT_GRID]. *)
Lemma buildGrids_by_samples (rng : Rng) :
  let d := samples (3 * GRID_CELLS) TR_BASE_AMP rng in
  buildGrids rng =
  (finishGrid TR_SMOOTH_PASSES
     (reshape TR_GRID_SIZE TR_GRID_SIZE (firstn GRID_CELLS d)),
   finishGrid TR_SMOOTH_PASSES
     (reshape TR_GRID_SIZE TR_GRID_SIZE (firstn GRID_CELLS (skipn GRID_CELLS d))),
   finishGrid (TR_SMOOTH_PASSES + 2)
     (reshape TR_GRID_SIZE TR_GRID_SIZE (skipn (2 * GRID_CELLS) d))).
Proof.
  intros d. unfold buildGrids.
  rewrite (makeNoiseGrid_samples TR_GRID_SIZE TR_BASE_AMP rng).
  fold GRID_CELLS.
  set (rng1 := snd (makeRow GRID_CELLS TR_BASE_AMP rng)).
  rewrite (makeNoiseGrid_samples TR_GRID_SIZE TR_BASE_AMP rng1).
  fold GRID_CELLS.
  set (rng2 := snd (makeRow GRID_CELLS TR_BASE_AMP rng1)).
  rewrite (makeNoiseGrid_samples TR_GRID_SIZE TR_BASE_AMP rng2).
  fold GRID_CELLS.
  assert (Hd : d = samples GRID_CELLS TR_BASE_AMP rng
                   ++ samples GRID_CELLS TR_BASE_AMP rng1
                   ++ samples GRID_CELLS TR_BASE_AMP rng2).
  { unfold d.
    replace (3 * GRID_CELLS)%nat with (GRID_CELLS + (GRID_CELLS + GRID_CELLS))%nat by lia.
    rewrite samples_app. fold rng1. rewrite samples_app. fold rng2. reflexivity. }
  rewrite Hd.
  pose proof (samples_length GRID_CELLS TR_BASE_AMP rng) as L0.
  pose proof (samples_length GRID_CELLS TR_BASE_AMP rng1) as L1.
  rewrite (firstn_app_exact _ _ _ _ L0), (skipn_app_exact _ _ _ _ L0).
  rewrite (firstn_app_exact _ _ _ _ L1).
  replace (2 * GRID_CELLS)%nat with (GRID_CELLS + GRID_CELLS)%nat by lia.
  rewrite <- skipn_skipn.
  rewrite (skipn_app_exact _ _ _ _ L0), (skipn_app_exact _ _ _ _ L1).
  reflexivity.
Qed.

(** ** Constant grids *)

Lemma makeRow_ambient (n : nat) (a : R) (src : nat -> R) :
  forall k,
    makeRow n a (Ambient src k) =
    (map (fun i => - a + src i * (a - - a)) (seq k n), Ambient src (k + n)).
Proof.
  induction n as [|n IH]; intros k; cbn.
  - now rewrite Nat.add_0_r.
  - rewrite IH. now rewrite Nat.add_succ_r.
Qed.

Lemma map_constant_on (f : nat -> R) (c : R) (l : list nat) :
  (forall i, In i l -> f i = c) -> map f l = repeat c (length l).
Proof.
  induction l as [|i l IH]; intros H; cbn; [reflexivity|].
  rewrite (H i) by now left. f_equal. apply IH. intros j Hj. apply H. now right.
Qed.

Lemma firstn_repeat_add (c : R) (n m : nat) :
  firstn n (repeat c (n + m)) = repeat c n.
Proof. induction n as [|n IH]; cbn; [reflexivity | now rewrite IH]. Qed.

Lemma skipn_repeat_add (c : R) (n m : nat) :
  skipn n (repeat c (n + m)) = repeat c m.
Proof. induction n as [|n IH]; cbn; [reflexivity | exact IH]. Qed.

Lemma reshape_repeat (rows cols : nat) (c : R) :
  reshape rows cols (repeat c (rows * cols)) = repeat (repeat c cols) rows.
Proof.
  induction rows as [|r IH]; cbn [reshape Nat.mul repeat]; [reflexivity|].
  rewrite firstn_repeat_add, skipn_repeat_add, IH. reflexivity.
Qed.

Lemma cell_constGrid (n : nat) (c : R) (y x : Z) :
  inside (Z.of_nat n) y x = true -> cell (constGrid n c) y x = c.
Proof.
  unfold inside, cell, constGrid. intros H.
  apply andb_prop in H. destruct H as [H Hx2].
  apply andb_prop in H. destruct H as [H Hx1].
  apply andb_prop in H. destruct H as [Hy1 Hy2].
  rewrite (nth_repeat_lt (repeat c n) []) by lia.
  apply nth_repeat_lt. lia.
Qed.

Lemma smoothAdd_const (n : nat) (c : R) (yy xx : Z) (acc : R * R) (k : R) :
  fst acc = c * snd acc /\ k <= snd acc ->
  let acc' := smoothAdd (constGrid n c) (Z.of_nat n) yy xx acc in
  fst acc' = c * snd acc' /\ k <= snd acc'.
Proof.
  intros [Hf Hk]. unfold smoothAdd.
  destruct (inside (Z.of_nat n) yy xx) eqn:E; cbn.
  - rewrite (cell_constGrid n c yy xx E). split; [rewrite Hf|]; lra.
  - split; assumption.
Qed.

Lemma smoothAdd_const_inside (n : nat) (c : R) (yy xx : Z) (acc : R * R) (k : R) :
  inside (Z.of_nat n) yy xx = true ->
  fst acc = c * snd acc /\ k <= snd acc ->
  let acc' := smoothAdd (constGrid n c) (Z.of_nat n) yy xx acc in
  fst acc' = c * snd acc' /\ k + 1 <= snd acc'.
Proof.
  intros E [Hf Hk]. unfold smoothAdd. rewrite E. cbn.
  rewrite (cell_constGrid n c yy xx E). split; [rewrite Hf|]; lra.
Qed.

Lemma smoothCell_const (n : nat) (c : R) (y x : nat) :
  (y < n)%nat -> (x < n)%nat ->
  smoothCell (constGrid n c) (Z.of_nat n) (Z.of_nat y) (Z.of_nat x) = c.
Proof.
  intros Hy Hx. unfold smoothCell, offsets. cbn [fold_left].
  assert (H0 : fst (0, 0) = c * snd (0, 0) /\ 0 <= snd (0, 0)) by (cbn; lra).
  assert (Hc : inside (Z.of_nat n) (Z.of_nat y + 0) (Z.of_nat x + 0) = true).
  { unfold inside.
    repeat (apply andb_true_intro; split); (apply Z.leb_le || apply Z.ltb_lt); lia. }
  match goal with
  | |- fst ?acc / snd ?acc = c =>
      assert (H : fst acc = c * snd acc /\ 0 + 1 <= snd acc)
  end.
  { do 4 apply smoothAdd_const.
    apply (smoothAdd_const_inside n c _ _ _ 0 Hc).
    do 4 apply smoothAdd_const. exact H0. }
  destruct H as [Hf Hk]. rewrite Hf. field. lra.
Qed.

Lemma smoothPass_const (n : nat) (c : R) :
  smoothPass n (constGrid n c) = constGrid n c.
Proof.
  unfold smoothPass.
  transitivity (map (fun _ : nat => repeat c n) (seq 0 n)).
  - apply map_ext_in. intros y Hy. apply in_seq in Hy.
    rewrite (map_constant_on _ c (seq 0 n)); [now rewrite length_seq|].
    intros x Hx. apply in_seq in Hx. apply smoothCell_const; lia.
  - rewrite map_const, length_seq. reflexivity.
Qed.

Lemma smoothGrid_const (n passes : nat) (c : R) :
  smoothGrid (constGrid n c) passes = constGrid n c.
Proof.
  unfold smoothGrid.
  replace (length (constGrid n c)) with n
    by (unfold constGrid; now rewrite repeat_length).
  induction passes as [|p IH]; cbn; [reflexivity|].
  now rewrite smoothPass_const.
Qed.

Lemma in_constGrid (n : nat) (c : R) (row : list R) (v : R) :
  In row (constGrid n c) -> In v row -> v = c.
Proof.
  unfold constGrid. intros Hrow Hv.
  apply repeat_spec in Hrow. subst row. now apply repeat_spec in Hv.
Qed.

Lemma maxAbsOf_le (g : Grid) (B : R) :
  0 <= B -> cells_within B g -> maxAbsOf g <= B.
Proof.
  intros HB. unfold maxAbsOf. generalize 0 HB. 
  induction g as [|row g IH]; intros m Hm Hc; cbn; [exact Hm|].
  apply IH.
  - assert (Hrow : forall v, In v row -> Rabs v <= B) by (intros v; apply Hc; now left).
    clear IH Hc. revert m Hm. induction row as [|v row IHr]; intros m Hm; cbn; [exact Hm|].
    apply IHr.
    + intros w Hw. apply Hrow. now right.
    + apply Rmax_lub; [exact Hm | apply Hrow; now left].
  - intros r v Hr Hv. apply (Hc r v); [now right | exact Hv].
Qed.

Lemma maxAbsOf_const (n : nat) (c : R) :
  (0 < n)%nat -> maxAbsOf (constGrid n c) = Rabs c.
Proof.
  intros Hn. apply Rle_antisym.
  - apply maxAbsOf_le; [apply Rabs_pos|].
    intros row v Hrow Hv. rewrite (in_constGrid n c row v Hrow Hv). lra.
  - destruct n as [|n]; [lia|].
    apply (maxAbsOf_ge _ (repeat c (S n)) c); cbn; now left.
Qed.

Lemma map_map_constGrid (n : nat) (c : R) (f : R -> R) :
  map (fun row => map f row) (constGrid n c) = constGrid n (f c).
Proof. unfold constGrid. now rewrite map_repeat, map_repeat. Qed.

Lemma finishGrid_zero (n passes : nat) :
  (0 < n)%nat -> finishGrid passes (constGrid n 0) = constGrid n 0.
Proof.
  intros Hn. unfold finishGrid. rewrite smoothGrid_const. unfold normalizeGrid.
  rewrite maxAbsOf_const, Rabs_R0 by exact Hn.
  rewrite Rltb_true by lra. reflexivity.
Qed.

Lemma finishGrid_quarter (n passes : nat) :
  (0 < n)%nat -> finishGrid passes (constGrid n 0.25) = constGrid n TR_TARGET_AMP.
Proof.
  intros Hn. unfold finishGrid. rewrite smoothGrid_const. unfold normalizeGrid.
  rewrite maxAbsOf_const by exact Hn. rewrite Rabs_pos_eq by lra.
  rewrite Rltb_false by lra. rewrite map_map_constGrid.
  f_equal. unfold TR_TARGET_AMP. lra.
Qed.

(** ** The seeded build *)

(** C1.  For every integer seed, what [buildTrueRollGrids(seed)] stores
    does not depend on the state it starts from nor on [Math.random]: two
    calls with the same seed store equal height and lateral-acceleration
    grids, cell for cell, and the second of two successive calls leaves
    the state of the first unchanged. *)
Theorem seeded_build_deterministic (seed : Z) :
  forall (src1 src2 : nat -> R) (st1 st2 : TerrainState),
    let t1 := buildTrueRollGrids (Some seed) src1 st1 in
    let t2 := buildTrueRollGrids (Some seed) src2 st2 in
    HEIGHT_GRID t1 = HEIGHT_GRID t2
    /\ TRUE_ROLL_AX t1 = TRUE_ROLL_AX t2
    /\ TRUE_ROLL_AY t1 = TRUE_ROLL_AY t2
    /\ (forall y x, cellOf (HEIGHT_GRID t1) y x = cellOf (HEIGHT_GRID t2) y x)
    /\ (forall y x, cellOf (TRUE_ROLL_AX t1) y x = cellOf (TRUE_ROLL_AX t2) y x)
    /\ (forall y x, cellOf (TRUE_ROLL_AY t1) y x = cellOf (TRUE_ROLL_AY t2) y x)
    /\ buildTrueRollGrids (Some seed) src2 t1 = t1.
Proof.
  intros src1 src2 st1 st2 t1 t2.
  assert (E : HEIGHT_GRID t1 = HEIGHT_GRID t2 /\ TRUE_ROLL_AX t1 = TRUE_ROLL_AX t2
              /\ TRUE_ROLL_AY t1 = TRUE_ROLL_AY t2).
  { unfold t1, t2, buildTrueRollGrids. cbn [makeRng].
    destruct (buildGrids (mulberry32 seed)) as [[ax ay] h].
    cbn [TRUE_ROLL_AX TRUE_ROLL_AY HEIGHT_GRID]. repeat split. }
  destruct E as (Eh & Ex & Ey).
  split; [exact Eh|]. split; [exact Ex|]. split; [exact Ey|].
  split; [|split; [|split]].
  - intros y x. now rewrite Eh.
  - intros y x. now rewrite Ex.
  - intros y x. now rewrite Ey.
  - unfold t1, buildTrueRollGrids. cbn [makeRng].
    destruct (buildGrids (mulberry32 seed)) as [[ax ay] h]. reflexivity.
Qed.

(** ** The order in which the stream is consumed *)

(** C5, as the code has it.  With or without a seed, the stream of
    samples is consumed in the order of the three assignments:
    [TRUE_ROLL_AX] is made of the first [GRID_CELLS] samples (smoothed
    [TR_SMOOTH_PASSES] times), [TRUE_ROLL_AY] of the next [GRID_CELLS]
    (smoothed as many times), and [HEIGHT_GRID] of the last [GRID_CELLS],
    the samples after the first [2 * GRID_CELLS] (smoothed
    [TR_SMOOTH_PASSES + 2] times). *)
Theorem build_consumes_stream_lateral_first
    (seed : option Z) (src : nat -> R) (st : TerrainState) :
  let d := samples (3 * GRID_CELLS) TR_BASE_AMP (makeRng seed src) in
  let t := buildTrueRollGrids seed src st in
  TRUE_ROLL_AX t =
    Some (finishGrid TR_SMOOTH_PASSES
            (reshape TR_GRID_SIZE TR_GRID_SIZE (firstn GRID_CELLS d)))
  /\ TRUE_ROLL_AY t =
    Some (finishGrid TR_SMOOTH_PASSES
            (reshape TR_GRID_SIZE TR_GRID_SIZE (firstn GRID_CELLS (skipn GRID_CELLS d))))
  /\ HEIGHT_GRID t =
    Some (finishGrid (TR_SMOOTH_PASSES + 2)
            (reshape TR_GRID_SIZE TR_GRID_SIZE (skipn (2 * GRID_CELLS) d))).
Proof.
  intros d t. unfold t, buildTrueRollGrids.
  rewrite (buildGrids_by_samples (makeRng seed src)). fold d.
  cbn [TRUE_ROLL_AX TRUE_ROLL_AY HEIGHT_GRID].
  split; [reflexivity | split; reflexivity].
Qed.

Lemma in_firstn_seq (n : nat) :
  forall m start i, In i (firstn n (seq start m)) -> (start <= i < start + n)%nat.
Proof.
  induction n as [|n IH]; intros m start i H; [contradiction|].
  destruct m as [|m]; [contradiction|]. cbn in H.
  destruct H as [<- | H]; [lia|]. apply IH in H. lia.
Qed.

Lemma samples_ambient (n : nat) (a : R) (src : nat -> R) :
  samples n a (makeRng None src) = map (fun i => - a + src i * (a - - a)) (seq 0 n).
Proof. unfold samples, makeRng. now rewrite makeRow_ambient. Qed.

Lemma height_of_ambient (src : nat -> R) (c : R) (st : TerrainState) :
  (forall i, (2 * GRID_CELLS <= i)%nat ->
     - TR_BASE_AMP + src i * (TR_BASE_AMP - - TR_BASE_AMP) = c) ->
  HEIGHT_GRID (buildTrueRollGrids None src st) =
  Some (finishGrid (TR_SMOOTH_PASSES + 2) (constGrid TR_GRID_SIZE c)).
Proof.
  intros H. unfold buildTrueRollGrids.
  rewrite (buildGrids_by_samples (makeRng None src)). cbn [HEIGHT_GRID].
  rewrite samples_ambient, skipn_map, skipn_seq.
  replace (3 * GRID_CELLS - 2 * GRID_CELLS)%nat with GRID_CELLS by lia.
  rewrite (map_constant_on _ c).
  - rewrite length_seq. unfold GRID_CELLS. rewrite reshape_repeat. reflexivity.
  - intros i Hi. apply in_seq in Hi. apply H. lia.
Qed.

(** ** The seeded stream on integers *)

Lemma fold_left_related {A B C : Type} (Rel : A -> B -> Prop)
    (f : A -> C -> A) (g : B -> C -> B) (l : list C) :
  (forall a b c, Rel a b -> Rel (f a c) (g b c)) ->
  forall a b, Rel a b -> Rel (fold_left f l a) (fold_left g l b).
Proof.
  intros Hstep. induction l as [|c l IH]; intros a b H; cbn; [exact H|].
  apply IH, Hstep, H.
Qed.

Lemma cell_overDenominator (D : Z) (g : ZGrid) (y x : Z) :
  cell (overDenominator D g) y x = IZR (cellZ g y x) / IZR D.
Proof.
  unfold cell, cellZ, overDenominator.
  change (@nil R) with (map (fun z => IZR z / IZR D) []).
  rewrite (map_nth (map (fun z => IZR z / IZR D))).
  replace 0 with ((fun z => IZR z / IZR D) 0%Z) at 1 by (cbv beta; unfold Rdiv; ring).
  now rewrite (map_nth (fun z => IZR z / IZR D)).
Qed.

Lemma smoothSum_overDenominator (D : Z) (g : ZGrid) (size y x : Z) :
  let accR :=
    fold_left (fun acc dy =>
      fold_left (fun acc dx => smoothAdd (overDenominator D g) size (y + dy) (x + dx) acc)
                offsets acc)
      offsets (0, 0) in
  let accZ := smoothSumZ g size y x in
  fst accR = IZR (fst accZ) / IZR D /\ snd accR = IZR (snd accZ).
Proof.
  cbv zeta. unfold smoothSumZ.
  apply (fold_left_related
           (fun (a : R * R) (b : Z * Z) =>
              fst a = IZR (fst b) / IZR D /\ snd a = IZR (snd b))).
  - intros a b dy Hab.
    apply (fold_left_related
             (fun (a : R * R) (b : Z * Z) =>
                fst a = IZR (fst b) / IZR D /\ snd a = IZR (snd b))); [|exact Hab].
    clear a b Hab. intros a b dx [Hf Hs].
    unfold smoothAdd, smoothAddZ. destruct (inside size (y + dy) (x + dx)).
    + cbn [fst snd]. rewrite cell_overDenominator, Hf, Hs, !plus_IZR.
      split; [unfold Rdiv; ring | reflexivity].
    + now split.
  - cbn [fst snd]. split; [unfold Rdiv; ring | reflexivity].
Qed.

Lemma smoothSumZ_count (g : ZGrid) (size y x : Z) :
  snd (smoothSumZ g size y x) = countAt size y x.
Proof.
  unfold countAt, smoothSumZ.
  apply (fold_left_related (fun (a b : Z * Z) => snd a = snd b)); [|reflexivity].
  intros a b dy Hab.
  apply (fold_left_related (fun (a b : Z * Z) => snd a = snd b)); [|exact Hab].
  clear a b Hab. intros a b dx Hab.
  unfold smoothAddZ. destruct (inside size (y + dy) (x + dx)); cbn [snd]; congruence.
Qed.

Lemma smoothCell_overDenominator (D : Z) (g : ZGrid) (size y x : Z) :
  (0 < D)%Z -> (0 < countAt size y x)%Z -> (36 mod countAt size y x = 0)%Z ->
  smoothCell (overDenominator D g) size y x
  = IZR (smoothCellZ g size y x) / IZR (36 * D).
Proof.
  intros HD Hc Hdiv. unfold smoothCell, smoothCellZ. cbv zeta.
  destruct (smoothSum_overDenominator D g size y x) as [Hf Hs].
  cbv zeta in Hf, Hs. rewrite Hf, Hs.
  rewrite smoothSumZ_count.
  set (c := countAt size y x) in *.
  set (t := fst (smoothSumZ g size y x)).
  assert (H36 : (36 = c * (36 / c))%Z).
  { rewrite (Z.div_mod 36 c) at 1 by lia. lia. }
  assert (HcR : 0 < IZR c) by now apply IZR_lt.
  assert (HDR : 0 < IZR D) by now apply IZR_lt.
  rewrite !mult_IZR.
  assert (HR : 36 = IZR c * IZR (36 / c)).
  { rewrite <- mult_IZR, <- H36. reflexivity. }
  rewrite HR.
  assert (Hq : 0 < IZR (36 / c)).
  { apply IZR_lt. apply Z.div_str_pos. split; [lia|].
    apply Z.divide_pos_le; [lia|]. apply Z.mod_divide; lia. }
  field. lra.
Qed.

Lemma smoothPass_overDenominator (n : nat) (D : Z) (g : ZGrid) :
  (0 < D)%Z -> countsDivide n = true ->
  smoothPass n (overDenominator D g) = overDenominator (36 * D) (smoothPassZ n g).
Proof.
  intros HD Hok. unfold smoothPass, smoothPassZ, overDenominator.
  rewrite map_map. apply map_ext_in. intros y Hy.
  rewrite map_map. apply map_ext_in. intros x Hx.
  unfold countsDivide in Hok.
  rewrite forallb_forall in Hok. specialize (Hok y Hy).
  rewrite forallb_forall in Hok. specialize (Hok x Hx).
  cbv zeta in Hok. apply andb_prop in Hok. destruct Hok as [Hpos Hdiv].
  apply Z.ltb_lt in Hpos. apply Z.eqb_eq in Hdiv.
  now apply (smoothCell_overDenominator D g).
Qed.

Lemma smoothLoop_overDenominator (n passes : nat) :
  countsDivide n = true ->
  forall (D : Z) (g : ZGrid), (0 < D)%Z ->
    smoothLoop n passes (overDenominator D g)
    = overDenominator (36 ^ Z.of_nat passes * D) (smoothLoopZ n passes g).
Proof.
  intros Hok. induction passes as [|p IH]; intros D g HD.
  - cbn [smoothLoop smoothLoopZ]. now rewrite Z.pow_0_r, Z.mul_1_l.
  - cbn [smoothLoop smoothLoopZ].
    rewrite (smoothPass_overDenominator n D g HD Hok).
    rewrite IH by lia. f_equal. rewrite Nat2Z.inj_succ, Z.pow_succ_r by lia. ring.
Qed.

(** Normalisation keeps the sign of every cell. *)
Lemma normalizeGrid_sign (g : Grid) (t : R) (y x : Z) :
  0 < t ->
  (0 < cell g y x -> 0 < cell (normalizeGrid g t) y x)
  /\ (cell g y x < 0 -> cell (normalizeGrid g t) y x < 0).
Proof.
  intros Ht. unfold normalizeGrid. cbv zeta.
  destruct (Rltb (maxAbsOf g) 1e-9) eqn:E; [now split|].
  apply Rltb_iff_false in E.
  set (scale := t / maxAbsOf g).
  assert (Hs : 0 < scale) by (apply Rdiv_lt_0_compat; lra).
  assert (Hcell : cell (map (fun row => map (fun v => v * scale) row) g) y x
                  = cell g y x * scale).
  { unfold cell.
    change (@nil R) with (map (fun v => v * scale) []).
    rewrite (map_nth (map (fun v => v * scale))).
    replace 0 with ((fun v => v * scale) 0) at 1 by (cbv beta; ring).
    now rewrite (map_nth (fun v => v * scale)). }
  rewrite Hcell. split; intros H; nra.
Qed.

Lemma makeRow_seeded (n : nat) (a : R) :
  forall s,
    fst (makeRow n a (Seeded s))
    = map (fun u => - a + IZR u / 4294967296 * (a - - a)) (draws n s).
Proof.
  induction n as [|n IH]; intros s; [reflexivity|].
  cbn [makeRow draws]. unfold uniform, fn, mulberry32_next.
  destruct (mulberry32_bits s) as [u s'].
  specialize (IH s'). destruct (makeRow n a (Seeded s')) as [row rng2].
  cbn [fst] in *. now rewrite IH.
Qed.

Lemma samples_seeded (n : nat) (seed : Z) (src : nat -> R) :
  samples n TR_BASE_AMP (makeRng (Some seed) src)
  = map (fun z => IZR z / IZR 4294967296)
        (map (fun u => (u - 2147483648)%Z) (draws n (int32 seed))).
Proof.
  unfold samples, makeRng, mulberry32. rewrite makeRow_seeded, map_map.
  apply map_ext. intros u. rewrite minus_IZR. unfold TR_BASE_AMP. lra.
Qed.

Lemma reshape_map {A B : Type} (f : A -> B) (rows cols : nat) :
  forall l, reshape rows cols (map f l) = map (map f) (reshape rows cols l).
Proof.
  induction rows as [|r IH]; intros l; [reflexivity|].
  cbn [reshape map]. now rewrite firstn_map, skipn_map, IH.
Qed.

Lemma reshape_length {A : Type} (rows cols : nat) :
  forall l : list A, length (reshape rows cols l) = rows.
Proof.
  induction rows as [|r IH]; intros l; [reflexivity|]. cbn [reshape length]. now rewrite IH.
Qed.

(** The [k]-th noise grid of the seeded build, for [k] among 0, 1, 2. *)
Lemma noise_seeded (seed : Z) (src : nat -> R) (k : nat) :
  let d := samples (3 * GRID_CELLS) TR_BASE_AMP (makeRng (Some seed) src) in
  reshape TR_GRID_SIZE TR_GRID_SIZE (firstn GRID_CELLS (skipn (k * GRID_CELLS) d))
  = overDenominator 4294967296 (noiseZ seed k).
Proof.
  intros d. unfold d, noiseZ, overDenominator.
  rewrite samples_seeded, skipn_map, firstn_map, reshape_map. reflexivity.
Qed.

Lemma noise_seeded_first (seed : Z) (src : nat -> R) :
  let d := samples (3 * GRID_CELLS) TR_BASE_AMP (makeRng (Some seed) src) in
  reshape TR_GRID_SIZE TR_GRID_SIZE (firstn GRID_CELLS d)
  = overDenominator 4294967296 (noiseZ seed 0).
Proof.
  intros d. pose proof (noise_seeded seed src 0) as H. cbv zeta in H.
  rewrite Nat.mul_0_l, skipn_O in H. exact H.
Qed.

(** The first cell of a finished seeded noise grid has the sign of its
    integer image. *)
Lemma corner_sign (seed : Z) (k passes : nat) :
  countsDivide TR_GRID_SIZE = true ->
  ((0 < cornerZ seed k passes)%Z ->
     0 < cell (finishGrid passes (overDenominator 4294967296 (noiseZ seed k))) 0 0)
  /\ ((cornerZ seed k passes < 0)%Z ->
     cell (finishGrid passes (overDenominator 4294967296 (noiseZ seed k))) 0 0 < 0).
Proof.
  intros Hok. unfold finishGrid, smoothGrid.
  assert (Hlen : length (overDenominator 4294967296 (noiseZ seed k)) = TR_GRID_SIZE).
  { unfold overDenominator, noiseZ. now rewrite length_map, reshape_length. }
  rewrite Hlen, (smoothLoop_overDenominator _ _ Hok) by lia.
  set (D := (36 ^ Z.of_nat passes * 4294967296)%Z).
  assert (HD : 0 < IZR D).
  { apply IZR_lt. unfold D. apply Z.mul_pos_pos; [apply Z.pow_pos_nonneg|]; lia. }
  pose proof (cell_overDenominator D
                (smoothLoopZ TR_GRID_SIZE passes (noiseZ seed k)) 0 0) as Hc.
  fold (cornerZ seed k passes) in Hc.
  destruct (normalizeGrid_sign
              (overDenominator D (smoothLoopZ TR_GRID_SIZE passes (noiseZ seed k)))
              TR_TARGET_AMP 0 0) as [Hp Hn]; [unfold TR_TARGET_AMP; lra|].
  rewrite Hc in Hp, Hn. clear Hc.
  generalize dependent (cornerZ seed k passes). intros c Hp Hn.
  split; intros H.
  - apply Hp. apply Rdiv_lt_0_compat; [now apply (IZR_lt 0)|exact HD].
  - apply Hn. apply IZR_lt in H.
    apply Ropp_lt_cancel. rewrite Ropp_0, <- Rdiv_opp_l.
    apply Rdiv_lt_0_compat; lra.
Qed.

Lemma grids_differ_by_corner (g1 g2 : Grid) :
  cell g1 0 0 < 0 -> 0 < cell g2 0 0 -> Some g2 <> Some g1.
Proof. intros H1 H2 E. injection E as E. subst g2. lra. Qed.

Lemma countsDivide_grid : countsDivide TR_GRID_SIZE = true.
Proof. vm_compute. reflexivity. Qed.

Lemma corner_first_seed0 : (cornerZ 0 0 (TR_SMOOTH_PASSES + 2) < 0)%Z.
Proof. apply Z.ltb_lt. vm_cast_no_check (eq_refl true). Qed.

Lemma corner_last_seed0 : (0 < cornerZ 0 2 (TR_SMOOTH_PASSES + 2))%Z.
Proof. apply Z.ltb_lt. vm_cast_no_check (eq_refl true). Qed.

(** With seed 0, the height grid is not the one made of the first
    [GRID_CELLS] samples of the seeded stream: their first cells have
    opposite signs. *)
Lemma seeded_height_not_from_first_samples :
  HEIGHT_GRID (buildTrueRollGrids (Some 0%Z) sourceA initialTerrain)
  <> Some (finishGrid (TR_SMOOTH_PASSES + 2)
             (reshape TR_GRID_SIZE TR_GRID_SIZE
                (firstn GRID_CELLS
                   (samples (3 * GRID_CELLS) TR_BASE_AMP (makeRng (Some 0%Z) sourceA))))).
Proof.
  set (d := samples (3 * GRID_CELLS) TR_BASE_AMP (makeRng (Some 0%Z) sourceA)).
  unfold buildTrueRollGrids.
  rewrite (buildGrids_by_samples (makeRng (Some 0%Z) sourceA)). fold d.
  cbn [HEIGHT_GRID].
  assert (Hlast : skipn (2 * GRID_CELLS) d = firstn GRID_CELLS (skipn (2 * GRID_CELLS) d)).
  { symmetry. apply firstn_all2. rewrite length_skipn. unfold d.
    rewrite samples_length. lia. }
  rewrite Hlast. unfold d.
  rewrite (noise_seeded 0 sourceA 2), (noise_seeded_first 0 sourceA).
  apply grids_differ_by_corner.
  - exact (proj2 (corner_sign 0 0 _ countsDivide_grid) corner_first_seed0).
  - exact (proj1 (corner_sign 0 2 _ countsDivide_grid) corner_last_seed0).
Qed.

(** C5, as stated, fails.  With seed 0 the height grid is not the grid
    made of the first [GRID_CELLS] samples of the seeded stream.  And the
    height grid is not a function of the first samples: [sourceA] and
    [sourceB] return the same values for the first [2 * GRID_CELLS] calls,
    so the first [GRID_CELLS] samples are the same, yet the height grids
    built from them differ: all cells 0 from [sourceA], all cells
    [TR_TARGET_AMP] from [sourceB]. *)
Lemma height_grid_not_from_first_samples :
  HEIGHT_GRID (buildTrueRollGrids (Some 0%Z) sourceA initialTerrain)
  <> Some (finishGrid (TR_SMOOTH_PASSES + 2)
             (reshape TR_GRID_SIZE TR_GRID_SIZE
                (firstn GRID_CELLS
                   (samples (3 * GRID_CELLS) TR_BASE_AMP (makeRng (Some 0%Z) sourceA)))))
  /\ (forall k, (k < 2 * GRID_CELLS)%nat -> sourceA k = sourceB k)
  /\ firstn GRID_CELLS (samples (3 * GRID_CELLS) TR_BASE_AMP (makeRng None sourceA))
     = firstn GRID_CELLS (samples (3 * GRID_CELLS) TR_BASE_AMP (makeRng None sourceB))
  /\ HEIGHT_GRID (buildTrueRollGrids None sourceA initialTerrain)
     = Some (constGrid TR_GRID_SIZE 0)
  /\ HEIGHT_GRID (buildTrueRollGrids None sourceB initialTerrain)
     = Some (constGrid TR_GRID_SIZE TR_TARGET_AMP)
  /\ HEIGHT_GRID (buildTrueRollGrids None sourceA initialTerrain)
     <> HEIGHT_GRID (buildTrueRollGrids None sourceB initialTerrain).
Proof.
  assert (Hn : (0 < TR_GRID_SIZE)%nat) by (unfold TR_GRID_SIZE; lia).
  assert (Hagree : forall k, (k < 2 * GRID_CELLS)%nat -> sourceA k = sourceB k).
  { intros k Hk. unfold sourceA, sourceB.
    apply Nat.ltb_lt in Hk. now rewrite Hk. }
  assert (HA : HEIGHT_GRID (buildTrueRollGrids None sourceA initialTerrain)
               = Some (constGrid TR_GRID_SIZE 0)).
  { rewrite (height_of_ambient sourceA 0).
    - now rewrite finishGrid_zero.
    - intros i _. unfold sourceA, TR_BASE_AMP. lra. }
  assert (HB : HEIGHT_GRID (buildTrueRollGrids None sourceB initialTerrain)
               = Some (constGrid TR_GRID_SIZE TR_TARGET_AMP)).
  { rewrite (height_of_ambient sourceB 0.25).
    - now rewrite finishGrid_quarter.
    - intros i Hi. unfold sourceB.
      apply Nat.ltb_ge in Hi. rewrite Hi. unfold TR_BASE_AMP. lra. }
  split; [exact seeded_height_not_from_first_samples|].
  split; [exact Hagree|]. split; [|split; [exact HA|split; [exact HB|]]].
  - rewrite !samples_ambient, !firstn_map. apply map_ext_in.
    intros i Hi. apply in_firstn_seq in Hi.
    rewrite (Hagree i) by lia. reflexivity.
  - rewrite HA, HB. intros E.
    apply (f_equal (fun o => match o with Some g => cell g 0 0 | None => 0 end)) in E.
    cbv beta iota in E.
    rewrite !cell_constGrid in E by reflexivity.
    unfold TR_TARGET_AMP in E. lra.
Qed.

(** ** The built flat terrain *)

Lemma samples_sourceA (n : nat) :
  samples n TR_BASE_AMP (makeRng None sourceA) = repeat 0 n.
Proof.
  rewrite samples_ambient, (map_constant_on _ 0).
  - now rewrite length_seq.
  - intros i _. unfold sourceA, TR_BASE_AMP. lra.
Qed.

(** Built from [sourceA], the three grids are flat. *)
Lemma build_sourceA_flat :
  buildTrueRollGrids None sourceA initialTerrain = flatTerrain.
Proof.
  assert (Hn : (0 < TR_GRID_SIZE)%nat) by (unfold TR_GRID_SIZE; lia).
  unfold buildTrueRollGrids.
  rewrite (buildGrids_by_samples (makeRng None sourceA)).
  rewrite samples_sourceA.
  replace (3 * GRID_CELLS)%nat with (GRID_CELLS + (GRID_CELLS + GRID_CELLS))%nat by lia.
  replace (2 * GRID_CELLS)%nat with (GRID_CELLS + GRID_CELLS)%nat by lia.
  rewrite <- skipn_skipn, !skipn_repeat_add, !firstn_repeat_add.
  unfold GRID_CELLS. rewrite reshape_repeat.
  fold (constGrid TR_GRID_SIZE 0).
  rewrite !finishGrid_zero by exact Hn.
  reflexivity.
Qed.

Lemma constGrid_square (n : nat) (c : R) : square_rows n n (constGrid n c).
Proof.
  unfold constGrid. split; [apply repeat_length|].
  apply Forall_forall. intros row H. apply repeat_spec in H. subst. apply repeat_length.
Qed.

Lemma bilinearSample_flat (x z w : R) :
  bilinearSample (constGrid TR_GRID_SIZE 0) x z w = 0.
Proof.
  assert (H : Rabs (bilinearSample (constGrid TR_GRID_SIZE 0) x z w) <= 0).
  { apply (bilinearSample_bounded _ TR_GRID_SIZE).
    - unfold TR_GRID_SIZE; lia.
    - apply constGrid_square.
    - intros row v Hrow Hv. rewrite (in_constGrid _ _ _ _ Hrow Hv), Rabs_R0. lra. }
  apply Rabs_le_between in H. lra.
Qed.

Lemma getTerrainHeight_flat (x z : R) : getTerrainHeight flatTerrain x z = 0.
Proof.
  unfold getTerrainHeight, flatTerrain. cbn [HEIGHT_GRID].
  rewrite bilinearSample_flat. lra.
Qed.

Lemma getTerrainNormal_flat (x z : R) : getTerrainNormal flatTerrain x z = mkVec3 0 1 0.
Proof.
  unfold getTerrainNormal. rewrite !getTerrainHeight_flat.
  replace (- ((0 - 0) / (2 * 0.05)) * - ((0 - 0) / (2 * 0.05)) + 1.0 * 1.0
           + - ((0 - 0) / (2 * 0.05)) * - ((0 - 0) / (2 * 0.05))) with 1 by lra.
  rewrite sqrt_1. f_equal; lra.
Qed.

Lemma trueRollAccel_flat (x z vx vz : R) : trueRollAccel flatTerrain x z vx vz = (0, 0).
Proof.
  unfold trueRollAccel, flatTerrain.
  cbn [TRUE_ROLL_STRENGTH TRUE_ROLL_AX TRUE_ROLL_AY].
  rewrite Rleb_false by lra. rewrite !bilinearSample_flat. f_equal; lra.
Qed.

(** ** True-roll strength factor *)

Lemma trueRollScale_cases (s : R) :
  (s <= 0.8 /\ trueRollScale s = 2.0)
  \/ (0.8 < s < 1 /\ trueRollScale s = 2.0 - (s - 0.8) / 1.2)
  \/ (1 <= s /\ trueRollScale s = 0.1).
Proof.
  unfold trueRollScale, Rgeb, TR_MIN_SPEED.
  destruct (Rle_dec 1.0 s) as [H1|H1].
  - right; right. rewrite Rleb_true by exact H1. split; [lra | reflexivity].
  - rewrite Rleb_false by lra.
    destruct (Rle_dec s 0.8) as [H2|H2].
    + left. rewrite Rleb_true by exact H2. split; [lra | reflexivity].
    + right; left. rewrite Rleb_false by lra. split; [lra | f_equal; lra].
Qed.

Lemma trueRollScale_continuous_off_one (s : R) :
  s <> 1 -> continuity_pt trueRollScale s.
Proof.
  intros Hs.
  unfold continuity_pt, continue_in, limit1_in, limit_in, D_x, no_cond.
  cbn [dist R_met Base]. unfold R_dist.
  intros eps Heps.
  destruct (Rlt_dec s 1) as [Hlt|Hge].
  - exists (Rmin eps (1 - s)). split; [apply Rmin_glb_lt; lra|].
    intros x [[_ Hne] Hd].
    assert (Hd1 : Rabs (x - s) < eps) by (eapply Rlt_le_trans; [exact Hd | apply Rmin_l]).
    assert (Hd2 : Rabs (x - s) < 1 - s) by (eapply Rlt_le_trans; [exact Hd | apply Rmin_r]).
    assert (Hx : x < 1) by (revert Hd2; unfold Rabs; destruct (Rcase_abs (x - s)); lra).
    destruct (trueRollScale_cases s) as [[Hs1 ->] | [[Hs1 ->] | [Hs1 _]]]; [| |lra];
      (destruct (trueRollScale_cases x) as [[Hx1 ->] | [[Hx1 ->] | [Hx1 _]]]; [| |lra]);
      revert Hd1; unfold Rabs;
      repeat match goal with |- context [Rcase_abs ?a] => destruct (Rcase_abs a) end;
      lra.
  - exists (s - 1). split; [lra|].
    intros x [[_ Hne] Hd].
    assert (Hx : 1 < x) by (revert Hd; unfold Rabs; destruct (Rcase_abs (x - s)); lra).
    destruct (trueRollScale_cases s) as [[Hs1 _] | [[Hs1 _] | [Hs1 ->]]]; [lra | lra |].
    destruct (trueRollScale_cases x) as [[Hx1 _] | [[Hx1 _] | [Hx1 ->]]]; [lra | lra |].
    rewrite Rminus_diag, Rabs_R0. exact Heps.
Qed.

Lemma trueRollScale_jump : ~ continuity_pt trueRollScale 1.
Proof.
  unfold continuity_pt, continue_in, limit1_in, limit_in, D_x, no_cond.
  cbn [dist R_met Base]. unfold R_dist.
  intros H. destruct (H 1 ltac:(lra)) as [alp [Halp Hlim]].
  set (x := 1 - Rmin (alp / 2) 0.1).
  assert (Hm1 : 0 < Rmin (alp / 2) 0.1) by (apply Rmin_glb_lt; lra).
  assert (Hm2 : Rmin (alp / 2) 0.1 <= alp / 2) by apply Rmin_l.
  assert (Hm3 : Rmin (alp / 2) 0.1 <= 0.1) by apply Rmin_r.
  specialize (Hlim x).
  assert (Hpre : (True /\ 1 <> x) /\ Rabs (x - 1) < alp).
  { split; [split; [exact I | unfold x; lra]|].
    unfold x, Rabs. destruct (Rcase_abs _); lra. }
  specialize (Hlim Hpre). revert Hlim.
  destruct (trueRollScale_cases 1) as [[H1 _] | [[H1 _] | [_ ->]]]; [lra | lra |].
  destruct (trueRollScale_cases x) as [[Hx ->] | [[Hx ->] | [Hx _]]];
    [| | unfold x in Hx; lra];
    unfold Rabs; destruct (Rcase_abs _); unfold x in *; lra.
Qed.

(** C3, as the code has it.  With the terrain built and a positive
    multiplier, [trueRollAccel] multiplies both lateral-grid samples by
    [trueRollScale speed] times the multiplier, where [speed] is the
    horizontal speed; that factor is 2.0 at or below 0.8 units/s, decreases
    linearly as [2.0 - (speed - 0.8) / 1.2] between 0.8 and 1.0 units/s
    (staying above 11/6 there), and is 0.1 at or above 1.0 units/s; it is
    continuous at every speed other than 1.0. *)
Theorem true_roll_scale_profile
    (st : TerrainState) (gx gy : Grid) (x z vx vz : R) :
  TRUE_ROLL_AX st = Some gx ->
  TRUE_ROLL_AY st = Some gy ->
  0 < TRUE_ROLL_STRENGTH st ->
  let speed := hypot vx vz in
  trueRollAccel st x z vx vz =
    (bilinearSample gx x z TR_WORLD_SIZE * (trueRollScale speed * TRUE_ROLL_STRENGTH st),
     bilinearSample gy x z TR_WORLD_SIZE * (trueRollScale speed * TRUE_ROLL_STRENGTH st))
  /\ (speed <= 0.8 -> trueRollScale speed = 2.0)
  /\ (0.8 < speed < 1.0 ->
        trueRollScale speed = 2.0 - (speed - 0.8) / 1.2
        /\ 11 / 6 < trueRollScale speed < 2.0)
  /\ (1.0 <= speed -> trueRollScale speed = 0.1)
  /\ (speed <> 1.0 -> continuity_pt trueRollScale speed).
Proof.
  intros Hx Hy Hs speed. split.
  - unfold trueRollAccel. rewrite Hx, Hy. rewrite Rleb_false by exact Hs. reflexivity.
  - destruct (trueRollScale_cases speed) as [[H1 E] | [[H1 E] | [H1 E]]];
      rewrite E; repeat split; intros; try lra.
    all: try (apply trueRollScale_continuous_off_one; lra).
Qed.

(** The factor at 0.9 units/s on the flat built terrain. *)
Lemma true_roll_scale_profile_witness :
  trueRollScale (hypot 0.9 0) = 2.0 - (hypot 0.9 0 - 0.8) / 1.2.
Proof.
  assert (H : hypot 0.9 0 = 0.9) by (rewrite hypot_x_0; apply Rabs_pos_eq; lra).
  refine (proj1 (proj1 (proj2 (proj2
    (true_roll_scale_profile flatTerrain _ _ 0 0 0.9 0 eq_refl eq_refl _))) _)).
  - cbn. lra.
  - rewrite H. lra.
Defined.

(** C3, as stated, fails: halfway between 0.8 and 1.0 the factor is 23/12,
    not the value 1.05 of a line from 2.0 down to 0.1; and the factor is not
    continuous at 1.0. *)
Lemma true_roll_scale_not_continuous :
  trueRollScale 0.9 = 23 / 12
  /\ trueRollScale 0.9 <> 2.0 - (0.9 - 0.8) / (1.0 - 0.8) * (2.0 - 0.1)
  /\ ~ continuity_pt trueRollScale 1.0.
Proof.
  assert (E : trueRollScale 0.9 = 23 / 12).
  { destruct (trueRollScale_cases 0.9) as [[H _] | [[_ ->] | [H _]]]; lra. }
  split; [exact E|]. split; [rewrite E; lra|].
  replace 1.0 with 1 by lra. exact trueRollScale_jump.
Qed.

(** ** Bounding ellipse *)

Lemma hypot_pos (a b : R) : a <> 0 \/ b <> 0 -> 0 < hypot a b.
Proof.
  intros H. unfold hypot. apply sqrt_lt_R0.
  destruct H as [H|H]; nra.
Qed.

Lemma unit_axis (a b : R) :
  0 < hypot a b ->
  a / hypot a b * (a / hypot a b) + b / hypot a b * (b / hypot a b) = 1.
Proof.
  intros H. pose proof (hypot_sqr a b) as Hs.
  set (h := hypot a b) in *.
  replace (a / h * (a / h) + b / h * (b / h)) with ((a * a + b * b) / (h * h))
    by (field; lra).
  rewrite <- Hs. field. lra.
Qed.

(** The running maxima of the extent loop. *)
Lemma extents_fold (f g : Point -> R) (hull : list Point) :
  forall m,
    let r := fold_left (fun acc p =>
               (if Rgtb (f p) (fst acc) then f p else fst acc,
                if Rgtb (g p) (snd acc) then g p else snd acc)) hull m in
    fst m <= fst r /\ snd m <= snd r
    /\ forall p, In p hull -> f p <= fst r /\ g p <= snd r.
Proof.
  induction hull as [|q hull IH]; intros m; cbn [fold_left].
  - split; [lra | split; [lra | intros p []]].
  - set (m' := (if Rgtb (f q) (fst m) then f q else fst m,
                if Rgtb (g q) (snd m) then g q else snd m)).
    specialize (IH m'). cbv zeta in IH. destruct IH as (H1 & H2 & H3).
    assert (Hf : fst m <= fst m' /\ f q <= fst m').
    { unfold m', Rgtb, Rltb. cbn [fst]. destruct (Rlt_dec (fst m) (f q)); lra. }
    assert (Hg : snd m <= snd m' /\ g q <= snd m').
    { unfold m', Rgtb, Rltb. cbn [snd]. destruct (Rlt_dec (snd m) (g q)); lra. }
    split; [lra|]. split; [lra|].
    intros p [<- | Hp]; [lra | now apply H3].
Qed.

Lemma ellipse_axis_nonzero (cxx cxz czz lam1 : R) :
  let '(ex, ez) :=
    if Rgtb (Rabs cxz) 1e-12 then (lam1 - czz, cxz)
    else (if Rgeb cxx czz then 1 else 0, if Rgeb cxx czz then 0 else 1) in
  ex <> 0 \/ ez <> 0.
Proof.
  unfold Rgtb. destruct (Rltb 1e-12 (Rabs cxz)) eqn:E.
  - right. apply Rltb_iff in E. intros ->. rewrite Rabs_R0 in E. lra.
  - destruct (Rgeb cxx czz); [left | right]; lra.
Qed.

(** C7.  For a non-empty hull, the semi-axes [a] and [b] returned by
    [boundingEllipse] are non-negative, its axis directions [(ex, ez)] and
    [(fx, fz)] have unit length and are orthogonal, and for every hull
    point the absolute projection of (point - centre) on the principal axis
    is at most [a] and on the secondary axis at most [b]. *)
Theorem bounding_ellipse_bounds_hull (hull : list Point) :
  hull <> [] ->
  let e := boundingEllipse hull in
  0 <= e_a e /\ 0 <= e_b e
  /\ e_ex e * e_ex e + e_ez e * e_ez e = 1
  /\ e_fx e * e_fx e + e_fz e * e_fz e = 1
  /\ e_ex e * e_fx e + e_ez e * e_fz e = 0
  /\ forall p, In p hull ->
       Rabs ((p_x p - e_cx e) * e_ex e + (p_z p - e_cz e) * e_ez e) <= e_a e
       /\ Rabs ((p_x p - e_cx e) * e_fx e + (p_z p - e_cz e) * e_fz e) <= e_b e.
Proof.
  intros _. unfold boundingEllipse. cbv zeta.
  match goal with
  | |- context [fold_left ?f hull (0, 0, 0)] =>
      destruct (fold_left f hull (0, 0, 0)) as [[cxx cxz] czz]
  end.
  set (n := INR (length hull)).
  set (cx := fst (fold_left _ hull (0, 0)) / n).
  set (cz := snd (fold_left _ hull (0, 0)) / n).
  set (lam1 := (cxx / n + czz / n) / 2 + _).
  pose proof (ellipse_axis_nonzero (cxx / n) (cxz / n) (czz / n) lam1) as Hax.
  destruct (if Rgtb (Rabs (cxz / n)) 1e-12 then _ else _) as [ex0 ez0].
  pose proof (hypot_pos ex0 ez0 Hax) as Hlen.
  pose proof (unit_axis ex0 ez0 Hlen) as Hunit.
  set (ex := ex0 / hypot ex0 ez0) in *.
  set (ez := ez0 / hypot ex0 ez0) in *.
  cbn [e_a e_b e_ex e_ez e_fx e_fz e_cx e_cz].
  match goal with
  | |- context [fold_left ?F hull (0, 0)] =>
      pose proof (extents_fold
        (fun p => Rabs ((p_x p - cx) * ex + (p_z p - cz) * ez))
        (fun p => Rabs ((p_x p - cx) * - ez + (p_z p - cz) * ex))
        hull (0, 0)) as Hext
  end.
  cbv zeta in Hext. destruct Hext as (Ha & Hb & Hin).
  change (fst (0, 0)) with 0 in Ha. change (snd (0, 0)) with 0 in Hb.
  set (maxes := fold_left _ hull (0, 0)) in *.
  split; [lra|]. split; [lra|]. split; [exact Hunit|].
  split; [lra|]. split; [lra|].
  intros p Hp. destruct (Hin p Hp) as [Hpa Hpb]. split; lra.
Qed.

(** The ellipse of the unit square's corners. *)
Lemma bounding_ellipse_bounds_hull_witness :
  0 <= e_a (boundingEllipse [mkPoint 0 0; mkPoint 1 0; mkPoint 1 1; mkPoint 0 1]).
Proof.
  refine (proj1 (bounding_ellipse_bounds_hull
    [mkPoint 0 0; mkPoint 1 0; mkPoint 1 1; mkPoint 0 1] _)).
  discriminate.
Defined.

(** ** The physics step on the flat green *)

Lemma spinMod_zero : Rmax 0.5 (Rmin 1.5 (1.0 + 0 * SPIN_EFFECT_STRENGTH)) = 1.
Proof.
  unfold Rmax, Rmin, SPIN_EFFECT_STRENGTH.
  destruct (Rle_dec 1.5 _); destruct (Rle_dec 0.5 _); lra.
Qed.

Lemma sin_zero_angle : sin (0 * PI / 180) = 0.
Proof. replace (0 * PI / 180) with 0 by lra. apply sin_0. Qed.

Lemma over_hole_level (d s a b : R) :
  1.45 <= s \/ HOLE_RADIUS_M + BALL_RADIUS_M * 0.5 < d ->
  (if Rleb d (HOLE_RADIUS_M + BALL_RADIUS_M * 0.5)
   then if Rltb s 1.45 || Rltb BALL_RADIUS_M (BALL_RADIUS_M * 0.5) then a else b
   else b) = b.
Proof.
  intros H.
  assert (Hb : Rltb BALL_RADIUS_M (BALL_RADIUS_M * 0.5) = false)
    by (apply Rltb_false; unfold BALL_RADIUS_M; lra).
  rewrite Hb, orb_false_r.
  destruct H as [H|H].
  - rewrite (Rltb_false s 1.45) by lra. now destruct (Rleb d _).
  - now rewrite Rleb_false by lra.
Qed.

Lemma integrate_rolling (dt x v : R) :
  1e-4 < v ->
  1.45 <= v \/ HOLE_RADIUS_M + BALL_RADIUS_M * 0.5 < Rabs x ->
  let v' := v - rollFriction * dt in
  let x' := x + v' * dt in
  integrate dt (rollingGame x v) =
    (withBall (rollingGame x v)
      (mkBall (mkVec3 x' BALL_RADIUS_M 0) (mkVec3 v' 0 0)
              true false false false 0 BALL_RADIUS_M 0 (Rabs (x' - x))),
     segClosest x x').
Proof.
  intros Hv H1 v' x'.
  unfold integrate, rollingGame, rollingBall, flatControls.
  cbn [terrain controls ball ballPos ballVel v_x v_y v_z angleDeg stimpM ballSpin
       maxHeight bounceCount travelDist ballMoving ballOnCircle inHole].
  rewrite !getTerrainHeight_flat, !getTerrainNormal_flat, !trueRollAccel_flat.
  cbn [v_x v_y v_z fst snd].
  rewrite !hypot_x_0, (Rabs_pos_eq v) by lra.
  rewrite (over_hole_level (Rabs x) v (- holeDepth) 0 H1).
  replace (BALL_RADIUS_M - BALL_RADIUS_M - 0) with 0 by lra.
  unfold Rgtb at 1. rewrite (Rltb_false LANDING_THRESHOLD 0) by (unfold LANDING_THRESHOLD; lra).
  unfold Rgtb at 1. rewrite (Rltb_true 1e-4 v) by lra.
  cbn [negb].
  rewrite spinMod_zero, sin_zero_angle, Rabs_R1, (Rmult_0_l (exp _)), Rabs_R0.
  rewrite (Rltb_true 0 0.01) by lra.
  cbv zeta beta iota.
  fold rollFriction.
  replace (v + (0 - rollFriction * 1 * 1 * (v / v) + - 0 * GRAVITY * ROLLING_FACTOR + 0) * dt)
    with v' by (unfold v'; field; lra).
  replace (0 + (0 + GRAVITY * 0 * ROLLING_FACTOR - rollFriction * 1 * 1 * (0 / v)
                + - 0 * GRAVITY * ROLLING_FACTOR + 0) * dt)
    with 0 by (field; lra).
  replace (0 + 0 * dt) with 0 by lra.
  fold x'.
  rewrite !getTerrainHeight_flat, !hypot_x_0.
  assert (Hfloor : Rltb (BALL_RADIUS_M + 0 * dt)
            (if Rleb (Rabs x') (HOLE_RADIUS_M + BALL_RADIUS_M * 0.5)
             then if Rltb (Rabs v') 1.45 || Rltb BALL_RADIUS_M (BALL_RADIUS_M * 0.5)
                  then - holeDepth + BALL_RADIUS_M else 0 + BALL_RADIUS_M
             else 0 + BALL_RADIUS_M) = false).
  { apply Rltb_false.
    destruct (Rleb _ _); [destruct (_ || _)|]; unfold holeDepth, BALL_RADIUS_M; lra. }
  rewrite Hfloor. cbv iota beta.
  unfold withBall. cbn [terrain controls shot scene].
  f_equal.
  - f_equal. f_equal.
    + f_equal. lra.
    + apply Rltb_false. unfold LANDING_THRESHOLD. lra.
    + unfold Rgtb. rewrite Rltb_false by lra. reflexivity.
    + replace (0 - 0) with 0 by lra. rewrite hypot_x_0. lra.
  - unfold segClosest.
    replace ((x' - x) * (x' - x) + (0 - 0) * (0 - 0)) with ((x' - x) * (x' - x)) by lra.
    replace (x * (x' - x) + 0 * (0 - 0)) with (x * (x' - x)) by lra.
    destruct (Rgtb _ _); [|reflexivity].
    replace (0 + _ * (0 - 0)) with 0 by lra.
    apply hypot_x_0.
Qed.

Lemma segClosest_through_axis (x x' : R) :
  x < 0 -> 0 < x' -> 1e-12 < (x' - x) * (x' - x) -> segClosest x x' = 0.
Proof.
  intros Hx Hx' Hlen. unfold segClosest, Rgtb. rewrite Rltb_true by exact Hlen.
  set (d := x' - x). assert (Hd : 0 < d) by (unfold d; lra).
  replace (- (x * d) / (d * d)) with (- x / d) by (field; lra).
  assert (Hr : 0 < - x / d < 1).
  { split.
    - apply Rdiv_lt_0_compat; lra.
    - apply (Rmult_lt_reg_r d); [exact Hd|].
      replace (- x / d * d) with (- x) by (field; lra). unfold d. lra. }
  rewrite Rmin_right by lra. rewrite Rmax_right by lra.
  replace (x + - x / d * d) with 0 by (field; lra).
  apply Rabs_R0.
Qed.

Lemma segClosest_moving_away (x x' : R) :
  0 < x -> x < x' -> x <= segClosest x x'.
Proof.
  intros Hx Hx'. unfold segClosest.
  destruct (Rgtb _ _).
  - match goal with |- context [Rmax 0 ?r] => pose proof (Rmax_l 0 r) as Ht; set (t := Rmax 0 r) in * end.
    rewrite Rabs_pos_eq; nra.
  - rewrite Rabs_pos_eq; lra.
Qed.

(** ** Hole capture *)

Lemma integrate_floor (dt : R) (g : Game) :
  let p := ballPos (ball (fst (integrate dt g))) in
  HOLE_RADIUS_M + BALL_RADIUS_M * 0.5 < hypot (v_x p) (v_z p) ->
  getTerrainHeight (terrain g) (v_x p) (v_z p) + BALL_RADIUS_M <= v_y p.
Proof.
  unfold integrate. cbv zeta.
  match goal with
  | |- context [match ?e with pair _ _ => _ end] =>
      lazymatch e with
      | context [exp] => destruct e as [[[[ax ay] az] spin] vy]
      end
  end.
  match goal with
  | |- context [Rltb ?a ?b] =>
      lazymatch b with
      | context [holeDepth] => destruct (Rltb a b) eqn:E
      end
  end.
  - match goal with
    | |- context [if ?c then _ else _] =>
        lazymatch c with
        | context [MIN_BOUNCE_VEL] => destruct c
        end
    end;
    cbn [fst withBall ball ballPos v_x v_y v_z]; intros H;
    rewrite (Rleb_false _ _ H); lra.
  - cbn [fst withBall ball ballPos v_x v_y v_z]. intros H.
    rewrite (Rleb_false _ _ H) in E. apply Rltb_iff_false in E. exact E.
Qed.

Lemma below_threshold_is_dropped (dt : R) (g g1 : Game) (c : R) :
  height_grid_ok (terrain g) ->
  integrate dt g = (g1, c) ->
  v_y (ballPos (ball g1)) < BALL_RADIUS_M * 0.5 <-> ballDroppedIn (ball g1) = true.
Proof.
  intros Hok Hint. unfold ballDroppedIn. split.
  - intros Hy.
    pose proof (integrate_floor dt g) as Hfl. rewrite Hint in Hfl. cbn [fst] in Hfl.
    destruct (Rlt_dec (HOLE_RADIUS_M + BALL_RADIUS_M * 0.5)
                (hypot (v_x (ballPos (ball g1))) (v_z (ballPos (ball g1))))) as [Hfar|Hnear].
    + specialize (Hfl Hfar).
      pose proof (getTerrainHeight_bounded (terrain g)
                    (v_x (ballPos (ball g1))) (v_z (ballPos (ball g1))) Hok) as Hb.
      rewrite height_bound_value in Hb. apply Rabs_le_between in Hb.
      unfold BALL_RADIUS_M in *. lra.
    + rewrite Rleb_true by (unfold HOLE_RADIUS_M, BALL_RADIUS_M in *; lra).
      rewrite Rltb_true by exact Hy. reflexivity.
  - intros H. apply andb_prop in H. destruct H as [_ H]. now apply Rltb_iff in H.
Qed.

Lemma colorLastAimPoint_ghostGroup (madeIt : bool) (sc : Scene) :
  ghostGroup (colorLastAimPoint madeIt sc) = ghostGroup sc.
Proof.
  unfold colorLastAimPoint. destruct (rev (aimPtGroup sc)) as [|[pos col] before]; reflexivity.
Qed.

(** A step of a moving ball is the integration followed by the hole check;
    break detection leaves the ball and the scene alone. *)
Lemma updatePhysics_moving (dt : R) (g g1 : Game) (c : R) :
  ballMoving (ball g) = true ->
  integrate dt g = (g1, c) ->
  ball (updatePhysics dt g) = ball (holeCheck c g1)
  /\ scene (updatePhysics dt g) = scene (holeCheck c g1).
Proof.
  intros Hmov Hint. unfold updatePhysics. rewrite Hmov, Hint. cbn [negb].
  destruct (breakDetect_frame (holeCheck c g1)) as (_ & _ & Bball & Bscene).
  now rewrite Bball, Bscene.
Qed.

(** The hole check on a ball that has reached the hole and is not
    captured. *)
Lemma holeCheck_not_captured (c : R) (g1 : Game) :
  reachesHole (ball g1) c = true ->
  captures (ball g1) = false ->
  let b1 := ball g1 in
  ball (holeCheck c g1) =
    if withinHole b1 then
      mkBall (ballPos b1)
             (mkVec3 (v_x (ballVel b1) * 0.92) (v_y (ballVel b1)) (v_z (ballVel b1) * 0.92))
             (ballMoving b1) (ballOnCircle b1) (ballAirborne b1) (inHole b1)
             (bounceCount b1) (maxHeight b1) (ballSpin b1) (travelDist b1)
    else b1.
Proof.
  intros Hreach Hcap b1. subst b1. unfold holeCheck. rewrite Hreach, Hcap.
  destruct (withinHole (ball g1)); destruct g1; reflexivity.
Qed.

(** C2, as the code has it.  In a step in which the ball reaches the hole,
    the ball is captured exactly when it is below the half-radius height,
    or grounded with horizontal speed below 1.45; on capture the velocity
    is zeroed, the height is set to the hole floor [-0.40 + BALL_RADIUS_M],
    the captured state is entered, and the ghost cross is placed where the
    ghost-rest simulation, run from the position, velocity and spin of
    before the capture, comes to rest.  Otherwise rolling continues from
    the committed position: with the horizontal velocity scaled by 0.92
    when the ball is within the hole radius of the axis, and with the
    velocity unchanged when only its segment crossed the hole. *)
Theorem hole_capture_or_lip_out (dt : R) (g g1 : Game) (c : R) :
  ballMoving (ball g) = true ->
  height_grid_ok (terrain g) ->
  integrate dt g = (g1, c) ->
  reachesHole (ball g1) c = true ->
  let b1 := ball g1 in
  let g' := updatePhysics dt g in
  (captures b1 = true <->
     v_y (ballPos b1) < BALL_RADIUS_M * 0.5
     \/ (ballAirborne b1 = false /\ speedXz b1 < 1.45))
  /\ (captures b1 = true <->
        ballMoving (ball g') = false /\ inHole (ball g') = true)
  /\ (captures b1 = true ->
        ballVel (ball g') = mkVec3 0 0 0
        /\ v_y (ballPos (ball g')) = - 0.40 + BALL_RADIUS_M
        /\ ghostGroup (scene g') =
             Some (simulateGhostRest (terrain g) (controls g)
                     (ballPos b1) (ballVel b1) (ballSpin b1)))
  /\ (captures b1 = false ->
        ballMoving (ball g') = true
        /\ inHole (ball g') = inHole (ball g)
        /\ ballPos (ball g') = ballPos b1
        /\ (withinHole b1 = true ->
              ballVel (ball g') =
                mkVec3 (v_x (ballVel b1) * 0.92) (v_y (ballVel b1)) (v_z (ballVel b1) * 0.92))
        /\ (withinHole b1 = false -> ballVel (ball g') = ballVel b1)).
Proof.
  intros Hmov Hok Hint Hreach b1 g'. subst b1.
  set (b1 := ball g1) in *.
  pose proof (integrate_frame dt g) as F. rewrite Hint in F. cbn [fst] in F.
  destruct F as (Ftr & Fctl & _ & _ & Fmov & _ & Fin).
  destruct (updatePhysics_moving dt g g1 c Hmov Hint) as (Sball & Sscene).
  fold g' in Sball, Sscene. rewrite Sball, Sscene. clear Sball Sscene.
  assert (Hwords : captures b1 = true <->
     v_y (ballPos b1) < BALL_RADIUS_M * 0.5
     \/ (ballAirborne b1 = false /\ speedXz b1 < 1.45)).
  { unfold captures, speedXz.
    unfold b1. rewrite (below_threshold_is_dropped dt g g1 c Hok Hint). fold b1.
    rewrite orb_true_iff, andb_true_iff, negb_true_iff, Rltb_iff. reflexivity. }
  split; [exact Hwords|].
  destruct (captures b1) eqn:Ecap.
  - unfold holeCheck. fold b1. rewrite Hreach, Ecap.
    split; [split; [intros _|reflexivity]|].
    + destruct (crossedHole b1 c && _); cbn; split; reflexivity.
    + split; [|intros H; discriminate].
      intros _. rewrite <- Ftr, <- Fctl.
      destruct (crossedHole b1 c && _); cbn [ball ballVel ballPos v_y scene];
        (split; [reflexivity|]); (split; [unfold holeBottom, holeDepth; lra|]);
        rewrite colorLastAimPoint_ghostGroup; cbn [placeGhostCross ghostGroup];
        now rewrite <- surjective_pairing.
  - pose proof (holeCheck_not_captured c g1 Hreach Ecap) as Hlip.
    cbv zeta in Hlip. fold b1 in Hlip. rewrite Hlip. clear Hlip.
    split; [split; [discriminate | intros [H _]]|].
    + destruct (withinHole b1); cbn [ball ballMoving] in H;
        unfold b1 in *; congruence.
    + split; [discriminate|]. intros _.
      destruct (withinHole b1) eqn:Ew; cbn [ball ballMoving inHole ballPos ballVel];
        unfold b1 in *; rewrite ?Fmov, ?Fin;
        (split; [assumption|]); (split; [reflexivity|]); (split; [reflexivity|]);
        (split; [intros H|intros H]); try discriminate; reflexivity.
Qed.

(** ** Sample steps *)

Lemma flatTerrain_ok : height_grid_ok flatTerrain.
Proof.
  unfold height_grid_ok, flatTerrain. cbn [HEIGHT_GRID]. split.
  - apply constGrid_square.
  - intros row v Hrow Hv. rewrite (in_constGrid _ _ _ _ Hrow Hv), Rabs_R0.
    unfold TR_TARGET_AMP. lra.
Qed.

Lemma rollFriction_value : rollFriction = 0.55815.
Proof. unfold rollFriction, stimpToMu, GRAVITY. lra. Qed.

(** A ball rolling at 1 unit/s from 6 cm before the hole axis is captured
    by the step of 1/30 s. *)
Lemma hole_capture_or_lip_out_witness :
  inHole (ball (updatePhysics (1 / 30) (rollingGame (- 0.06) 1))) = true.
Proof.
  pose proof (integrate_rolling (1 / 30) (- 0.06) 1) as Hint.
  cbv zeta in Hint. rewrite rollFriction_value in Hint.
  assert (H0 : 1e-4 < 1) by lra.
  assert (H1 : 1.45 <= 1 \/ HOLE_RADIUS_M + BALL_RADIUS_M * 0.5 < Rabs (- 0.06)).
  { right. rewrite Rabs_left by lra. unfold HOLE_RADIUS_M, BALL_RADIUS_M. lra. }
  specialize (Hint H0 H1).
  match type of Hint with
  | _ = (?g1, ?c) =>
      assert (Hreach : reachesHole (ball g1) c = true);
      [| pose proof (hole_capture_or_lip_out (1 / 30) (rollingGame (- 0.06) 1) g1 c
                      eq_refl flatTerrain_ok Hint Hreach) as (A & B & _)]
  end.
  - unfold reachesHole, withinHole. cbn [withBall ball ballPos v_x v_z].
    rewrite hypot_x_0.
    rewrite (Rleb_true (Rabs _) HOLE_RADIUS_M), orb_true_r; [reflexivity|].
    apply Rabs_le. unfold HOLE_RADIUS_M, BALL_RADIUS_M. lra.
  - apply B, A. right. split; [reflexivity|].
    unfold speedXz. cbn [withBall ball ballVel v_x v_z].
    rewrite hypot_x_0. apply Rabs_def1; lra.
Defined.

(** C2, as stated, fails: a ball rolling at 3 units/s from 5 cm before the
    hole axis crosses the hole in the step of 1/30 s and ends 4.9 cm beyond
    the axis; it has reached the hole (its segment passed through the
    axis while grounded) and is not captured, yet its velocity is not scaled
    by 0.92: it stays as integrated. *)
Lemma lip_out_not_scaled_when_only_crossed :
  let g := rollingGame (- 0.05) 3 in
  let dt := 1 / 30 in
  let g1 := fst (integrate dt g) in
  let c := snd (integrate dt g) in
  ballMoving (ball g) = true
  /\ reachesHole (ball g1) c = true
  /\ captures (ball g1) = false
  /\ ballMoving (ball (updatePhysics dt g)) = true
  /\ v_x (ballVel (ball (updatePhysics dt g))) = v_x (ballVel (ball g1))
  /\ v_x (ballVel (ball (updatePhysics dt g))) <> v_x (ballVel (ball g1)) * 0.92.
Proof.
  intros g dt g1 c.
  pose proof (integrate_rolling (1 / 30) (- 0.05) 3) as Hint.
  cbv zeta in Hint. rewrite rollFriction_value in Hint.
  assert (H0 : 1e-4 < 3) by lra.
  assert (H1 : 1.45 <= 3 \/ HOLE_RADIUS_M + BALL_RADIUS_M * 0.5 < Rabs (- 0.05))
    by (left; lra).
  specialize (Hint H0 H1). fold g dt in Hint.
  assert (Hc : c = 0).
  { unfold c. rewrite Hint. cbn [snd]. apply segClosest_through_axis; unfold dt; lra. }
  assert (Hg1 : g1 = fst (integrate dt g)) by reflexivity.
  rewrite Hint in Hg1. cbn [fst] in Hg1.
  assert (Hreach : reachesHole (ball g1) c = true).
  { rewrite Hc, Hg1. unfold reachesHole, crossedHole.
    cbn [withBall ball ballAirborne negb].
    rewrite (Rleb_true 0 HOLE_RADIUS_M) by (unfold HOLE_RADIUS_M, BALL_RADIUS_M; lra).
    apply orb_true_r. }
  assert (Hwithin : withinHole (ball g1) = false).
  { rewrite Hg1. unfold withinHole. cbn [withBall ball ballPos v_x v_z].
    rewrite hypot_x_0. apply Rleb_false.
    rewrite Rabs_pos_eq; unfold HOLE_RADIUS_M, BALL_RADIUS_M, dt; lra. }
  assert (Hcap : captures (ball g1) = false).
  { rewrite Hg1. unfold captures, ballDroppedIn.
    cbn [withBall ball ballPos ballVel ballAirborne v_x v_y v_z negb].
    rewrite (Rltb_false BALL_RADIUS_M) by (unfold BALL_RADIUS_M; lra).
    rewrite andb_false_r, !hypot_x_0. cbn [orb andb].
    apply Rltb_false. rewrite Rabs_pos_eq; unfold dt; lra. }
  assert (Hfull : integrate dt g = (g1, c)).
  { unfold g1, c. now destruct (integrate dt g). }
  destruct (updatePhysics_moving dt g g1 c eq_refl Hfull) as (Sball & _).
  pose proof (holeCheck_not_captured c g1 Hreach Hcap) as Hlip.
  cbv zeta in Hlip. rewrite Hwithin in Hlip. rewrite Hlip in Sball.
  split; [reflexivity|]. split; [exact Hreach|]. split; [exact Hcap|].
  rewrite Sball.
  split; [rewrite Hg1; reflexivity|].
  split; [reflexivity|].
  rewrite Hg1. cbn [withBall ball ballVel v_x]. unfold dt. lra.
Qed.

(** A ball rolling at 0.01 units/s one unit from the hole axis is stopped
    by the step of 1/120 s. *)
Lemma stop_exits_rolling_once_witness :
  ballMoving (ball (updatePhysics (1 / 120) (rollingGame 1 0.01))) = false.
Proof.
  pose proof (integrate_rolling (1 / 120) 1 0.01) as Hint.
  cbv zeta in Hint. rewrite rollFriction_value in Hint.
  assert (H0 : 1e-4 < 0.01) by lra.
  assert (H1 : 1.45 <= 0.01 \/ HOLE_RADIUS_M + BALL_RADIUS_M * 0.5 < Rabs 1).
  { right. rewrite Rabs_R1. unfold HOLE_RADIUS_M, BALL_RADIUS_M. lra. }
  specialize (Hint H0 H1).
  match type of Hint with
  | _ = (?g1, ?c) =>
      assert (Hslow : speedXz (ball g1) < 0.02);
      [| assert (Hreach : reachesHole (ball g1) c = false);
         [| exact (proj1 (stop_exits_rolling_once (1 / 120) (rollingGame 1 0.01) g1 c
                      eq_refl Hint eq_refl Hslow Hreach))]]
  end.
  - unfold speedXz. cbn [withBall ball ballVel v_x v_z].
    rewrite hypot_x_0. apply Rabs_def1; lra.
  - unfold reachesHole, ballDroppedIn, withinHole, crossedHole.
    cbn [withBall ball ballPos ballAirborne v_x v_y v_z negb].
    rewrite hypot_x_0.
    rewrite (Rleb_false (Rabs _) (HOLE_RADIUS_M + BALL_RADIUS_M))
      by (rewrite Rabs_pos_eq; unfold HOLE_RADIUS_M, BALL_RADIUS_M; lra).
    rewrite (Rleb_false (Rabs _) HOLE_RADIUS_M)
      by (rewrite Rabs_pos_eq; unfold HOLE_RADIUS_M, BALL_RADIUS_M; lra).
    rewrite (Rleb_false (segClosest _ _) HOLE_RADIUS_M); [reflexivity|].
    eapply Rlt_le_trans; [|apply segClosest_moving_away; lra].
    unfold HOLE_RADIUS_M, BALL_RADIUS_M. lra.
Defined.

(** * The convex hull *)

(** ** Sorting the points *)

Lemma point_eq (a b : Point) : p_x a = p_x b -> p_z a = p_z b -> a = b.
Proof. destruct a, b; cbn; intros -> ->; reflexivity. Qed.

Lemma comparePoints_le (p q : Point) : comparePoints p q <= 0 <-> lexLe p q.
Proof.
  unfold comparePoints, lexLe.
  destruct (Req_dec_T (p_x p - p_x q) 0) as [E|E]; split; intros H; lra.
Qed.

Lemma lexLe_total (p q : Point) : lexLe p q \/ lexLe q p.
Proof. unfold lexLe. lra. Qed.

Lemma lexLe_trans (p q r : Point) : lexLe p q -> lexLe q r -> lexLe p r.
Proof. unfold lexLe. lra. Qed.

Lemma lexLt_trans (p q r : Point) : lexLt p q -> lexLt q r -> lexLt p r.
Proof. unfold lexLt. lra. Qed.

Lemma lexLt_irrefl (p : Point) : ~ lexLt p p.
Proof. unfold lexLt. lra. Qed.

Lemma lexLe_neq_lt (p q : Point) : lexLe p q -> p <> q -> lexLt p q.
Proof.
  unfold lexLe, lexLt. intros H Hne.
  destruct H as [H | [Hx Hz]]; [now left|].
  right. split; [exact Hx|].
  destruct (Req_dec_T (p_z p) (p_z q)) as [E|E]; [|lra].
  exfalso. apply Hne. now apply point_eq.
Qed.

Lemma lexLt_cases (p q : Point) : lexLt p q \/ p = q \/ lexLt q p.
Proof.
  destruct (Rtotal_order (p_x p) (p_x q)) as [H | [H | H]].
  - left; now left.
  - destruct (Rtotal_order (p_z p) (p_z q)) as [Hz | [Hz | Hz]].
    + left; right; now split.
    + right; left; now apply point_eq.
    + right; right; right; split; [now symmetry | lra].
  - right; right; left; lra.
Qed.

Lemma insertPoint_perm (p : Point) (l : list Point) :
  Permutation (insertPoint p l) (p :: l).
Proof.
  induction l as [|q l IH]; cbn; [reflexivity|].
  destruct (Rleb (comparePoints p q) 0); [reflexivity|].
  rewrite IH. apply perm_swap.
Qed.

Lemma sortPoints_perm (l : list Point) : Permutation (sortPoints l) l.
Proof.
  induction l as [|p l IH]; cbn; [reflexivity|].
  rewrite insertPoint_perm. now constructor.
Qed.

Lemma insertPoint_sorted (p : Point) (l : list Point) :
  StronglySorted lexLe l -> StronglySorted lexLe (insertPoint p l).
Proof.
  induction l as [|q l IH]; intros Hs; cbn.
  - constructor; constructor.
  - inversion Hs as [|? ? Hl Hq]; subst.
    destruct (Rleb (comparePoints p q) 0) eqn:E.
    + apply Rleb_iff, comparePoints_le in E.
      constructor; [exact Hs|]. constructor; [exact E|].
      rewrite Forall_forall in *. intros r Hr. apply (lexLe_trans _ q); auto.
    + apply Rleb_iff_false in E.
      assert (Hqp : lexLe q p).
      { destruct (lexLe_total p q) as [H|H]; [|exact H].
        apply comparePoints_le in H. lra. }
      constructor; [now apply IH|].
      rewrite Forall_forall in *. intros r Hr.
      apply (Permutation_in _ (insertPoint_perm p l)) in Hr.
      destruct Hr as [<- | Hr]; auto.
Qed.

Lemma sortPoints_sorted (l : list Point) : StronglySorted lexLe (sortPoints l).
Proof.
  induction l as [|p l IH]; cbn; [constructor|]. now apply insertPoint_sorted.
Qed.

Lemma sorted_nodup_strict (l : list Point) :
  StronglySorted lexLe l -> NoDup l -> StronglySorted lexLt l.
Proof.
  induction l as [|p l IH]; intros Hs Hn; [constructor|].
  inversion Hs as [|? ? Hl Hp]; subst. inversion Hn as [|? ? Hnin Hn']; subst.
  constructor; [now apply IH|].
  rewrite Forall_forall in *. intros q Hq.
  apply lexLe_neq_lt; [now apply Hp|]. intros ->. contradiction.
Qed.

Lemma sortPoints_strict (l : list Point) :
  NoDup l -> StronglySorted lexLt (sortPoints l).
Proof.
  intros Hn. apply sorted_nodup_strict; [apply sortPoints_sorted|].
  apply (Permutation_NoDup (Permutation_sym (sortPoints_perm l)) Hn).
Qed.
(** ** Turns *)

Lemma turn_transitive (ux uz vx vz wx wz : R) :
  lexNonneg ux uz -> lexPos vx vz -> lexNonneg wx wz ->
  0 <= vcross ux uz vx vz -> 0 <= vcross vx vz wx wz ->
  0 <= vcross ux uz wx wz.
Proof.
  unfold lexNonneg, lexPos, vcross. intros Hu Hv Hw H1 H2.
  destruct Hv as [Hv | [Hv0 Hv]].
  - assert (H : 0 <= vx * (ux * wz - uz * wx)).
    { replace (vx * (ux * wz - uz * wx))
        with (ux * (vx * wz - vz * wx) + wx * (ux * vz - uz * vx)) by ring.
      destruct Hu as [Hu | [Hu _]]; destruct Hw as [Hw | [Hw _]]; nra. }
    nra.
  - subst vx.
    destruct Hw as [Hw | [Hw0 Hw]]; [nra|]. subst wx.
    destruct Hu as [Hu | [Hu0 Hu]]; nra.
Qed.

Lemma turn_transitive_strict (ux uz vx vz wx wz : R) :
  lexNonneg ux uz -> lexPos vx vz -> lexNonneg wx wz ->
  0 < vcross ux uz vx vz -> 0 < vcross vx vz wx wz ->
  0 < vcross ux uz wx wz.
Proof.
  unfold lexNonneg, lexPos, vcross. intros Hu Hv Hw H1 H2.
  destruct Hv as [Hv | [Hv0 Hv]].
  - assert (H : 0 < vx * (ux * wz - uz * wx)).
    { replace (vx * (ux * wz - uz * wx))
        with (ux * (vx * wz - vz * wx) + wx * (ux * vz - uz * vx)) by ring.
      destruct Hu as [Hu | [Hu Hu']]; destruct Hw as [Hw | [Hw Hw']]; nra. }
    nra.
  - subst vx.
    destruct Hw as [Hw | [Hw0 Hw]]; [nra|]. subst wx. nra.
Qed.


Lemma before_lexPos (asc : bool) (a b : Point) :
  before asc a b ->
  lexPos (sgn asc * (p_x b - p_x a)) (sgn asc * (p_z b - p_z a)).
Proof. unfold before, lexLt, lexPos, sgn. destruct asc; lra. Qed.

Lemma before_lexNonneg (asc : bool) (a b : Point) :
  before asc a b \/ a = b ->
  lexNonneg (sgn asc * (p_x b - p_x a)) (sgn asc * (p_z b - p_z a)).
Proof.
  intros [H | ->].
  - apply before_lexPos in H. unfold lexPos, lexNonneg in *. lra.
  - unfold lexNonneg. right. split; [|right]; ring.
Qed.

Lemma sgn_sqr (asc : bool) : sgn asc * sgn asc = 1.
Proof. unfold sgn. destruct asc; lra. Qed.

Lemma lexPos_nonneg (ux uz : R) : lexPos ux uz -> lexNonneg ux uz.
Proof. unfold lexPos, lexNonneg. lra. Qed.

(** A vertex [q] that turns left after the edge [(b, c)] of a chain also
    lies to the left of the edge [(a, b)] before it. *)
Lemma left_of_earlier_edge (asc : bool) (a b c q : Point) :
  before asc a b -> before asc b c -> before asc c q ->
  0 < cross a b c -> 0 < cross b c q -> 0 < cross a b q.
Proof.
  intros Hab Hbc Hcq H1 H2.
  pose proof (lexPos_nonneg _ _ (before_lexPos asc a b Hab)) as Pu.
  pose proof (before_lexPos asc b c Hbc) as Pv.
  pose proof (lexPos_nonneg _ _ (before_lexPos asc c q Hcq)) as Pw.
  pose proof (turn_transitive_strict _ _ _ _ _ _ Pu Pv Pw) as T.
  unfold vcross, cross, sgn in *. destruct asc; nra.
Qed.

(** The new edge [(b, q)] keeps on its left a point [p] not after [b] that
    was on the left of the edge [(a, b)], when [q] turns left after it. *)
Lemma new_edge_keeps_earlier (asc : bool) (a b q p : Point) :
  before asc a b -> before asc b q -> before asc p b \/ p = b ->
  0 <= cross a b p -> 0 < cross a b q -> 0 <= cross b q p.
Proof.
  intros Hab Hbq Hpb H1 H2.
  pose proof (before_lexNonneg asc p b Hpb) as Pu.
  pose proof (before_lexPos asc a b Hab) as Pv.
  pose proof (lexPos_nonneg _ _ (before_lexPos asc b q Hbq)) as Pw.
  pose proof (turn_transitive _ _ _ _ _ _ Pu Pv Pw) as T.
  unfold vcross, cross, sgn in *. destruct asc; nra.
Qed.

(** The new edge [(b, q)] keeps on its left a point [p] after [b] that was
    on the left of the popped edge [(b, e)], when [q] did not turn left
    after that edge. *)
Lemma new_edge_keeps_later (asc : bool) (b e q p : Point) :
  before asc b e -> before asc b q -> before asc b p ->
  0 <= cross b e p -> cross b e q <= 0 -> 0 <= cross b q p.
Proof.
  intros Hbe Hbq Hbp H1 H2.
  pose proof (lexPos_nonneg _ _ (before_lexPos asc b q Hbq)) as Pu.
  pose proof (before_lexPos asc b e Hbe) as Pv.
  pose proof (lexPos_nonneg _ _ (before_lexPos asc b p Hbp)) as Pw.
  pose proof (turn_transitive _ _ _ _ _ _ Pu Pv Pw) as T.
  unfold vcross, cross, sgn in *. destruct asc; nra.
Qed.

(** ** The inner loop *)

Lemma popWhile_step (b a : Point) (rest : list Point) (q : Point) :
  popWhile (b :: a :: rest) q =
  if Rleb (cross a b q) 0 then popWhile (a :: rest) q else b :: a :: rest.
Proof. reflexivity. Qed.

Lemma popWhile_spec (stack : list Point) (q : Point) :
  exists popped,
    stack = popped ++ popWhile stack q
    /\ (stack <> [] -> popWhile stack q <> [])
    /\ match popWhile stack q with
       | b :: a :: _ => 0 < cross a b q
       | _ => True
       end
    /\ match popped, popWhile stack q with
       | _ :: _, b :: _ => cross b (last popped b) q <= 0
       | _, _ => True
       end.
Proof.
  induction stack as [|b stack IH].
  - exists []. cbn. repeat split; auto.
  - destruct stack as [|a rest].
    + exists []. cbn. repeat split; auto; discriminate.
    + rewrite popWhile_step. destruct (Rleb (cross a b q) 0) eqn:E.
      * apply Rleb_iff in E.
        destruct IH as (popped & Hsplit & Hne & Hturn & Hlast).
        remember (popWhile (a :: rest) q) as R eqn:ER.
        exists (b :: popped). split; [cbn [app]; f_equal; exact Hsplit|].
        split; [intros _; apply Hne; discriminate|].
        split; [exact Hturn|].
        destruct R as [|b' R].
        { exfalso. apply Hne; [discriminate | reflexivity]. }
        destruct popped as [|e popped].
        -- cbn in Hsplit. inversion Hsplit; subst. cbn. exact E.
        -- cbn [last]. exact Hlast.
      * apply Rleb_iff_false in E.
        exists []. cbn [app]. repeat split; auto; discriminate.
Qed.

(** ** Stacks *)

Lemma stackEdges_suffix (popped rest : list Point) (e : Point * Point) :
  In e (stackEdges rest) -> In e (stackEdges (popped ++ rest)).
Proof.
  induction popped as [|x popped IH]; intros H; [exact H|].
  cbn [app stackEdges]. destruct (popped ++ rest) eqn:E.
  - destruct popped; [cbn in E; subst; contradiction | discriminate].
  - right. now apply IH.
Qed.

Lemma stackEdges_junction (popped : list Point) (b : Point) (rest : list Point) :
  popped <> [] -> In (b, last popped b) (stackEdges (popped ++ b :: rest)).
Proof.
  induction popped as [|x popped IH]; intros H; [contradiction|].
  destruct popped as [|y popped].
  - cbn. now left.
  - cbn [app stackEdges]. right.
    change (last (x :: y :: popped) b) with (last (y :: popped) b).
    apply IH. discriminate.
Qed.

Lemma stackSorted_suffix (asc : bool) (popped rest : list Point) :
  stackSorted asc (popped ++ rest) -> stackSorted asc rest.
Proof.
  unfold stackSorted. induction popped as [|x popped IH]; intros H; [exact H|].
  inversion H; subst. now apply IH.
Qed.

Lemma stackSorted_above (asc : bool) (popped : list Point) (b : Point) (rest : list Point) :
  stackSorted asc (popped ++ b :: rest) -> forall e, In e popped -> before asc b e.
Proof.
  unfold stackSorted. induction popped as [|x popped IH]; intros H e He; [contradiction|].
  inversion H as [|? ? Hs Hall]; subst. destruct He as [<- | He].
  - rewrite Forall_forall in Hall. apply Hall. apply in_or_app. right. now left.
  - now apply IH.
Qed.

Lemma stackTurns_suffix (popped rest : list Point) :
  stackTurns (popped ++ rest) -> stackTurns rest.
Proof.
  induction popped as [|x popped IH]; intros H; [exact H|].
  apply IH. cbn [app] in H. cbn [stackTurns] in H.
  destruct (popped ++ rest) as [|y [|z t]]; cbn; auto. now destruct H.
Qed.

Lemma last_suffix (popped rest : list Point) (d : Point) :
  rest <> [] -> last (popped ++ rest) d = last rest d.
Proof.
  intros H. induction popped as [|x popped IH]; [reflexivity|].
  cbn [app]. destruct (popped ++ rest) eqn:E.
  - destruct popped; [cbn in E; subst; contradiction | discriminate].
  - cbn [last]. exact IH.
Qed.

Lemma last_default (l : list Point) (d d' : Point) :
  l <> [] -> last l d = last l d'.
Proof.
  induction l as [|x l IH]; intros H; [contradiction|].
  destruct l as [|y l]; [reflexivity|]. cbn [last]. apply IH. discriminate.
Qed.

Lemma last_in (l : list Point) (d : Point) : l <> [] -> In (last l d) l.
Proof.
  induction l as [|x l IH]; intros H; [contradiction|].
  destruct l as [|y l]; [now left|]. right. apply IH. discriminate.
Qed.

(** A vertex that turns left after the top edge of a chain lies strictly
    to the left of every edge of the chain. *)
Lemma left_of_chain (asc : bool) (q : Point) :
  forall stack b a,
    stackSorted asc (b :: a :: stack) -> stackTurns (b :: a :: stack) ->
    before asc b q -> 0 < cross a b q ->
    forall x y, In (x, y) (stackEdges (b :: a :: stack)) -> 0 < cross x y q.
Proof.
  induction stack as [|a' stack IH]; intros b a Hs Ht Hbq Hturn x y Hin.
  - cbn in Hin. destruct Hin as [E | []]. now inversion E; subst.
  - cbn [stackEdges] in Hin. destruct Hin as [E | Hin].
    + now inversion E; subst.
    + unfold stackSorted in Hs.
      inversion Hs as [|? ? Hs' Hall]; subst.
      inversion Hs' as [|? ? Hs'' Hall']; subst.
      rewrite Forall_forall in Hall, Hall'.
      assert (Hab : before asc a b) by (apply Hall; now left).
      assert (Ha'a : before asc a' a) by (apply Hall'; now left).
      cbn [stackTurns] in Ht. destruct Ht as [Ht1 Ht2].
      apply (IH a a'); try assumption.
      * destruct asc; cbn in *; eapply lexLt_trans; eassumption.
      * apply (left_of_earlier_edge asc a' a b q); assumption.
Qed.

(** ** One chain *)

Lemma before_cases (asc : bool) (p q : Point) :
  before asc p q \/ p = q \/ before asc q p.
Proof.
  unfold before. destruct asc; destruct (lexLt_cases p q) as [H | [H | H]]; auto.
Qed.

Lemma before_asym (asc : bool) (p q : Point) : before asc p q -> before asc q p -> False.
Proof. unfold before, lexLt. destruct asc; lra. Qed.

Lemma before_irrefl (asc : bool) (p : Point) : ~ before asc p p.
Proof. intros H. exact (before_asym asc p p H H). Qed.

Lemma cross_degenerate (a b : Point) : cross a b b = 0 /\ cross a b a = 0.
Proof. unfold cross. split; ring. Qed.

Lemma chainInv_push (asc : bool) (visited stack : list Point) (q : Point) :
  chainInv asc visited stack ->
  (forall p, In p visited -> before asc p q) ->
  chainInv asc (visited ++ [q]) (pushPoint stack q).
Proof.
  intros (Hs & Ht & Hincl & Hcov & Hends) Hq. unfold pushPoint.
  destruct stack as [|top stack].
  - subst visited. cbn [app popWhile].
    split; [constructor; constructor|].
    split; [exact I|].
    split; [intros p Hp; exact Hp|].
    split; [intros p a b _ []|].
    split; [now left|].
    split; intros p [<- | []]; now right.
  - destruct Hends as (Htop & Hmax & Hmin).
    destruct (popWhile_spec (top :: stack) q) as (popped & Hsplit & Hne & Hturn & Hlast).
    destruct (popWhile (top :: stack) q) as [|b R] eqn:ER.
    { exfalso. apply Hne; [discriminate | reflexivity]. }
    clear Hne.
    assert (HsR : stackSorted asc (b :: R))
      by (apply (stackSorted_suffix asc popped); now rewrite <- Hsplit).
    assert (HtR : stackTurns (b :: R))
      by (apply (stackTurns_suffix popped); now rewrite <- Hsplit).
    assert (HinR : forall y, In y (b :: R) -> In y visited).
    { intros y Hy. apply Hincl. rewrite Hsplit. apply in_or_app. now right. }
    assert (HedgeR : forall e, In e (stackEdges (b :: R)) -> In e (stackEdges (top :: stack))).
    { intros e He. rewrite Hsplit. now apply stackEdges_suffix. }
    assert (Hbq : before asc b q) by (apply Hq, HinR; now left).
    assert (Hbottom : last (b :: R) q = last (top :: stack) top).
    { transitivity (last (b :: R) top); [apply last_default; discriminate|].
      rewrite <- (last_suffix popped (b :: R) top) by discriminate.
      now rewrite <- Hsplit. }
    split; [|split; [|split; [|split]]].
    + constructor; [exact HsR|]. apply Forall_forall. intros y Hy. apply Hq, HinR, Hy.
    + cbn [stackTurns]. destruct R as [|a R]; [exact I|]. split; [exact Hturn | exact HtR].
    + intros y [<- | Hy]; apply in_or_app; [right; now left | left; now apply HinR].
    + intros p x y Hp Hxy. apply in_app_or in Hp.
      cbn [stackEdges] in Hxy. destruct Hxy as [E | Hxy].
      * inversion E; subst x y. clear E.
        destruct Hp as [Hp | [<- | []]]; [| destruct (cross_degenerate b q); lra].
        destruct (before_cases asc p b) as [Hpb | [Hpb | Hpb]].
        -- destruct R as [|a R].
           ++ exfalso. change (last [b] q) with b in Hbottom.
              destruct (Hmin p Hp) as [H | H].
              ** rewrite <- Hbottom in H. exact (before_asym asc _ _ Hpb H).
              ** rewrite <- Hbottom in H. subst p. exact (before_irrefl asc _ Hpb).
           ++ apply (new_edge_keeps_earlier asc a b q p); auto.
              ** unfold stackSorted in HsR. inversion HsR as [|? ? _ Hall]; subst.
                 rewrite Forall_forall in Hall. apply Hall. now left.
              ** apply Hcov; [exact Hp|]. apply HedgeR. cbn. now left.
        -- subst p. destruct (cross_degenerate b q); lra.
        -- destruct popped as [|e0 popped].
           ++ exfalso. cbn in Hsplit. inversion Hsplit; subst b R.
              destruct (Hmax p Hp) as [H | H].
              ** exact (before_asym asc _ _ Hpb H).
              ** subst p. exact (before_irrefl asc _ Hpb).
           ++ set (e := last (e0 :: popped) b) in *.
              apply (new_edge_keeps_later asc b e q p); auto.
              ** apply (stackSorted_above asc (e0 :: popped) b R).
                 --- rewrite <- Hsplit. exact Hs.
                 --- apply last_in. discriminate.
              ** apply Hcov; [exact Hp|]. rewrite Hsplit.
                 apply stackEdges_junction. discriminate.
      * destruct Hp as [Hp | [<- | []]].
        -- apply Hcov; [exact Hp | now apply HedgeR].
        -- destruct R as [|a R]; [contradiction|].
           left. apply (left_of_chain asc q R b a); assumption.
    + split; [apply in_or_app; right; now left|]. split.
      * intros p Hp. apply in_app_or in Hp. destruct Hp as [Hp | [<- | []]]; auto.
      * change (last (q :: b :: R) q) with (last (b :: R) q). rewrite Hbottom.
        intros p Hp. apply in_app_or in Hp. destruct Hp as [Hp | [<- | []]]; auto.
        left. apply Hq, Hincl, last_in. discriminate.
Qed.

Lemma sorted_app_before (asc : bool) (l1 l2 : list Point) :
  StronglySorted (before asc) (l1 ++ l2) ->
  forall p q, In p l1 -> In q l2 -> before asc p q.
Proof.
  induction l1 as [|x l1 IH]; intros H p q Hp Hq; [contradiction|].
  inversion H as [|? ? Hs Hall]; subst. destruct Hp as [<- | Hp].
  - rewrite Forall_forall in Hall. apply Hall. apply in_or_app. now right.
  - now apply IH.
Qed.

Lemma chainInv_fold (asc : bool) (rest : list Point) :
  forall visited stack,
    chainInv asc visited stack ->
    StronglySorted (before asc) (visited ++ rest) ->
    chainInv asc (visited ++ rest) (fold_left pushPoint rest stack).
Proof.
  induction rest as [|q rest IH]; intros visited stack Hinv Hs; cbn [fold_left].
  - now rewrite app_nil_r.
  - replace (visited ++ q :: rest) with ((visited ++ [q]) ++ rest)
      by (now rewrite <- app_assoc).
    apply IH.
    + apply chainInv_push; [exact Hinv|].
      intros p Hp. apply (sorted_app_before asc visited (q :: rest) Hs); [exact Hp | now left].
    + now rewrite <- app_assoc.
Qed.

Lemma chainInv_nil (asc : bool) : chainInv asc [] [].
Proof.
  split; [constructor|]. split; [exact I|]. split; [intros p []|].
  split; [intros p a b []|]. reflexivity.
Qed.

Lemma buildChain_inv (asc : bool) (pts : list Point) :
  StronglySorted (before asc) pts -> chainInv asc pts (buildChain pts).
Proof.
  intros Hs. apply (chainInv_fold asc pts [] [] (chainInv_nil asc) Hs).
Qed.

Lemma sorted_snoc (Rel : Point -> Point -> Prop) (l : list Point) (x : Point) :
  StronglySorted Rel l -> (forall y, In y l -> Rel y x) -> StronglySorted Rel (l ++ [x]).
Proof.
  induction l as [|y l IH]; intros Hs Hx; cbn.
  - constructor; constructor.
  - inversion Hs as [|? ? Hs' Hall]; subst. constructor.
    + apply IH; [exact Hs' | intros z Hz; apply Hx; now right].
    + apply Forall_forall. intros z Hz. apply in_app_or in Hz.
      rewrite Forall_forall in Hall.
      destruct Hz as [Hz | [<- | []]]; [now apply Hall | apply Hx; now left].
Qed.

Lemma sorted_rev_descending (pts : list Point) :
  StronglySorted lexLt pts -> StronglySorted (before false) (rev pts).
Proof.
  induction pts as [|p pts IH]; intros Hs; cbn; [constructor|].
  inversion Hs as [|? ? Hs' Hall]; subst. rewrite Forall_forall in Hall.
  apply sorted_snoc; [now apply IH|].
  intros y Hy. apply in_rev in Hy. cbn. now apply Hall.
Qed.

(** ** Paths *)


Lemma pathEdges_step (a b : Point) (l : list Point) :
  pathEdges (a :: b :: l) = (a, b) :: pathEdges (b :: l).
Proof. reflexivity. Qed.

Lemma pathEdges_snoc (l : list Point) (y x : Point) :
  pathEdges (l ++ [y; x]) = pathEdges (l ++ [y]) ++ [(y, x)].
Proof.
  induction l as [|a l IH]; [reflexivity|].
  cbn [app]. destruct l as [|b l]; [reflexivity|].
  cbn [app pathEdges] in *. now rewrite IH.
Qed.

Lemma pathEdges_rev_stack (stack : list Point) :
  pathEdges (rev stack) = rev (stackEdges stack).
Proof.
  induction stack as [|b stack IH]; [reflexivity|].
  destruct stack as [|a stack]; [reflexivity|].
  cbn [rev stackEdges]. rewrite <- app_assoc. cbn [app].
  rewrite pathEdges_snoc. cbn [rev] in IH. now rewrite IH.
Qed.

Lemma in_pathEdges_join (X : list Point) (y : Point) (Y : list Point) (e : Point * Point) :
  In e (pathEdges (X ++ y :: Y)) ->
  In e (pathEdges (X ++ [y])) \/ In e (pathEdges (y :: Y)).
Proof.
  induction X as [|a X IH]; intros H; [now right|].
  cbn [app] in *. destruct X as [|b X].
  - cbn [app pathEdges] in *. destruct H as [H | H]; [left; now left | now right].
  - cbn [app pathEdges] in *. destruct H as [H | H]; [left; now left|].
    destruct (IH H) as [H' | H']; [left; now right | now right].
Qed.

Lemma pathTriples_step (a b c : Point) (l : list Point) :
  pathTriples (a :: b :: c :: l) = (a, b, c) :: pathTriples (b :: c :: l).
Proof. reflexivity. Qed.

Lemma pathTriples_snoc (l : list Point) (a b c : Point) :
  pathTriples (l ++ [a; b; c]) = pathTriples (l ++ [a; b]) ++ [(a, b, c)].
Proof.
  induction l as [|x l IH]; [reflexivity|].
  cbn [app]. destruct l as [|y l]; [reflexivity|].
  destruct l as [|z l]; [reflexivity|].
  cbn [app pathTriples] in *. now rewrite IH.
Qed.

Lemma turnsLeft_rev_stack (stack : list Point) :
  stackTurns stack -> turnsLeft (rev stack).
Proof.
  induction stack as [|c stack IH]; intros H; [intros a b c0 []|].
  destruct stack as [|b stack]; [intros a b c0 []|].
  destruct stack as [|a stack]; [intros a b0 c0 []|].
  cbn [stackTurns] in H. destruct H as [Hturn Hrest].
  cbn [rev]. rewrite <- !app_assoc. cbn [app].
  intros x y z Hin. rewrite pathTriples_snoc in Hin.
  apply in_app_or in Hin. destruct Hin as [Hin | [E | []]].
  - apply (IH Hrest). cbn [rev]. rewrite <- app_assoc. exact Hin.
  - now inversion E; subst.
Qed.

Lemma turnsLeft_join (X : list Point) (a b : Point) (Y : list Point) :
  turnsLeft (X ++ [a; b]) -> turnsLeft (a :: b :: Y) -> turnsLeft (X ++ a :: b :: Y).
Proof.
  induction X as [|x X IH]; intros H1 H2; [exact H2|].
  intros p q r Hin. cbn [app] in *.
  destruct X as [|y X].
  - cbn [app pathTriples] in *. destruct Hin as [E | Hin].
    + apply H1. now left.
    + now apply H2.
  - destruct X as [|z X].
    + cbn [app pathTriples] in *. destruct Hin as [E | Hin].
      * apply H1. now left.
      * apply (IH (fun p q r H => H1 p q r (or_intror H)) H2). exact Hin.
    + cbn [app pathTriples] in *. destruct Hin as [E | Hin].
      * apply H1. now left.
      * apply (IH (fun p q r H => H1 p q r (or_intror H)) H2). exact Hin.
Qed.

(** ** Junctions of the two chains *)

(** When [a], [e], [c] are collinear with [a] and [c] both on the side of
    [e] visited before it, the edges [(a, e)] and [(e, c)] run in opposite
    directions: a point strictly left of one is strictly right of the
    other. *)
Lemma opposite_edges (asc : bool) (a e c x : Point) :
  before asc a e -> before asc c e -> cross a e c = 0 ->
  (0 < cross a e x -> cross e c x < 0) /\ (0 < cross e c x -> cross a e x < 0).
Proof.
  intros Hae Hce Hcol.
  pose proof (before_lexPos asc a e Hae) as Pu.
  pose proof (before_lexPos asc c e Hce) as Pw.
  unfold lexPos, cross, sgn in *.
  set (ux := p_x e - p_x a) in *. set (uz := p_z e - p_z a) in *.
  set (wx := p_x c - p_x e) in *. set (wz := p_z c - p_z e) in *.
  set (yx := p_x x - p_x e) in *. set (yz := p_z x - p_z e) in *.
  replace (p_x e - p_x c) with (- wx) in Pw by (unfold wx; ring).
  replace (p_z e - p_z c) with (- wz) in Pw by (unfold wz; ring).
  replace (p_x c - p_x a) with (ux + wx) in Hcol by (unfold ux, wx; ring).
  replace (p_z c - p_z a) with (uz + wz) in Hcol by (unfold uz, wz; ring).
  replace (p_x x - p_x a) with (ux + yx) by (unfold ux, yx; ring).
  replace (p_z x - p_z a) with (uz + yz) by (unfold uz, yz; ring).
  assert (Hc : ux * wz = uz * wx) by lra.
  assert (K1 : ux * (wx * yz - wz * yx) = wx * (ux * yz - uz * yx)).
  { replace (ux * (wx * yz - wz * yx)) with (ux * wx * yz - (ux * wz) * yx) by ring.
    rewrite Hc. ring. }
  assert (K2 : uz * (wx * yz - wz * yx) = wz * (ux * yz - uz * yx)).
  { replace (uz * (wx * yz - wz * yx)) with ((uz * wx) * yz - uz * wz * yx) by ring.
    rewrite <- Hc. ring. }
  destruct asc.
  - destruct Pu as [Pu | [Pu0 Pu]]; destruct Pw as [Pw | [Pw0 Pw]]; split; intros H; nra.
  - destruct Pu as [Pu | [Pu0 Pu]]; destruct Pw as [Pw | [Pw0 Pw]]; split; intros H; nra.
Qed.


Lemma sorted_rev_flip (Rel : Point -> Point -> Prop) (l : list Point) :
  StronglySorted (fun x y => Rel y x) l -> StronglySorted Rel (rev l).
Proof.
  induction l as [|p l IH]; intros Hs; cbn; [constructor|].
  inversion Hs as [|? ? Hs' Hall]; subst. rewrite Forall_forall in Hall.
  apply sorted_snoc; [now apply IH|].
  intros y Hy. apply in_rev in Hy. now apply Hall.
Qed.

Lemma chainFacts_of_inv (asc : bool) (visited pts stack : list Point) :
  chainInv asc visited stack ->
  (forall p, In p pts <-> In p visited) ->
  chainFacts asc pts (rev stack).
Proof.
  intros (Hs & Ht & Hincl & Hcov & _) Hsame.
  split; [now apply sorted_rev_flip|].
  split; [now apply turnsLeft_rev_stack|].
  split.
  - intros p Hp. apply Hsame, Hincl. now apply in_rev.
  - intros p a b Hp Hab. apply Hcov; [now apply Hsame|].
    rewrite pathEdges_rev_stack in Hab. now apply in_rev.
Qed.

Lemma sorted_last_two (asc : bool) (X : list Point) (a e : Point) :
  StronglySorted (before asc) (X ++ [a; e]) -> before asc a e.
Proof.
  intros H. apply (sorted_app_before asc (X ++ [a]) [e]).
  - now rewrite <- app_assoc.
  - apply in_or_app. right. now left.
  - now left.
Qed.

Lemma before_negb (asc : bool) (a b : Point) : before (negb asc) a b <-> before asc b a.
Proof. destruct asc; reflexivity. Qed.

Lemma cross_rotate (a b c : Point) : cross a b c = cross b c a.
Proof. unfold cross. ring. Qed.

(** Where a chain ends and the other one starts, the turn is strictly
    left as soon as one of the two chains has three vertices. *)
Lemma junction_turn (asc : bool) (pts X Y : list Point) (a e c : Point) :
  chainFacts asc pts (X ++ [a; e]) ->
  chainFacts (negb asc) pts (e :: c :: Y) ->
  X <> [] \/ Y <> [] ->
  0 < cross a e c.
Proof.
  intros (HsA & HtA & HiA & HcA) (HsB & HtB & HiB & HcB) Hthree.
  assert (Hae : before asc a e) by (apply (sorted_last_two asc X), HsA).
  assert (Hce : before asc c e).
  { apply before_negb. inversion HsB as [|? ? _ Hall]; subst.
    rewrite Forall_forall in Hall. apply Hall. now left. }
  assert (HedgeA : In (a, e) (pathEdges (X ++ [a; e]))).
  { rewrite pathEdges_snoc. apply in_or_app. right. now left. }
  assert (HedgeB : In (e, c) (pathEdges (e :: c :: Y))) by now left.
  assert (Hc : In c pts) by (apply HiB; right; now left).
  destruct (HcA c a e Hc HedgeA) as [Hpos | Hzero]; [exact Hpos|].
  exfalso. symmetry in Hzero.
  destruct Hthree as [HX | HY].
  - destruct (exists_last HX) as (X' & x & ->).
    assert (Hx : In x pts).
    { apply HiA. apply in_or_app. left. apply in_or_app. right. now left. }
    assert (Hturn : 0 < cross x a e).
    { apply HtA. rewrite <- app_assoc. cbn [app]. rewrite pathTriples_snoc.
      apply in_or_app. right. now left. }
    rewrite cross_rotate in Hturn.
    destruct (opposite_edges asc a e c x Hae Hce Hzero) as [H1 _].
    specialize (H1 Hturn). pose proof (HcB x e c Hx HedgeB). lra.
  - destruct Y as [|y Y]; [contradiction|].
    assert (Hy : In y pts) by (apply HiB; right; right; now left).
    assert (Hturn : 0 < cross e c y) by (apply HtB; now left).
    destruct (opposite_edges asc a e c y Hae Hce Hzero) as [_ H2].
    specialize (H2 Hturn). pose proof (HcA y a e Hy HedgeA). lra.
Qed.

(** ** The two chains of a sorted list *)

(** A finished chain starts at the first point visited and ends at the
    last one. *)
Lemma chain_ends (asc : bool) (pts : list Point) :
  StronglySorted (before asc) pts ->
  (exists p q, In p pts /\ In q pts /\ p <> q) ->
  exists first X final,
    buildChain pts = final :: rev X ++ [first]
    /\ In first pts /\ In final pts
    /\ (forall p, In p pts -> before asc first p \/ p = first)
    /\ (forall p, In p pts -> before asc p final \/ p = final).
Proof.
  intros Hs (p1 & p2 & Hp1 & Hp2 & Hne).
  destruct (buildChain_inv asc pts Hs) as (_ & _ & Hincl & _ & Hends).
  destruct (buildChain pts) as [|top S] eqn:E.
  { subst pts. contradiction. }
  destruct Hends as (Htop & Hmax & Hmin).
  assert (HS : S <> []).
  { intros ->. cbn in Hmin.
    assert (forall p, In p pts -> p = top).
    { intros p Hp. destruct (Hmax p Hp) as [H1 | H1]; [|exact H1].
      destruct (Hmin p Hp) as [H2 | H2]; [|exact H2].
      exfalso. exact (before_asym asc _ _ H1 H2). }
    apply Hne. transitivity top; [auto | symmetry; auto]. }
  destruct (exists_last HS) as (S' & bottom & ->).
  assert (Hlast : last (top :: S' ++ [bottom]) top = bottom).
  { change (top :: S' ++ [bottom]) with ([top] ++ S' ++ [bottom]).
    rewrite app_assoc, last_last. reflexivity. }
  rewrite Hlast in Hmin.
  exists bottom, (rev S'), top. rewrite rev_involutive.
  split; [reflexivity|]. split.
  - apply Hincl. right. apply in_or_app. right. now left.
  - repeat split; assumption.
Qed.

Lemma extreme_unique (asc : bool) (pts : list Point) (m m' : Point) :
  In m pts -> In m' pts ->
  (forall p, In p pts -> before asc p m \/ p = m) ->
  (forall p, In p pts -> before asc p m' \/ p = m') ->
  m = m'.
Proof.
  intros Hm Hm' H H'.
  destruct (H m' Hm') as [H1 | H1]; [|now symmetry].
  destruct (H' m Hm) as [H2 | H2]; [|exact H2].
  exfalso. exact (before_asym asc _ _ H1 H2).
Qed.

(** The shape of the two chains of a strictly sorted list with at least
    two points. *)
Lemma two_chains (pts : list Point) :
  StronglySorted lexLt pts ->
  (exists p q, In p pts /\ In q pts /\ p <> q) ->
  exists pmin pmax Xl Xu,
    rev (buildChain pts) = pmin :: Xl ++ [pmax]
    /\ rev (buildChain (rev pts)) = pmax :: Xu ++ [pmin]
    /\ In pmin pts /\ In pmax pts
    /\ (forall p, In p pts -> lexLt pmin p \/ p = pmin)
    /\ (forall p, In p pts -> lexLt p pmax \/ p = pmax).
Proof.
  intros Hs Htwo.
  assert (Hs' : StronglySorted (before true) pts) by exact Hs.
  destruct (chain_ends true pts Hs' Htwo)
    as (f1 & X1 & l1 & E1 & Hf1 & Hl1 & Hmin1 & Hmax1).
  assert (Htwo' : exists p q, In p (rev pts) /\ In q (rev pts) /\ p <> q).
  { destruct Htwo as (p & q & Hp & Hq & Hne). exists p, q.
    repeat split; try assumption; now apply -> in_rev. }
  destruct (chain_ends false (rev pts) (sorted_rev_descending pts Hs) Htwo')
    as (f2 & X2 & l2 & E2 & Hf2 & Hl2 & Hmin2 & Hmax2).
  apply in_rev in Hf2. apply in_rev in Hl2.
  assert (Hmin2' : forall p, In p pts -> before true p f2 \/ p = f2).
  { intros p Hp. apply Hmin2. now apply -> in_rev. }
  assert (Hmax2' : forall p, In p pts -> before false p l2 \/ p = l2).
  { intros p Hp. apply Hmax2. now apply -> in_rev. }
  assert (Ea : f2 = l1) by (apply (extreme_unique true pts); assumption).
  assert (Eb : l2 = f1) by (apply (extreme_unique false pts); assumption).
  subst f2 l2.
  exists f1, l1, X1, X2.
  rewrite E1, E2. cbn [rev]. rewrite !rev_app_distr, !rev_involutive. cbn [rev app].
  repeat split; assumption.
Qed.

(** ** The hull *)

Lemma between_on_segment (a b p : Point) :
  lexLt a p \/ p = a -> lexLt p b \/ p = b -> cross a b p = 0 ->
  onSegment a b p.
Proof.
  intros Ha Hb Hc. unfold onSegment. split; [exact Hc|].
  assert (Pu : lexNonneg (p_x p - p_x a) (p_z p - p_z a)).
  { destruct Ha as [H | ->]; unfold lexLt, lexNonneg in *; [lra|].
    right. split; [|right]; ring. }
  assert (Pw : lexNonneg (p_x b - p_x p) (p_z b - p_z p)).
  { destruct Hb as [H | ->]; unfold lexLt, lexNonneg in *; [lra|].
    right. split; [|right]; ring. }
  unfold lexNonneg, cross, dot in *.
  set (ux := p_x p - p_x a) in *. set (uz := p_z p - p_z a) in *.
  set (wx := p_x b - p_x p) in *. set (wz := p_z b - p_z p) in *.
  replace (p_x b - p_x a) with (ux + wx) in * by (unfold ux, wx; ring).
  replace (p_z b - p_z a) with (uz + wz) in * by (unfold uz, wz; ring).
  replace (p_x a - p_x b) with (- (ux + wx)) by (unfold ux, wx; ring).
  replace (p_z a - p_z b) with (- (uz + wz)) by (unfold uz, wz; ring).
  replace (p_x p - p_x b) with (- wx) by (unfold wx; ring).
  replace (p_z p - p_z b) with (- wz) by (unfold wz; ring).
  assert (Hc' : wx * uz = wz * ux) by lra.
  assert (Hd : 0 <= ux * wx + uz * wz).
  { destruct Pu as [Pu | [Pu0 Pu]]; destruct Pw as [Pw | [Pw0 Pw]].
    - assert (0 <= ux * (ux * wx + uz * wz)); [|nra].
      replace (ux * (ux * wx + uz * wz)) with (ux * ux * wx + uz * (wz * ux)) by ring.
      rewrite <- Hc'. nra.
    - subst wx. assert (wz = 0) by nra. subst wz. nra.
    - subst ux. assert (uz = 0) by nra. subst uz. nra.
    - subst ux wx. nra. }
  split; nra.
Qed.

Section Hull.

Variable points : list Point.
Hypothesis points_distinct : NoDup points.
Hypothesis points_many : (2 < length points)%nat.

Let pts := sortPoints points.

Lemma pts_same (p : Point) : In p pts <-> In p points.
Proof.
  split; intros H.
  - now apply (Permutation_in _ (sortPoints_perm points)).
  - now apply (Permutation_in _ (Permutation_sym (sortPoints_perm points))).
Qed.

Lemma pts_sorted : StronglySorted lexLt pts.
Proof. now apply sortPoints_strict. Qed.

Lemma pts_length : length pts = length points.
Proof. apply Permutation_length, sortPoints_perm. Qed.

Lemma pts_two : exists p q, In p pts /\ In q pts /\ p <> q.
Proof.
  pose proof pts_length as Hlen. pose proof pts_sorted as Hs.
  destruct pts as [|p [|q l]]; cbn in Hlen; try lia.
  exists p, q. split; [now left|]. split; [right; now left|].
  inversion Hs as [|? ? _ Hall]; subst. rewrite Forall_forall in Hall.
  intros ->. apply (lexLt_irrefl q). apply Hall. now left.
Qed.

(** The hull is the lower chain without its last vertex followed by the
    upper chain without its last vertex. *)
Lemma hull_shape :
  exists pmin pmax Xl Xu,
    convexHull points = (pmin :: Xl) ++ (pmax :: Xu)
    /\ chainFacts true pts (pmin :: Xl ++ [pmax])
    /\ chainFacts false pts (pmax :: Xu ++ [pmin])
    /\ (forall p, In p pts -> lexLt pmin p \/ p = pmin)
    /\ (forall p, In p pts -> lexLt p pmax \/ p = pmax).
Proof.
  destruct (two_chains pts pts_sorted pts_two)
    as (pmin & pmax & Xl & Xu & EL & EU & _ & _ & Hmin & Hmax).
  exists pmin, pmax, Xl, Xu.
  assert (FL : chainFacts true pts (rev (buildChain pts))).
  { apply (chainFacts_of_inv true pts pts).
    - apply buildChain_inv. exact pts_sorted.
    - intros p. reflexivity. }
  assert (FU : chainFacts false pts (rev (buildChain (rev pts)))).
  { apply (chainFacts_of_inv false (rev pts) pts).
    - apply buildChain_inv. apply sorted_rev_descending. exact pts_sorted.
    - intros p. apply in_rev. }
  rewrite EL in FL. rewrite EU in FU.
  split; [|split; [exact FL | split; [exact FU | split; assumption]]].
  unfold convexHull. fold pts.
  rewrite pts_length.
  replace (length points <=? 2)%nat with false by (symmetry; apply Nat.leb_gt; lia).
  apply (f_equal (@rev Point)) in EL. apply (f_equal (@rev Point)) in EU.
  rewrite rev_involutive in EL, EU. rewrite EL, EU.
  cbn [rev]. rewrite !rev_app_distr. cbn [rev app tl].
  rewrite !rev_app_distr, !rev_involutive. reflexivity.
Qed.

End Hull.

Section HullShape.

Variables (pts : list Point) (pmin pmax : Point) (Xl Xu : list Point).
Hypothesis lower : chainFacts true pts (pmin :: Xl ++ [pmax]).
Hypothesis upper : chainFacts false pts (pmax :: Xu ++ [pmin]).
Hypothesis pmin_least : forall p, In p pts -> lexLt pmin p \/ p = pmin.
Hypothesis pmax_greatest : forall p, In p pts -> lexLt p pmax \/ p = pmax.

Let hull := (pmin :: Xl) ++ (pmax :: Xu).

Lemma shape_incl : incl hull pts.
Proof.
  destruct lower as (_ & _ & Hl & _). destruct upper as (_ & _ & Hu & _).
  intros v Hv. unfold hull in Hv. apply in_app_or in Hv. destruct Hv as [Hv | Hv].
  - apply Hl. change (pmin :: Xl ++ [pmax]) with ((pmin :: Xl) ++ [pmax]).
    apply in_or_app. now left.
  - apply Hu. change (pmax :: Xu ++ [pmin]) with ((pmax :: Xu) ++ [pmin]).
    apply in_or_app. now left.
Qed.

Lemma shape_edges (p a b : Point) :
  In p pts -> In (a, b) (cyclicEdges hull) -> 0 <= cross a b p.
Proof.
  destruct lower as (_ & _ & _ & Hl). destruct upper as (_ & _ & _ & Hu).
  intros Hp Hab. unfold cyclicEdges, hull in Hab. cbn [app firstn] in Hab.
  change (pmin :: Xl ++ pmax :: Xu) with ((pmin :: Xl) ++ pmax :: Xu) in Hab.
  rewrite <- app_assoc in Hab. cbn [app] in Hab.
  change (pmin :: Xl ++ pmax :: Xu ++ [pmin])
    with ((pmin :: Xl) ++ pmax :: (Xu ++ [pmin])) in Hab.
  apply in_pathEdges_join in Hab. destruct Hab as [Hab | Hab].
  - now apply (Hl p a b).
  - now apply (Hu p a b).
Qed.

Lemma shape_within (p : Point) : In p pts -> withinPolygon hull p.
Proof.
  intros Hp. split.
  - intros a b. now apply shape_edges.
  - intros a b E. unfold hull in E.
    destruct Xl as [|x Xl']; [|destruct Xl'; discriminate].
    destruct Xu as [|y Xu']; [|discriminate].
    cbn in E. inversion E; subst a b. clear E.
    destruct lower as (_ & _ & _ & Hl). destruct upper as (_ & _ & _ & Hu).
    assert (H1 : 0 <= cross pmin pmax p) by (apply Hl; [exact Hp | now left]).
    assert (H2 : 0 <= cross pmax pmin p) by (apply Hu; [exact Hp | now left]).
    apply between_on_segment; auto.
    unfold cross in *. lra.
Qed.

Lemma shape_turns : (3 <= length hull)%nat -> turnsLeft (hull ++ firstn 2 hull).
Proof.
  intros Hlen.
  assert (HYl : exists l2 Yl, Xl ++ [pmax] = l2 :: Yl)
    by (destruct Xl as [|x Xl']; [exists pmax, [] | exists x, (Xl' ++ [pmax])]; reflexivity).
  destruct HYl as (l2 & Yl & EYl).
  assert (HY : exists c Y, Xu ++ [pmin] = c :: Y)
    by (destruct Xu as [|x Xu']; [exists pmin, [] | exists x, (Xu' ++ [pmin])]; reflexivity).
  destruct HY as (c & Y & EY).
  assert (HXne : pmin :: Xl <> []) by discriminate.
  destruct (exists_last HXne) as (X & a & EX).
  assert (HX2ne : pmax :: Xu <> []) by discriminate.
  destruct (exists_last HX2ne) as (X2 & d & EX2).
  assert (Lf1 : pmin :: Xl ++ [pmax] = X ++ [a; pmax]).
  { change (pmin :: Xl ++ [pmax]) with ((pmin :: Xl) ++ [pmax]).
    rewrite EX, <- app_assoc. reflexivity. }
  assert (Lf2 : pmin :: Xl ++ [pmax] = pmin :: l2 :: Yl) by now rewrite EYl.
  assert (Uf1 : pmax :: Xu ++ [pmin] = X2 ++ [d; pmin]).
  { change (pmax :: Xu ++ [pmin]) with ((pmax :: Xu) ++ [pmin]).
    rewrite EX2, <- app_assoc. reflexivity. }
  assert (Uf2 : pmax :: Xu ++ [pmin] = pmax :: c :: Y) by now rewrite EY.
  assert (LX : length X = length Xl).
  { apply (f_equal (@length Point)) in EX. rewrite length_app in EX. cbn in EX. lia. }
  assert (LX2 : length X2 = length Xu).
  { apply (f_equal (@length Point)) in EX2. rewrite length_app in EX2. cbn in EX2. lia. }
  assert (LY : length Y = length Xu).
  { apply (f_equal (@length Point)) in EY. rewrite length_app in EY. cbn in EY. lia. }
  assert (LYl : length Yl = length Xl).
  { apply (f_equal (@length Point)) in EYl. rewrite length_app in EYl. cbn in EYl. lia. }
  assert (Hsize : (1 <= length Xl + length Xu)%nat).
  { unfold hull in Hlen. rewrite length_app in Hlen. cbn in Hlen. lia. }
  assert (J1 : 0 < cross a pmax c).
  { apply (junction_turn true pts X Y).
    - rewrite <- Lf1. exact lower.
    - cbn [negb]. rewrite <- Uf2. exact upper.
    - destruct X; destruct Y; cbn in *; try lia; (left; discriminate) || (right; discriminate). }
  assert (J2 : 0 < cross d pmin l2).
  { apply (junction_turn false pts X2 Yl).
    - rewrite <- Uf1. exact upper.
    - cbn [negb]. rewrite <- Lf2. exact lower.
    - destruct X2; destruct Yl; cbn in *; try lia; (left; discriminate) || (right; discriminate). }
  destruct lower as (_ & HtL & _ & _). destruct upper as (_ & HtU & _ & _).
  assert (Hclosed : hull ++ firstn 2 hull = X ++ a :: pmax :: c :: (Y ++ [l2])).
  { unfold hull.
    assert (F : firstn 2 ((pmin :: Xl) ++ pmax :: Xu) = [pmin; l2]).
    { cbn [app]. change (pmax :: Xu) with ([pmax] ++ Xu). rewrite app_assoc, EYl.
      reflexivity. }
    rewrite F, EX, <- !app_assoc. cbn [app]. f_equal. f_equal. f_equal.
    change (Xu ++ [pmin; l2]) with (Xu ++ [pmin] ++ [l2]).
    rewrite app_assoc, EY. reflexivity. }
  rewrite Hclosed. apply turnsLeft_join.
  - rewrite <- Lf1. exact HtL.
  - intros x y z Hin. rewrite pathTriples_step in Hin. destruct Hin as [E | Hin].
    + now inversion E; subst.
    + change (pmax :: c :: Y ++ [l2]) with ((pmax :: c :: Y) ++ [l2]) in Hin.
      rewrite <- Uf2, Uf1, <- app_assoc in Hin. cbn [app] in Hin.
      rewrite pathTriples_snoc in Hin. apply in_app_or in Hin.
      destruct Hin as [Hin | [E | []]].
      * apply HtU. rewrite Uf1. exact Hin.
      * now inversion E; subst.
Qed.

End HullShape.

(** ** Distinct vertices *)

Lemma sorted_nodup (asc : bool) (l : list Point) :
  StronglySorted (before asc) l -> NoDup l.
Proof.
  induction l as [|p l IH]; intros Hs; [constructor|].
  inversion Hs as [|? ? Hs' Hall]; subst. rewrite Forall_forall in Hall.
  constructor; [|now apply IH].
  intros Hin. exact (before_irrefl asc p (Hall p Hin)).
Qed.

Lemma pathEdges_prefix (A Y : list Point) (e : Point * Point) :
  In e (pathEdges Y) -> In e (pathEdges (A ++ Y)).
Proof.
  induction A as [|x A IH]; intros H; [exact H|].
  specialize (IH H). cbn [app].
  destruct (A ++ Y) as [|y l] eqn:E; [contradiction|].
  rewrite pathEdges_step. now right.
Qed.

Lemma pathTriples_prefix (A Y : list Point) (t : Point * Point * Point) :
  In t (pathTriples Y) -> In t (pathTriples (A ++ Y)).
Proof.
  induction A as [|x A IH]; intros H; [exact H|].
  specialize (IH H). cbn [app].
  destruct (A ++ Y) as [|y [|z l]] eqn:E; try contradiction.
  rewrite pathTriples_step. now right.
Qed.

Lemma interior_neighbours (h t v : Point) (X : list Point) :
  In v X -> exists A B prev next, h :: X ++ [t] = A ++ prev :: v :: next :: B.
Proof.
  intros Hin. apply in_split in Hin. destruct Hin as (X1 & X2 & ->).
  assert (H1 : h :: X1 <> []) by discriminate.
  destruct (exists_last H1) as (A & prev & E1).
  assert (H2 : exists next B, X2 ++ [t] = next :: B)
    by (destruct X2 as [|x X2']; [exists t, [] | exists x, (X2' ++ [t])]; reflexivity).
  destruct H2 as (next & B & E2).
  exists A, B, prev, next.
  change (h :: (X1 ++ v :: X2) ++ [t]) with ((h :: X1 ++ v :: X2) ++ [t]).
  change (h :: X1 ++ v :: X2) with ((h :: X1) ++ v :: X2).
  rewrite E1, <- !app_assoc. cbn [app]. now rewrite E2.
Qed.

(** When [a], [v], [c] are collinear with [v] between [a] and [c], the
    edges [(a, v)] and [(c, v)] run in opposite directions. *)
Lemma opposite_edges_through (a v c x : Point) :
  lexLt a v -> lexLt v c -> cross a v c = 0 ->
  0 < cross a v x -> cross c v x < 0.
Proof.
  intros Hav Hvc Hcol.
  unfold lexLt, cross in *.
  set (ux := p_x v - p_x a) in *. set (uz := p_z v - p_z a) in *.
  set (wx := p_x c - p_x v) in *. set (wz := p_z c - p_z v) in *.
  set (yx := p_x x - p_x v) in *. set (yz := p_z x - p_z v) in *.
  replace (p_x c - p_x a) with (ux + wx) in Hcol by (unfold ux, wx; ring).
  replace (p_z c - p_z a) with (uz + wz) in Hcol by (unfold uz, wz; ring).
  replace (p_x x - p_x a) with (ux + yx) by (unfold ux, yx; ring).
  replace (p_z x - p_z a) with (uz + yz) by (unfold uz, yz; ring).
  replace (p_x v - p_x c) with (- wx) by (unfold wx; ring).
  replace (p_z v - p_z c) with (- wz) by (unfold wz; ring).
  replace (p_x x - p_x c) with (yx - wx) by (unfold yx, wx; ring).
  replace (p_z x - p_z c) with (yz - wz) by (unfold yz, wz; ring).
  assert (Pu : 0 < ux \/ (ux = 0 /\ 0 < uz)) by (unfold ux, uz; lra).
  assert (Pw : 0 < wx \/ (wx = 0 /\ 0 < wz)) by (unfold wx, wz; lra).
  assert (Hc : ux * wz = uz * wx) by lra.
  assert (K1 : ux * (wx * yz - wz * yx) = wx * (ux * yz - uz * yx)).
  { replace (ux * (wx * yz - wz * yx)) with (ux * wx * yz - (ux * wz) * yx) by ring.
    rewrite Hc. ring. }
  assert (K2 : uz * (wx * yz - wz * yx) = wz * (ux * yz - uz * yx)).
  { replace (uz * (wx * yz - wz * yx)) with ((uz * wx) * yz - uz * wz * yx) by ring.
    rewrite <- Hc. ring. }
  intros H.
  destruct Pu as [Pu | [Pu0 Pu]]; destruct Pw as [Pw | [Pw0 Pw]]; nra.
Qed.

Section HullDistinct.

Variables (pts : list Point) (pmin pmax : Point) (Xl Xu : list Point).
Hypothesis lower : chainFacts true pts (pmin :: Xl ++ [pmax]).
Hypothesis upper : chainFacts false pts (pmax :: Xu ++ [pmin]).

Lemma chains_share_no_interior (v : Point) : In v Xl -> In v Xu -> False.
Proof.
  intros Hl Hu.
  destruct lower as (HsL & HtL & HiL & HcL). destruct upper as (HsU & HtU & HiU & HcU).
  destruct (interior_neighbours pmin pmax v Xl Hl) as (A & B & a & b & EL).
  destruct (interior_neighbours pmax pmin v Xu Hu) as (A' & B' & c & d & EU).
  rewrite EL in HsL, HtL, HiL, HcL. rewrite EU in HsU, HtU, HiU, HcU.
  assert (Hav : lexLt a v).
  { apply (sorted_app_before true (A ++ [a]) (v :: b :: B)).
    - now rewrite <- app_assoc.
    - apply in_or_app. right. now left.
    - now left. }
  assert (Hvc : lexLt v c).
  { change (before false c v).
    apply (sorted_app_before false (A' ++ [c]) (v :: d :: B')).
    - now rewrite <- app_assoc.
    - apply in_or_app. right. now left.
    - now left. }
  assert (Hc : In c pts) by (apply HiU; apply in_or_app; right; now left).
  assert (Ha : In a pts) by (apply HiL; apply in_or_app; right; now left).
  assert (Hb : In b pts) by (apply HiL; apply in_or_app; right; right; right; now left).
  assert (EdgeL : In (a, v) (pathEdges (A ++ a :: v :: b :: B)))
    by (apply pathEdges_prefix; now left).
  assert (EdgeU : In (c, v) (pathEdges (A' ++ c :: v :: d :: B')))
    by (apply pathEdges_prefix; now left).
  assert (Turn : 0 < cross a v b).
  { apply HtL. apply pathTriples_prefix. now left. }
  pose proof (HcL c a v Hc EdgeL) as H1.
  pose proof (HcU a c v Ha EdgeU) as H2.
  assert (Hcol : cross a v c = 0) by (unfold cross in *; lra).
  pose proof (opposite_edges_through a v c b Hav Hvc Hcol Turn) as H3.
  pose proof (HcU b c v Hb EdgeU) as H4. lra.
Qed.

Lemma shape_nodup : NoDup ((pmin :: Xl) ++ (pmax :: Xu)).
Proof.
  destruct lower as (HsL & _). destruct upper as (HsU & _).
  apply sorted_nodup in HsL. apply sorted_nodup in HsU.
  change (pmin :: Xl ++ [pmax]) with ((pmin :: Xl) ++ [pmax]) in HsL.
  change (pmax :: Xu ++ [pmin]) with ((pmax :: Xu) ++ [pmin]) in HsU.
  apply NoDup_app.
  - now apply NoDup_app_remove_r in HsL.
  - now apply NoDup_app_remove_r in HsU.
  - intros v Hv Hv'.
    assert (HpmaxL : ~ In pmax (pmin :: Xl)).
    { intros H. apply (NoDup_remove_2 _ _ _ HsL). rewrite app_nil_r. exact H. }
    assert (HpminU : ~ In pmin (pmax :: Xu)).
    { intros H. apply (NoDup_remove_2 _ _ _ HsU). rewrite app_nil_r. exact H. }
    destruct Hv as [<- | Hv]; [contradiction|].
    destruct Hv' as [<- | Hv'].
    + apply HpmaxL. now right.
    + exact (chains_share_no_interior v Hv Hv').
Qed.

End HullDistinct.

(** ** The hull of a list of distinct points *)

Lemma hull_of_distinct_points (points : list Point) :
  NoDup points -> (2 < length points)%nat ->
  let hull := convexHull points in
  incl hull points
  /\ convexPosition hull
  /\ (forall p, In p points -> withinPolygon hull p).
Proof.
  intros Hnd Hlen hull.
  destruct (hull_shape points Hnd Hlen) as (pmin & pmax & Xl & Xu & E & FL & FU & Hmin & Hmax).
  unfold hull. rewrite E. clear hull E.
  assert (Hincl : incl ((pmin :: Xl) ++ pmax :: Xu) points).
  { intros v Hv. apply (pts_same points).
    eapply (shape_incl (sortPoints points)); eassumption. }
  assert (Hwithin : forall p, In p points -> withinPolygon ((pmin :: Xl) ++ pmax :: Xu) p).
  { intros p Hp. eapply (shape_within (sortPoints points)); try eassumption.
    now apply pts_same. }
  split; [exact Hincl|]. split; [|exact Hwithin].
  split; [eapply (shape_nodup (sortPoints points)); eassumption|].
  split; [intros v Hv; apply Hwithin, Hincl, Hv|].
  intros H3 a b c Hin.
  eapply (shape_turns (sortPoints points)); eassumption.
Qed.

Lemma compare_le (p q : Point) : lexLe p q -> Rleb (comparePoints p q) 0 = true.
Proof. intros H. apply Rleb_true. now apply comparePoints_le. Qed.

Lemma insertPoint_here (p q : Point) (l : list Point) :
  lexLe p q -> insertPoint p (q :: l) = p :: q :: l.
Proof. intros H. cbn [insertPoint]. now rewrite compare_le. Qed.

Lemma pushPoint_pop (b a : Point) (rest : list Point) (p : Point) :
  cross a b p <= 0 -> pushPoint (b :: a :: rest) p = pushPoint (a :: rest) p.
Proof. intros H. unfold pushPoint. rewrite popWhile_step. now rewrite Rleb_true. Qed.

Lemma pushPoint_single (b p : Point) : pushPoint [b] p = [p; b].
Proof. reflexivity. Qed.

Lemma pushPoint_empty (p : Point) : pushPoint [] p = [p].
Proof. reflexivity. Qed.

(** ** The hull on binary64 numbers *)

(** ** Binary64.Dyadic numbers *)

Lemma IZR_pow2 (k : Z) : (0 <= k)%Z -> IZR (2 ^ k) = powerRZ 2 k.
Proof.
  intros Hk. rewrite <- (Z2Nat.id k Hk) at 1 2.
  rewrite <- pow_IZR, <- pow_powerRZ. reflexivity.
Qed.

Lemma dval_shift (n e1 e : Z) :
  (e <= e1)%Z -> Binary64.dval ((n * 2 ^ (e1 - e))%Z, e) = Binary64.dval (n, e1).
Proof.
  intros H. unfold Binary64.dval. cbn [fst snd].
  rewrite mult_IZR, IZR_pow2 by lia.
  rewrite Rmult_assoc, <- powerRZ_add by lra.
  replace (e1 - e + e)%Z with e1 by lia. reflexivity.
Qed.

Lemma dsub_exact (a b : Binary64.Dyadic) : Binary64.dval (Binary64.dsub a b) = Binary64.dval a - Binary64.dval b.
Proof.
  destruct a as [n1 e1], b as [n2 e2]. unfold Binary64.dsub. cbn [fst snd].
  set (e := Z.min e1 e2).
  rewrite <- (dval_shift n1 e1 e), <- (dval_shift n2 e2 e) by (unfold e; lia).
  unfold Binary64.dval. cbn [fst snd]. rewrite minus_IZR. ring.
Qed.

Lemma dmul_exact (a b : Binary64.Dyadic) : Binary64.dval (Binary64.dmul a b) = Binary64.dval a * Binary64.dval b.
Proof.
  destruct a as [n1 e1], b as [n2 e2]. unfold Binary64.dmul, Binary64.dval. cbn [fst snd].
  rewrite mult_IZR, powerRZ_add by lra. ring.
Qed.

Lemma pow2_pos (e : Z) : 0 < powerRZ 2 e.
Proof. apply powerRZ_lt. lra. Qed.

Lemma dval_nonpos (d : Binary64.Dyadic) : (fst d <=? 0)%Z = Rleb (Binary64.dval d) 0.
Proof.
  unfold Binary64.dval. pose proof (pow2_pos (snd d)) as Hp.
  destruct (Z.leb_spec (fst d) 0) as [H | H].
  - symmetry. apply Rleb_true. apply IZR_le in H. nra.
  - symmetry. apply Rleb_false. apply IZR_lt in H. nra.
Qed.

Lemma dval_zero (d : Binary64.Dyadic) : (fst d =? 0)%Z = true <-> Binary64.dval d = 0.
Proof.
  unfold Binary64.dval. pose proof (pow2_pos (snd d)) as Hp. split.
  - intros H. apply Z.eqb_eq in H. rewrite H. lra.
  - intros H. apply Z.eqb_eq. apply eq_IZR.
    apply Rmult_integral in H. destruct H as [H | H]; [exact H | lra].
Qed.

Lemma dval_negative (d : Binary64.Dyadic) : (fst d < 0)%Z -> Binary64.dval d < 0.
Proof.
  intros H. unfold Binary64.dval. pose proof (pow2_pos (snd d)) as Hp.
  apply IZR_lt in H. nra.
Qed.

(** *** The exact tests are the tests on the values *)

Lemma compare_exact (a b : Geometry64.Point) :
  comparePoints (Geometry64.toPoint a) (Geometry64.toPoint b)
  = Binary64.dval (Geometry64.exactCompare a b).
Proof.
  unfold comparePoints, Geometry64.exactCompare, Geometry64.toPoint, Binary64.valueOf.
  cbn [p_x p_z]. cbv zeta.
  rewrite <- !dsub_exact.
  destruct (Req_dec_T _ 0) as [E | N].
  - apply dval_zero in E. rewrite E. reflexivity.
  - destruct (fst _ =? 0)%Z eqn:E; [|reflexivity].
    apply dval_zero in E. contradiction.
Qed.

Lemma cross_exact (o a b : Geometry64.Point) :
  cross (Geometry64.toPoint o) (Geometry64.toPoint a) (Geometry64.toPoint b)
  = Binary64.dval (Geometry64.exactCross o a b).
Proof.
  unfold cross, Geometry64.exactCross, Geometry64.toPoint, Binary64.valueOf.
  cbn [p_x p_z]. rewrite dsub_exact, !dmul_exact, !dsub_exact. reflexivity.
Qed.

Lemma samePoint_values (a b : Geometry64.Point) :
  Geometry64.toPoint a = Geometry64.toPoint b -> Geometry64.samePoint a b = true.
Proof.
  unfold Geometry64.toPoint, Geometry64.samePoint, Binary64.valueOf. intros E.
  injection E as Ex Ez. apply andb_true_iff. split; apply dval_zero;
    rewrite dsub_exact; lra.
Qed.

Lemma distinct_values (l : list Geometry64.Point) :
  Geometry64.distinctPoints l = true -> NoDup (map Geometry64.toPoint l).
Proof.
  induction l as [|p l IH]; intros H; [constructor|].
  cbn [Geometry64.distinctPoints] in H. apply andb_true_iff in H. destruct H as [H1 H2].
  cbn [map]. constructor; [|now apply IH].
  intros Hin. apply in_map_iff in Hin. destruct Hin as (q & E & Hq).
  rewrite forallb_forall in H1. specialize (H1 q Hq).
  rewrite (samePoint_values p q) in H1 by (symmetry; exact E). discriminate.
Qed.

Lemma signsExact_sound (l : list Geometry64.Point) :
  Geometry64.signsExact l = true ->
  (forall p q, In p l -> In q l ->
     Geometry64.notAfter p q
     = Rleb (comparePoints (Geometry64.toPoint p) (Geometry64.toPoint q)) 0)
  /\ (forall a b c, In a l -> In b l -> In c l ->
        PrimFloat.leb (Geometry64.cross a b c) Binary64.zero
        = Rleb (cross (Geometry64.toPoint a) (Geometry64.toPoint b)
                      (Geometry64.toPoint c)) 0).
Proof.
  unfold Geometry64.signsExact. intros H.
  assert (Hall : forall p q, In p l -> In q l ->
            Bool.eqb (Geometry64.notAfter p q) (fst (Geometry64.exactCompare p q) <=? 0)%Z
            = true
            /\ forall r, In r l ->
                 Bool.eqb (PrimFloat.leb (Geometry64.cross p q r) Binary64.zero)
                          (fst (Geometry64.exactCross p q r) <=? 0)%Z = true).
  { intros p q Hp Hq. rewrite forallb_forall in H. specialize (H p Hp).
    rewrite forallb_forall in H. specialize (H q Hq).
    apply andb_true_iff in H. destruct H as [H1 H2]. split; [exact H1|].
    intros r Hr. rewrite forallb_forall in H2. now apply H2. }
  split.
  - intros p q Hp Hq. destruct (Hall p q Hp Hq) as [H1 _].
    apply eqb_prop in H1. rewrite H1, compare_exact. apply dval_nonpos.
  - intros a b c Ha Hb Hc. destruct (Hall a b Ha Hb) as [_ H2].
    specialize (H2 c Hc). apply eqb_prop in H2.
    rewrite H2, cross_exact. apply dval_nonpos.
Qed.

(** *** The hull of the values *)

Section HullOfValues.

Variable L : list Geometry64.Point.

Hypothesis order_exact : forall p q, In p L -> In q L ->
  Geometry64.notAfter p q
  = Rleb (comparePoints (Geometry64.toPoint p) (Geometry64.toPoint q)) 0.

Hypothesis turn_exact : forall a b c, In a L -> In b L -> In c L ->
  PrimFloat.leb (Geometry64.cross a b c) Binary64.zero
  = Rleb (cross (Geometry64.toPoint a) (Geometry64.toPoint b) (Geometry64.toPoint c)) 0.

Lemma insertPoint_values (p : Geometry64.Point) (l : list Geometry64.Point) :
  In p L -> incl l L ->
  map Geometry64.toPoint (Geometry64.insertPoint p l) = insertPoint (Geometry64.toPoint p) (map Geometry64.toPoint l)
  /\ incl (Geometry64.insertPoint p l) L.
Proof.
  intros Hp. induction l as [|q l IH]; intros Hl.
  - split; [reflexivity|]. intros x [<- | []]. exact Hp.
  - assert (Hq : In q L) by (apply Hl; now left).
    assert (Hl' : incl l L) by (intros x Hx; apply Hl; now right).
    cbn [Geometry64.insertPoint map insertPoint].
    rewrite <- (order_exact p q Hp Hq).
    destruct (Geometry64.notAfter p q).
    + split; [reflexivity|]. intros x [<- | Hx]; [exact Hp | now apply Hl].
    + destruct (IH Hl') as [E I]. cbn [map]. rewrite E. split; [reflexivity|].
      intros x [<- | Hx]; [exact Hq | now apply I].
Qed.

Lemma sortPoints_values (l : list Geometry64.Point) :
  incl l L ->
  map Geometry64.toPoint (Geometry64.sortPoints l) = sortPoints (map Geometry64.toPoint l)
  /\ incl (Geometry64.sortPoints l) L.
Proof.
  induction l as [|p l IH]; intros Hl.
  - split; [reflexivity | intros x []].
  - assert (Hp : In p L) by (apply Hl; now left).
    assert (Hl' : incl l L) by (intros x Hx; apply Hl; now right).
    destruct (IH Hl') as [E I].
    unfold Geometry64.sortPoints, sortPoints. cbn [fold_right map].
    fold (Geometry64.sortPoints l). fold (sortPoints (map Geometry64.toPoint l)).
    destruct (insertPoint_values p (Geometry64.sortPoints l) Hp I) as [E' I'].
    rewrite E', E. split; [reflexivity | exact I'].
Qed.

Lemma popWhile_values (S : list Geometry64.Point) (p : Geometry64.Point) :
  In p L -> incl S L ->
  map Geometry64.toPoint (Geometry64.popWhile S p) = popWhile (map Geometry64.toPoint S) (Geometry64.toPoint p)
  /\ incl (Geometry64.popWhile S p) L.
Proof.
  intros Hp. induction S as [|b S IH]; intros HS.
  - split; [reflexivity | intros x []].
  - destruct S as [|a S'].
    + split; [reflexivity | exact HS].
    + assert (Ha : In a L) by (apply HS; right; now left).
      assert (Hb : In b L) by (apply HS; now left).
      assert (HS' : incl (a :: S') L) by (intros x Hx; apply HS; now right).
      cbn [Geometry64.popWhile map popWhile].
      pose proof (turn_exact a b p Ha Hb Hp) as Ht. unfold Binary64.zero in Ht.
      rewrite <- Ht.
      destruct (PrimFloat.leb (Geometry64.cross a b p) _).
      * exact (IH HS').
      * split; [reflexivity | exact HS].
Qed.

Lemma fold_push_values (l : list Geometry64.Point) :
  forall S, incl l L -> incl S L ->
    map Geometry64.toPoint (fold_left Geometry64.pushPoint l S) = fold_left pushPoint (map Geometry64.toPoint l) (map Geometry64.toPoint S)
    /\ incl (fold_left Geometry64.pushPoint l S) L.
Proof.
  induction l as [|p l IH]; intros S Hl HS.
  - split; [reflexivity | exact HS].
  - assert (Hp : In p L) by (apply Hl; now left).
    assert (Hl' : incl l L) by (intros x Hx; apply Hl; now right).
    destruct (popWhile_values S p Hp HS) as [E I].
    cbn [fold_left map].
    assert (HS' : incl (Geometry64.pushPoint S p) L).
    { unfold Geometry64.pushPoint. intros x [<- | Hx]; [exact Hp | now apply I]. }
    destruct (IH (Geometry64.pushPoint S p) Hl' HS') as [E' I'].
    assert (Ep : map Geometry64.toPoint (Geometry64.pushPoint S p)
                 = pushPoint (map Geometry64.toPoint S) (Geometry64.toPoint p))
      by (unfold Geometry64.pushPoint, pushPoint; cbn [map]; rewrite E; reflexivity).
    rewrite E', Ep. split; [reflexivity | exact I'].
Qed.

Lemma buildChain_values (l : list Geometry64.Point) :
  incl l L ->
  map Geometry64.toPoint (Geometry64.buildChain l) = buildChain (map Geometry64.toPoint l)
  /\ incl (Geometry64.buildChain l) L.
Proof.
  intros Hl. exact (fold_push_values l [] Hl (fun x (H : In x []) => match H with end)).
Qed.

Lemma tl_values (l : list Geometry64.Point) : tl (map Geometry64.toPoint l) = map Geometry64.toPoint (tl l).
Proof. destruct l; reflexivity. Qed.

Lemma in_tl (l : list Geometry64.Point) (x : Geometry64.Point) :
  In x (tl l) -> In x l.
Proof. destruct l; [intros H; exact H | intros H; now right]. Qed.

Lemma convexHull_values :
  map Geometry64.toPoint (Geometry64.convexHull L) = convexHull (map Geometry64.toPoint L)
  /\ incl (Geometry64.convexHull L) L.
Proof.
  destruct (sortPoints_values L (incl_refl L)) as [Es Is].
  unfold Geometry64.convexHull, convexHull. cbv zeta.
  rewrite <- Es, length_map.
  destruct (length (Geometry64.sortPoints L) <=? 2)%nat; [split; [reflexivity | exact Is]|].
  destruct (buildChain_values (Geometry64.sortPoints L) Is) as [E1 I1].
  assert (Ir : incl (rev (Geometry64.sortPoints L)) L)
    by (intros x Hx; apply Is; now apply in_rev).
  destruct (buildChain_values (rev (Geometry64.sortPoints L)) Ir) as [E2 I2].
  rewrite <- map_rev, <- E1, <- E2, !tl_values, <- !map_rev, <- map_app.
  split; [reflexivity|].
  intros x Hx. apply in_app_or in Hx.
  destruct Hx as [Hx | Hx]; apply in_rev in Hx.
  - apply I1, in_tl, Hx.
  - apply I2, in_tl, Hx.
Qed.

End HullOfValues.

Lemma hull_has_two_vertices (points : list Point) :
  NoDup points -> (2 < length points)%nat -> (2 <= length (convexHull points))%nat.
Proof.
  intros Hnd Hlen.
  destruct (hull_shape points Hnd Hlen) as (pmin & pmax & Xl & Xu & E & _).
  rewrite E, length_app. cbn [length]. lia.
Qed.




Import TerrainFacts.

(** * Further properties of terrain.js *)

(** ** The seeded generator *)

Lemma int32_range (z : Z) : (- 2 ^ 31 <= int32 z < 2 ^ 31)%Z.
Proof. unfold int32. pose proof (Z.mod_pos_bound (z + 2 ^ 31) (2 ^ 32)). lia. Qed.

Lemma int32_congr (a b : Z) :
  (a mod 2 ^ 32 = b mod 2 ^ 32)%Z -> int32 a = int32 b.
Proof.
  intros H. unfold int32.
  rewrite (Zplus_mod a), (Zplus_mod b), H. reflexivity.
Qed.

Lemma int32_mod (z : Z) : (int32 z mod 2 ^ 32 = z mod 2 ^ 32)%Z.
Proof.
  unfold int32.
  rewrite Zminus_mod, Zmod_mod, <- Zminus_mod.
  f_equal. lia.
Qed.

Lemma int32_add_l (a b : Z) : int32 (int32 a + b) = int32 (a + b).
Proof.
  apply int32_congr.
  rewrite Zplus_mod, int32_mod, <- Zplus_mod. reflexivity.
Qed.

Lemma int32_wrap (z k : Z) : int32 (z + k * 2 ^ 32) = int32 z.
Proof. apply int32_congr. apply Z_mod_plus_full. Qed.

Lemma mulberry32_bits_spec (s : Z) :
  (0 <= fst (mulberry32_bits s) < 2 ^ 32)%Z
  /\ snd (mulberry32_bits s) = int32 (s + WEYL).
Proof.
  unfold mulberry32_bits. cbv zeta. cbn [fst snd]. split; [|reflexivity].
  unfold ushr at 1. rewrite Z.shiftr_0_r. unfold uint32.
  apply Z.mod_pos_bound. lia.
Qed.

Lemma fn_seeded (s : Z) :
  0 <= fst (fn (Seeded s)) < 1
  /\ snd (fn (Seeded s)) = Seeded (int32 (s + WEYL)).
Proof.
  destruct (mulberry32_bits_spec s) as [[Hlo Hhi] Hs].
  unfold fn, mulberry32_next.
  destruct (mulberry32_bits s) as [u s']. cbn [fst snd] in *. subst s'.
  split; [|reflexivity].
  apply IZR_le in Hlo. apply IZR_lt in Hhi.
  change (IZR (2 ^ 32)) with 4294967296 in Hhi.
  split.
  - apply Rmult_le_pos; [exact Hlo|]. lra.
  - apply (Rmult_lt_reg_r 4294967296); [lra|].
    unfold Rdiv. rewrite Rmult_assoc, Rinv_l by lra. lra.
Qed.

Lemma uniform_seeded (lo hi : R) (s : Z) :
  lo < hi ->
  lo <= fst (uniform lo hi (Seeded s)) < hi
  /\ snd (uniform lo hi (Seeded s)) = Seeded (int32 (s + WEYL)).
Proof.
  intros Hlt. destruct (fn_seeded s) as [[H0 H1] Hs].
  unfold uniform. destruct (fn (Seeded s)) as [v rng']. cbn [fst snd] in *.
  split; [|exact Hs]. split; nra.
Qed.

Lemma makeRow_seeded_spec (n : nat) (a : R) :
  0 < a ->
  forall seed,
    (forall v, In v (fst (makeRow n a (mulberry32 seed))) -> - a <= v < a)
    /\ snd (makeRow n a (mulberry32 seed)) = mulberry32 (seed + Z.of_nat n * WEYL).
Proof.
  intros Ha. induction n as [|n IH]; intros seed.
  - cbn [makeRow fst snd]. split; [intros v []|].
    now rewrite Z.mul_0_l, Z.add_0_r.
  - unfold mulberry32 in *. cbn [makeRow].
    destruct (uniform_seeded (- a) a (int32 seed)) as [Hv Hs]; [lra|].
    destruct (uniform (- a) a (Seeded (int32 seed))) as [v rng1].
    cbn [fst snd] in Hv, Hs. subst rng1.
    rewrite int32_add_l.
    specialize (IH (seed + WEYL)%Z). destruct IH as [IHv IHs].
    destruct (makeRow n a (Seeded (int32 (seed + WEYL)))) as [row rng2].
    cbn [fst snd] in *. split.
    + intros w [<- | Hw]; [exact Hv | now apply IHv].
    + rewrite IHs. f_equal. f_equal. lia.
Qed.

Lemma makeRows_seeded_spec (n size : nat) (a : R) :
  0 < a ->
  forall seed,
    (forall row v, In row (fst (makeRows n size a (mulberry32 seed))) ->
                   In v row -> - a <= v < a)
    /\ snd (makeRows n size a (mulberry32 seed))
       = mulberry32 (seed + Z.of_nat (n * size) * WEYL).
Proof.
  intros Ha. induction n as [|n IH]; intros seed.
  - cbn [makeRows fst snd Nat.mul]. split; [intros row v []|].
    now rewrite Z.mul_0_l, Z.add_0_r.
  - cbn [makeRows].
    destruct (makeRow_seeded_spec size a Ha seed) as [Hv Hs].
    destruct (makeRow size a (mulberry32 seed)) as [row rng1].
    cbn [fst snd] in Hv, Hs. subst rng1.
    specialize (IH (seed + Z.of_nat size * WEYL)%Z). destruct IH as [IHv IHs].
    destruct (makeRows n size a (mulberry32 (seed + Z.of_nat size * WEYL)))
      as [rows rng2].
    cbn [fst snd] in *. split.
    + intros r w [<- | Hr] Hw; [now apply Hv | now apply (IHv r)].
    + rewrite IHs. f_equal. lia.
Qed.

(** X1.  Seeded noise: the grid that [makeNoiseGrid] draws from
    [mulberry32(seed)] has [size] rows of [size] cells, and every cell is
    at least [-amplitude] and less than [amplitude]. *)
Theorem seeded_noise_in_range (size : nat) (amplitude : R) (seed : Z) :
  0 < amplitude ->
  let g := fst (makeNoiseGrid size amplitude (mulberry32 seed)) in
  square_rows size size g
  /\ forall row v, In row g -> In v row -> - amplitude <= v < amplitude.
Proof.
  intros Ha g. split.
  - apply makeNoiseGrid_square.
  - apply (makeRows_seeded_spec size size amplitude Ha seed).
Qed.

Lemma seeded_noise_in_range_witness :
  square_rows 3 3 (fst (makeNoiseGrid 3 0.5 (mulberry32 7))).
Proof.
  refine (proj1 (seeded_noise_in_range 3 0.5 7 _)). lra.
Defined.

Lemma uniform_state (lo hi : R) (s : Z) :
  snd (uniform lo hi (Seeded s)) = Seeded (int32 (s + WEYL)).
Proof.
  destruct (fn_seeded s) as [_ Hs].
  unfold uniform. destruct (fn (Seeded s)) as [v rng']. exact Hs.
Qed.

Lemma makeRow_state (n : nat) (a : R) :
  forall seed,
    snd (makeRow n a (mulberry32 seed)) = mulberry32 (seed + Z.of_nat n * WEYL).
Proof.
  induction n as [|n IH]; intros seed.
  - cbn [makeRow snd]. now rewrite Z.mul_0_l, Z.add_0_r.
  - unfold mulberry32 in *. cbn [makeRow].
    pose proof (uniform_state (- a) a (int32 seed)) as Hs.
    destruct (uniform (- a) a (Seeded (int32 seed))) as [v rng1].
    cbn [snd] in Hs. subst rng1. rewrite int32_add_l.
    specialize (IH (seed + WEYL)%Z).
    destruct (makeRow n a (Seeded (int32 (seed + WEYL)))) as [row rng2].
    cbn [snd] in *. rewrite IH. f_equal. f_equal. lia.
Qed.

Lemma makeRows_state (n size : nat) (a : R) :
  forall seed,
    snd (makeRows n size a (mulberry32 seed))
    = mulberry32 (seed + Z.of_nat (n * size) * WEYL).
Proof.
  induction n as [|n IH]; intros seed.
  - cbn [makeRows snd Nat.mul]. now rewrite Z.mul_0_l, Z.add_0_r.
  - cbn [makeRows].
    pose proof (makeRow_state size a seed) as Hs.
    destruct (makeRow size a (mulberry32 seed)) as [row rng1].
    cbn [snd] in Hs. subst rng1.
    specialize (IH (seed + Z.of_nat size * WEYL)%Z).
    destruct (makeRows n size a (mulberry32 (seed + Z.of_nat size * WEYL)))
      as [rows rng2].
    cbn [snd] in *. rewrite IH. f_equal. lia.
Qed.

(** X2.  The generator after a noise grid: drawing a [size] by [size]
    noise grid from [mulberry32(seed)] leaves the generator that
    [mulberry32(seed + size * size * 0x6D2B79F5)] makes: the captured
    variable advances by a fixed increment at each call, whatever was
    drawn. *)
Theorem seeded_noise_advances_state (size : nat) (amplitude : R) (seed : Z) :
  snd (makeNoiseGrid size amplitude (mulberry32 seed))
  = mulberry32 (seed + Z.of_nat (size * size) * 0x6D2B79F5).
Proof. apply makeRows_state. Qed.

(** X3.  Seeds that differ by a multiple of 2^32 make the same generator,
    hence the same three grids. *)
Theorem seed_wraps_at_32_bits (seed k : Z) (src1 src2 : nat -> R) (st : TerrainState) :
  mulberry32 (seed + k * 2 ^ 32) = mulberry32 seed
  /\ buildTrueRollGrids (Some (seed + k * 2 ^ 32)%Z) src1 st
     = buildTrueRollGrids (Some seed) src2 st.
Proof.
  assert (E : mulberry32 (seed + k * 2 ^ 32) = mulberry32 seed).
  { unfold mulberry32. now rewrite int32_wrap. }
  split; [exact E|].
  unfold buildTrueRollGrids, makeRng. now rewrite E.
Qed.

(** ** Smoothing *)

Lemma cell_between (g : Grid) (n : nat) (lo hi : R) (y x : Z) :
  square_rows n n g -> cells_between lo hi g ->
  (0 <= y < Z.of_nat n)%Z -> (0 <= x < Z.of_nat n)%Z ->
  lo <= cell g y x <= hi.
Proof.
  intros [Hlen Hall] Hb Hy Hx. unfold cell.
  assert (Hrow : In (nth (Z.to_nat y) g []) g) by (apply nth_In; lia).
  apply (Hb (nth (Z.to_nat y) g [])); [exact Hrow|].
  rewrite Forall_forall in Hall. specialize (Hall _ Hrow).
  apply nth_In. lia.
Qed.

Lemma inside_range (size yy xx : Z) :
  inside size yy xx = true <-> (0 <= yy < size)%Z /\ (0 <= xx < size)%Z.
Proof.
  unfold inside. rewrite !andb_true_iff, !Z.leb_le, !Z.ltb_lt. tauto.
Qed.

Lemma smoothAdd_keeps (g : Grid) (n : nat) (lo hi k : R) (yy xx : Z) (acc : R * R) :
  square_rows n n g -> cells_between lo hi g ->
  running_between lo hi k acc ->
  running_between lo hi k (smoothAdd g (Z.of_nat n) yy xx acc).
Proof.
  intros Hsq Hb [Hacc Hk]. unfold smoothAdd, running_between.
  destruct (inside (Z.of_nat n) yy xx) eqn:E; cbn [fst snd]; [|now split].
  apply inside_range in E. destruct E as [Hy Hx].
  pose proof (cell_between g n lo hi yy xx Hsq Hb Hy Hx).
  split; [split|]; lra.
Qed.

Lemma smoothAdd_counts (g : Grid) (n : nat) (lo hi k : R) (yy xx : Z) (acc : R * R) :
  square_rows n n g -> cells_between lo hi g ->
  inside (Z.of_nat n) yy xx = true ->
  running_between lo hi k acc ->
  running_between lo hi (k + 1) (smoothAdd g (Z.of_nat n) yy xx acc).
Proof.
  intros Hsq Hb E [Hacc Hk]. unfold smoothAdd, running_between.
  rewrite E. cbn [fst snd].
  apply inside_range in E. destruct E as [Hy Hx].
  pose proof (cell_between g n lo hi yy xx Hsq Hb Hy Hx).
  split; [split|]; lra.
Qed.

Lemma smoothCell_between (g : Grid) (n : nat) (lo hi : R) (y x : nat) :
  square_rows n n g -> cells_between lo hi g ->
  (y < n)%nat -> (x < n)%nat ->
  lo <= smoothCell g (Z.of_nat n) (Z.of_nat y) (Z.of_nat x) <= hi.
Proof.
  intros Hsq Hb Hy Hx. unfold smoothCell, offsets. cbn [fold_left].
  match goal with
  | |- _ <= fst ?acc / _ <= _ =>
      assert (H : running_between lo hi (0 + 1) acc)
  end.
  { do 4 (apply smoothAdd_keeps; [exact Hsq | exact Hb |]).
    apply smoothAdd_counts; [exact Hsq | exact Hb | apply inside_range; lia |].
    do 4 (apply smoothAdd_keeps; [exact Hsq | exact Hb |]).
    unfold running_between. cbn [fst snd]. lra. }
  match type of H with running_between _ _ _ ?acc => set (A := acc) in * end.
  destruct H as [[Hl Hh] Hc1].
  assert (Hpos : 0 < snd A) by lra.
  split.
  - apply (Rmult_le_reg_r (snd A)); [exact Hpos|].
    unfold Rdiv. rewrite Rmult_assoc, Rinv_l by lra. lra.
  - apply (Rmult_le_reg_r (snd A)); [exact Hpos|].
    unfold Rdiv. rewrite Rmult_assoc, Rinv_l by lra. lra.
Qed.

Lemma smoothPass_between (n : nat) (lo hi : R) (g : Grid) :
  square_rows n n g -> cells_between lo hi g ->
  cells_between lo hi (smoothPass n g).
Proof.
  intros Hsq Hb row v Hrow Hv. unfold smoothPass in Hrow.
  apply in_map_iff in Hrow. destruct Hrow as [y [<- Hy]].
  apply in_map_iff in Hv. destruct Hv as [x [<- Hx]].
  apply in_seq in Hy. apply in_seq in Hx.
  apply smoothCell_between; try assumption; lia.
Qed.

Lemma smoothLoop_between (n passes : nat) (lo hi : R) :
  forall g, square_rows n n g -> cells_between lo hi g ->
            cells_between lo hi (smoothLoop n passes g).
Proof.
  induction passes as [|p IH]; intros g Hsq Hb; cbn [smoothLoop]; [exact Hb|].
  apply IH; [apply smoothPass_square | now apply smoothPass_between].
Qed.



(** ** Normalisation *)

Lemma fold_Rmax_abs_scale (s : R) (row : list R) :
  0 <= s ->
  forall m,
    fold_left (fun m v => Rmax m (Rabs v)) (map (fun v => v * s) row) (m * s)
    = fold_left (fun m v => Rmax m (Rabs v)) row m * s.
Proof.
  intros Hs. induction row as [|v row IH]; intros m; cbn [map fold_left]; [reflexivity|].
  rewrite <- IH. f_equal.
  rewrite Rabs_mult, (Rabs_pos_eq s) by exact Hs.
  rewrite (Rmult_comm m s), (Rmult_comm (Rabs v) s), RmaxRmult by exact Hs.
  apply Rmult_comm.
Qed.

Lemma fold_rows_scale (s : R) (g : Grid) :
  0 <= s ->
  forall m,
    fold_left (fun m row => fold_left (fun m v => Rmax m (Rabs v)) row m)
              (map (fun row => map (fun v => v * s) row) g) (m * s)
    = fold_left (fun m row => fold_left (fun m v => Rmax m (Rabs v)) row m) g m * s.
Proof.
  intros Hs. induction g as [|row g IH]; intros m; cbn [map fold_left]; [reflexivity|].
  rewrite fold_Rmax_abs_scale by exact Hs. apply IH.
Qed.

Lemma maxAbsOf_scale (s : R) (g : Grid) :
  0 <= s -> maxAbsOf (map (fun row => map (fun v => v * s) row) g) = maxAbsOf g * s.
Proof.
  intros Hs. unfold maxAbsOf.
  rewrite <- (fold_rows_scale s g Hs 0). now rewrite Rmult_0_l.
Qed.

Lemma fold_Rmax_abs_attained (row : list R) :
  forall m,
    let r := fold_left (fun m v => Rmax m (Rabs v)) row m in
    r = m \/ exists v, In v row /\ Rabs v = r.
Proof.
  induction row as [|v row IH]; intros m; cbn [fold_left]; [now left|].
  destruct (IH (Rmax m (Rabs v))) as [E | [w [Hw E]]].
  - cbv zeta in E. rewrite E.
    unfold Rmax. destruct (Rle_dec m (Rabs v)).
    + right. exists v. split; [now left | reflexivity].
    + now left.
  - right. exists w. split; [now right | exact E].
Qed.

Lemma fold_rows_attained (g : Grid) :
  forall m,
    let r := fold_left (fun m row => fold_left (fun m v => Rmax m (Rabs v)) row m) g m in
    r = m \/ exists row v, In row g /\ In v row /\ Rabs v = r.
Proof.
  induction g as [|row g IH]; intros m; cbn [fold_left]; [now left|].
  destruct (IH (fold_left (fun m v => Rmax m (Rabs v)) row m)) as [E | [r [v [Hr [Hv E]]]]].
  - cbv zeta in E. rewrite E.
    destruct (fold_Rmax_abs_attained row m) as [E' | [v [Hv E']]].
    + now left.
    + right. exists row, v. split; [now left | split; assumption].
  - right. exists r, v. split; [now right | split; assumption].
Qed.

Lemma maxAbsOf_attained (g : Grid) :
  0 < maxAbsOf g -> exists row v, In row g /\ In v row /\ Rabs v = maxAbsOf g.
Proof.
  intros Hpos. destruct (fold_rows_attained g 0) as [E | H]; [|exact H].
  unfold maxAbsOf in Hpos. cbv zeta in E. lra.
Qed.

Lemma normalizeGrid_amplitude (g : Grid) (t : R) :
  0 <= t -> 1e-9 <= maxAbsOf g -> maxAbsOf (normalizeGrid g t) = t.
Proof.
  intros Ht HM. unfold normalizeGrid.
  rewrite Rltb_false by exact HM.
  rewrite maxAbsOf_scale.
  - field. lra.
  - apply Rmult_le_pos; [exact Ht|]. left. apply Rinv_0_lt_compat. lra.
Qed.



Lemma map_map_id (g : Grid) (f : R -> R) :
  (forall v, f v = v) -> map (fun row => map f row) g = g.
Proof.
  intros Hf. rewrite <- (map_id g) at 2. apply map_ext. intros row.
  rewrite <- (map_id row) at 2. apply map_ext. exact Hf.
Qed.

(** X6.  Normalising twice is normalising once, for every target that is
    not negative. *)
Theorem normalize_idempotent (g : Grid) (t : R) :
  0 <= t -> normalizeGrid (normalizeGrid g t) t = normalizeGrid g t.
Proof.
  intros Ht.
  destruct (Rlt_dec (maxAbsOf g) 1e-9) as [Hsmall | Hbig].
  - assert (E : normalizeGrid g t = g) by (unfold normalizeGrid; now rewrite Rltb_true).
    now rewrite !E.
  - apply Rnot_lt_le in Hbig.
    pose proof (normalizeGrid_amplitude g t Ht Hbig) as Hamp.
    set (g' := normalizeGrid g t) in *.
    unfold normalizeGrid at 1. rewrite Hamp.
    destruct (Rltb t 1e-9) eqn:E; [reflexivity|].
    apply Rltb_iff_false in E.
    apply map_map_id. intros v. field. lra.
Qed.

Lemma normalize_idempotent_witness :
  normalizeGrid (normalizeGrid [[1; -2]] 0.1) 0.1 = normalizeGrid [[1; -2]] 0.1.
Proof. apply normalize_idempotent. lra. Defined.

(** ** Sampling *)

Lemma clamp_fraction (w x : R) :
  0 < w ->
  Rmin (Rmax ((clampWorld w x + w / 2.0) / w) 0) 1
  = Rmin (Rmax ((x + w / 2.0) / w) 0) 1.
Proof.
  intros Hw.
  set (q := (x + w / 2.0) / w).
  assert (Hx : x = q * w - w / 2).
  { unfold q, Rdiv. rewrite Rmult_assoc, Rinv_l by lra. lra. }
  unfold clampWorld.
  destruct (Rle_dec x (- (w / 2))) as [Hlo | Hlo].
  - rewrite (Rmin_left x) by lra. rewrite (Rmax_left (- (w / 2)) x) by lra.
    replace (- (w / 2) + w / 2.0) with 0 by lra.
    unfold Rdiv at 1. rewrite Rmult_0_l.
    assert (q <= 0) by nra.
    rewrite (Rmax_right q 0) by lra. rewrite (Rmax_left 0 0) by lra. reflexivity.
  - apply Rnot_le_lt in Hlo.
    destruct (Rle_dec x (w / 2)) as [Hhi | Hhi].
    + rewrite (Rmin_left x) by lra. rewrite (Rmax_right (- (w / 2)) x) by lra.
      reflexivity.
    + apply Rnot_le_lt in Hhi.
      rewrite (Rmin_right x) by lra. rewrite (Rmax_right (- (w / 2)) (w / 2)) by lra.
      replace (w / 2 + w / 2.0) with w by lra.
      unfold Rdiv at 1. rewrite Rinv_r by lra.
      assert (1 <= q) by nra.
      rewrite (Rmax_left 1 0) by lra. rewrite (Rmax_left q 0) by lra.
      rewrite (Rmin_right q 1) by lra. now rewrite Rmin_left by lra.
Qed.

(** X7.  Sampling clamps to the world square: a sample taken outside the
    square of side [worldSize] centred on the origin is the sample at the
    nearest point of the square; so is the terrain height outside the
    [TR_WORLD_SIZE] square. *)
Theorem sampling_clamps_to_world (g : Grid) (x z w : R) :
  0 < w ->
  bilinearSample g x z w = bilinearSample g (clampWorld w x) (clampWorld w z) w
  /\ forall st,
       getTerrainHeight st x z
       = getTerrainHeight st (clampWorld TR_WORLD_SIZE x) (clampWorld TR_WORLD_SIZE z).
Proof.
  intros Hw.
  assert (Hs : forall g w, 0 < w ->
            bilinearSample g x z w = bilinearSample g (clampWorld w x) (clampWorld w z) w).
  { clear. intros g w Hw. unfold bilinearSample. cbv zeta.
    rewrite !(clamp_fraction w) by exact Hw. reflexivity. }
  split; [now apply Hs|].
  intros st. unfold getTerrainHeight. destruct (HEIGHT_GRID st) as [h|]; [|reflexivity].
  rewrite (Hs h TR_WORLD_SIZE) by (unfold TR_WORLD_SIZE; lra). reflexivity.
Qed.

Lemma sampling_clamps_to_world_witness :
  bilinearSample [[1; 2]; [3; 4]] 9 0 12.0
  = bilinearSample [[1; 2]; [3; 4]] (clampWorld 12.0 9) (clampWorld 12.0 0) 12.0.
Proof.
  refine (proj1 (sampling_clamps_to_world [[1; 2]; [3; 4]] 9 0 12.0 _)). lra.
Defined.

Lemma floor_IZR (z : Z) : floor (IZR z) = z.
Proof.
  unfold floor. symmetry. apply Int_part_spec. lra.
Qed.

Lemma node_fraction (w : R) (n : nat) (i : Z) :
  0 < w -> (2 <= n)%nat -> (0 <= i < Z.of_nat n)%Z ->
  Rmin (Rmax ((nodeCoord w n i + w / 2.0) / w) 0) 1 * IZR (Z.of_nat n - 1) = IZR i.
Proof.
  intros Hw Hn Hi. unfold nodeCoord.
  set (m := (Z.of_nat n - 1)%Z).
  assert (Hm : 0 < IZR m) by (apply IZR_lt; unfold m; lia).
  assert (Hi0 : 0 <= IZR i) by (apply IZR_le; lia).
  assert (Him : IZR i <= IZR m) by (apply IZR_le; unfold m; lia).
  replace (- (w / 2) + IZR i * w / IZR m + w / 2.0) with (IZR i / IZR m * w) by lra.
  replace (IZR i / IZR m * w / w) with (IZR i / IZR m) by (field; lra).
  assert (Hq0 : 0 <= IZR i / IZR m).
  { apply Rmult_le_pos; [exact Hi0|]. left. now apply Rinv_0_lt_compat. }
  assert (Hq1 : IZR i / IZR m <= 1).
  { apply (Rmult_le_reg_r (IZR m)); [exact Hm|].
    unfold Rdiv. rewrite Rmult_assoc, Rinv_l by lra. lra. }
  rewrite Rmax_left by lra. rewrite Rmin_left by lra.
  field. lra.
Qed.

(** X8.  Sampling interpolates, in exact arithmetic: on a square grid
    with at least two lines, the sample at the world position of the grid
    node [(i, j)] is the cell [grid[j][i]]. *)
Theorem sampling_at_node_is_cell (g : Grid) (n : nat) (w : R) (i j : Z) :
  0 < w -> (2 <= n)%nat -> square_rows n n g ->
  (0 <= i < Z.of_nat n)%Z -> (0 <= j < Z.of_nat n)%Z ->
  bilinearSample g (nodeCoord w n i) (nodeCoord w n j) w = cell g j i.
Proof.
  intros Hw Hn [Hlen _] Hi Hj. unfold bilinearSample. cbv zeta. rewrite Hlen.
  rewrite (node_fraction w n i Hw Hn Hi), (node_fraction w n j Hw Hn Hj).
  rewrite !floor_IZR. ring.
Qed.

Lemma sampling_at_node_is_cell_witness :
  bilinearSample [[1; 2]; [3; 4]] (nodeCoord 12.0 2 1) (nodeCoord 12.0 2 0) 12.0
  = cell [[1; 2]; [3; 4]] 0 1.
Proof.
  apply (sampling_at_node_is_cell [[1; 2]; [3; 4]] 2 12.0 1 0); try lia; try lra.
  split; [reflexivity|]. repeat constructor.
Defined.

(** ** The terrain before it is built *)

(** X9.  Missing grids: while [HEIGHT_GRID] is [null] the height is 0
    everywhere and the normal points straight up; while [TRUE_ROLL_AX] is
    [null], or whenever the true-roll strength is not positive, the
    true-roll acceleration is (0, 0). *)
Theorem missing_grids_are_flat (st : TerrainState) (x z vx vz : R) :
  (HEIGHT_GRID st = None ->
     getTerrainHeight st x z = 0 /\ getTerrainNormal st x z = mkVec3 0 1 0)
  /\ (TRUE_ROLL_AX st = None \/ TRUE_ROLL_STRENGTH st <= 0 ->
        trueRollAccel st x z vx vz = (0, 0)).
Proof.
  split.
  - intros Hh.
    assert (H0 : forall a b, getTerrainHeight st a b = 0).
    { intros a b. unfold getTerrainHeight. now rewrite Hh. }
    split; [apply H0|].
    unfold getTerrainNormal. rewrite !H0.
    replace (- ((0 - 0) / (2 * 0.05)) * - ((0 - 0) / (2 * 0.05)) + 1.0 * 1.0
             + - ((0 - 0) / (2 * 0.05)) * - ((0 - 0) / (2 * 0.05))) with 1 by lra.
    rewrite sqrt_1. f_equal; lra.
  - intros [Hax | Hs]; unfold trueRollAccel.
    + rewrite Hax. now destruct (Rleb (TRUE_ROLL_STRENGTH st) 0).
    + now rewrite Rleb_true.
Qed.

Lemma missing_grids_are_flat_witness :
  getTerrainHeight initialTerrain 1 2 = 0
  /\ trueRollAccel initialTerrain 1 2 0.5 0 = (0, 0).
Proof.
  destruct (missing_grids_are_flat initialTerrain 1 2 0.5 0) as [H1 H2].
  split; [exact (proj1 (H1 eq_refl)) | exact (H2 (or_introl eq_refl))].
Defined.

(** ** The surface normal *)

Lemma normal_components (dx dz : R) :
  let len := sqrt (- dx * - dx + 1.0 * 1.0 + - dz * - dz) in
  1 <= len
  /\ len * len = 1 + dx * dx + dz * dz.
Proof.
  cbv zeta.
  set (q := - dx * - dx + 1.0 * 1.0 + - dz * - dz).
  assert (Hq : 1 <= q) by (unfold q; nra).
  split.
  - rewrite <- sqrt_1. apply sqrt_le_1; lra.
  - rewrite sqrt_sqrt by lra. unfold q. lra.
Qed.

(** X10.  The normal that [getTerrainNormal] returns has unit length and
    a positive vertical component, whatever the terrain state; once the
    height grid obeys its amplitude bound, the normal is within a few
    hundredths of the vertical: its vertical component is at least 0.999
    and its horizontal components are at most 0.02 in absolute value. *)
Theorem normal_is_unit_and_upward (st : TerrainState) (x z : R) :
  let n := getTerrainNormal st x z in
  v_x n * v_x n + v_y n * v_y n + v_z n * v_z n = 1
  /\ 0 < v_y n <= 1
  /\ (height_grid_ok st ->
        0.999 <= v_y n /\ Rabs (v_x n) <= 0.02 /\ Rabs (v_z n) <= 0.02).
Proof.
  unfold getTerrainNormal. cbv zeta.
  set (dx := (getTerrainHeight st (x + 0.05) z - getTerrainHeight st (x - 0.05) z)
             / (2 * 0.05)).
  set (dz := (getTerrainHeight st x (z + 0.05) - getTerrainHeight st x (z - 0.05))
             / (2 * 0.05)).
  destruct (normal_components dx dz) as [Hlen Hsq]. cbv zeta in Hlen, Hsq.
  set (len := sqrt (- dx * - dx + 1.0 * 1.0 + - dz * - dz)) in *.
  cbn [v_x v_y v_z].
  assert (Hinv : 0 < / len <= 1).
  { split; [apply Rinv_0_lt_compat; lra|].
    rewrite <- Rinv_1. apply Rinv_le_contravar; lra. }
  assert (Hil : / len * len = 1) by (apply Rinv_l; lra).
  split; [|split].
  - unfold Rdiv. replace 1.0 with 1 by lra.
    transitivity (/ len * / len * (len * len)); [rewrite Hsq; ring|].
    transitivity ((/ len * len) * (/ len * len)); [ring|].
    rewrite Hil. ring.
  - unfold Rdiv. lra.
  - intros Hok.
    assert (Hh : forall a b, Rabs (getTerrainHeight st a b) <= 0.001).
    { intros a b. rewrite <- height_bound_value. now apply getTerrainHeight_bounded. }
    assert (Hdx : Rabs dx <= 0.02).
    { pose proof (Hh (x + 0.05) z) as H1. pose proof (Hh (x - 0.05) z) as H2.
      apply Rabs_le_between in H1. apply Rabs_le_between in H2.
      apply Rabs_le. unfold dx. lra. }
    assert (Hdz : Rabs dz <= 0.02).
    { pose proof (Hh x (z + 0.05)) as H1. pose proof (Hh x (z - 0.05)) as H2.
      apply Rabs_le_between in H1. apply Rabs_le_between in H2.
      apply Rabs_le. unfold dz. lra. }
    apply Rabs_le_between in Hdx. apply Rabs_le_between in Hdz.
    assert (Hl2 : len * len <= 1.0008) by nra.
    assert (Hl1 : len <= 1.001) by nra.
    split; [|split].
    + unfold Rdiv. 
      assert (0.999 * len <= 1) by nra.
      assert (0.999 * len * / len <= 1 * / len).
      { apply Rmult_le_compat_r; lra. }
      rewrite Rmult_assoc, Rinv_r in H0 by lra. lra.
    + unfold Rdiv. rewrite Rabs_mult, (Rabs_pos_eq (/ len)) by lra.
      rewrite Rabs_Ropp.
      assert (Rabs dx <= 0.02) by (apply Rabs_le; lra).
      pose proof (Rabs_pos dx). nra.
    + unfold Rdiv. rewrite Rabs_mult, (Rabs_pos_eq (/ len)) by lra.
      rewrite Rabs_Ropp.
      assert (Rabs dz <= 0.02) by (apply Rabs_le; lra).
      pose proof (Rabs_pos dz). nra.
Qed.

Lemma normal_is_unit_and_upward_witness :
  0.999 <= v_y (getTerrainNormal flatTerrain 1 2).
Proof.
  destruct (normal_is_unit_and_upward flatTerrain 1 2) as (_ & _ & H).
  exact (proj1 (H flatTerrain_ok)).
Defined.

(** ** The size of the true-roll acceleration *)

Lemma buildGrids_roll_ok (rng : Rng) :
  let '(ax, ay, _) := buildGrids rng in
  (square_rows TR_GRID_SIZE TR_GRID_SIZE ax /\ cells_within TR_TARGET_AMP ax)
  /\ (square_rows TR_GRID_SIZE TR_GRID_SIZE ay /\ cells_within TR_TARGET_AMP ay).
Proof.
  unfold buildGrids.
  pose proof (makeNoiseGrid_square TR_GRID_SIZE TR_BASE_AMP rng) as H1.
  destruct (makeNoiseGrid TR_GRID_SIZE TR_BASE_AMP rng) as [g1 rng1].
  pose proof (makeNoiseGrid_square TR_GRID_SIZE TR_BASE_AMP rng1) as H2.
  destruct (makeNoiseGrid TR_GRID_SIZE TR_BASE_AMP rng1) as [g2 rng2].
  destruct (makeNoiseGrid TR_GRID_SIZE TR_BASE_AMP rng2) as [g3 rng3].
  split; apply finished_grid_ok; assumption.
Qed.

Lemma applyOp_roll_grids_ok (st : TerrainState) (op : TerrainOp) :
  roll_grids_ok st -> roll_grids_ok (applyOp st op).
Proof.
  intros H. destruct op as [seed src | s]; cbn [applyOp].
  - unfold buildTrueRollGrids, roll_grids_ok.
    pose proof (buildGrids_roll_ok (makeRng seed src)) as Hb.
    destruct (buildGrids (makeRng seed src)) as [[ax ay] h]. exact Hb.
  - exact H.
Qed.

Lemma runTerrain_roll_grids_ok (ops : list TerrainOp) :
  forall st, roll_grids_ok st -> roll_grids_ok (runTerrain ops st).
Proof.
  induction ops as [|op ops IH]; intros st H; cbn; [exact H|].
  apply IH, applyOp_roll_grids_ok, H.
Qed.

Lemma trueRollScale_range (s : R) : 0.1 <= trueRollScale s <= 2.
Proof.
  destruct (trueRollScale_cases s) as [[_ E] | [[[H1 H2] E] | [_ E]]]; rewrite E; lra.
Qed.

Lemma trueRollAccel_bounded (st : TerrainState) (x z vx vz : R) :
  roll_grids_ok st ->
  let a := trueRollAccel st x z vx vz in
  let B := TR_TARGET_AMP * trueRollScale (hypot vx vz) * Rmax 0 (TRUE_ROLL_STRENGTH st) in
  Rabs (fst a) <= B /\ Rabs (snd a) <= B.
Proof.
  intros Hok a B. unfold a, B, trueRollAccel. clear a B. cbv zeta.
  pose proof (trueRollScale_range (hypot vx vz)) as Hsc.
  set (sc := trueRollScale (hypot vx vz)) in *.
  set (str := TRUE_ROLL_STRENGTH st) in *.
  assert (HB : 0 <= TR_TARGET_AMP * sc * Rmax 0 str).
  { pose proof (Rmax_l 0 str). unfold TR_TARGET_AMP. nra. }
  destruct (Rleb str 0) eqn:E.
  - cbn [fst snd]. rewrite Rabs_R0. now split.
  - apply Rleb_iff_false in E. rewrite (Rmax_right 0 str) by lra.
    unfold roll_grids_ok in Hok.
    destruct (TRUE_ROLL_AX st) as [gx|], (TRUE_ROLL_AY st) as [gy|];
      try contradiction.
    + destruct Hok as [[Hsx Hbx] [Hsy Hby]].
      assert (Hn : (0 < TR_GRID_SIZE)%nat) by (unfold TR_GRID_SIZE; lia).
      pose proof (bilinearSample_bounded gx TR_GRID_SIZE TR_TARGET_AMP x z TR_WORLD_SIZE
                    Hn Hsx Hbx) as Hx.
      pose proof (bilinearSample_bounded gy TR_GRID_SIZE TR_TARGET_AMP x z TR_WORLD_SIZE
                    Hn Hsy Hby) as Hy.
      cbn [fst snd].
      assert (Hp : 0 <= sc * str) by nra.
      split; rewrite Rabs_mult, (Rabs_pos_eq (sc * str)) by exact Hp;
        rewrite Rmult_assoc; apply Rmult_le_compat_r; assumption.
    + cbn [fst snd]. rewrite Rabs_R0. rewrite (Rmax_right 0 str) in HB by lra.
      now split.
Qed.



Import GeometryFacts.

(** * Further properties of the aim-zone geometry *)

(** ** The order of the input *)

Lemma lexLe_antisym (p q : Point) : lexLe p q -> lexLe q p -> p = q.
Proof.
  unfold lexLe. intros H1 H2. apply point_eq; lra.
Qed.

Lemma sorted_perm_unique (l1 : list Point) :
  forall l2, StronglySorted lexLe l1 -> StronglySorted lexLe l2 ->
             Permutation l1 l2 -> l1 = l2.
Proof.
  induction l1 as [|a t1 IH]; intros l2 H1 H2 Hp.
  - apply Permutation_nil in Hp. now subst.
  - destruct l2 as [|b t2]; [apply Permutation_sym, Permutation_nil in Hp; discriminate|].
    inversion H1 as [|? ? Ht1 Ha]; subst. inversion H2 as [|? ? Ht2 Hb]; subst.
    rewrite Forall_forall in Ha, Hb.
    assert (E : a = b).
    { assert (Hain : In a (b :: t2)) by (apply (Permutation_in _ Hp); now left).
      assert (Hbin : In b (a :: t1))
        by (apply (Permutation_in _ (Permutation_sym Hp)); now left).
      destruct Hain as [-> | Hain]; [reflexivity|].
      destruct Hbin as [-> | Hbin]; [reflexivity|].
      apply lexLe_antisym; auto. }
    subst b. f_equal. apply IH; try assumption.
    now apply Permutation_cons_inv in Hp.
Qed.

(** X12.  The hull does not depend on the order of the input: two lists
    that are permutations of each other have the same hull, vertex for
    vertex. *)
Theorem hull_ignores_input_order (points points' : list Point) :
  Permutation points points' -> convexHull points = convexHull points'.
Proof.
  intros Hp.
  assert (E : sortPoints points = sortPoints points').
  { apply sorted_perm_unique; try apply sortPoints_sorted.
    rewrite (sortPoints_perm points), Hp. symmetry. apply sortPoints_perm. }
  unfold convexHull. now rewrite E.
Qed.

Lemma hull_ignores_input_order_witness :
  convexHull [mkPoint 0 0; mkPoint 1 0; mkPoint 0 1]
  = convexHull [mkPoint 1 0; mkPoint 0 0; mkPoint 0 1].
Proof. apply hull_ignores_input_order. apply perm_swap. Defined.

(** ** Repeated points *)

Lemma popWhile_idem (S : list Point) (p : Point) :
  popWhile (popWhile S p) p = popWhile S p.
Proof.
  induction S as [|b S IH]; [reflexivity|].
  destruct S as [|a rest]; [reflexivity|].
  rewrite popWhile_step. destruct (Rleb (cross a b p) 0) eqn:E; [exact IH|].
  rewrite popWhile_step, E. reflexivity.
Qed.

Lemma popWhile_nonempty (S : list Point) (p : Point) :
  S <> [] -> popWhile S p <> [].
Proof.
  intros H. destruct (popWhile_spec S p) as (_ & _ & Hne & _). now apply Hne.
Qed.

Lemma push_twice (S : list Point) (p : Point) :
  S <> [] -> pushPoint (pushPoint S p) p = pushPoint S p.
Proof.
  intros HS. unfold pushPoint at 2 3.
  pose proof (popWhile_nonempty S p HS) as Hne.
  pose proof (popWhile_idem S p) as Hid.
  destruct (popWhile S p) as [|a rest]; [contradiction|].
  rewrite pushPoint_pop by (rewrite (proj1 (cross_degenerate a p)); lra).
  unfold pushPoint. now rewrite Hid.
Qed.

Lemma push_after_pair (p q : Point) : pushPoint [p; p] q = pushPoint [p] q.
Proof.
  apply pushPoint_pop. unfold cross. nra.
Qed.

Lemma repeat_step (S : list Point) (p : Point) (l : list Point) :
  S <> [] \/ l <> [] ->
  fold_left pushPoint l (pushPoint (pushPoint S p) p)
  = fold_left pushPoint l (pushPoint S p).
Proof.
  intros H. destruct S as [|b S].
  - destruct l as [|q l]; [destruct H; contradiction|].
    cbn [fold_left]. rewrite !pushPoint_empty, pushPoint_single.
    now rewrite push_after_pair.
  - rewrite push_twice by discriminate. reflexivity.
Qed.

Lemma pushPoint_nonempty (S : list Point) (p : Point) : pushPoint S p <> [].
Proof. unfold pushPoint. discriminate. Qed.

Lemma squeeze_cons_length (x : Point) (t : list Point) :
  (1 <= length (squeeze (x :: t)))%nat.
Proof.
  revert x. induction t as [|y t IH]; intros x; cbn [squeeze]; [cbn; lia|].
  destruct (Point_eq_dec x y); [apply IH | cbn [length]; lia].
Qed.

Lemma squeeze_chain (l : list Point) :
  forall S, S <> [] \/ (2 <= length (squeeze l))%nat ->
            fold_left pushPoint l S = fold_left pushPoint (squeeze l) S.
Proof.
  induction l as [|x t IH]; intros S H; [reflexivity|].
  destruct t as [|y t'].
  - reflexivity.
  - change (squeeze (x :: y :: t'))
      with (if Point_eq_dec x y then squeeze (y :: t') else x :: squeeze (y :: t')) in *.
    destruct (Point_eq_dec x y) as [<- | Hne].
    + rewrite <- (IH S H).
      cbn [fold_left]. apply repeat_step.
      destruct H as [H | H]; [now left|]. right.
      destruct t' as [|z t'']; [cbn in H; lia | discriminate].
    + cbn [fold_left]. apply IH. left. apply pushPoint_nonempty.
Qed.

Lemma squeeze_in (l : list Point) (p : Point) : In p (squeeze l) <-> In p l.
Proof.
  induction l as [|x t IH]; [reflexivity|].
  destruct t as [|y t'].
  - reflexivity.
  - change (squeeze (x :: y :: t'))
      with (if Point_eq_dec x y then squeeze (y :: t') else x :: squeeze (y :: t')).
    destruct (Point_eq_dec x y) as [<- | Hne].
    + rewrite IH. cbn [In]. tauto.
    + cbn [In] in *. rewrite IH. tauto.
Qed.

Lemma squeeze_strict (asc : bool) (l : list Point) :
  StronglySorted (fun a b => before asc a b \/ a = b) l ->
  StronglySorted (before asc) (squeeze l).
Proof.
  induction l as [|x t IH]; intros Hs; [constructor|].
  inversion Hs as [|? ? Ht Hx]; subst. rewrite Forall_forall in Hx.
  destruct t as [|y t'].
  - constructor; constructor.
  - change (squeeze (x :: y :: t'))
      with (if Point_eq_dec x y then squeeze (y :: t') else x :: squeeze (y :: t')).
    destruct (Point_eq_dec x y) as [<- | Hne]; [now apply IH|].
    constructor; [now apply IH|].
    apply Forall_forall. intros q Hq. apply (proj1 (squeeze_in _ _)) in Hq.
    destruct (Hx q Hq) as [H | <-]; [exact H|].
    exfalso.
    (* q = x occurs after y <> x: x before-or-equal y before-or-equal x *)
    inversion Ht as [|? ? _ Hy]; subst. rewrite Forall_forall in Hy.
    destruct Hq as [-> | Hq]; [now apply Hne|].
    destruct (Hx y (or_introl eq_refl)) as [Hxy | Hxy]; [|now apply Hne].
    destruct (Hy x Hq) as [Hyx | Hyx]; [|now apply Hne].
    exact (before_asym asc _ _ Hxy Hyx).
Qed.

Lemma strict_sorted_unique (asc : bool) (l1 : list Point) :
  forall l2, StronglySorted (before asc) l1 -> StronglySorted (before asc) l2 ->
             (forall p, In p l1 <-> In p l2) -> l1 = l2.
Proof.
  induction l1 as [|a t1 IH]; intros l2 H1 H2 Hsame.
  - destruct l2 as [|b t2]; [reflexivity|].
    exfalso. apply (Hsame b). now left.
  - destruct l2 as [|b t2]; [exfalso; apply (Hsame a); now left|].
    inversion H1 as [|? ? Ht1 Ha]; subst. inversion H2 as [|? ? Ht2 Hb]; subst.
    rewrite Forall_forall in Ha, Hb.
    assert (E : a = b).
    { destruct (proj1 (Hsame a) (or_introl eq_refl)) as [E | Hain]; [now symmetry|].
      destruct (proj2 (Hsame b) (or_introl eq_refl)) as [E | Hbin]; [exact E|].
      exfalso. exact (before_asym asc _ _ (Ha b Hbin) (Hb a Hain)). }
    subst b. f_equal. apply IH; try assumption.
    intros p. split; intros Hp.
    + destruct (proj1 (Hsame p) (or_intror Hp)) as [<- | H]; [|exact H].
      exfalso. exact (before_irrefl asc a (Ha a Hp)).
    + destruct (proj2 (Hsame p) (or_intror Hp)) as [<- | H]; [|exact H].
      exfalso. exact (before_irrefl asc a (Hb a Hp)).
Qed.

Lemma lexLe_before (a b : Point) : lexLe a b -> before true a b \/ a = b.
Proof.
  intros H. destruct (Point_eq_dec a b) as [E | E]; [now right|].
  left. now apply lexLe_neq_lt.
Qed.

Lemma sorted_weaken (R1 R2 : Point -> Point -> Prop) (l : list Point) :
  (forall a b, R1 a b -> R2 a b) -> StronglySorted R1 l -> StronglySorted R2 l.
Proof.
  intros Himp Hs. induction Hs as [|a l Hs IH Ha]; constructor; [exact IH|].
  rewrite Forall_forall in *. auto.
Qed.

Lemma sort_nodup_squeeze (points : list Point) :
  sortPoints (nodup Point_eq_dec points) = squeeze (sortPoints points).
Proof.
  apply (strict_sorted_unique true).
  - apply (sortPoints_strict _ (NoDup_nodup _ _)).
  - apply squeeze_strict.
    apply (sorted_weaken lexLe); [exact lexLe_before | apply sortPoints_sorted].
  - intros p. rewrite squeeze_in.
    split; intros H.
    + apply (Permutation_in _ (sortPoints_perm _)) in H. apply nodup_In in H.
      now apply (Permutation_in _ (Permutation_sym (sortPoints_perm _))).
    + apply (Permutation_in _ (sortPoints_perm _)) in H.
      apply (Permutation_in _ (Permutation_sym (sortPoints_perm _))).
      now apply nodup_In.
Qed.

Lemma rev_sort_nodup_squeeze (points : list Point) :
  rev (sortPoints (nodup Point_eq_dec points)) = squeeze (rev (sortPoints points)).
Proof.
  apply (strict_sorted_unique false).
  - apply sorted_rev_descending, (sortPoints_strict _ (NoDup_nodup _ _)).
  - apply squeeze_strict. apply sorted_rev_flip.
    apply (sorted_weaken lexLe); [|apply sortPoints_sorted].
    intros a b H. destruct (lexLe_before a b H) as [H' | ->]; [now left | now right].
  - intros p. rewrite squeeze_in, <- !in_rev.
    split; intros H.
    + apply (Permutation_in _ (sortPoints_perm _)) in H. apply nodup_In in H.
      now apply (Permutation_in _ (Permutation_sym (sortPoints_perm _))).
    + apply (Permutation_in _ (sortPoints_perm _)) in H.
      apply (Permutation_in _ (Permutation_sym (sortPoints_perm _))).
      now apply nodup_In.
Qed.

Lemma two_distinct_length (l : list Point) (p q : Point) :
  In p l -> In q l -> p <> q -> (2 <= length l)%nat.
Proof.
  intros Hp Hq Hne. destruct l as [|a [|b l]]; cbn [length]; try lia.
  - destruct Hp.
  - destruct Hp as [<- | []], Hq as [<- | []]. now contradiction Hne.
Qed.

Lemma chains_of_repeats (points : list Point) :
  (2 <= length (nodup Point_eq_dec points))%nat ->
  buildChain (sortPoints points) = buildChain (sortPoints (nodup Point_eq_dec points))
  /\ buildChain (rev (sortPoints points))
     = buildChain (rev (sortPoints (nodup Point_eq_dec points))).
Proof.
  intros Hlen.
  assert (HsD : length (sortPoints (nodup Point_eq_dec points))
                = length (nodup Point_eq_dec points))
    by apply Permutation_length, sortPoints_perm.
  unfold buildChain. split.
  - rewrite sort_nodup_squeeze. apply squeeze_chain. right.
    rewrite <- sort_nodup_squeeze. lia.
  - rewrite rev_sort_nodup_squeeze. apply squeeze_chain. right.
    rewrite <- rev_sort_nodup_squeeze, length_rev. lia.
Qed.

Lemma hull_equals_hull_of_nodup (points : list Point) :
  (exists p q, In p points /\ In q points /\ p <> q) ->
  convexHull points = convexHull (nodup Point_eq_dec points).
Proof.
  intros (p & q & Hp & Hq & Hne).
  set (D := nodup Point_eq_dec points).
  assert (HD : (2 <= length D)%nat).
  { apply (two_distinct_length D p q); try (apply nodup_In; assumption). exact Hne. }
  destruct (chains_of_repeats points HD) as [EL EU]. fold D in EL, EU.
  assert (Hs : length (sortPoints points) = length points)
    by apply Permutation_length, sortPoints_perm.
  assert (HsD : length (sortPoints D) = length D)
    by apply Permutation_length, sortPoints_perm.
  unfold convexHull. rewrite Hs, HsD, EL, EU.
  destruct (length points <=? 2)%nat eqn:E1.
  - apply Nat.leb_le in E1.
    assert (Hnd : NoDup points).
    { destruct points as [|a [|b [|c l]]]; cbn [length] in E1; try lia.
      - destruct Hp.
      - destruct Hp as [<- | []], Hq as [<- | []]. now contradiction Hne.
      - constructor; [|constructor; [intros []|constructor]].
        intros [E | []]. subst b.
        destruct Hp as [<- | [<- | []]], Hq as [<- | [<- | []]]; now apply Hne. }
    unfold D. rewrite (nodup_fixed_point Point_eq_dec Hnd).
    replace (length points <=? 2)%nat with true by (symmetry; now apply Nat.leb_le).
    reflexivity.
  - destruct (length D <=? 2)%nat eqn:E2; [|reflexivity].
    apply Nat.leb_le in E2.
    destruct (sortPoints D) as [|a [|b [|c l]]] eqn:ES; cbn [length] in HsD; try lia.
    unfold buildChain. cbn [rev app fold_left].
    rewrite !pushPoint_empty, !pushPoint_single. reflexivity.
Qed.

(** X13.  Repeated points do not change the hull: when the input holds
    more than two different points, the hull of the input is the hull of
    the input without its repeats, and every vertex of it is an input
    point. *)
Theorem hull_ignores_repeats (points : list Point) :
  (2 < length (nodup Point_eq_dec points))%nat ->
  let hull := convexHull points in
  hull = convexHull (nodup Point_eq_dec points)
  /\ incl hull points.
Proof.
  intros Hlen hull.
  assert (E : hull = convexHull (nodup Point_eq_dec points)).
  { apply hull_equals_hull_of_nodup.
    pose proof (NoDup_nodup Point_eq_dec points) as Hnd.
    destruct (nodup Point_eq_dec points) as [|a [|b l]] eqn:ED; cbn [length] in Hlen;
      try lia.
    exists a, b.
    assert (Ha : In a (nodup Point_eq_dec points)) by (rewrite ED; now left).
    assert (Hb : In b (nodup Point_eq_dec points)) by (rewrite ED; right; now left).
    apply nodup_In in Ha. apply nodup_In in Hb.
    split; [exact Ha|]. split; [exact Hb|].
    inversion Hnd as [|? ? Hnin _]; subst. intros ->. apply Hnin. now left. }
  split; [exact E|]. rewrite E.
  destruct (hull_of_distinct_points (nodup Point_eq_dec points)
              (NoDup_nodup _ _) Hlen) as (H1 & _).
  intros v Hv. apply (nodup_In Point_eq_dec). now apply H1.
Qed.

Lemma hull_ignores_repeats_witness :
  convexHull [mkPoint 0 0; mkPoint 1 0; mkPoint 0 0; mkPoint 0 1]
  = convexHull (nodup Point_eq_dec [mkPoint 0 0; mkPoint 1 0; mkPoint 0 0; mkPoint 0 1]).
Proof.
  refine (proj1 (hull_ignores_repeats
                   [mkPoint 0 0; mkPoint 1 0; mkPoint 0 0; mkPoint 0 1] _)).
  cbn [nodup].
  destruct (in_dec Point_eq_dec (mkPoint 0 0) [mkPoint 1 0; mkPoint 0 0; mkPoint 0 1])
    as [_ | Hn]; [|exfalso; apply Hn; right; now left].
  destruct (in_dec Point_eq_dec (mkPoint 1 0) [mkPoint 0 0; mkPoint 0 1])
    as [[E | [E | []]] | _]; try (inversion E; lra).
  destruct (in_dec Point_eq_dec (mkPoint 0 0) [mkPoint 0 1])
    as [[E | []] | _]; try (inversion E; lra).
  cbn [length in_dec list_rec list_rect]. lia.
Defined.

(** ** Fewer than three different points *)

Lemma sort_of_equal_points (p : Point) (n : nat) :
  sortPoints (repeat p n) = repeat p n.
Proof.
  induction n as [|n IH]; [reflexivity|].
  cbn [repeat sortPoints fold_right]. fold (sortPoints (repeat p n)). rewrite IH.
  destruct n as [|n]; [reflexivity|].
  cbn [repeat]. apply insertPoint_here. unfold lexLe. right. split; [reflexivity | lra].
Qed.

Lemma chain_of_equal_points (p : Point) (n : nat) :
  fold_left pushPoint (repeat p n) [p; p] = [p; p].
Proof.
  induction n as [|n IH]; [reflexivity|].
  cbn [repeat fold_left]. rewrite push_after_pair, pushPoint_single. exact IH.
Qed.

Lemma all_equal_repeat (points : list Point) (p : Point) :
  (forall q, In q points -> q = p) -> points = repeat p (length points).
Proof.
  induction points as [|a l IH]; intros H; [reflexivity|].
  cbn [length repeat]. rewrite (H a) by now left. f_equal.
  apply IH. intros q Hq. apply H. now right.
Qed.

Lemma hull_two_distinct (points : list Point) :
  length (nodup Point_eq_dec points) = 2%nat ->
  convexHull points = sortPoints (nodup Point_eq_dec points).
Proof.
  intros Hlen.
  pose proof (NoDup_nodup Point_eq_dec points) as Hnd.
  assert (Htwo : exists p q, In p points /\ In q points /\ p <> q).
  { destruct (nodup Point_eq_dec points) as [|a [|b [|c l]]] eqn:ED;
      cbn [length] in Hlen; try lia.
    exists a, b.
    assert (Ha : In a (nodup Point_eq_dec points)) by (rewrite ED; now left).
    assert (Hb : In b (nodup Point_eq_dec points)) by (rewrite ED; right; now left).
    apply nodup_In in Ha. apply nodup_In in Hb.
    split; [exact Ha|]. split; [exact Hb|].
    inversion Hnd as [|? ? Hnin _]; subst. intros ->. apply Hnin. now left. }
  rewrite (hull_equals_hull_of_nodup points Htwo).
  unfold convexHull.
  replace (length (sortPoints (nodup Point_eq_dec points))) with 2%nat; [reflexivity|].
  rewrite <- Hlen. symmetry. apply Permutation_length, sortPoints_perm.
Qed.

Lemma hull_few_distinct (points : list Point) :
  ((length points <= 2)%nat -> convexHull points = sortPoints points)
  /\ (length (nodup Point_eq_dec points) = 2%nat ->
        convexHull points = sortPoints (nodup Point_eq_dec points))
  /\ (forall p, (2 < length points)%nat -> (forall q, In q points -> q = p) ->
        convexHull points = [p; p])
  /\ ((length (nodup Point_eq_dec points) <= 2)%nat ->
        (length (convexHull points) <= 2)%nat).
Proof.
  assert (Hs : length (sortPoints points) = length points)
    by apply Permutation_length, sortPoints_perm.
  assert (H1 : (length points <= 2)%nat -> convexHull points = sortPoints points).
  { intros Hlen. unfold convexHull. rewrite Hs.
    replace (length points <=? 2)%nat with true by (symmetry; now apply Nat.leb_le).
    reflexivity. }
  assert (H3 : forall p, (2 < length points)%nat -> (forall q, In q points -> q = p) ->
                         convexHull points = [p; p]).
  { intros p Hlen Hall.
    rewrite (all_equal_repeat points p Hall).
    unfold convexHull. rewrite sort_of_equal_points, repeat_length.
    replace (length points <=? 2)%nat with false by (symmetry; apply Nat.leb_gt; lia).
    rewrite rev_repeat. unfold buildChain.
    destruct (length points) as [|[|n]]; cbn [length] in Hlen; try lia.
    cbn [repeat fold_left]. rewrite pushPoint_empty, pushPoint_single.
    rewrite chain_of_equal_points. reflexivity. }
  split; [exact H1|]. split; [apply hull_two_distinct|]. split; [exact H3|].
  intros Hlen.
  pose proof (NoDup_nodup Point_eq_dec points) as Hnd.
  destruct (Nat.eq_dec (length (nodup Point_eq_dec points)) 2) as [E2 | N2].
  - rewrite (hull_two_distinct points E2).
    rewrite (Permutation_length (sortPoints_perm _)). lia.
  - destruct (le_lt_dec (length points) 2) as [Hle | Hgt].
    + rewrite (H1 Hle), Hs. exact Hle.
    + destruct (nodup Point_eq_dec points) as [|a [|b l]] eqn:ED;
        cbn [length] in Hlen, N2; try lia.
      * destruct points as [|x l]; [cbn in Hgt; lia|].
        assert (Hx : In x (nodup Point_eq_dec (x :: l))) by (apply nodup_In; now left).
        rewrite ED in Hx. destruct Hx.
      * rewrite (H3 a Hgt); [cbn; lia|].
        intros q Hq. apply (nodup_In Point_eq_dec) in Hq. rewrite ED in Hq.
        destruct Hq as [<- | []]. reflexivity.
Qed.

(** X14.  Fewer than three different points: the hull of at most two
    points is the points in sorted order; the hull of a list that holds
    exactly two different points, however often, is these two in sorted
    order; and the hull of three or more copies of one point is that point
    twice.  In each case the result has fewer than three vertices. *)
Theorem hull_of_few_points (points : list Point) :
  ((length points <= 2)%nat -> convexHull points = sortPoints points)
  /\ (length (nodup Point_eq_dec points) = 2%nat ->
        convexHull points = sortPoints (nodup Point_eq_dec points))
  /\ (forall p, (2 < length points)%nat -> (forall q, In q points -> q = p) ->
        convexHull points = [p; p])
  /\ ((length (nodup Point_eq_dec points) <= 2)%nat ->
        (length (convexHull points) <= 2)%nat).
Proof. exact (hull_few_distinct points). Qed.

Lemma hull_of_few_points_witness :
  convexHull [mkPoint 1 2; mkPoint 1 2; mkPoint 1 2] = [mkPoint 1 2; mkPoint 1 2].
Proof.
  refine (proj1 (proj2 (proj2 (hull_of_few_points
            [mkPoint 1 2; mkPoint 1 2; mkPoint 1 2]))) (mkPoint 1 2) _ _).
  - cbn. lia.
  - intros q Hq. cbn [In] in Hq. destruct Hq as [<- | [<- | [<- | []]]]; reflexivity.
Defined.

(** ** Points on one line *)

Lemma no_turn_on_a_line (asc : bool) (pts : list Point) (a b : Point) (X : list Point) :
  collinear pts -> chainFacts asc pts (a :: X ++ [b]) -> X = [].
Proof.
  intros Hcol (_ & Hturn & Hincl & _).
  destruct X as [|x X']; [reflexivity|]. exfalso.
  assert (Hy : exists y Y, X' ++ [b] = y :: Y)
    by (destruct X' as [|y Y]; [exists b, [] | exists y, (Y ++ [b])]; reflexivity).
  destruct Hy as (y & Y & EY).
  assert (Hin : forall v, In v [a; x; y] -> In v pts).
  { intros v Hv. apply Hincl. cbn [app]. rewrite EY.
    cbn [In] in *. tauto. }
  assert (Hc : 0 < cross a x y).
  { apply Hturn. cbn [app]. rewrite EY, pathTriples_step. now left. }
  rewrite (Hcol a x y) in Hc; [lra| | |]; apply Hin; cbn [In]; tauto.
Qed.

Lemma lexLt_le (a b : Point) : lexLt a b \/ b = a -> lexLe a b.
Proof. unfold lexLt, lexLe. intros [H | ->]; lra. Qed.

Lemma collinear_hull_pair (points : list Point) :
  collinear points ->
  (exists p q, In p points /\ In q points /\ p <> q) ->
  exists a b,
    convexHull points = [a; b]
    /\ In a points /\ In b points /\ lexLt a b
    /\ forall p, In p points -> lexLe a p /\ lexLe p b.
Proof.
  intros Hcol Htwo.
  rewrite (hull_equals_hull_of_nodup points Htwo).
  set (D := nodup Point_eq_dec points).
  assert (HinD : forall p, In p D <-> In p points) by (intros p; apply nodup_In).
  assert (HndD : NoDup D) by apply NoDup_nodup.
  assert (HcolD : collinear (sortPoints D)).
  { intros a b c Ha Hb Hc.
    apply Hcol; apply HinD; apply (Permutation_in _ (sortPoints_perm D)); assumption. }
  assert (HlenD : (2 <= length D)%nat).
  { destruct Htwo as (p & q & Hp & Hq & Hne).
    apply (two_distinct_length D p q); try (apply HinD; assumption). exact Hne. }
  destruct (le_lt_dec (length D) 2) as [Hle | Hgt].
  - (* two different points *)
    assert (Hs : StronglySorted lexLt (sortPoints D)) by now apply sortPoints_strict.
    assert (Hl : length (sortPoints D) = length D)
      by apply Permutation_length, sortPoints_perm.
    unfold convexHull. rewrite Hl.
    replace (length D <=? 2)%nat with true by (symmetry; now apply Nat.leb_le).
    assert (HinS : forall p, In p (sortPoints D) <-> In p points).
    { intros p. rewrite <- HinD. split; intros H.
      - now apply (Permutation_in _ (sortPoints_perm D)).
      - now apply (Permutation_in _ (Permutation_sym (sortPoints_perm D))). }
    destruct (sortPoints D) as [|a [|b [|c l]]]; cbn [length] in Hl; try lia.
    exists a, b. split; [reflexivity|].
    split; [apply HinS; now left|]. split; [apply HinS; right; now left|].
    inversion Hs as [|? ? _ Hab]; subst. rewrite Forall_forall in Hab.
    assert (Hlt : lexLt a b) by (apply Hab; now left).
    split; [exact Hlt|].
    intros p Hp. apply HinS in Hp. destruct Hp as [<- | [<- | []]].
    + split; [apply lexLt_le; now right | apply lexLt_le; now left].
    + split; [apply lexLt_le; now left | apply lexLt_le; now right].
  - (* more than two *)
    destruct (hull_shape D HndD Hgt)
      as (pmin & pmax & Xl & Xu & E & FL & FU & Hmin & Hmax).
    pose proof (no_turn_on_a_line true _ _ _ _ HcolD FL) as EXl.
    pose proof (no_turn_on_a_line false _ _ _ _ HcolD FU) as EXu.
    subst Xl Xu. rewrite E. cbn [app].
    assert (HinS : forall p, In p (sortPoints D) <-> In p points).
    { intros p. rewrite <- HinD. split; intros H.
      - now apply (Permutation_in _ (sortPoints_perm D)).
      - now apply (Permutation_in _ (Permutation_sym (sortPoints_perm D))). }
    destruct FL as (_ & _ & Hincl & _).
    assert (Hpmin : In pmin (sortPoints D)) by (apply Hincl; now left).
    assert (Hpmax : In pmax (sortPoints D)) by (apply Hincl; right; now left).
    exists pmin, pmax. split; [reflexivity|].
    split; [now apply HinS|]. split; [now apply HinS|].
    split.
    + destruct (Hmin pmax Hpmax) as [H | H]; [exact H|]. exfalso.
      subst pmax.
      assert (Hall : forall p, In p D -> p = pmin).
      { intros p Hp. apply HinD, HinS in Hp.
        destruct (Hmin p Hp) as [H1 | H1]; [|exact H1].
        destruct (Hmax p Hp) as [H2 | H2]; [|exact H2].
        exfalso. exact (lexLt_irrefl _ (lexLt_trans _ _ _ H1 H2)). }
      destruct D as [|x [|y l]]; cbn [length] in Hgt; try lia.
      inversion HndD as [|? ? Hnin _]; subst. apply Hnin.
      rewrite (Hall x) by now left. rewrite (Hall y) by (right; now left). now left.
    + intros p Hp. apply HinS in Hp. split; apply lexLt_le.
      * destruct (Hmin p Hp) as [H | H]; [now left | now right].
      * destruct (Hmax p Hp) as [H | H]; [now left | right; now symmetry].
Qed.

Lemma collinear_values (l : list Geometry64.Point) :
  Geometry64.exactlyCollinear l = true -> collinear (map Geometry64.toPoint l).
Proof.
  unfold Geometry64.exactlyCollinear. intros H a b c Ha Hb Hc.
  apply in_map_iff in Ha. destruct Ha as (a' & <- & Ha).
  apply in_map_iff in Hb. destruct Hb as (b' & <- & Hb).
  apply in_map_iff in Hc. destruct Hc as (c' & <- & Hc).
  rewrite forallb_forall in H. specialize (H a' Ha).
  rewrite forallb_forall in H. specialize (H b' Hb).
  rewrite forallb_forall in H. specialize (H c' Hc).
  rewrite cross_exact. now apply dval_zero.
Qed.



(** ** Moving and scaling the points *)

Section HullCommutes.

Variable f : Point -> Point.
Hypothesis f_order : forall p q,
  Rleb (comparePoints (f p) (f q)) 0 = Rleb (comparePoints p q) 0.
Hypothesis f_turn : forall a b c,
  Rleb (cross (f a) (f b) (f c)) 0 = Rleb (cross a b c) 0.

Lemma insertPoint_commutes (p : Point) (l : list Point) :
  insertPoint (f p) (map f l) = map f (insertPoint p l).
Proof.
  induction l as [|q l IH]; [reflexivity|].
  cbn [map insertPoint]. rewrite f_order.
  destruct (Rleb (comparePoints p q) 0); [reflexivity|].
  cbn [map]. now rewrite IH.
Qed.

Lemma sortPoints_commutes (l : list Point) :
  sortPoints (map f l) = map f (sortPoints l).
Proof.
  induction l as [|p l IH]; [reflexivity|].
  cbn [map sortPoints fold_right]. fold (sortPoints (map f l)) (sortPoints l).
  now rewrite IH, insertPoint_commutes.
Qed.

Lemma popWhile_commutes (S : list Point) (p : Point) :
  popWhile (map f S) (f p) = map f (popWhile S p).
Proof.
  induction S as [|b S IH]; [reflexivity|].
  destruct S as [|a rest]; [reflexivity|].
  cbn [map] in *. rewrite !popWhile_step, f_turn.
  destruct (Rleb (cross a b p) 0); [exact IH | reflexivity].
Qed.

Lemma fold_push_commutes (l : list Point) :
  forall S, fold_left pushPoint (map f l) (map f S) = map f (fold_left pushPoint l S).
Proof.
  induction l as [|p l IH]; intros S; [reflexivity|].
  cbn [map fold_left]. rewrite <- IH. f_equal.
  unfold pushPoint. cbn [map]. now rewrite popWhile_commutes.
Qed.

Lemma buildChain_commutes (l : list Point) :
  buildChain (map f l) = map f (buildChain l).
Proof. exact (fold_push_commutes l []). Qed.

Lemma tl_map (l : list Point) : tl (map f l) = map f (tl l).
Proof. destruct l; reflexivity. Qed.

Lemma convexHull_commutes (points : list Point) :
  convexHull (map f points) = map f (convexHull points).
Proof.
  unfold convexHull. rewrite sortPoints_commutes, length_map.
  destruct (length (sortPoints points) <=? 2)%nat; [reflexivity|].
  rewrite <- map_rev, !buildChain_commutes.
  rewrite !tl_map, map_app, !map_rev. reflexivity.
Qed.

End HullCommutes.

Lemma comparePoints_sign (p q : Point) :
  Rleb (comparePoints p q) 0 = true <-> lexLe p q.
Proof. rewrite Rleb_iff. apply comparePoints_le. Qed.

Lemma bool_same (a b : bool) : (a = true <-> b = true) -> a = b.
Proof.
  destruct a, b; intros [H1 H2]; try reflexivity;
    [symmetry; now apply H1 | now apply H2].
Qed.

(** X16.  The hull moves and scales with the points: translating every
    point by the same vector, or scaling every point about the origin by
    the same positive factor, translates or scales every vertex of the
    hull, in the same order. *)
Theorem hull_moves_with_points (points : list Point) :
  (forall tx tz,
      convexHull (map (shiftPoint tx tz) points)
      = map (shiftPoint tx tz) (convexHull points))
  /\ (forall k, 0 < k ->
      convexHull (map (scalePoint k) points) = map (scalePoint k) (convexHull points)).
Proof.
  split.
  - intros tx tz. apply convexHull_commutes.
    + intros p q. apply bool_same. rewrite !comparePoints_sign.
      unfold lexLe, shiftPoint. cbn [p_x p_z]. split; intros H; lra.
    + intros a b c. apply bool_same. rewrite !Rleb_iff.
      unfold cross, shiftPoint. cbn [p_x p_z]. split; intros H; nra.
  - intros k Hk. apply convexHull_commutes.
    + intros p q. apply bool_same. rewrite !comparePoints_sign.
      unfold lexLe, scalePoint. cbn [p_x p_z]. split; intros H.
      * destruct H as [H | [H1 H2]]; [left; nra | right; split; nra].
      * destruct H as [H | [H1 H2]]; [left; nra | right; split; nra].
    + intros a b c. apply bool_same. rewrite !Rleb_iff.
      unfold cross, scalePoint. cbn [p_x p_z].
      set (c0 := (p_x b - p_x a) * (p_z c - p_z a) - (p_z b - p_z a) * (p_x c - p_x a)).
      replace ((k * p_x b - k * p_x a) * (k * p_z c - k * p_z a)
               - (k * p_z b - k * p_z a) * (k * p_x c - k * p_x a))
        with (k * k * c0) by (unfold c0; ring).
      assert (0 < k * k) by nra. split; intros H'; nra.
Qed.

Lemma hull_moves_with_points_witness :
  convexHull (map (scalePoint 2) [mkPoint 0 0; mkPoint 1 0; mkPoint 0 1])
  = map (scalePoint 2) (convexHull [mkPoint 0 0; mkPoint 1 0; mkPoint 0 1]).
Proof.
  apply (proj2 (hull_moves_with_points [mkPoint 0 0; mkPoint 1 0; mkPoint 0 1])). lra.
Defined.

Import Overlay Play PhysicsFacts.

(** * Further properties of the ball physics *)

(** ** The launch *)

Lemma shoot_fires (g : Game) :
  let c := controls g in
  let b := ball g in
  let dirX := v_x (aimWorld c) - v_x (ballPos b) in
  let dirZ := v_z (aimWorld c) - v_z (ballPos b) in
  let len := hypot dirX dirZ in
  1e-6 <= len ->
  let speedH := STIMP_V0 * sqrt (len / stimpM c) in
  let launchRad := launchAngleDeg c * PI / 180 in
  ball (shoot g) =
    mkBall (ballPos b)
           (mkVec3 (speedH * (dirX / len)) (speedH / cos launchRad * sin launchRad)
                   (speedH * (dirZ / len)))
           true false
           (if Req_dec_T (launchAngleDeg c) 0 then false else true)
           false 0 (v_y (ballPos b)) (launchAngleDeg c / 15.0) 0.0
  /\ shot (shoot g) =
       mkShot (Some (v_x (ballPos b), v_z (ballPos b)))
              (shotAimPoints (shot g) ++ [aimWorld c])
              [] false None (v_x (ballPos b), v_z (ballPos b))
  /\ scene (shoot g) =
       addAimPointMarker (aimWorld c)
         match currentTrailLine (scene g) with
         | Some (_ :: _) => scene g
         | _ => addTrailPoint (v_x (ballPos b)) (v_y (ballPos b)) (v_z (ballPos b))
                              (scene g)
         end
  /\ terrain (shoot g) = terrain g /\ controls (shoot g) = controls g.
Proof.
  intros c b dirX dirZ len Hlen speedH launchRad.
  unfold shoot. fold c b dirX dirZ len.
  rewrite Rltb_false by exact Hlen. cbv zeta.
  cbn [ball shot scene terrain controls]. repeat split; reflexivity.
Qed.

(** X17.  The launch speed is calibrated on the aim distance: when the
    aim point is at least 1e-6 away and the stimp is positive, [shoot]
    gives the ball a horizontal velocity that points from the ball to the
    aim point and whose square is [2 * mu * GRAVITY * distance], the speed
    that rolling friction alone brings to rest at the aim distance; the
    ball keeps its position and is set moving, out of the hole and off
    its circle. *)
Theorem launch_speed_reaches_aim_distance (g : Game) :
  let c := controls g in
  let b := ball g in
  let dirX := v_x (aimWorld c) - v_x (ballPos b) in
  let dirZ := v_z (aimWorld c) - v_z (ballPos b) in
  let len := hypot dirX dirZ in
  1e-6 <= len -> 0 < stimpM c ->
  let b' := ball (shoot g) in
  let vx := v_x (ballVel b') in
  let vz := v_z (ballVel b') in
  vx * vx + vz * vz = 2 * (stimpToMu (stimpM c) * GRAVITY) * len
  /\ (exists k, 0 < k /\ vx = k * dirX /\ vz = k * dirZ)
  /\ ballPos b' = ballPos b
  /\ ballMoving b' = true /\ inHole b' = false /\ ballOnCircle b' = false
  /\ travelDist b' = 0 /\ bounceCount b' = 0%nat.
Proof.
  intros c b dirX dirZ len Hlen Hs b' vx vz.
  destruct (shoot_fires g Hlen) as (Hb & _).
  fold c b dirX dirZ len in Hb.
  unfold vx, vz, b'. rewrite Hb. cbn [ballVel ballPos ballMoving inHole ballOnCircle
                                     travelDist bounceCount v_x v_z].
  set (speedH := STIMP_V0 * sqrt (len / stimpM c)).
  assert (Hlen0 : 0 < len) by lra.
  assert (Hq : 0 < len / stimpM c) by (apply Rdiv_lt_0_compat; assumption).
  assert (Hsq : sqrt (len / stimpM c) * sqrt (len / stimpM c) = len / stimpM c)
    by (apply sqrt_sqrt; lra).
  assert (Hpos : 0 < sqrt (len / stimpM c)) by now apply sqrt_lt_R0.
  assert (Hh : len * len = dirX * dirX + dirZ * dirZ) by apply hypot_sqr.
  split; [|split; [|repeat split; try reflexivity; lra]].
  - transitivity (speedH * speedH * ((dirX * dirX + dirZ * dirZ) / (len * len)));
      [field; lra|].
    rewrite <- Hh. unfold speedH, stimpToMu, STIMP_V0. cbv zeta.
    assert (Hg : 0 < GRAVITY) by (unfold GRAVITY; lra).
    replace 2.0 with 2 by lra.
    set (v0 := 1.83). set (r := sqrt (len / stimpM c)) in *.
    transitivity (v0 * v0 * (r * r)); [field; lra|].
    rewrite Hsq. field. lra.
  - exists (speedH / len). split.
    + apply Rdiv_lt_0_compat; [|exact Hlen0]. unfold speedH, STIMP_V0. nra.
    + split; field; lra.
Qed.

Lemma launch_speed_reaches_aim_distance_witness :
  ballMoving (ball (shoot (rollingGame 3 0))) = true.
Proof.
  refine (proj1 (proj2 (proj2 (proj2
            (launch_speed_reaches_aim_distance (rollingGame 3 0) _ _))))).
  - cbn [rollingGame rollingBall flatControls controls ball aimWorld ballPos v_x v_z].
    replace (0 - 0) with 0 by lra. rewrite hypot_x_0, Rabs_left; lra.
  - cbn. lra.
Defined.

(** ** The floor *)

Lemma integrate_above_hole_floor (dt : R) (g : Game) :
  height_grid_ok (terrain g) ->
  - holeDepth + BALL_RADIUS_M <= v_y (ballPos (ball (fst (integrate dt g)))).
Proof.
  intros Hok.
  assert (Hh : forall a b, - holeDepth + BALL_RADIUS_M
                           <= getTerrainHeight (terrain g) a b + BALL_RADIUS_M).
  { intros a b. pose proof (getTerrainHeight_bounded (terrain g) a b Hok) as Hb.
    rewrite height_bound_value in Hb. apply Rabs_le_between in Hb.
    unfold holeDepth. lra. }
  unfold integrate. cbv zeta.
  match goal with
  | |- context [match ?e with pair _ _ => _ end] =>
      lazymatch e with
      | context [exp] => destruct e as [[[[ax ay] az] spin] vy]
      end
  end.
  match goal with
  | |- context [Rltb ?a ?b] =>
      lazymatch b with
      | context [holeDepth] =>
          assert (Hmin : - holeDepth + BALL_RADIUS_M <= b);
          [|destruct (Rltb a b) eqn:E]
      end
  end.
  - match goal with
    | |- context [Rleb ?d ?z] => destruct (Rleb d z)
    end; [match goal with |- context [if ?c then _ else _] => destruct c end|];
      try apply Hh; lra.
  - match goal with
    | |- context [if ?c then _ else _] =>
        lazymatch c with
        | context [MIN_BOUNCE_VEL] => destruct c
        end
    end; cbn [fst withBall ball ballPos v_y]; exact Hmin.
  - cbn [fst withBall ball ballPos v_y]. apply Rltb_iff_false in E. lra.
Qed.

(** X18.  The ball stays above the floor: after a step of a moving ball
    on a terrain whose heights obey the amplitude bound, the ball is never
    below the bottom of the hole, [-0.40 + BALL_RADIUS_M]; and when it is
    farther from the hole axis than the hole radius plus half a ball
    radius, it is not below the surface of the green either. *)
Theorem ball_stays_above_floor (dt : R) (g : Game) :
  ballMoving (ball g) = true ->
  height_grid_ok (terrain g) ->
  let p := ballPos (ball (updatePhysics dt g)) in
  - 0.40 + BALL_RADIUS_M <= v_y p
  /\ (HOLE_RADIUS_M + BALL_RADIUS_M * 0.5 < hypot (v_x p) (v_z p) ->
        getTerrainHeight (terrain g) (v_x p) (v_z p) + BALL_RADIUS_M <= v_y p).
Proof.
  intros Hmov Hok p.
  destruct (integrate dt g) as [g1 c] eqn:Hint.
  destruct (updatePhysics_moving dt g g1 c Hmov Hint) as [Hball _].
  pose proof (integrate_above_hole_floor dt g Hok) as Hy.
  pose proof (integrate_floor dt g) as Hfl.
  rewrite Hint in Hy, Hfl. cbn [fst] in Hy, Hfl.
  unfold p. rewrite Hball. clear p Hball.
  unfold holeDepth in Hy.
  unfold holeCheck.
  set (b1 := ball g1) in *.
  destruct (reachesHole b1 c) eqn:Hreach.
  - destruct (captures b1) eqn:Hcap.
    + (* captured *)
      destruct (crossedHole b1 c && Rgtb (hypot (v_x (ballPos b1)) (v_z (ballPos b1)))
                                         HOLE_RADIUS_M) eqn:Hrec;
        cbn [ball ballPos v_x v_y v_z]; unfold holeBottom, holeDepth.
      * split; [lra|]. rewrite hypot_0_0. unfold HOLE_RADIUS_M, BALL_RADIUS_M. lra.
      * split; [lra|]. intros Hfar. exfalso.
        specialize (Hfl Hfar).
        assert (Hnd : ballDroppedIn b1 = false).
        { destruct (ballDroppedIn b1) eqn:E; [|reflexivity].
          unfold ballDroppedIn in E. apply andb_prop in E. destruct E as [_ E].
          apply Rltb_iff in E.
          pose proof (getTerrainHeight_bounded (terrain g)
                        (v_x (ballPos b1)) (v_z (ballPos b1)) Hok) as Hb.
          rewrite height_bound_value in Hb. apply Rabs_le_between in Hb.
          unfold BALL_RADIUS_M in *. lra. }
        assert (Hnw : withinHole b1 = false).
        { unfold withinHole. apply Rleb_false.
          unfold HOLE_RADIUS_M, BALL_RADIUS_M in *. lra. }
        unfold reachesHole in Hreach. rewrite Hnd, Hnw in Hreach. cbn [orb] in Hreach.
        rewrite Hreach in Hrec. cbn [andb] in Hrec.
        unfold Rgtb in Hrec. apply Rltb_iff_false in Hrec.
        unfold HOLE_RADIUS_M, BALL_RADIUS_M in *. lra.
    + destruct (withinHole b1); cbn [withBall ball ballPos v_x v_y v_z];
        unfold b1 in *; (split; [lra | exact Hfl]).
  - destruct (Rltb _ 0.02 && negb (ballAirborne b1));
      cbn [withScene ball ballPos v_x v_y v_z]; unfold b1 in *;
      (split; [lra | exact Hfl]).
Qed.

Lemma ball_stays_above_floor_witness :
  - 0.40 + BALL_RADIUS_M
  <= v_y (ballPos (ball (updatePhysics (1 / 30) (rollingGame 1 1)))).
Proof.
  exact (proj1 (ball_stays_above_floor (1 / 30) (rollingGame 1 1) eq_refl flatTerrain_ok)).
Defined.

(** ** What a step never undoes *)

Lemma integrate_counters (dt : R) (g : Game) :
  let b := ball g in
  let b1 := ball (fst (integrate dt g)) in
  travelDist b <= travelDist b1
  /\ maxHeight b <= maxHeight b1
  /\ (bounceCount b <= bounceCount b1)%nat.
Proof.
  unfold integrate. cbv zeta.
  match goal with
  | |- context [match ?e with pair _ _ => _ end] =>
      lazymatch e with
      | context [exp] => destruct e as [[[[ax ay] az] spin] vy]
      end
  end.
  match goal with
  | |- context [match ?e with pair _ _ => _ end] =>
      assert (Hb : (bounceCount (ball g) <= snd e)%nat);
      [|destruct e as [[[[[vx' vy'] vz'] ny] air] bounces]]
  end.
  { repeat match goal with
    | |- context [if ?c then _ else _] => destruct c
    end; cbn [snd]; lia. }
  cbn [fst snd withBall ball travelDist maxHeight bounceCount] in *.
  split; [|split; [|exact Hb]].
  - match goal with |- _ <= _ + hypot ?a ?b => pose proof (hypot_nonneg a b) end. lra.
  - unfold Rgtb, Rltb. destruct (Rlt_dec _ _); lra.
Qed.

Lemma holeCheck_counters (c : R) (g : Game) :
  let b := ball g in
  let b' := ball (holeCheck c g) in
  travelDist b' = travelDist b /\ maxHeight b' = maxHeight b
  /\ bounceCount b' = bounceCount b
  /\ ballOnCircle b' = ballOnCircle b
  /\ (inHole b = true -> inHole b' = true)
  /\ terrain (holeCheck c g) = terrain g /\ controls (holeCheck c g) = controls g
  /\ shot (holeCheck c g) = shot g.
Proof.
  unfold holeCheck. cbv zeta.
  destruct (reachesHole (ball g) c).
  - destruct (captures (ball g)).
    + destruct (crossedHole (ball g) c && _);
        cbn [ball terrain controls shot travelDist maxHeight bounceCount ballOnCircle inHole];
        repeat split; reflexivity.
    + destruct (withinHole (ball g));
        cbn [withBall ball terrain controls shot travelDist maxHeight bounceCount
             ballOnCircle inHole];
        repeat split; auto.
  - destruct (Rltb _ 0.02 && negb (ballAirborne (ball g)));
      cbn [withScene ball terrain controls shot travelDist maxHeight bounceCount
           ballOnCircle inHole];
      repeat split; auto.
Qed.

Lemma updatePhysics_keeps (dt : R) (g : Game) :
  let b := ball g in
  let g' := updatePhysics dt g in
  let b' := ball g' in
  travelDist b <= travelDist b'
  /\ maxHeight b <= maxHeight b'
  /\ (bounceCount b <= bounceCount b')%nat
  /\ ballOnCircle b' = ballOnCircle b
  /\ (inHole b = true -> inHole b' = true)
  /\ terrain g' = terrain g /\ controls g' = controls g.
Proof.
  cbv zeta. destruct (ballMoving (ball g)) eqn:Hmov.
  - destruct (integrate dt g) as [g1 c] eqn:Hint.
    destruct (updatePhysics_moving dt g g1 c Hmov Hint) as [Hball _].
    assert (Hstep : updatePhysics dt g = breakDetect (holeCheck c g1)).
    { unfold updatePhysics. rewrite Hmov, Hint. reflexivity. }
    destruct (breakDetect_frame (holeCheck c g1)) as (Bt & Bc & _ & _).
    rewrite Hball. rewrite Hstep, Bt, Bc. clear Hstep Bt Bc Hball.
    pose proof (integrate_counters dt g) as Hc. pose proof (integrate_frame dt g) as Hf.
    rewrite Hint in Hc, Hf. cbn [fst] in Hc, Hf. cbv zeta in Hc.
    destruct Hc as (C1 & C2 & C3). destruct Hf as (F1 & F2 & _ & _ & _ & F6 & F7).
    destruct (holeCheck_counters c g1) as (H1 & H2 & H3 & H4 & H5 & H6 & H7 & _).
    cbv zeta in *. rewrite H1, H2, H3, H4, H6, H7, F1, F2, F6.
    repeat split; try assumption; try lia.
    intros Hin. apply H5. now rewrite F7.
  - rewrite (updatePhysics_not_moving dt g Hmov).
    repeat split; try lra; try lia; auto.
Qed.

(** X19.  What steps never undo: over any sequence of physics steps the
    travel distance, the maximum height and the bounce count never
    decrease, a ball in the hole stays in the hole, and the terrain, the
    settings and the on-circle flag are left as they are. *)
Theorem physics_never_undoes (dts : list R) (g : Game) :
  let b := ball g in
  let g' := runPhysics dts g in
  let b' := ball g' in
  travelDist b <= travelDist b'
  /\ maxHeight b <= maxHeight b'
  /\ (bounceCount b <= bounceCount b')%nat
  /\ ballOnCircle b' = ballOnCircle b
  /\ (inHole b = true -> inHole b' = true)
  /\ terrain g' = terrain g /\ controls g' = controls g.
Proof.
  cbv zeta. revert g. induction dts as [|dt dts IH]; intros g.
  - cbn [runPhysics fold_left]. repeat split; try lra; try lia; auto.
  - change (runPhysics (dt :: dts) g) with (runPhysics dts (updatePhysics dt g)).
    destruct (IH (updatePhysics dt g)) as (A1 & A2 & A3 & A4 & A5 & A6 & A7).
    destruct (updatePhysics_keeps dt g) as (B1 & B2 & B3 & B4 & B5 & B6 & B7).
    cbv zeta in *.
    rewrite A4, A6, A7, B4, B6, B7.
    repeat split; try lra; try lia; auto.
Qed.

(** ** Break points *)

Lemma breakDetect_break_ok (g : Game) :
  break_ok (shot g) -> break_ok (shot (breakDetect g)).
Proof.
  intros [Hnil Hlen]. unfold breakDetect. cbv zeta.
  destruct (ballMoving (ball g) && negb (breakLocked (shot g))
            && negb (inHole (ball g)) && negb (ballAirborne (ball g))) eqn:Hc;
    [|split; assumption].
  assert (Hl : breakLocked (shot g) = false).
  { apply andb_prop in Hc. destruct Hc as [Hc _].
    apply andb_prop in Hc. destruct Hc as [Hc _].
    apply andb_prop in Hc. destruct Hc as [_ Hc].
    now apply negb_true_iff in Hc. }
  rewrite (Hnil Hl), Hl.
  destruct (prevVz (shot g)) as [pv|].
  - destruct ((Rltb pv 0 && Rgeb (v_z (ballVel (ball g))) 0)
              || (Rgtb pv 0 && Rleb (v_z (ballVel (ball g))) 0)).
    + cbn [withShot shot]. split; cbn [breakLocked breakPoints app length];
        [discriminate | lia].
    + destruct (Rleb (Rabs (v_z (ballVel (ball g)))) 0.01).
      * cbn [withShot shot]. split; cbn [breakLocked breakPoints app length];
          [discriminate | lia].
      * cbn [withShot shot]. split; cbn [breakLocked breakPoints length];
          [reflexivity | lia].
  - cbn [withShot shot]. split; cbn [breakLocked breakPoints length];
      [reflexivity | lia].
Qed.

Lemma updatePhysics_break_ok (dt : R) (g : Game) :
  break_ok (shot g) -> break_ok (shot (updatePhysics dt g)).
Proof.
  intros H. destruct (ballMoving (ball g)) eqn:Hmov.
  - destruct (integrate dt g) as [g1 c] eqn:Hint.
    assert (Hstep : updatePhysics dt g = breakDetect (holeCheck c g1)).
    { unfold updatePhysics. rewrite Hmov, Hint. reflexivity. }
    rewrite Hstep. apply breakDetect_break_ok.
    destruct (holeCheck_counters c g1) as (_ & _ & _ & _ & _ & _ & _ & Hs).
    rewrite Hs.
    pose proof (integrate_frame dt g) as Hf. rewrite Hint in Hf. cbn [fst] in Hf.
    destruct Hf as (_ & _ & F3 & _). now rewrite F3.
  - now rewrite (updatePhysics_not_moving dt g Hmov).
Qed.

Lemma runPhysics_break_ok (dts : list R) :
  forall g, break_ok (shot g) -> break_ok (shot (runPhysics dts g)).
Proof.
  induction dts as [|dt dts IH]; intros g H; [exact H|].
  change (runPhysics (dt :: dts) g) with (runPhysics dts (updatePhysics dt g)).
  apply IH, updatePhysics_break_ok, H.
Qed.

(** X20.  One break point per shot: after a shot that fires, whatever
    the steps that follow, at most one break point has been recorded, and
    none as long as the break is not locked. *)
Theorem one_break_point_per_shot (g : Game) (dts : list R) :
  1e-6 <= hypot (v_x (aimWorld (controls g)) - v_x (ballPos (ball g)))
                (v_z (aimWorld (controls g)) - v_z (ballPos (ball g))) ->
  let sh := shot (runPhysics dts (shoot g)) in
  (length (breakPoints sh) <= 1)%nat
  /\ (breakLocked sh = false -> breakPoints sh = []).
Proof.
  intros Hlen sh.
  assert (H : break_ok sh).
  { apply runPhysics_break_ok.
    destruct (shoot_fires g Hlen) as (_ & Hs & _). rewrite Hs.
    split; [reflexivity | cbn; lia]. }
  destruct H as [H1 H2]. split; assumption.
Qed.

Lemma one_break_point_per_shot_witness :
  (length (breakPoints (shot (runPhysics [(1 / 30)%R; (1 / 30)%R]
                                         (shoot (rollingGame 3 0)))))
   <= 1)%nat.
Proof.
  refine (proj1 (one_break_point_per_shot (rollingGame 3 0) [1 / 30; 1 / 30] _)).
  cbn [rollingGame rollingBall flatControls controls ball aimWorld ballPos v_x v_z].
  replace (0 - 0) with 0 by lra. rewrite hypot_x_0, Rabs_left; lra.
Defined.

(** ** The trail *)

Lemma adjacentPairs_snoc {A : Type} (l : list A) (x : A) (p q : A) :
  In (p, q) (adjacentPairs (l ++ [x])) ->
  In (p, q) (adjacentPairs l) \/ ((exists rest, l = rest ++ [p]) /\ q = x).
Proof.
  induction l as [|a l IH]; intros H; [destruct H|].
  destruct l as [|b l'].
  - cbn in H. destruct H as [H | []]. inversion H; subst.
    right. split; [exists []; reflexivity | reflexivity].
  - change (adjacentPairs ((a :: b :: l') ++ [x]))
      with ((a, b) :: adjacentPairs ((b :: l') ++ [x])) in H.
    change (adjacentPairs (a :: b :: l')) with ((a, b) :: adjacentPairs (b :: l')).
    destruct H as [H | H]; [left; now left|].
    destruct (IH H) as [H' | [[rest Hr] Hq]].
    + left. now right.
    + right. split; [|exact Hq]. exists (a :: rest). cbn [app]. now rewrite Hr.
Qed.

(** The rounding of a store into the trail buffer. *)

Lemma roundHalfEven_near (r : R) : Rabs (IZR (roundHalfEven r) - r) <= 1 / 2.
Proof.
  unfold roundHalfEven, Rltb. cbv zeta. pose proof (floor_bounds r) as Hf.
  destruct (Rlt_dec (r - IZR (floor r)) (1 / 2)) as [H1 | H1].
  - apply Rabs_le. lra.
  - destruct (Rlt_dec (1 / 2) (r - IZR (floor r))) as [H2 | H2].
    + rewrite plus_IZR. apply Rabs_le. lra.
    + destruct (Z.even (floor r)); [|rewrite plus_IZR]; apply Rabs_le; lra.
Qed.

Lemma pow2_le_of_floor_log (x : R) (e : Z) :
  0 < x -> IZR e <= ln x / ln 2 -> powerRZ 2 e <= x.
Proof.
  intros Hx He.
  assert (Hl2 : 0 < ln 2) by (rewrite <- ln_1; apply ln_increasing; lra).
  rewrite powerRZ_Rpower by lra. unfold Rpower.
  apply Rle_trans with (exp (ln x)); [|rewrite (exp_ln x Hx); lra].
  assert (H : IZR e * ln 2 <= ln x).
  { apply (Rmult_le_compat_r (ln 2)) in He; [|lra].
    unfold Rdiv in He. rewrite Rmult_assoc, Rinv_l, Rmult_1_r in He by lra. exact He. }
  destruct H as [H | H]; [left; now apply exp_increasing | right; now rewrite H].
Qed.

(** The rounding error of a store: at most [2^-24] of the value, or
    [2^-150] below the normal range. *)
Lemma fround_error (x : R) :
  Rabs (fround x - x) <= powerRZ 2 (-24) * Rabs x + powerRZ 2 (-150).
Proof.
  assert (P150 : 0 < powerRZ 2 (-150)) by (apply powerRZ_lt; lra).
  assert (P24 : 0 < powerRZ 2 (-24)) by (apply powerRZ_lt; lra).
  unfold fround. destruct (Req_dec_T x 0) as [-> | Hx].
  - rewrite Rminus_0_r, Rabs_R0. lra.
  - cbv zeta. set (e := Z.max (floor (ln (Rabs x) / ln 2)) (-126)).
    set (q := powerRZ 2 (e - 23)).
    assert (Hq : 0 < q) by (apply powerRZ_lt; lra).
    pose proof (roundHalfEven_near (x / q)) as Hn.
    assert (Herr : Rabs (IZR (roundHalfEven (x / q)) * q - x) <= q / 2).
    { replace (IZR (roundHalfEven (x / q)) * q - x)
        with ((IZR (roundHalfEven (x / q)) - x / q) * q) by (field; lra).
      rewrite Rabs_mult, (Rabs_pos_eq q) by lra.
      apply (Rmult_le_compat_r q) in Hn; lra. }
    assert (Hhalf : q / 2 = powerRZ 2 (e - 24)).
    { unfold q. replace (e - 23)%Z with ((e - 24) + 1)%Z by lia.
      rewrite powerRZ_add by lra. cbn [powerRZ]. change (Pos.to_nat 1) with 1%nat.
      cbn [pow]. field. }
    rewrite Hhalf in Herr.
    pose proof (Rabs_pos_lt x Hx) as Hax.
    destruct (Z.max_spec (floor (ln (Rabs x) / ln 2)) (-126)) as [[Hlt Hm] | [Hge Hm]].
    + (* below the normal range *)
      fold e in Hm. rewrite Hm in Herr. change (-126 - 24)%Z with (-150)%Z in Herr. nra.
    + fold e in Hm.
      assert (Hp : powerRZ 2 e <= Rabs x).
      { rewrite Hm. apply pow2_le_of_floor_log; [exact Hax | apply floor_bounds]. }
      replace (e - 24)%Z with (-24 + e)%Z in Herr by lia.
      rewrite powerRZ_add in Herr by lra. nra.
Qed.

Lemma addTrailPoint_ok (x y z : R) (sc : Scene) :
  trail_ok sc -> trail_ok (addTrailPoint x y z sc).
Proof.
  intros H. unfold trail_ok in H. unfold addTrailPoint, trail_ok. cbv zeta.
  cbn [currentTrailLine].
  set (seg := match currentTrailLine sc with Some l => l | None => [] end).
  assert (Hseg : (length seg <= MAX_TRAIL_PTS)%nat
                 /\ forall p q, In (p, q) (adjacentPairs seg) ->
                      exists x' z',
                        v_x q = fround x' /\ v_z q = fround z'
                        /\ 0.0004 <= (x' - v_x p) * (x' - v_x p)
                                     + (z' - v_z p) * (z' - v_z p)).
  { unfold seg. destruct (currentTrailLine sc) as [l|]; [exact H|].
    split; [cbn; lia | intros p q []]. }
  clear H. destruct Hseg as [Hlen Hsp].
  destruct (MAX_TRAIL_PTS <=? length seg)%nat eqn:Efull; cbn [orb];
    [split; assumption|].
  apply Nat.leb_gt in Efull.
  destruct (rev seg) as [|lastp before] eqn:Erev.
  - assert (Es : seg = []).
    { apply (f_equal (@rev Vec3)) in Erev. now rewrite rev_involutive in Erev. }
    rewrite Es. cbn [app length adjacentPairs]. split; [lia | intros p q []].
  - assert (Es : seg = rev before ++ [lastp]).
    { apply (f_equal (@rev Vec3)) in Erev. now rewrite rev_involutive in Erev. }
    destruct (Rltb _ 0.0004) eqn:Enear; [split; assumption|].
    apply Rltb_iff_false in Enear.
    split; [rewrite length_app; cbn [length]; lia|].
    intros p q Hpq. apply adjacentPairs_snoc in Hpq.
    destruct Hpq as [Hpq | [[rest Hr] ->]]; [now apply Hsp|].
    assert (Ep : p = lastp).
    { rewrite Es in Hr. apply app_inj_tail in Hr. now destruct Hr. }
    subst p. exists x, z. cbn [v_x v_z].
    split; [reflexivity|]. split; [reflexivity|]. lra.
Qed.

Lemma colorLastAimPoint_trail (m : bool) (sc : Scene) :
  currentTrailLine (colorLastAimPoint m sc) = currentTrailLine sc.
Proof.
  unfold colorLastAimPoint. destruct (rev (aimPtGroup sc)) as [|[pos col] before];
    reflexivity.
Qed.

Lemma trail_ok_same (sc sc' : Scene) :
  currentTrailLine sc' = currentTrailLine sc -> trail_ok sc -> trail_ok sc'.
Proof. unfold trail_ok. now intros ->. Qed.

Lemma holeCheck_trail_ok (c : R) (g : Game) :
  trail_ok (scene g) -> trail_ok (scene (holeCheck c g)).
Proof.
  intros H. unfold holeCheck. cbv zeta.
  destruct (reachesHole (ball g) c).
  - destruct (captures (ball g)).
    + destruct (crossedHole (ball g) c && _); cbn [scene];
        (eapply trail_ok_same;
         [rewrite colorLastAimPoint_trail; unfold placeGhostCross; cbn [currentTrailLine];
          reflexivity
         | now apply addTrailPoint_ok]).
    + destruct (withinHole (ball g)); cbn [withBall scene]; exact H.
  - destruct (Rltb _ 0.02 && negb (ballAirborne (ball g))); cbn [withScene scene].
    + eapply trail_ok_same; [apply colorLastAimPoint_trail | exact H].
    + now apply addTrailPoint_ok.
Qed.

Lemma updatePhysics_trail_ok (dt : R) (g : Game) :
  trail_ok (scene g) -> trail_ok (scene (updatePhysics dt g)).
Proof.
  intros H. destruct (ballMoving (ball g)) eqn:Hmov.
  - destruct (integrate dt g) as [g1 c] eqn:Hint.
    destruct (updatePhysics_moving dt g g1 c Hmov Hint) as [_ Hsc]. rewrite Hsc.
    apply holeCheck_trail_ok.
    pose proof (integrate_frame dt g) as Hf. rewrite Hint in Hf. cbn [fst] in Hf.
    destruct Hf as (_ & _ & _ & F4 & _). now rewrite F4.
  - now rewrite (updatePhysics_not_moving dt g Hmov).
Qed.

Lemma shoot_trail_ok (g : Game) : trail_ok (scene g) -> trail_ok (scene (shoot g)).
Proof.
  intros H. unfold shoot. cbv zeta.
  destruct (Rltb _ 1e-6); [exact H|]. cbn [scene].
  unfold addAimPointMarker, trail_ok. cbn [currentTrailLine]. fold (trail_ok
    match currentTrailLine (scene g) with
    | Some (_ :: _) => scene g
    | _ => addTrailPoint (v_x (ballPos (ball g))) (v_y (ballPos (ball g)))
                         (v_z (ballPos (ball g))) (scene g)
    end).
  destruct (currentTrailLine (scene g)) as [[|p l]|] eqn:E;
    try (now apply addTrailPoint_ok); exact H.
Qed.

Lemma runPhysics_trail_ok (dts : list R) (g : Game) :
  trail_ok (scene g) -> trail_ok (scene (runPhysics dts g)).
Proof.
  revert g. induction dts as [|dt dts IH]; intros g H; [exact H|].
  change (runPhysics (dt :: dts) g) with (runPhysics dts (updatePhysics dt g)).
  apply IH, updatePhysics_trail_ok, H.
Qed.

(** X21.  The trail keeps its capacity and, up to the rounding of its
    buffer, its spacing.  If the current trail segment holds at most
    [MAX_TRAIL_PTS] points, of which each but the first is the stored form
    of a point that was at least 0.02 from the stored point before it in
    the horizontal plane, it still does after a shot and any sequence of
    physics steps; and the stored coordinates differ from those of that
    point by the rounding of the [Float32Array]: at most [2^-24] of the
    coordinate, or [2^-150]. *)
Theorem trail_keeps_spacing (g : Game) (dts : list R) :
  trail_ok (scene g) ->
  let sc := scene (runPhysics dts (shoot g)) in
  trail_ok sc
  /\ forall seg p q,
       currentTrailLine sc = Some seg -> In (p, q) (adjacentPairs seg) ->
       (length seg <= MAX_TRAIL_PTS)%nat
       /\ exists x z,
            Rabs (v_x q - x) <= powerRZ 2 (-24) * Rabs x + powerRZ 2 (-150)
            /\ Rabs (v_z q - z) <= powerRZ 2 (-24) * Rabs z + powerRZ 2 (-150)
            /\ 0.0004 <= (x - v_x p) * (x - v_x p) + (z - v_z p) * (z - v_z p).
Proof.
  intros H sc.
  assert (Hok : trail_ok sc) by (apply runPhysics_trail_ok, shoot_trail_ok, H).
  split; [exact Hok|].
  intros seg p q Hseg Hpq. unfold trail_ok in Hok. rewrite Hseg in Hok.
  destruct Hok as [Hlen Hsp]. split; [exact Hlen|].
  destruct (Hsp p q Hpq) as (x & z & Ex & Ez & Hd).
  exists x, z. rewrite Ex, Ez.
  split; [apply fround_error|]. split; [apply fround_error | exact Hd].
Qed.

Lemma trail_keeps_spacing_witness :
  trail_ok (scene (runPhysics [(1 / 30)%R] (shoot (rollingGame 3 0)))).
Proof.
  refine (proj1 (trail_keeps_spacing (rollingGame 3 0) [(1 / 30)%R] _)).
  unfold trail_ok, rollingGame. cbn [scene currentTrailLine length adjacentPairs].
  split; [unfold MAX_TRAIL_PTS; lia | intros p q []].
Defined.

(** * Invariants of the program state *)

Lemma inSequence_preserves {A : Type} (P : A -> Prop) (steps : list (A -> A)) :
  Forall (fun step => forall a, P a -> P (step a)) steps ->
  forall a, P a -> P (inSequence steps a).
Proof.
  unfold inSequence. induction steps as [|f steps IH]; intros Hall a Ha; [exact Ha|].
  inversion Hall as [|? ? Hf Hrest]; subst. cbn [fold_left]. apply IH; auto.
Qed.

Lemma run_preserves (P : App -> Prop) (ok : Event -> bool) :
  (forall a ev, ok ev = true -> P a -> P (handle a ev)) ->
  forall evs a, forallb ok evs = true -> P a -> P (run evs a).
Proof.
  intros Hstep. unfold run. induction evs as [|ev evs IH]; intros a Hok Ha; [exact Ha|].
  cbn [forallb] in Hok. apply andb_prop in Hok. destruct Hok as [H1 H2].
  cbn [fold_left]. apply IH; [exact H2|]. now apply Hstep.
Qed.

Lemma run_preserves_all (P : App -> Prop) :
  (forall a ev, P a -> P (handle a ev)) ->
  forall evs a, P a -> P (run evs a).
Proof.
  intros Hstep evs a Ha.
  apply (run_preserves P (fun _ => true)); auto.
  clear. induction evs; cbn; auto.
Qed.

(** ** Markers and valid aim points *)

Lemma blue_snoc (l : list (Vec3 * bool)) (pos : Vec3) (m : bool) :
  map (fun m : Vec3 * bool => mkPoint (v_x (fst m)) (v_z (fst m)))
      (filter (fun m : Vec3 * bool => snd m) (l ++ [(pos, m)]))
  = map (fun m : Vec3 * bool => mkPoint (v_x (fst m)) (v_z (fst m)))
        (filter (fun m : Vec3 * bool => snd m) l)
    ++ (if m then [mkPoint (v_x pos) (v_z pos)] else []).
Proof.
  rewrite filter_app, map_app. cbn [filter snd]. now destruct m.
Qed.

Lemma markers_ok_same (g g' : Game) :
  aimPtGroup (scene g') = aimPtGroup (scene g) ->
  validAimPts (scene g') = validAimPts (scene g) ->
  (ballMoving (ball g') = true -> ballMoving (ball g) = true) ->
  markers_ok g -> markers_ok g'.
Proof.
  intros E1 E2 Hm [H1 H2]. unfold markers_ok, blueMarkers, lastMarkerRed in *.
  rewrite E1, E2. split; [exact H1 | intros H; now apply H2, Hm].
Qed.

Lemma colorLastAimPoint_markers (m : bool) (sc : Scene) :
  validAimPts sc = blueMarkers sc -> lastMarkerRed sc ->
  validAimPts (colorLastAimPoint m sc) = blueMarkers (colorLastAimPoint m sc).
Proof.
  intros Hv Hred. unfold colorLastAimPoint, lastMarkerRed in *.
  destruct (rev (aimPtGroup sc)) as [|[pos col] before] eqn:Erev; [exact Hv|].
  destruct col; [contradiction|].
  assert (E : aimPtGroup sc = rev before ++ [(pos, false)]).
  { apply (f_equal (@rev (Vec3 * bool))) in Erev. now rewrite rev_involutive in Erev. }
  unfold blueMarkers in *. cbn [validAimPts aimPtGroup].
  rewrite blue_snoc. rewrite E, blue_snoc, app_nil_r in Hv. rewrite Hv.
  destruct m; [reflexivity | now rewrite app_nil_r].
Qed.

Lemma addTrailPoint_markers (x y z : R) (sc : Scene) :
  aimPtGroup (addTrailPoint x y z sc) = aimPtGroup sc
  /\ validAimPts (addTrailPoint x y z sc) = validAimPts sc.
Proof. unfold addTrailPoint. cbv zeta. split; reflexivity. Qed.

Lemma holeCheck_markers_ok (c : R) (g : Game) :
  ballMoving (ball g) = true -> markers_ok g -> markers_ok (holeCheck c g).
Proof.
  intros Hmov [Hv Hred]. specialize (Hred Hmov).
  unfold holeCheck. cbv zeta.
  destruct (reachesHole (ball g) c).
  - destruct (captures (ball g)).
    + split; [|cbn [ball ballMoving]; destruct (crossedHole (ball g) c && _);
               cbn [ball ballMoving]; discriminate].
      destruct (crossedHole (ball g) c && _); cbn [scene];
        apply colorLastAimPoint_markers; unfold blueMarkers, lastMarkerRed;
        cbn [placeGhostCross validAimPts aimPtGroup];
        match goal with
        | |- context [addTrailPoint ?x ?y ?z (scene g)] =>
            destruct (addTrailPoint_markers x y z (scene g)) as [E1 E2];
            rewrite ?E1, ?E2; assumption
        end.
    + destruct (withinHole (ball g)); cbn [withBall];
        (split; [exact Hv | intros _; exact Hred]).
  - destruct (Rltb _ 0.02 && negb (ballAirborne (ball g))).
    + split; [|cbn [ball ballMoving]; discriminate].
      cbn [scene]. now apply colorLastAimPoint_markers.
    + apply (markers_ok_same g); cbn [withScene scene ball];
        try apply addTrailPoint_markers; auto. split; [exact Hv | now intros _].
Qed.

Lemma updatePhysics_markers_ok (dt : R) (g : Game) :
  markers_ok g -> markers_ok (updatePhysics dt g).
Proof.
  intros H. destruct (ballMoving (ball g)) eqn:Hmov.
  - destruct (integrate dt g) as [g1 c] eqn:Hint.
    destruct (updatePhysics_moving dt g g1 c Hmov Hint) as [Hb Hs].
    pose proof (integrate_frame dt g) as Hf. rewrite Hint in Hf. cbn [fst] in Hf.
    destruct Hf as (_ & _ & _ & F4 & F5 & _).
    assert (H1 : markers_ok g1).
    { apply (markers_ok_same g); try (now rewrite F4); auto. }
    assert (Hm1 : ballMoving (ball g1) = true) by now rewrite F5.
    pose proof (holeCheck_markers_ok c g1 Hm1 H1) as [A B].
    unfold markers_ok. rewrite Hb, Hs. split; assumption.
  - now rewrite (updatePhysics_not_moving dt g Hmov).
Qed.

Lemma lastMarkerRed_snoc (sc : Scene) (l : list (Vec3 * bool)) (pos : Vec3) :
  aimPtGroup sc = l ++ [(pos, false)] -> lastMarkerRed sc.
Proof.
  intros E. unfold lastMarkerRed. rewrite E, rev_app_distr. exact I.
Qed.

Lemma shoot_markers_ok (g : Game) : markers_ok g -> markers_ok (shoot g).
Proof.
  intros [Hv Hred]. unfold shoot. cbv zeta.
  destruct (Rltb _ 1e-6); [split; assumption|].
  set (sc1 := match currentTrailLine (scene g) with
              | Some (_ :: _) => scene g
              | _ => addTrailPoint (v_x (ballPos (ball g))) (v_y (ballPos (ball g)))
                                   (v_z (ballPos (ball g))) (scene g)
              end).
  assert (E1 : aimPtGroup sc1 = aimPtGroup (scene g)
               /\ validAimPts sc1 = validAimPts (scene g)).
  { unfold sc1. destruct (currentTrailLine (scene g)) as [[|p l]|];
      try apply addTrailPoint_markers; split; reflexivity. }
  destruct E1 as [Ea Ev].
  unfold markers_ok. cbn [scene ball ballMoving].
  split.
  - unfold addAimPointMarker, blueMarkers. cbn [validAimPts aimPtGroup].
    rewrite blue_snoc, app_nil_r, Ea, Ev. exact Hv.
  - intros _. eapply lastMarkerRed_snoc. unfold addAimPointMarker.
    cbn [aimPtGroup]. reflexivity.
Qed.

Lemma resetBall_markers_ok (nt : bool) (src : nat -> R) (a : App) :
  markers_ok (game a) -> markers_ok (game (resetBall nt src a)).
Proof.
  intros [Hv _]. unfold resetBall. cbv zeta. cbn [game].
  destruct nt; unfold markers_ok, blueMarkers in *;
    cbn [scene ball ballMoving validAimPts aimPtGroup filter map];
    (split; [auto | discriminate]).
Qed.

(** The steps that leave the ball flags and the scene alone. *)
Lemma markers_ok_controls (g g' : Game) :
  scene g' = scene g -> ballMoving (ball g') = ballMoving (ball g) ->
  markers_ok g -> markers_ok g'.
Proof.
  intros Es Em. apply markers_ok_same; rewrite ?Es, ?Em; auto.
Qed.

Lemma updateBallOnCircle_game (a : App) :
  scene (game (updateBallOnCircle a)) = scene (game a)
  /\ ballMoving (ball (game (updateBallOnCircle a))) = ballMoving (ball (game a))
  /\ ballOnCircle (ball (game (updateBallOnCircle a))) = ballOnCircle (ball (game a))
  /\ terrain (game (updateBallOnCircle a)) = terrain (game a)
  /\ controls (game (updateBallOnCircle a)) = controls (game a)
  /\ shot (game (updateBallOnCircle a)) = shot (game a).
Proof. unfold updateBallOnCircle. cbv zeta. repeat split; reflexivity. Qed.

Lemma placeOnCircle_game (r : R) (a : App) :
  scene (game (updateBallOnCircle (setRadius r a))) = scene (game a)
  /\ ballMoving (ball (game (updateBallOnCircle (setRadius r a))))
     = ballMoving (ball (game a)).
Proof. unfold updateBallOnCircle, setRadius. cbv zeta. split; reflexivity. Qed.

Lemma updateAim_game (origin dir : Vec3) (g : Game) :
  scene (updateAim origin dir g) = scene g
  /\ ball (updateAim origin dir g) = ball g
  /\ terrain (updateAim origin dir g) = terrain g
  /\ shot (updateAim origin dir g) = shot g
  /\ angleDeg (controls (updateAim origin dir g)) = angleDeg (controls g)
  /\ stimpM (controls (updateAim origin dir g)) = stimpM (controls g)
  /\ launchAngleDeg (controls (updateAim origin dir g)) = launchAngleDeg (controls g).
Proof.
  unfold updateAim. destruct (Rgtb _ 1e-10); [|repeat split; reflexivity].
  cbv zeta. destruct (Rgtb _ 0); repeat split; reflexivity.
Qed.

Ltac key_cases :=
  match goal with
  | |- context [if ?c then _ else _] => destruct c; [|assumption]
  end.

Lemma keydown_markers_ok (src : nat -> R) (e : KeyEvent) (a : App) :
  markers_ok (game a) -> markers_ok (game (keydown src e a)).
Proof.
  unfold keydown. intros H0.
  refine (inSequence_preserves (fun a => markers_ok (game a)) _ _ a H0).
  clear a H0. repeat apply Forall_cons; try apply Forall_nil; intros a H.
  - unfold onSpace. key_cases. now apply shoot_markers_ok.
  - unfold onX. key_cases. revert H. now apply markers_ok_controls.
  - unfold onY. key_cases. revert H. now apply markers_ok_controls.
  - unfold onH. key_cases. exact H.
  - unfold onF. key_cases. exact H.
  - unfold onB. key_cases. exact H.
  - unfold onR. key_cases. now apply resetBall_markers_ok.
  - unfold on1. key_cases. revert H.
    apply markers_ok_controls; apply placeOnCircle_game.
  - unfold on2. key_cases. revert H.
    apply markers_ok_controls; apply placeOnCircle_game.
  - unfold on3. key_cases. revert H. now apply markers_ok_controls.
  - unfold on4. key_cases. revert H. now apply markers_ok_controls.
  - unfold onZ. key_cases. exact H.
  - unfold onU. key_cases. exact H.
Qed.

Lemma heldKeys_game (held : String.string -> bool) (a : App) :
  scene (game (heldKeys held a)) = scene (game a)
  /\ ballMoving (ball (game (heldKeys held a))) = ballMoving (ball (game a))
  /\ ballOnCircle (ball (game (heldKeys held a))) = ballOnCircle (ball (game a))
  /\ shot (game (heldKeys held a)) = shot (game a)
  /\ lastTime (heldKeys held a) = lastTime a.
Proof.
  unfold heldKeys.
  set (g' := inSequence _ (game a)).
  assert (Hg : scene g' = scene (game a) /\ ball g' = ball (game a)
               /\ shot g' = shot (game a)).
  { unfold g'.
    refine (inSequence_preserves
             (fun g => scene g = scene (game a) /\ ball g = ball (game a)
                       /\ shot g = shot (game a)) _ _ (game a) _); [|auto].
    repeat apply Forall_cons; try apply Forall_nil; intros g H;
      [unfold heldUp | unfold heldDown | unfold heldQ | unfold heldW];
      key_cases; exact H. }
  destruct Hg as (Hs & Hb & Hsh).
  unfold heldArrows. cbn [game withGame].
  destruct (negb (ballMoving (ball g')) && ballOnCircle (ball g'));
    [|cbn [game withGame lastTime]; rewrite Hs, Hb, Hsh; repeat split; reflexivity].
  cbv zeta.
  repeat match goal with
  | |- context [if held ?k then _ else _] => destruct (held k)
  end;
    unfold turnOnCircle, updateBallOnCircle; cbv zeta;
    cbn [game withGame setBallPos withBall scene ball ballMoving ballOnCircle shot lastTime];
    rewrite ?Hs, ?Hb, ?Hsh; repeat split; reflexivity.
Qed.

Lemma animate_markers_ok (now : R) (held : String.string -> bool) (origin dir : Vec3)
    (a : App) :
  markers_ok (game a) -> markers_ok (game (animate now held origin dir a)).
Proof.
  intros H. unfold animate. cbv zeta. cbn [game withGame].
  set (a1 := heldKeys held _).
  assert (H1 : markers_ok (game a1)).
  { destruct (heldKeys_game held
        (mkApp (game a) (ballAngle a) (lastCircleAngle a) (ballCircleRadius a)
               (fov a) (showHelp a) (flowMode a) now)) as (Es & Em & _).
    fold a1 in Es, Em. cbn [game] in Es, Em.
    revert H. now apply markers_ok_controls. }
  apply (updatePhysics_markers_ok (Rmin ((now - lastTime a) / 1000) (1 / 30))) in H1.
  revert H1.
  destruct (updateAim_game origin dir
              (updatePhysics (Rmin ((now - lastTime a) / 1000) (1 / 30)) (game a1)))
    as (Es & Eb & _).
  apply markers_ok_controls; [exact Es | now rewrite Eb].
Qed.

Lemma handle_markers_ok (a : App) (ev : Event) :
  markers_ok (game a) -> markers_ok (game (handle a ev)).
Proof.
  intros H. destruct ev as [src e | now held origin dir | | src b | v | v | v | v | n];
    cbn [handle].
  - now apply keydown_markers_ok.
  - now apply animate_markers_ok.
  - unfold shootButton. key_cases. now apply shoot_markers_ok.
  - destruct b; cbn [actionButton]; try (now apply resetBall_markers_ok); exact H.
  - revert H. now apply markers_ok_controls.
  - revert H. now apply markers_ok_controls.
  - revert H. now apply markers_ok_controls.
  - unfold slideDist.
    destruct (ballMoving (ball (game a)) || negb (ballOnCircle (ball (game a))));
      [exact H|].
    revert H. apply markers_ok_controls; apply placeOnCircle_game.
  - revert H. now apply markers_ok_controls.
Qed.

(** X22.  The valid aim points are the blue markers: in every state
    reached from the initial one by key presses, frames, buttons and
    sliders, the list of valid aim points is the list of the positions of
    the blue aim-point markers, in the order of the markers, and while the
    ball moves the marker of its shot is still red. *)
Theorem valid_points_are_blue_markers (src : nat -> R) (now : R) (evs : list Event) :
  let g := game (run evs (initialApp src now)) in
  validAimPts (scene g) = blueMarkers (scene g)
  /\ (ballMoving (ball g) = true -> lastMarkerRed (scene g)).
Proof.
  apply (run_preserves_all (fun a => markers_ok (game a))).
  - intros a ev. apply handle_markers_ok.
  - split; [reflexivity | discriminate].
Qed.

(** ** The ball on its circle *)

Lemma shoot_cases (g : Game) :
  shoot g = g
  \/ (ballOnCircle (ball (shoot g)) = false
      /\ terrain (shoot g) = terrain g /\ controls (shoot g) = controls g).
Proof.
  unfold shoot. cbv zeta. destruct (Rltb _ 1e-6); [now left|].
  right. repeat split; reflexivity.
Qed.

Lemma on_circle_ok_same (a a' : App) :
  ball (game a') = ball (game a) -> ballCircleRadius a' = ballCircleRadius a ->
  ballAngle a' = ballAngle a -> on_circle_ok a -> on_circle_ok a'.
Proof.
  intros Eb Er Ea H. unfold on_circle_ok in *. cbv zeta in *.
  rewrite Eb, Er, Ea. exact H.
Qed.

Lemma on_circle_ok_off (a : App) :
  ballOnCircle (ball (game a)) = false -> on_circle_ok a.
Proof. intros H. unfold on_circle_ok. cbv zeta. rewrite H. discriminate. Qed.

Lemma on_circle_ok_placed (a : App) :
  ballMoving (ball (game a)) = false -> on_circle_ok (updateBallOnCircle a).
Proof.
  intros Hm. unfold on_circle_ok, updateBallOnCircle. cbv zeta.
  cbn [game withGame setBallPos withBall ball ballOnCircle ballMoving ballPos v_x v_z
       ballCircleRadius ballAngle].
  intros _. split; [exact Hm | split; reflexivity].
Qed.

Lemma shoot_on_circle_ok (a : App) :
  on_circle_ok a -> on_circle_ok (withGame a (shoot (game a))).
Proof.
  intros H. destruct (shoot_cases (game a)) as [E | [E _]].
  - rewrite E. revert H. now apply on_circle_ok_same.
  - now apply on_circle_ok_off.
Qed.

Lemma resetBall_on_circle_ok (nt : bool) (src : nat -> R) (a : App) :
  on_circle_ok (resetBall nt src a).
Proof.
  unfold on_circle_ok, resetBall. cbv zeta.
  destruct nt; cbn [game ball ballOnCircle ballMoving ballPos v_x v_z
                    ballCircleRadius ballAngle];
    intros _; repeat split; reflexivity.
Qed.

Ltac guard_cases H :=
  match goal with
  | |- context [if ?c then _ else _] => destruct c eqn:H; [|assumption]
  end.

Lemma not_moving_of_guard (k : bool) (b : Ball) :
  k && negb (ballMoving b) && ballOnCircle b = true -> ballMoving b = false.
Proof.
  intros H. apply andb_prop in H. destruct H as [H _].
  apply andb_prop in H. destruct H as [_ H]. now apply negb_true_iff in H.
Qed.

Lemma keydown_on_circle_ok (src : nat -> R) (e : KeyEvent) (a : App) :
  on_circle_ok a -> on_circle_ok (keydown src e a).
Proof.
  unfold keydown. intros H0.
  refine (inSequence_preserves on_circle_ok _ _ a H0).
  clear a H0. repeat apply Forall_cons; try apply Forall_nil; intros a H.
  - unfold onSpace. key_cases. now apply shoot_on_circle_ok.
  - unfold onX. key_cases. revert H. now apply on_circle_ok_same.
  - unfold onY. key_cases. revert H. now apply on_circle_ok_same.
  - unfold onH. key_cases. revert H. now apply on_circle_ok_same.
  - unfold onF. key_cases. revert H. now apply on_circle_ok_same.
  - unfold onB. key_cases. revert H. now apply on_circle_ok_same.
  - unfold onR. key_cases. apply resetBall_on_circle_ok.
  - unfold on1. guard_cases Hc. apply on_circle_ok_placed.
    exact (not_moving_of_guard _ _ Hc).
  - unfold on2. guard_cases Hc. apply on_circle_ok_placed.
    exact (not_moving_of_guard _ _ Hc).
  - unfold on3. key_cases. revert H. now apply on_circle_ok_same.
  - unfold on4. key_cases. revert H. now apply on_circle_ok_same.
  - unfold onZ. key_cases. revert H. now apply on_circle_ok_same.
  - unfold onU. key_cases. revert H. now apply on_circle_ok_same.
Qed.

Lemma heldGame_ball (held : String.string -> bool) (g : Game) :
  let g' := inSequence [heldUp held; heldDown held; heldQ held; heldW held] g in
  ball g' = ball g /\ scene g' = scene g /\ shot g' = shot g.
Proof.
  cbv zeta.
  refine (inSequence_preserves
            (fun g' => ball g' = ball g /\ scene g' = scene g /\ shot g' = shot g)
            _ _ g _); [|auto].
  repeat apply Forall_cons; try apply Forall_nil; intros g' H;
    [unfold heldUp | unfold heldDown | unfold heldQ | unfold heldW];
    key_cases; exact H.
Qed.

Lemma heldArrows_on_circle_ok (held : String.string -> bool) (a : App) :
  on_circle_ok a -> on_circle_ok (heldArrows held a).
Proof.
  intros H. unfold heldArrows.
  destruct (negb (ballMoving (ball (game a))) && ballOnCircle (ball (game a))) eqn:Hc;
    [|exact H].
  apply andb_prop in Hc. destruct Hc as [Hm _]. apply negb_true_iff in Hm.
  cbv zeta.
  match goal with
  | |- on_circle_ok (if ?br then turnOnCircle _ ?a1 else ?a1) =>
      assert (H1 : on_circle_ok a1 /\ ballMoving (ball (game a1)) = false);
      [|destruct H1 as [H1 Hm1]; destruct br;
        [apply on_circle_ok_placed; exact Hm1 | exact H1]]
  end.
  destruct (held _); [|now split].
  split; [apply on_circle_ok_placed; exact Hm | exact Hm].
Qed.

Lemma updatePhysics_on_circle_ok (dt : R) (a : App) :
  on_circle_ok a -> on_circle_ok (withGame a (updatePhysics dt (game a))).
Proof.
  intros H. destruct (ballOnCircle (ball (game a))) eqn:Hc.
  - destruct (H Hc) as (Hm & _).
    rewrite (updatePhysics_not_moving dt (game a) Hm).
    revert H. now apply on_circle_ok_same.
  - apply on_circle_ok_off. cbn [game withGame].
    destruct (updatePhysics_keeps dt (game a)) as (_ & _ & _ & E & _).
    cbv zeta in E. now rewrite E.
Qed.

Lemma animate_on_circle_ok (now : R) (held : String.string -> bool) (origin dir : Vec3)
    (a : App) :
  on_circle_ok a -> on_circle_ok (animate now held origin dir a).
Proof.
  intros H. unfold animate. cbv zeta.
  set (a0 := mkApp (game a) (ballAngle a) (lastCircleAngle a) (ballCircleRadius a)
                   (fov a) (showHelp a) (flowMode a) now).
  assert (H0 : on_circle_ok a0) by (revert H; now apply on_circle_ok_same).
  assert (H1 : on_circle_ok (heldKeys held a0)).
  { unfold heldKeys. apply heldArrows_on_circle_ok.
    revert H0. apply on_circle_ok_same; try reflexivity.
    cbn [game withGame]. apply heldGame_ball. }
  set (a1 := heldKeys held a0) in *.
  pose proof (updatePhysics_on_circle_ok (Rmin ((now - lastTime a) / 1000) (1 / 30)) a1 H1)
    as H2.
  revert H2. apply on_circle_ok_same; try reflexivity.
  cbn [game withGame]. apply updateAim_game.
Qed.

Lemma handle_on_circle_ok (a : App) (ev : Event) :
  on_circle_ok a -> on_circle_ok (handle a ev).
Proof.
  intros H. destruct ev as [src e | now held origin dir | | src b | v | v | v | v | n];
    cbn [handle].
  - now apply keydown_on_circle_ok.
  - now apply animate_on_circle_ok.
  - unfold shootButton. key_cases. now apply shoot_on_circle_ok.
  - destruct b; cbn [actionButton]; try apply resetBall_on_circle_ok;
      revert H; now apply on_circle_ok_same.
  - revert H. now apply on_circle_ok_same.
  - revert H. now apply on_circle_ok_same.
  - revert H. now apply on_circle_ok_same.
  - unfold slideDist.
    destruct (ballMoving (ball (game a)) || negb (ballOnCircle (ball (game a)))) eqn:Hc;
      [exact H|].
    apply on_circle_ok_placed. apply orb_false_elim in Hc. now destruct Hc.
  - revert H. now apply on_circle_ok_same.
Qed.

(** X23.  A ball on its circle is at rest on the circle: in every state
    reached from the initial one by key presses, frames, buttons and
    sliders, a ball that is flagged on its spawn circle is not moving and
    stands at the point of the circle of radius [ballCircleRadius] and
    angle [ballAngle] about the hole. *)
Theorem ball_on_circle_is_at_rest (src : nat -> R) (now : R) (evs : list Event) :
  let a := run evs (initialApp src now) in
  let b := ball (game a) in
  ballOnCircle b = true ->
  ballMoving b = false
  /\ v_x (ballPos b) = ballCircleRadius a * cos (ballAngle a)
  /\ v_z (ballPos b) = ballCircleRadius a * sin (ballAngle a).
Proof.
  apply (run_preserves_all on_circle_ok).
  - intros a ev. apply handle_on_circle_ok.
  - unfold on_circle_ok, initialApp. cbv zeta.
    cbn [game ball ballOnCircle ballMoving ballPos v_x v_z ballCircleRadius ballAngle].
    intros _. split; [reflexivity|].
    replace 0.0 with 0 by lra. rewrite cos_0, sin_0. split; lra.
Qed.

Lemma ball_on_circle_is_at_rest_witness :
  ballMoving (ball (game (run [ShootButton; ActionButton (fun _ => 0.5) BtnReset]
                              (initialApp (fun _ => 0.5) 0)))) = false.
Proof.
  refine (proj1 (ball_on_circle_is_at_rest (fun _ => 0.5) 0
                   [ShootButton; ActionButton (fun _ => 0.5) BtnReset] _)).
  reflexivity.
Defined.

(** ** The ranges of the settings *)

Lemma settings_same (a a' : App) :
  controls (game a') = controls (game a) ->
  TRUE_ROLL_STRENGTH (terrain (game a')) = TRUE_ROLL_STRENGTH (terrain (game a)) ->
  ballCircleRadius a' = ballCircleRadius a -> fov a' = fov a ->
  flowMode a' = flowMode a ->
  settings_in_range a -> settings_in_range a'.
Proof.
  intros Ec Et Er Ef Em H. unfold settings_in_range in *. cbv zeta in *.
  rewrite Ec, Et, Er, Ef, Em. exact H.
Qed.

Ltac clamp :=
  unfold Rmin, Rmax; repeat match goal with
  | |- context [Rle_dec ?x ?y] => destruct (Rle_dec x y)
  end; lra.

Ltac range_step H :=
  unfold settings_in_range in *; cbv zeta in *;
  cbn [game withGame setStimp setLaunchAngle setAngle setTerrain setControls setFov
       setRadius setTrueRollStrength getTrueRollStrength
       controls terrain stimpM launchAngleDeg angleDeg TRUE_ROLL_STRENGTH
       ballCircleRadius fov flowMode] in *;
  unfold getTrueRollStrength, LAUNCH_ANGLE_MIN, LAUNCH_ANGLE_MAX, LAUNCH_ANGLE_STEP,
         ANGLE_MAX_DEG, ANGLE_STEP_DEG, BALL_CIRCLE_MIN, BALL_CIRCLE_MAX, BALL_CIRCLE_STEP,
         ZOOM_MIN, ZOOM_MAX, ZOOM_STEP in *;
  destruct H as (H1 & H2 & H3 & H4 & H5 & H6 & H7);
  repeat split; try assumption; try lia; try clamp.

Lemma build_keeps_strength (seed : option Z) (src : nat -> R) (st : TerrainState) :
  TRUE_ROLL_STRENGTH (buildTrueRollGrids seed src st) = TRUE_ROLL_STRENGTH st.
Proof.
  unfold buildTrueRollGrids. destruct (buildGrids _) as [[ax ay] h]. reflexivity.
Qed.

Lemma resetBall_settings (nt : bool) (src : nat -> R) (a : App) :
  settings_in_range a -> settings_in_range (resetBall nt src a).
Proof.
  apply settings_same; unfold resetBall; cbv zeta; destruct nt;
    cbn [game controls terrain ballCircleRadius fov flowMode];
    rewrite ?build_keeps_strength; reflexivity.
Qed.

Lemma shoot_settings (a : App) :
  settings_in_range a -> settings_in_range (withGame a (shoot (game a))).
Proof.
  apply settings_same; cbn [game withGame]; try reflexivity;
    destruct (shoot_cases (game a)) as [E | (_ & Et & Ec)];
    rewrite ?E, ?Et, ?Ec; reflexivity.
Qed.

Lemma circle_settings (r : R) (a : App) :
  settings_in_range (setRadius r a) ->
  settings_in_range (updateBallOnCircle (setRadius r a)).
Proof. apply settings_same; reflexivity. Qed.

Lemma keydown_settings (src : nat -> R) (e : KeyEvent) (a : App) :
  settings_in_range a -> settings_in_range (keydown src e a).
Proof.
  unfold keydown. intros H0.
  refine (inSequence_preserves settings_in_range _ _ a H0).
  clear a H0. repeat apply Forall_cons; try apply Forall_nil; intros a H.
  - unfold onSpace. key_cases. now apply shoot_settings.
  - unfold onX. key_cases. range_step H.
  - unfold onY. key_cases. range_step H.
  - unfold onH. key_cases. exact H.
  - unfold onF. key_cases. unfold cycleFlowMode. range_step H.
    apply Nat.mod_upper_bound. lia.
  - unfold onB. key_cases. unfold resetCamera, ZOOM_DEFAULT. range_step H.
  - unfold onR. key_cases. now apply resetBall_settings.
  - unfold on1. key_cases. apply circle_settings. range_step H.
  - unfold on2. key_cases. apply circle_settings. range_step H.
  - unfold on3. key_cases. range_step H.
  - unfold on4. key_cases. range_step H.
  - unfold onZ. key_cases. range_step H.
  - unfold onU. key_cases. range_step H.
Qed.

Lemma heldGame_settings (held : String.string -> bool) (a : App) :
  settings_in_range a ->
  settings_in_range
    (withGame a (inSequence [heldUp held; heldDown held; heldQ held; heldW held] (game a))).
Proof.
  intros H0.
  refine (inSequence_preserves (fun g => settings_in_range (withGame a g)) _ _ (game a) _).
  - repeat apply Forall_cons; try apply Forall_nil; intros g H;
      [unfold heldUp | unfold heldDown | unfold heldQ | unfold heldW];
      key_cases; range_step H.
  - revert H0. now apply settings_same.
Qed.

Lemma heldArrows_settings (held : String.string -> bool) (a : App) :
  settings_in_range a -> settings_in_range (heldArrows held a).
Proof.
  intros H. unfold heldArrows.
  destruct (negb (ballMoving (ball (game a))) && ballOnCircle (ball (game a)));
    [|exact H].
  cbv zeta. revert H. apply settings_same;
    repeat match goal with
    | |- context [if held ?k then _ else _] => destruct (held k)
    end; reflexivity.
Qed.

Lemma animate_settings (now : R) (held : String.string -> bool) (origin dir : Vec3)
    (a : App) :
  settings_in_range a -> settings_in_range (animate now held origin dir a).
Proof.
  intros H. unfold animate. cbv zeta.
  set (a0 := mkApp (game a) (ballAngle a) (lastCircleAngle a) (ballCircleRadius a)
                   (fov a) (showHelp a) (flowMode a) now).
  assert (H0 : settings_in_range a0) by (revert H; now apply settings_same).
  assert (H1 : settings_in_range (heldKeys held a0)).
  { unfold heldKeys. now apply heldArrows_settings, heldGame_settings. }
  set (a1 := heldKeys held a0) in *.
  set (dt := Rmin ((now - lastTime a) / 1000) (1 / 30)).
  destruct (updatePhysics_keeps dt (game a1)) as (_ & _ & _ & _ & _ & Et & Ec).
  cbv zeta in Et, Ec.
  destruct (updateAim_game origin dir (updatePhysics dt (game a1)))
    as (_ & _ & Et' & _ & Ea & Es & El).
  unfold settings_in_range in *. cbv zeta in *. cbn [game withGame ballCircleRadius fov flowMode].
  rewrite Ea, Es, El, Et', Et, Ec. exact H1.
Qed.

Lemma handle_settings (a : App) (ev : Event) :
  notSlider ev = true -> settings_in_range a -> settings_in_range (handle a ev).
Proof.
  intros Hns H.
  destruct ev as [src e | now held origin dir | | src b | v | v | v | v | n];
    cbn [handle]; try discriminate.
  - now apply keydown_settings.
  - now apply animate_settings.
  - unfold shootButton. key_cases. now apply shoot_settings.
  - destruct b; cbn [actionButton]; try (now apply resetBall_settings).
    + unfold cycleFlowMode. range_step H. apply Nat.mod_upper_bound. lia.
    + unfold resetCamera, ZOOM_DEFAULT. range_step H.
Qed.

(** X24.  The keys keep the settings in range: in every state reached
    from the initial one by key presses, frames and buttons (no slider),
    the stimp is within [1, 6], the launch angle within [-4, 15], the
    slope angle within [-5, 5], the true-roll strength within [0, 20], the
    start distance within [1, 5.5], the field of view within [1, 90], and
    the flow mode is below 4. *)
Theorem keys_keep_settings_in_range (src : nat -> R) (now : R) (evs : list Event) :
  forallb notSlider evs = true ->
  let a := run evs (initialApp src now) in
  let c := controls (game a) in
  1 <= stimpM c <= 6
  /\ -4 <= launchAngleDeg c <= 15
  /\ -5 <= angleDeg c <= 5
  /\ 0 <= TRUE_ROLL_STRENGTH (terrain (game a)) <= 20
  /\ 1 <= ballCircleRadius a <= 5.5
  /\ 1 <= fov a <= 90
  /\ (flowMode a < 4)%nat.
Proof.
  intros Hns a c.
  assert (H : settings_in_range a).
  { unfold a. apply (run_preserves settings_in_range notSlider); [|exact Hns|].
    - intros a0 ev. apply handle_settings.
    - unfold settings_in_range, initialApp. cbv zeta.
      cbn [game controls terrain stimpM launchAngleDeg angleDeg ballCircleRadius fov
           flowMode].
      rewrite build_keeps_strength.
      unfold initialTerrain, STIMP_DEFAULT, LAUNCH_ANGLE_DEFAULT, LAUNCH_ANGLE_MIN,
        LAUNCH_ANGLE_MAX, ANGLE_MAX_DEG, BALL_CIRCLE_MIN, BALL_CIRCLE_MAX,
        BALL_CIRCLE_RADIUS_DEFAULT, ZOOM_MIN, ZOOM_MAX, ZOOM_DEFAULT.
      cbn [TRUE_ROLL_STRENGTH]. repeat split; try lra; lia. }
  unfold settings_in_range in H. cbv zeta in H. fold c in H.
  unfold LAUNCH_ANGLE_MIN, LAUNCH_ANGLE_MAX, ANGLE_MAX_DEG, BALL_CIRCLE_MIN,
    BALL_CIRCLE_MAX, ZOOM_MIN, ZOOM_MAX in H.
  destruct H as (H1 & H2 & H3 & H4 & H5 & H6 & H7).
  repeat split; try lra; assumption.
Qed.

Lemma keys_keep_settings_in_range_witness :
  1 <= fov (run [ActionButton (fun _ => 0.5) BtnResetCam] (initialApp (fun _ => 0.5) 0)) <= 90.
Proof.
  refine (proj1 (proj2 (proj2 (proj2 (proj2 (proj2
    (keys_keep_settings_in_range (fun _ => 0.5) 0
       [ActionButton (fun _ => 0.5) BtnResetCam] _))))))).
  reflexivity.
Defined.

(** ** Keys while the ball moves *)

(** X25.  While the ball moves the keys leave it alone: a key press
    other than a fresh press of r or R changes neither the ball nor the
    bookkeeping of the shot nor the scene nor the terrain grids; in
    particular the space bar does not shoot again. *)
Theorem keys_leave_moving_ball_alone (src : nat -> R) (e : KeyEvent) (a : App) :
  ballMoving (ball (game a)) = true ->
  isResetKey e = false ->
  let a' := keydown src e a in
  ball (game a') = ball (game a)
  /\ shot (game a') = shot (game a)
  /\ scene (game a') = scene (game a)
  /\ terrain (game a') = terrain (game a).
Proof.
  intros Hmov Hr a'. unfold a', keydown.
  refine (inSequence_preserves
            (fun x => ball (game x) = ball (game a) /\ shot (game x) = shot (game a)
                      /\ scene (game x) = scene (game a)
                      /\ terrain (game x) = terrain (game a)) _ _ a _);
    [|repeat split; reflexivity].
  repeat apply Forall_cons; try apply Forall_nil; intros x (Hb & Hs & Hc & Ht);
    assert (Hm : ballMoving (ball (game x)) = true) by (now rewrite Hb).
  - unfold onSpace. rewrite Hm, andb_false_r. cbn [negb andb]. auto.
  - unfold onX. destruct (_ || _); auto.
  - unfold onY. destruct (_ || _); auto.
  - unfold onH. destruct (_ || _); auto.
  - unfold onF. destruct (_ || _); auto.
  - unfold onB. destruct (_ || _); auto.
  - unfold onR. rewrite Hr. auto.
  - unfold on1. rewrite Hm, andb_false_r. cbn [negb andb]. auto.
  - unfold on2. rewrite Hm, andb_false_r. cbn [negb andb]. auto.
  - unfold on3. destruct (isKey _ _); auto.
  - unfold on4. destruct (isKey _ _); auto.
  - unfold onZ. destruct (_ || _); auto.
  - unfold onU. destruct (_ || _); auto.
Qed.

Lemma keys_leave_moving_ball_alone_witness :
  ball (game (keydown (fun _ => 0.5) spaceKey
                      (mkApp (rollingGame 1 1) 0 0 3 45 true 0 0)))
  = rollingBall 1 1.
Proof.
  exact (proj1 (keys_leave_moving_ball_alone (fun _ => 0.5) spaceKey
                  (mkApp (rollingGame 1 1) 0 0 3 45 true 0 0) eq_refl eq_refl)).
Defined.

(** ** Reset *)

Lemma circle_distance (r t : R) : hypot (r * cos t) (r * sin t) = Rabs r.
Proof.
  unfold hypot.
  replace (r * cos t * (r * cos t) + r * sin t * (r * sin t))
    with (r * r * (Rsqr (sin t) + Rsqr (cos t))) by (unfold Rsqr; ring).
  rewrite sin2_cos2, Rmult_1_r. apply sqrt_Rsqr_abs.
Qed.

Lemma runPhysics_at_rest (dts : list R) (g : Game) :
  ballMoving (ball g) = false -> runPhysics dts g = g.
Proof.
  intros H. unfold runPhysics. induction dts as [|dt dts IH]; [reflexivity|].
  cbn [fold_left]. unfold updatePhysics at 2. rewrite H. exact IH.
Qed.

(** X26.  A reset puts the ball back at rest on the circle: at the
    distance of the circle radius from the hole, in the direction of the
    last launch position, with no velocity, no break points and no ghost
    marker, and the physics step leaves it there.  Its height is the
    radius above the terrain that was current when the reset began, also
    when the reset builds new terrain grids. *)
Theorem reset_puts_ball_on_circle (newTerrain : bool) (src : nat -> R) (a : App) :
  let a' := resetBall newTerrain src a in
  let b := ball (game a') in
  hypot (v_x (ballPos b)) (v_z (ballPos b)) = Rabs (ballCircleRadius a)
  /\ v_x (ballPos b) = ballCircleRadius a * cos (lastCircleAngle a)
  /\ v_z (ballPos b) = ballCircleRadius a * sin (lastCircleAngle a)
  /\ v_y (ballPos b)
     = getTerrainHeight (terrain (game a)) (v_x (ballPos b)) (v_z (ballPos b))
       + BALL_RADIUS_M
  /\ ballVel b = mkVec3 0 0 0
  /\ ballOnCircle b = true /\ inHole b = false
  /\ breakPoints (shot (game a')) = []
  /\ ghostGroup (scene (game a')) = None
  /\ ballAngle a' = lastCircleAngle a
  /\ (forall dts, runPhysics dts (game a') = game a').
Proof.
  intros a' b.
  assert (Hb : b = mkBall (mkVec3 (ballCircleRadius a * cos (lastCircleAngle a))
                             (getTerrainHeight (terrain (game a))
                                (ballCircleRadius a * cos (lastCircleAngle a))
                                (ballCircleRadius a * sin (lastCircleAngle a))
                              + BALL_RADIUS_M)
                             (ballCircleRadius a * sin (lastCircleAngle a)))
                          (mkVec3 0 0 0) false true false false 0 0.0 0.0 0.0).
  { unfold b, a', resetBall. destruct newTerrain; reflexivity. }
  rewrite Hb. cbn [ballPos v_x v_y v_z ballVel ballOnCircle inHole].
  split; [apply circle_distance|].
  repeat (split; [reflexivity|]).
  split; [unfold a', resetBall; destruct newTerrain; reflexivity|].
  split; [unfold a', resetBall; destruct newTerrain; reflexivity|].
  split; [reflexivity|].
  intros dts. apply runPhysics_at_rest. fold b. rewrite Hb. reflexivity.
Qed.

(** * The overlays *)

(** ** Streamlines *)

Lemma unit_step (gx gz s : R) :
  0 < hypot gx gz -> 0 <= s ->
  hypot (gx / hypot gx gz * s) (gz / hypot gx gz * s) = s.
Proof.
  intros Hm Hs. pose proof (unit_axis gx gz Hm) as Hu.
  set (m := hypot gx gz) in *. unfold hypot at 1.
  replace (gx / m * s * (gx / m * s) + gz / m * s * (gz / m * s))
    with (s * s * (gx / m * (gx / m) + gz / m * (gz / m))) by ring.
  rewrite Hu, Rmult_1_r. now apply sqrt_square.
Qed.

Lemma adjacentPairs_cons {A : Type} (a b : A) (l : list A) :
  adjacentPairs (a :: b :: l) = (a, b) :: adjacentPairs (b :: l).
Proof. reflexivity. Qed.

Lemma streamLoop_spec (tr : TerrainState) (ang : R) (n : nat) :
  forall x z points,
    last points (0, 0) = (x, z) ->
    exists ext,
      streamLoop tr ang n x z points = points ++ ext
      /\ (length ext <= n)%nat
      /\ (forall p, In p ext ->
            Rabs (fst p) <= GREEN_SIZE / 2 - 0.1 /\ Rabs (snd p) <= GREEN_SIZE / 2 - 0.1)
      /\ (forall p q, In (p, q) (adjacentPairs ((x, z) :: ext)) ->
            hypot (fst q - fst p) (snd q - snd p) = STREAM_STEP)
      /\ (forall p q, In (p, q) (adjacentPairs ext) ->
            HOLE_RADIUS_M * 1.5 <= hypot (fst p) (snd p)).
Proof.
  assert (Hnone : forall (m : nat) x z points,
    exists ext : list (R * R),
      points = points ++ ext
      /\ (length ext <= m)%nat
      /\ (forall p, In p ext ->
            Rabs (fst p) <= GREEN_SIZE / 2 - 0.1 /\ Rabs (snd p) <= GREEN_SIZE / 2 - 0.1)
      /\ (forall p q, In (p, q) (adjacentPairs ((x, z) :: ext)) ->
            hypot (fst q - fst p) (snd q - snd p) = STREAM_STEP)
      /\ (forall p q, In (p, q) (adjacentPairs ext) ->
            HOLE_RADIUS_M * 1.5 <= hypot (fst p) (snd p))).
  { intros m x z points. exists []. rewrite app_nil_r. cbn [length adjacentPairs In].
    repeat split; try lia; intros; tauto. }
  induction n as [|n IH]; intros x z points Hlast; [apply Hnone|].
  cbn [streamLoop]. cbv zeta.
  set (g := getGradientAt tr x z ang).
  set (mag := hypot (fst g) (snd g)).
  destruct (Rltb mag 0.003) eqn:Emag; [apply Hnone|].
  apply Rltb_iff_false in Emag.
  assert (Hpos : 0 < mag) by lra.
  set (x' := x + fst g / mag * STREAM_STEP).
  set (z' := z + snd g / mag * STREAM_STEP).
  assert (Hstep : hypot (x' - x) (z' - z) = STREAM_STEP).
  { unfold x', z'.
    replace (x + fst g / mag * STREAM_STEP - x) with (fst g / mag * STREAM_STEP) by ring.
    replace (z + snd g / mag * STREAM_STEP - z) with (snd g / mag * STREAM_STEP) by ring.
    apply unit_step; [exact Hpos | unfold STREAM_STEP; lra]. }
  destruct (Rgtb (Rabs x') (GREEN_SIZE / 2 - 0.1) || Rgtb (Rabs z') (GREEN_SIZE / 2 - 0.1))
    eqn:Eout; [apply Hnone|].
  apply orb_false_iff in Eout. destruct Eout as [Ex Ez].
  apply Rltb_iff_false in Ex. apply Rltb_iff_false in Ez.
  destruct (Rltb (hypot x' z') (HOLE_RADIUS_M * 1.5)) eqn:Ehole.
  - exists [(x', z')]. split; [reflexivity|]. cbn [length]. split; [lia|].
    split; [intros p [<- | []]; cbn [fst snd]; split; assumption|].
    split.
    + intros p q [E | []]. inversion E; subst. cbn [fst snd]. exact Hstep.
    + intros p q [].
  - apply Rltb_iff_false in Ehole.
    rewrite Hlast. cbn [fst snd].
    assert (Hkeep : Rgeb ((x' - x) * (x' - x) + (z' - z) * (z' - z)) STREAM_MIN_SP_SQ = true).
    { apply Rleb_true. rewrite <- hypot_sqr, Hstep. unfold STREAM_MIN_SP_SQ, STREAM_STEP. lra. }
    rewrite Hkeep.
    destruct (IH x' z' (points ++ [(x', z')]) (last_last _ _ _))
      as (ext & E & Hlen & Hin & Hsp & Hout).
    exists ((x', z') :: ext). split; [rewrite E, <- app_assoc; reflexivity|].
    cbn [length]. split; [lia|].
    split; [intros p [<- | Hp]; [cbn [fst snd]; split; assumption | now apply Hin]|].
    split.
    + intros p q. rewrite adjacentPairs_cons. intros [Epq | Hpq].
      * inversion Epq; subst. cbn [fst snd]. exact Hstep.
      * now apply Hsp.
    + intros p q Hpq. destruct ext as [|e ext']; [destruct Hpq|].
      rewrite adjacentPairs_cons in Hpq. destruct Hpq as [Epq | Hpq].
      * inversion Epq; subst. cbn [fst snd]. exact Ehole.
      * now apply (Hout p q).
Qed.

(** X27.  A streamline starts at its start point and has at most 2001
    points; every later point lies within 0.1 of the edge of the green or
    further inside; consecutive points are exactly one step of 0.04 apart,
    so that the spacing filter never drops a point; and only the last
    point can lie within one and a half hole radii of the hole. *)
Theorem streamline_is_evenly_spaced (tr : TerrainState) (ang startX startZ : R) :
  let pts := traceStreamline tr ang startX startZ in
  hd_error pts = Some (startX, startZ)
  /\ (length pts <= 2001)%nat
  /\ (forall p, In p (tl pts) -> Rabs (fst p) <= 4.9 /\ Rabs (snd p) <= 4.9)
  /\ (forall p q, In (p, q) (adjacentPairs pts) ->
        hypot (fst q - fst p) (snd q - snd p) = 0.04)
  /\ (forall p q, In (p, q) (adjacentPairs (tl pts)) ->
        HOLE_RADIUS_M * 1.5 <= hypot (fst p) (snd p)).
Proof.
  intros pts. unfold pts, traceStreamline.
  destruct (streamLoop_spec tr ang STREAM_MAX_STEPS startX startZ [(startX, startZ)] eq_refl)
    as (ext & E & Hlen & Hin & Hsp & Hout).
  rewrite E. cbn [app hd_error tl length].
  split; [reflexivity|].
  split; [unfold STREAM_MAX_STEPS in Hlen; lia|].
  split.
  - intros p Hp. destruct (Hin p Hp) as [H1 H2]. unfold GREEN_SIZE in *. split; lra.
  - split; [exact Hsp | exact Hout].
Qed.

(** ** Grid flow *)

(** What the loop over the neighbours has found after the neighbours
    [done]. *)
Lemma pickStep_fold (gx gz x z edge : R) (l : list (R * R)) :
  forall done best,
    (match best with
     | (None, None) =>
         forall m, In m done ->
           ~ (Rabs (x + fst m) <= edge + 0.001 /\ Rabs (z + snd m) <= edge + 0.001)
     | (Some d, Some t) =>
         exists n, In n done /\ t = (x + fst n, z + snd n)
           /\ d = gx * fst n + gz * snd n
           /\ Rabs (fst t) <= edge + 0.001 /\ Rabs (snd t) <= edge + 0.001
           /\ forall m, In m done ->
                Rabs (x + fst m) <= edge + 0.001 -> Rabs (z + snd m) <= edge + 0.001 ->
                gx * fst m + gz * snd m <= d
     | _ => False
     end) ->
    match fold_left (pickStep gx gz x z edge) l best with
    | (None, None) =>
        forall m, In m (done ++ l) ->
          ~ (Rabs (x + fst m) <= edge + 0.001 /\ Rabs (z + snd m) <= edge + 0.001)
    | (Some d, Some t) =>
        exists n, In n (done ++ l) /\ t = (x + fst n, z + snd n)
          /\ d = gx * fst n + gz * snd n
          /\ Rabs (fst t) <= edge + 0.001 /\ Rabs (snd t) <= edge + 0.001
          /\ forall m, In m (done ++ l) ->
               Rabs (x + fst m) <= edge + 0.001 -> Rabs (z + snd m) <= edge + 0.001 ->
               gx * fst m + gz * snd m <= d
    | _ => False
    end.
Proof.
  induction l as [|n l IH]; intros done best Hinv.
  - cbn [fold_left]. rewrite app_nil_r. exact Hinv.
  - cbn [fold_left].
    replace (done ++ n :: l) with ((done ++ [n]) ++ l)
      by (rewrite <- app_assoc; reflexivity).
    apply IH. unfold pickStep. cbv zeta.
    destruct (Rgtb (Rabs (x + fst n)) (edge + 0.001)
              || Rgtb (Rabs (z + snd n)) (edge + 0.001)) eqn:Eout.
    + (* the neighbour is outside: continue *)
      assert (Hn : ~ (Rabs (x + fst n) <= edge + 0.001 /\ Rabs (z + snd n) <= edge + 0.001)).
      { apply orb_true_iff in Eout. unfold Rgtb in Eout.
        destruct Eout as [E | E]; apply Rltb_iff in E; lra. }
      destruct best as [[d|] [t|]]; try exact Hinv.
      * destruct Hinv as (k & Hk & Et & Ed & Hx & Hz & Hmax).
        exists k. split; [apply in_or_app; now left|].
        repeat (split; [assumption|]).
        intros m Hm Hmx Hmz. apply in_app_or in Hm. destruct Hm as [Hm | [<- | []]].
        -- now apply Hmax.
        -- exfalso. apply Hn. split; assumption.
      * intros m Hm. apply in_app_or in Hm. destruct Hm as [Hm | [<- | []]].
        -- now apply Hinv.
        -- exact Hn.
    + apply orb_false_iff in Eout. unfold Rgtb in Eout. destruct Eout as [Ex Ez].
      apply Rltb_iff_false in Ex. apply Rltb_iff_false in Ez.
      destruct best as [[d|] [t|]]; cbn [fst snd]; try contradiction.
      * destruct Hinv as (k & Hk & Et & Ed & Hx & Hz & Hmax).
        destruct (Rgtb (gx * fst n + gz * snd n) d) eqn:Ebetter.
        -- unfold Rgtb in Ebetter. apply Rltb_iff in Ebetter.
           exists n. split; [apply in_or_app; right; now left|].
           split; [reflexivity|]. split; [reflexivity|]. cbn [fst snd].
           split; [exact Ex|]. split; [exact Ez|].
           intros m Hm Hmx Hmz. apply in_app_or in Hm. destruct Hm as [Hm | [<- | []]].
           ++ pose proof (Hmax m Hm Hmx Hmz). lra.
           ++ lra.
        -- unfold Rgtb in Ebetter. apply Rltb_iff_false in Ebetter.
           exists k. split; [apply in_or_app; now left|].
           repeat (split; [assumption|]).
           intros m Hm Hmx Hmz. apply in_app_or in Hm. destruct Hm as [Hm | [<- | []]].
           ++ now apply Hmax.
           ++ exact Ebetter.
      * exists n. split; [apply in_or_app; right; now left|].
        split; [reflexivity|]. split; [reflexivity|]. cbn [fst snd].
        split; [exact Ex|]. split; [exact Ez|].
        intros m Hm Hmx Hmz. apply in_app_or in Hm. destruct Hm as [Hm | [<- | []]].
        -- exfalso. apply (Hinv m Hm). split; assumption.
        -- lra.
Qed.

(** X28.  The target that [pickGridTarget] returns is a cardinal
    neighbour of the node, one grid step away and within the grid bounds;
    the gradient there has a magnitude of at least 0.01 and a positive
    component towards the target; and no other neighbour within the bounds
    is better aligned with the gradient. *)
Theorem grid_target_is_best_downhill_neighbour
    (tr : TerrainState) (ang x z sp edge : R) (t : R * R) :
  pickGridTarget tr ang x z sp edge = Some t ->
  let g := getGradientAt tr x z ang in
  0.01 <= hypot (fst g) (snd g)
  /\ exists n,
       In n [(sp, 0); (- sp, 0); (0, sp); (0, - sp)]
       /\ t = (x + fst n, z + snd n)
       /\ Rabs (fst t) <= edge + 0.001 /\ Rabs (snd t) <= edge + 0.001
       /\ 0 < fst g * fst n + snd g * snd n
       /\ forall m, In m [(sp, 0); (- sp, 0); (0, sp); (0, - sp)] ->
            Rabs (x + fst m) <= edge + 0.001 -> Rabs (z + snd m) <= edge + 0.001 ->
            fst g * fst m + snd g * snd m <= fst g * fst n + snd g * snd n.
Proof.
  unfold pickGridTarget. cbv zeta. intros H.
  set (g := getGradientAt tr x z ang) in *.
  destruct (Rltb (hypot (fst g) (snd g)) 0.01) eqn:Emag; [discriminate|].
  apply Rltb_iff_false in Emag. split; [exact Emag|].
  pose proof (pickStep_fold (fst g) (snd g) x z edge (gridNeighbors sp) [] (None, None))
    as Hfold.
  cbn [app] in Hfold.
  destruct (fold_left (pickStep (fst g) (snd g) x z edge) (gridNeighbors sp) (None, None))
    as [[d|] best]; cbn [fst snd] in H; [|discriminate].
  destruct (Rleb d 0) eqn:Ed; [discriminate|]. apply Rleb_iff_false in Ed.
  subst best.
  assert (Hstart : forall m : R * R, In m [] ->
            ~ (Rabs (x + fst m) <= edge + 0.001 /\ Rabs (z + snd m) <= edge + 0.001))
    by (intros m []).
  destruct (Hfold Hstart) as (n & Hn & Et & Edot & Hx & Hz & Hmax).
  exists n. unfold gridNeighbors in Hn, Hmax.
  split; [exact Hn|]. split; [exact Et|]. split; [exact Hx|]. split; [exact Hz|].
  split; [lra|]. intros m Hm Hmx Hmz. rewrite <- Edot. now apply Hmax.
Qed.

Lemma gradient_flat_quarter_turn (x z : R) :
  getGradientAt flatTerrain x z 90 = (0, GRAVITY * ROLLING_FACTOR).
Proof.
  unfold getGradientAt. cbv zeta.
  rewrite getTerrainNormal_flat, trueRollAccel_flat. cbn [v_x v_z fst snd].
  replace (90 * PI / 180) with (PI / 2) by lra. rewrite sin_PI2.
  f_equal; ring.
Qed.

Ltac decide_cmp :=
  repeat match goal with
  | |- context [Rltb ?a ?b] =>
      first [ rewrite (Rltb_true a b)
                by (unfold Rabs, GRAVITY, ROLLING_FACTOR; repeat destruct Rcase_abs; lra)
            | rewrite (Rltb_false a b)
                by (unfold Rabs, GRAVITY, ROLLING_FACTOR; repeat destruct Rcase_abs; lra) ]
  | |- context [Rleb ?a ?b] =>
      first [ rewrite (Rleb_true a b)
                by (unfold Rabs, GRAVITY, ROLLING_FACTOR; repeat destruct Rcase_abs; lra)
            | rewrite (Rleb_false a b)
                by (unfold Rabs, GRAVITY, ROLLING_FACTOR; repeat destruct Rcase_abs; lra) ]
  end.

Lemma grid_target_on_tilted_plane :
  pickGridTarget flatTerrain 90 0 0 1 2 = Some (0 + 0, 0 + 1).
Proof.
  unfold pickGridTarget. cbv zeta.
  rewrite gradient_flat_quarter_turn. cbn [fst snd].
  assert (Hh : hypot 0 (GRAVITY * ROLLING_FACTOR) = GRAVITY * ROLLING_FACTOR).
  { unfold hypot. replace (0 * 0 + GRAVITY * ROLLING_FACTOR * (GRAVITY * ROLLING_FACTOR))
      with (GRAVITY * ROLLING_FACTOR * (GRAVITY * ROLLING_FACTOR)) by ring.
    apply sqrt_square. unfold GRAVITY, ROLLING_FACTOR. lra. }
  rewrite Hh.
  unfold gridNeighbors, pickStep, Rgtb. cbn [fold_left fst snd]. cbv zeta.
  decide_cmp. cbn [orb fst snd]. decide_cmp. cbn [orb fst snd]. decide_cmp.
  cbn [orb fst snd]. decide_cmp. cbn [orb fst snd]. decide_cmp. reflexivity.
Qed.

Lemma grid_target_is_best_downhill_neighbour_witness :
  0.01 <= hypot (fst (getGradientAt flatTerrain 0 0 90))
                (snd (getGradientAt flatTerrain 0 0 90)).
Proof.
  exact (proj1 (grid_target_is_best_downhill_neighbour flatTerrain 90 0 0 1 2 _
                  grid_target_on_tilted_plane)).
Defined.

(** ** The good-aim zone *)

(** X29.  The numbers of the aim-info label.  The foot of the
    perpendicular lies on the aim line, the line from the start of the
    shot to the centre of the ellipse, and the segment from the hole to
    the foot is perpendicular to that line; the distance shown is the
    distance of the foot from the hole, and it is the number of balls
    times the diameter of the ball; with the aim offset it makes up the
    distance of the centre of the ellipse from the hole (Pythagoras). *)
Theorem aim_info_geometry (tr : TerrainState) (ang : R) (start : R * R)
    (ell : Ellipse) (info : AimInfo) :
  aimInfo tr ang start ell = Some info ->
  let dx := e_cx ell - fst start in
  let dz := e_cz ell - snd start in
  0.001 < hypot dx dz
  /\ (footX info - fst start) * dz = (footZ info - snd start) * dx
  /\ footX info * dx + footZ info * dz = 0
  /\ hypot (footX info) (footZ info) = distAimHole info
  /\ distAimHole info = numberOfBalls info * (2 * BALL_RADIUS_M)
  /\ distEllToFoot info * distEllToFoot info + distAimHole info * distAimHole info
     = e_cx ell * e_cx ell + e_cz ell * e_cz ell.
Proof.
  unfold aimInfo. cbv zeta. intros H.
  destruct start as [sx sz]. cbn [fst snd] in *.
  set (dx := e_cx ell - sx) in *. set (dz := e_cz ell - sz) in *.
  destruct (Rgtb (hypot dx dz) 0.001) eqn:Elen; [|discriminate].
  unfold Rgtb in Elen. apply Rltb_iff in Elen.
  pose proof (hypot_sqr dx dz) as Hsq.
  set (len := hypot dx dz) in *.
  assert (Hlen : len <> 0) by lra.
  injection H as <-. cbn [footX footZ distAimHole numberOfBalls distEllToFoot].
  set (ux := dx / len). set (uz := dz / len).
  assert (Hu : ux * ux + uz * uz = 1).
  { unfold ux, uz.
    replace (dx / len * (dx / len) + dz / len * (dz / len))
      with ((dx * dx + dz * dz) / (len * len)) by (field; exact Hlen).
    rewrite <- Hsq. field. exact Hlen. }
  assert (Hdx : dx = ux * len) by (unfold ux; field; exact Hlen).
  assert (Hdz : dz = uz * len) by (unfold uz; field; exact Hlen).
  set (t := (0 - sx) * ux + (0 - sz) * uz).
  assert (Hfoot : hypot (sx + t * ux) (sz + t * uz)
                  = Rabs (sx * e_cz ell - sz * e_cx ell) / len).
  { assert (Hcross : sx * e_cz ell - sz * e_cx ell = (sx * uz - sz * ux) * len).
    { replace (e_cz ell) with (dz + sz) by (unfold dz; ring).
      replace (e_cx ell) with (dx + sx) by (unfold dx; ring).
      rewrite Hdx at 1. rewrite Hdz at 1. ring. }
    rewrite Hcross, Rabs_mult, (Rabs_pos_eq len) by lra.
    replace (Rabs (sx * uz - sz * ux) * len / len) with (Rabs (sx * uz - sz * ux))
      by (field; exact Hlen).
    unfold hypot.
    replace ((sx + t * ux) * (sx + t * ux) + (sz + t * uz) * (sz + t * uz))
      with (sx * sx + sz * sz
            - 2 * ((sx * ux + sz * uz) * (sx * ux + sz * uz))
            + (sx * ux + sz * uz) * (sx * ux + sz * uz) * (ux * ux + uz * uz))
      by (unfold t; ring).
    rewrite Hu.
    replace (sx * sx + sz * sz - 2 * ((sx * ux + sz * uz) * (sx * ux + sz * uz))
             + (sx * ux + sz * uz) * (sx * ux + sz * uz) * 1)
      with (Rsqr (sx * uz - sz * ux) + (sx * sx + sz * sz) * (1 - (ux * ux + uz * uz)))
      by (unfold Rsqr; ring).
    rewrite Hu. replace (Rsqr (sx * uz - sz * ux) + (sx * sx + sz * sz) * (1 - 1))
      with (Rsqr (sx * uz - sz * ux)) by ring.
    apply sqrt_Rsqr_abs. }
  split; [exact Elen|].
  split; [rewrite Hdx, Hdz; ring|].
  split.
  { rewrite Hdx, Hdz. unfold t.
    replace ((sx + ((0 - sx) * ux + (0 - sz) * uz) * ux) * (ux * len)
             + (sz + ((0 - sx) * ux + (0 - sz) * uz) * uz) * (uz * len))
      with (len * (sx * ux + sz * uz) * (1 - (ux * ux + uz * uz))) by ring.
    rewrite Hu. ring. }
  split; [exact Hfoot|].
  split; [unfold BALL_RADIUS_M; field; lra|].
  rewrite <- Hfoot. rewrite !hypot_sqr.
  replace (e_cx ell) with (dx + sx) by (unfold dx; ring).
  replace (e_cz ell) with (dz + sz) by (unfold dz; ring).
  rewrite Hdx, Hdz. unfold t.
  set (k := sx * ux + sz * uz).
  replace ((0 - sx) * ux + (0 - sz) * uz) with (- k) by (unfold k; ring).
  replace ((ux * len + sx - (sx + - k * ux)) * (ux * len + sx - (sx + - k * ux))
           + (uz * len + sz - (sz + - k * uz)) * (uz * len + sz - (sz + - k * uz))
           + ((sx + - k * ux) * (sx + - k * ux) + (sz + - k * uz) * (sz + - k * uz)))
    with ((len + k) * (len + k) * (ux * ux + uz * uz)
          + sx * sx + sz * sz - 2 * k * k + k * k * (ux * ux + uz * uz))
    by (unfold k; ring).
  replace ((ux * len + sx) * (ux * len + sx) + (uz * len + sz) * (uz * len + sz))
    with (len * len * (ux * ux + uz * uz) + 2 * len * k + sx * sx + sz * sz)
    by (unfold k; ring).
  rewrite Hu. ring.
Qed.

Lemma unit_ellipse_offset : Rgtb (hypot (1 - 0) (1 - 1)) 0.001 = true.
Proof.
  replace (1 - 0) with 1 by lra. replace (1 - 1) with 0 by lra.
  rewrite hypot_x_0, Rabs_R1. apply Rltb_true. lra.
Qed.

Lemma aim_info_geometry_witness :
  0.001 < hypot (1 - 0) (1 - 1).
Proof.
  refine (proj1 (aim_info_geometry flatTerrain 0 (0, 1) (mkEllipse 1 1 1 1 1 0 0 1) _ _)).
  unfold aimInfo. cbv zeta. cbn [fst snd e_cx e_cz].
  rewrite unit_ellipse_offset. reflexivity.
Defined.

Lemma map_nth_seq (l : list Point) (d : Point) :
  map (fun i => nth i l d) (seq 0 (length l)) = l.
Proof.
  induction l as [|x l IH] using rev_ind; [reflexivity|].
  rewrite length_app. cbn [length]. rewrite Nat.add_1_r, seq_S, map_app.
  cbn [map Nat.add]. rewrite nth_middle. f_equal.
  rewrite <- IH at 2. apply map_ext_in. intros i Hi. apply in_seq in Hi.
  apply app_nth1. lia.
Qed.

Lemma closed_outline (hull : list Point) :
  hull <> [] ->
  map (fun i => nth (i mod length hull) hull (mkPoint 0 0)) (seq 0 (S (length hull)))
  = hull ++ firstn 1 hull.
Proof.
  intros Hne. rewrite seq_S, map_app. cbn [map Nat.add].
  rewrite Nat.Div0.mod_same. f_equal.
  - transitivity (map (fun i => nth i hull (mkPoint 0 0)) (seq 0 (length hull)));
      [|apply map_nth_seq].
    apply map_ext_in. intros i Hi. apply in_seq in Hi.
    rewrite Nat.mod_small by lia. reflexivity.
  - destruct hull; [contradiction | reflexivity].
Qed.

Lemma ellipse_axes_orthonormal (hull : list Point) :
  let e := boundingEllipse hull in
  e_ex e * e_ex e + e_ez e * e_ez e = 1 /\ e_fx e = - e_ez e /\ e_fz e = e_ex e.
Proof.
  unfold boundingEllipse. cbv zeta.
  match goal with
  | |- context [fold_left ?f hull (0, 0, 0)] =>
      destruct (fold_left f hull (0, 0, 0)) as [[cxx cxz] czz]
  end.
  set (n := INR (length hull)).
  set (lam1 := (cxx / n + czz / n) / 2 + _).
  pose proof (ellipse_axis_nonzero (cxx / n) (cxz / n) (czz / n) lam1) as Hax.
  destruct (if Rgtb (Rabs (cxz / n)) 1e-12 then _ else _) as [ex0 ez0].
  pose proof (unit_axis ex0 ez0 (hypot_pos ex0 ez0 Hax)) as Hunit.
  cbn [e_ex e_ez e_fx e_fz]. split; [exact Hunit|]. split; reflexivity.
Qed.

Lemma on_ellipse (ell : Ellipse) (i : nat) :
  e_ex ell * e_ex ell + e_ez ell * e_ez ell = 1 ->
  e_fx ell = - e_ez ell -> e_fz ell = e_ex ell ->
  e_a ell <> 0 -> e_b ell <> 0 ->
  let q := ellipsePoint ell i in
  let u := (fst q - e_cx ell) * e_ex ell + (snd q - e_cz ell) * e_ez ell in
  let v := (fst q - e_cx ell) * e_fx ell + (snd q - e_cz ell) * e_fz ell in
  u / e_a ell * (u / e_a ell) + v / e_b ell * (v / e_b ell) = 1.
Proof.
  intros Hu Hfx Hfz Ha Hb. unfold ellipsePoint. cbv zeta. cbn [fst snd].
  set (ang := INR i / INR ELLIPSE_SEGMENTS * PI * 2).
  rewrite Hfx, Hfz.
  set (ex := e_ex ell) in *. set (ez := e_ez ell) in *.
  set (a := e_a ell) in *. set (b := e_b ell) in *.
  replace ((e_cx ell + cos ang * a * ex + sin ang * b * - ez - e_cx ell) * ex
           + (e_cz ell + cos ang * a * ez + sin ang * b * ex - e_cz ell) * ez)
    with (cos ang * a * (ex * ex + ez * ez)) by ring.
  replace ((e_cx ell + cos ang * a * ex + sin ang * b * - ez - e_cx ell) * - ez
           + (e_cz ell + cos ang * a * ez + sin ang * b * ex - e_cz ell) * ex)
    with (sin ang * b * (ex * ex + ez * ez)) by ring.
  rewrite Hu, !Rmult_1_r.
  replace (cos ang * a / a * (cos ang * a / a) + sin ang * b / b * (sin ang * b / b))
    with (Rsqr (sin ang) + Rsqr (cos ang)) by (unfold Rsqr; field; split; assumption).
  apply sin2_cos2.
Qed.

(** X30.  The good-aim zone is computed only for at least four valid
    aim points whose hull, as [convexHull] returns it, has at least three
    vertices.  The zone then holds that hull, its outline closed by a
    return to the first vertex and, when the ellipse is computed, which
    is when both semi-axes exceed 0.005, 65 points of which each
    satisfies the equation of the ellipse with the centre, the axes and
    the semi-axes that [boundingEllipse] gives for the hull. *)
Theorem aim_zone_is_closed_hull_and_ellipse (tr : TerrainState) (ang : R)
    (pts : list Point) (start : option (R * R)) (zn : AimZone) :
  rebuildGoodAimZone tr ang pts start = Some zn ->
  let hull := convexHull pts in
  let ell := boundingEllipse hull in
  (4 <= length pts)%nat /\ (3 <= length hull)%nat
  /\ zoneHull zn = hull
  /\ zoneOutline zn = hull ++ firstn 1 hull
  /\ forall qs, zoneEllipse zn = Some qs ->
       0.005 < e_a ell /\ 0.005 < e_b ell
       /\ length qs = 65%nat
       /\ forall q, In q qs ->
            let u := (fst q - e_cx ell) * e_ex ell + (snd q - e_cz ell) * e_ez ell in
            let v := (fst q - e_cx ell) * e_fx ell + (snd q - e_cz ell) * e_fz ell in
            u / e_a ell * (u / e_a ell) + v / e_b ell * (v / e_b ell) = 1.
Proof.
  unfold rebuildGoodAimZone. cbv zeta. intros H.
  destruct (length pts <? 4)%nat eqn:E4; [discriminate|]. apply Nat.ltb_ge in E4.
  set (hull := convexHull pts) in *.
  destruct (length hull <? 3)%nat eqn:E3; [discriminate|]. apply Nat.ltb_ge in E3.
  set (ell := boundingEllipse hull) in *.
  injection H as <-. cbn [zoneHull zoneOutline zoneEllipse].
  split; [exact E4|]. split; [exact E3|].
  split; [reflexivity|].
  split; [apply closed_outline; intros E; rewrite E in E3; cbn in E3; lia|].
  intros qs Hqs.
  destruct (Rgtb (e_a ell) 0.005 && Rgtb (e_b ell) 0.005) eqn:Ebig; [|discriminate].
  assert (Eqs : map (ellipsePoint ell) (seq 0 (S ELLIPSE_SEGMENTS)) = qs)
    by (injection Hqs as Hqs'; exact Hqs').
  clear Hqs. subst qs.
  apply andb_true_iff in Ebig. unfold Rgtb in Ebig. destruct Ebig as [Ea Eb].
  apply Rltb_iff in Ea. apply Rltb_iff in Eb.
  split; [exact Ea|]. split; [exact Eb|].
  split; [rewrite length_map, length_seq; reflexivity|].
  intros q Hq. apply in_map_iff in Hq. destruct Hq as (i & <- & _).
  destruct (ellipse_axes_orthonormal hull) as (Hu & Hfx & Hfz). fold ell in Hu, Hfx, Hfz.
  apply on_ellipse; try assumption; lra.
Qed.

Ltac decide_order :=
  repeat match goal with
  | |- context [Rleb ?a ?b] =>
      first [ rewrite (Rleb_true a b)
                by (unfold comparePoints, cross; cbn [p_x p_z];
                    repeat (destruct (Req_dec_T _ _) as [? | Hne];
                            try (exfalso; apply Hne; lra)); lra)
            | rewrite (Rleb_false a b)
                by (unfold comparePoints, cross; cbn [p_x p_z];
                    repeat (destruct (Req_dec_T _ _) as [? | Hne];
                            try (exfalso; apply Hne; lra)); lra) ];
      cbn [insertPoint popWhile fold_left]
  end.

Lemma hull_of_unit_square :
  convexHull [mkPoint 0 0; mkPoint 1 0; mkPoint 1 1; mkPoint 0 1]
  = [mkPoint 0 0; mkPoint 1 0; mkPoint 1 1; mkPoint 0 1].
Proof.
  unfold convexHull, sortPoints. cbn [fold_right insertPoint]. decide_order.
  cbv zeta. cbn [length Nat.leb rev app]. unfold buildChain, pushPoint.
  cbn [fold_left popWhile]. decide_order. reflexivity.
Qed.

Lemma aim_zone_is_closed_hull_and_ellipse_witness :
  (3 <= length (convexHull [mkPoint 0 0; mkPoint 1 0; mkPoint 1 1; mkPoint 0 1]))%nat.
Proof.
  refine (proj1 (proj2 (aim_zone_is_closed_hull_and_ellipse flatTerrain 0
                   [mkPoint 0 0; mkPoint 1 0; mkPoint 1 1; mkPoint 0 1] None _ _))).
  unfold rebuildGoodAimZone. cbv zeta. rewrite hull_of_unit_square. reflexivity.
Defined.
